(** * ant-capsulizer: a shallow embedding of the harvesting pipeline

    The development follows the JavaScript sources:
    - [src/inferencer/index.js]  (type detection, price gate, field
      extraction, [mergeCapsules], [inferCapsule]),
    - [src/extractor/jsonld.js]  ([flattenJsonLd], [extractJsonLd]),
    - [src/normalize.js]         ([fp]),
    - [src/worker.js]            (URL normalisation, frontier loop,
      deterministic fingerprint view, tiny-price guardrail, validation
      gate, job handler with run manifest).

    Conventions of the model.
    - A JavaScript string is the list of its UTF-16 code units.
    - A JSON value is a tree; an object is the list of its own enumerable
      properties in enumeration order (keys pairwise distinct).  Property
      keys are plain data keys: prototype lookups and the [__proto__]
      accessor are outside the model.
    - A finite number is identified with its serialisation: JSON
      round-trips preserve exactly that.
    - Host primitives whose definition is not part of the repository
      (number conversion, locale collation, SHA-256, the JSON parser, the
      browser, the database) are parameters of the definitions that use
      them; every theorem holds for all their implementations, or states
      the property of the primitive it relies on as a hypothesis.  Where
      a result is evaluated, the digest is SHA-256 itself ([fastSha256])
      and the collation is the code-unit order made to honour one
      canonical equivalence ([example_localeCompare]). *)

From Stdlib Require Import String Ascii.
From Stdlib Require Import List NArith ZArith QArith Qminmax Bool Arith Lia.
From Stdlib Require Import Permutation Sorted.
Import ListNotations.

Local Close Scope Q_scope.
Local Open Scope list_scope.


(* ===================================================================== *)
(** * Part I. Definitions                                                 *)
(* ===================================================================== *)

(* --------------------------------------------------------------------- *)
(** ** JavaScript strings                                                 *)
(* --------------------------------------------------------------------- *)

(** A UTF-16 code unit. *)
Definition char := N.

(** A JavaScript string. *)
Definition jsstring := list char.

(** ASCII literals of the sources, as code units. *)
Definition js (s : string) : jsstring :=
  map N_of_ascii (list_ascii_of_string s).

Fixpoint str_eqb (a b : jsstring) : bool :=
  match a, b with
  | [], [] => true
  | x :: a', y :: b' => N.eqb x y && str_eqb a' b'
  | _, _ => false
  end.

(** [a < b] on strings as the default [Array.prototype.sort] and the
    relational operators see it: code unit by code unit. *)
Fixpoint str_ltb (a b : jsstring) : bool :=
  match a, b with
  | [], [] => false
  | [], _ :: _ => true
  | _ :: _, [] => false
  | x :: a', y :: b' =>
      if N.ltb x y then true
      else if N.eqb x y then str_ltb a' b' else false
  end.

Definition str_leb (a b : jsstring) : bool := negb (str_ltb b a).

(** WhiteSpace and LineTerminator code units: what [trim] strips and what
    [\s] matches. *)
Definition is_white_space (c : char) : bool :=
  existsb (N.eqb c)
    [9; 10; 11; 12; 13; 32; 160; 5760; 8232; 8233; 8239; 8287; 12288; 65279]%N
  || ((8192 <=? c) && (c <=? 8202))%N.

(** [!s.trim()] *)
Definition blank (s : jsstring) : bool := forallb is_white_space s.

Definition is_digit (c : char) : bool := ((48 <=? c) && (c <=? 57))%N.

Definition is_upper (c : char) : bool := ((65 <=? c) && (c <=? 90))%N.
Definition is_lower (c : char) : bool := ((97 <=? c) && (c <=? 122))%N.

(** [\w] without the unicode flag. *)
Definition is_word (c : char) : bool :=
  is_digit c || is_upper c || is_lower c || N.eqb c 95.

Fixpoint starts_with (p s : jsstring) : bool :=
  match p, s with
  | [], _ => true
  | x :: p', y :: s' => N.eqb x y && starts_with p' s'
  | _ :: _, [] => false
  end.

(** [s.includes(p)] *)
Fixpoint includes (s p : jsstring) : bool :=
  starts_with p s ||
  match s with
  | [] => false
  | _ :: s' => includes s' p
  end.

(* --------------------------------------------------------------------- *)
(** ** JSON values and objects                                            *)
(* --------------------------------------------------------------------- *)

Unset Elimination Schemes.
Inductive json : Type :=
| JNull
| JBool (b : bool)
| JNum (lit : jsstring)
| JStr (s : jsstring)
| JArr (xs : list json)
| JObj (ms : list (jsstring * json)).
Set Elimination Schemes.

(** The own properties of an object, in enumeration order. *)
Definition members := list (jsstring * json).

Definition keys (ms : members) : list jsstring := map fst ms.

(** [o[k]] on own properties; [None] is [undefined]. *)
Fixpoint get (ms : members) (k : jsstring) : option json :=
  match ms with
  | [] => None
  | (k', v) :: r => if str_eqb k k' then Some v else get r k
  end.

(** [Object.prototype.hasOwnProperty.call(o, k)] *)
Definition has (ms : members) (k : jsstring) : bool :=
  match get ms k with Some _ => true | None => false end.

(** [delete o[k]] *)
Definition delete (ms : members) (k : jsstring) : members :=
  filter (fun kv => negb (str_eqb k (fst kv))) ms.

(** The value of a canonical numeric string: digits only. *)
Fixpoint digits_value (acc : N) (s : jsstring) : option N :=
  match s with
  | [] => Some acc
  | c :: s' =>
      if is_digit c then digits_value (acc * 10 + (c - 48))%N s' else None
  end.

(** An array index is a canonical numeric string below 2^32 - 1; such keys
    are enumerated first, in ascending numeric order. *)
Definition array_index (k : jsstring) : option N :=
  match k with
  | [] => None
  | c :: r =>
      if N.eqb c 48 && negb (match r with [] => true | _ => false end)
      then None
      else match digits_value 0 k with
           | Some n => if (n <? 4294967295)%N then Some n else None
           | None => None
           end
  end.

Fixpoint replace_prop (ms : members) (k : jsstring) (v : json) : members :=
  match ms with
  | [] => []
  | (k', v') :: r =>
      if str_eqb k k' then (k', v) :: r else (k', v') :: replace_prop r k v
  end.

Fixpoint insert_index (i : N) (k : jsstring) (v : json) (ms : members)
  : members :=
  match ms with
  | [] => [(k, v)]
  | (k', v') :: r =>
      match array_index k' with
      | Some j =>
          if (j <? i)%N then (k', v') :: insert_index i k v r
          else (k, v) :: ms
      | None => (k, v) :: ms
      end
  end.

(** [CreateDataProperty(o, k, v)], what an object spread and [JSON.parse]
    do for each member: an existing property keeps its place, a new array
    index goes among the indices, any other new key goes last. *)
Definition define_prop (ms : members) (k : jsstring) (v : json) : members :=
  if has ms k then replace_prop ms k v
  else match array_index k with
       | Some i => insert_index i k v ms
       | None => ms ++ [(k, v)]
       end.

Definition k_proto : jsstring := js "__proto__".

(** [o[k] = v] on an object whose prototype is [Object.prototype]; the
    members are the own properties.  The key [__proto__], when the object
    has no own property of that name, reaches the accessor inherited from
    [Object.prototype]: the assignment may change the prototype and
    creates no property.  Every other assignment defines the property. *)
Definition set_prop (ms : members) (k : jsstring) (v : json) : members :=
  if str_eqb k k_proto && negb (has ms k) then ms
  else define_prop ms k v.

(** The keys an assignment can create: all but [__proto__]. *)
Definition assignable (k : jsstring) : bool := negb (str_eqb k k_proto).

(** Truthiness of a JSON value: [a || b], [if (a)], [!a]. *)
Definition truthy (v : json) : bool :=
  match v with
  | JNull => false
  | JBool b => b
  | JNum lit => negb (str_eqb lit (js "0"))
  | JStr s => match s with [] => false | _ => true end
  | JArr _ | JObj _ => true
  end.

(** [a || b] where [a] may be [undefined]. *)
Definition or_else (a : option json) (b : option json) : option json :=
  match a with
  | Some v => if truthy v then a else b
  | None => b
  end.

(** [n.toString()] for a small index. *)
Fixpoint index_keys (n : nat) (start : N) : list N :=
  match n with
  | O => []
  | S n' => start :: index_keys n' (start + 1)%N
  end.

Fixpoint decimal_digits (fuel : nat) (n : N) (acc : jsstring) : jsstring :=
  match fuel with
  | O => acc
  | S f =>
      let acc' := (48 + n mod 10)%N :: acc in
      if (n <? 10)%N then acc' else decimal_digits f (n / 10)%N acc'
  end.

Definition index_string (n : N) : jsstring :=
  decimal_digits (S (N.to_nat (N.log2 n))) n [].

(** The own enumerable properties a spread [{...x}] or [Object.keys(x)]
    sees: those of an object, the indices of an array or of a string. *)
Definition own_props (v : json) : members :=
  match v with
  | JObj ms => ms
  | JArr xs =>
      combine (map index_string (index_keys (length xs) 0%N)) xs
  | JStr s =>
      combine (map index_string (index_keys (length s) 0%N))
              (map (fun c => JStr [c]) s)
  | _ => []
  end.

(** [{ ...a, ...b }] *)
Definition spread2 (a b : json) : members :=
  fold_left (fun acc kv => define_prop acc (fst kv) (snd kv))
            (own_props a ++ own_props b) [].

(** [x && typeof x === "object" && !Array.isArray(x) ? x : {}] *)
Definition asObject (x : option json) : members :=
  match x with
  | Some (JObj ms) => ms
  | _ => []
  end.

(* --------------------------------------------------------------------- *)
(** ** Numbers                                                            *)
(* --------------------------------------------------------------------- *)

(** What [Number(x)] evaluates to: a finite double is a rational. *)
Inductive jsnum : Type :=
| NaN
| Infinite (negative : bool)
| Finite (q : Q).

(** [Number.isFinite(n)] *)
Definition isFinite (n : jsnum) : bool :=
  match n with Finite _ => true | _ => false end.

Definition Qltb (a b : Q) : bool := negb (Qle_bool b a).

(** [n > 0 && n < 5] *)
Definition tiny (n : jsnum) : bool :=
  match n with
  | Finite q => Qltb (0 # 1) q && Qltb q (5 # 1)
  | _ => false
  end.

(* --------------------------------------------------------------------- *)
(** ** Tiny-price guardrail  (worker.js, [guardTinyPrice])                *)
(* --------------------------------------------------------------------- *)

Definition k_price : jsstring := js "agentnet:price".
Definition k_priceCurrency : jsstring := js "agentnet:priceCurrency".

Section GuardTinyPrice.

(** [Number(p)] on the value found under the price key. *)
Variable Number : json -> jsnum.
(** The JSON value of a finite number, for [observed: n]. *)
Variable number_json : Q -> json.

(** The record the guardrail leaves in the report. *)
Definition priceGuardrail_entry (q : Q) : json :=
  JObj [ (js "dropped", JBool true);
         (js "reason", JStr (js "tiny_price"));
         (js "threshold", JNum (js "5"));
         (js "observed", number_json q) ].

(** [guardTinyPrice(content, report)] mutates both arguments; the model
    returns them.  [content] may be any value ([content?.[...]]). *)
Definition guardTinyPrice (content : json) (report : members)
  : json * members :=
  match content with
  | JObj cm =>
      match get cm k_price with
      | None | Some JNull => (content, report)
      | Some p =>
          match Number p with
          | Finite q =>
              if tiny (Finite q)
              then (JObj (delete cm k_price),
                    set_prop report (js "priceGuardrail")
                             (priceGuardrail_entry q))
              else (content, report)
          | _ => (content, report)
          end
      end
  | _ => (content, report)
  end.

End GuardTinyPrice.

(** The price the guardrail looks at: the own property of an object
    content, [None] when it is missing or [null] ([p == null]). *)
Definition resolved_price (content : json) : option json :=
  match content with
  | JObj cm =>
      match get cm k_price with
      | Some JNull => None
      | x => x
      end
  | _ => None
  end.

(* --------------------------------------------------------------------- *)
(** ** Merge policy  (inferencer/index.js, [mergeCapsules])               *)
(* --------------------------------------------------------------------- *)

Definition DEFAULT_CONTEXT : json := JStr (js "https://agentnet.ai/context").
Definition k_context : jsstring := js "@context".
Definition k_type : jsstring := js "@type".
Definition k_inferred : jsstring := js "agentnet:inferred".

(** The keys the merge loop skips. *)
Definition reserved_key (k : jsstring) : bool :=
  str_eqb k k_context || str_eqb k k_type || str_eqb k k_inferred.

(** [typeof orig[k] === "undefined" ||
     (typeof orig[k] === "string" && !orig[k].trim())] *)
Definition isEmptyExplicit (x : option json) : bool :=
  match x with
  | None => true
  | Some (JStr s) => blank s
  | Some _ => false
  end.

(** One turn of [for (const [k, v] of Object.entries(inf))]. *)
Definition merge_entry (orig : members) (overwriteExplicit : bool)
           (out : members) (kv : jsstring * json) : members :=
  let (k, v) := kv in
  if reserved_key k then out
  else if negb (has orig k) || isEmptyExplicit (get orig k)
          || overwriteExplicit
       then set_prop out k v
       else out.

Definition some_or (d : json) (x : option json) : json :=
  match x with Some v => v | None => d end.

Definition mergeCapsules (original inferred : option json)
           (overwriteExplicit : bool) : members :=
  let orig := asObject original in
  let inf := asObject inferred in
  let out := orig in
  let prov := some_or (JObj []) (or_else (get out k_inferred) (Some (JObj []))) in
  let out :=
    set_prop out k_context
      (some_or DEFAULT_CONTEXT
         (or_else (get out k_context)
            (or_else (get inf k_context) (Some DEFAULT_CONTEXT)))) in
  let out :=
    set_prop out k_type
      (some_or (JStr (js "agentnet:Thing"))
         (or_else (get out k_type)
            (or_else (get inf k_type) (Some (JStr (js "agentnet:Thing")))))) in
  let out := fold_left (merge_entry orig overwriteExplicit) inf out in
  match get inf k_inferred with
  | Some ip =>
      if truthy ip then set_prop out k_inferred (JObj (spread2 prov ip))
      else if negb (match own_props prov with [] => true | _ => false end)
           then set_prop out k_inferred prov
           else out
  | None =>
      if negb (match own_props prov with [] => true | _ => false end)
      then set_prop out k_inferred prov
      else out
  end.

(** The values the merge keeps: an own property of the asserted object
    whose value is anything but a string that trims to nothing.  [null],
    [[]] and [{}] are among them. *)
Definition explicit_nonempty (orig : members) (k : jsstring) : bool :=
  match get orig k with
  | Some (JStr s) => negb (blank s)
  | Some _ => true
  | None => false
  end.

(* --------------------------------------------------------------------- *)
(** ** Sorting  ([Array.prototype.sort])                                  *)
(* --------------------------------------------------------------------- *)

(** [Array.prototype.sort] is stable; with a consistent comparator its
    result is the stable sorted arrangement, which insertion from the right
    computes. *)
Section Sort.

Variable A : Type.
Variable cmp : A -> A -> comparison.

Fixpoint insert_sorted (x : A) (l : list A) : list A :=
  match l with
  | [] => [x]
  | y :: t =>
      match cmp x y with
      | Gt => y :: insert_sorted x t
      | _ => x :: l
      end
  end.

Fixpoint sort_by (l : list A) : list A :=
  match l with
  | [] => []
  | x :: t => insert_sorted x (sort_by t)
  end.

(** [a] does not come after [b]. *)
Definition not_after (a b : A) : Prop := cmp a b <> Gt.

End Sort.

Arguments insert_sorted {A} cmp x l.
Arguments sort_by {A} cmp l.
Arguments not_after {A} cmp a b.

(** The default comparison of [sort()] on strings: by code units. *)
Fixpoint str_compare (a b : jsstring) : comparison :=
  match a, b with
  | [], [] => Eq
  | [], _ :: _ => Lt
  | _ :: _, [] => Gt
  | x :: a', y :: b' =>
      match N.compare x y with
      | Eq => str_compare a' b'
      | c => c
      end
  end.

(* --------------------------------------------------------------------- *)
(** ** [JSON.stringify]                                                   *)
(* --------------------------------------------------------------------- *)

Definition hex_digit (n : N) : char :=
  if (n <? 10)%N then (48 + n)%N else (87 + n)%N.

(** [\uXXXX] with lowercase hexadecimal digits. *)
Definition unicode_escape (c : char) : jsstring :=
  [92; 117;
   hex_digit ((c / 4096) mod 16); hex_digit ((c / 256) mod 16);
   hex_digit ((c / 16) mod 16); hex_digit (c mod 16)]%N.

Definition is_high_surrogate (c : char) : bool :=
  ((55296 <=? c) && (c <=? 56319))%N.
Definition is_low_surrogate (c : char) : bool :=
  ((56320 <=? c) && (c <=? 57343))%N.

(** The escape of one code unit that is not a surrogate. *)
Definition escape_char (c : char) : jsstring :=
  (if c =? 8 then [92; 98]
   else if c =? 9 then [92; 116]
   else if c =? 10 then [92; 110]
   else if c =? 12 then [92; 102]
   else if c =? 13 then [92; 114]
   else if c =? 34 then [92; 34]
   else if c =? 92 then [92; 92]
   else if c <? 32 then unicode_escape c
   else [c])%N.

(** QuoteJSONString without the enclosing quotes: a surrogate pair is
    copied, a lone surrogate is escaped. *)
Fixpoint quote_body (s : jsstring) : jsstring :=
  match s with
  | [] => []
  | c :: t =>
      if is_high_surrogate c then
        match t with
        | d :: t' =>
            if is_low_surrogate d then c :: d :: quote_body t'
            else unicode_escape c ++ quote_body t
        | [] => unicode_escape c
        end
      else if is_low_surrogate c then unicode_escape c ++ quote_body t
      else escape_char c ++ quote_body t
  end.

Definition quote (s : jsstring) : jsstring := 34%N :: quote_body s ++ [34%N].

(** Elements joined by commas. *)
Fixpoint join_comma (parts : list jsstring) : jsstring :=
  match parts with
  | [] => []
  | [p] => p
  | p :: rest => p ++ 44%N :: join_comma rest
  end.

(** [JSON.stringify(v)] without indentation. *)
Fixpoint stringify (v : json) : jsstring :=
  match v with
  | JNull => js "null"
  | JBool true => js "true"
  | JBool false => js "false"
  | JNum lit => lit
  | JStr s => quote s
  | JArr xs => 91%N :: join_comma (map stringify xs) ++ [93%N]
  | JObj ms =>
      123%N ::
      join_comma (map (fun kv => quote (fst kv) ++ 58%N :: stringify (snd kv)) ms)
      ++ [125%N]
  end.

(* --------------------------------------------------------------------- *)
(** ** Canonical form and fingerprint  (worker.js, normalize.js)          *)
(* --------------------------------------------------------------------- *)

Section Fingerprint.

(** [a.localeCompare(b)]: the collation of the host. *)
Variable localeCompare : jsstring -> jsstring -> comparison.

(** The lowercase hexadecimal SHA-256 digest of the UTF-8 encoding of a
    string: [Buffer.from(fastSha256(new TextEncoder().encode(s)))
    .toString('hex')]. *)
Variable sha256_hex : jsstring -> jsstring.

(** [(a, b) => JSON.stringify(a).localeCompare(JSON.stringify(b))] *)
Definition by_serialization (a b : json) : comparison :=
  localeCompare (stringify a) (stringify b).

(** [Object.keys(value).sort().reduce((acc, k) => { acc[k] = ...; return
    acc; }, {})] over members whose values are already canonical. *)
Definition rebuild_sorted (ms : members) : members :=
  fold_left
    (fun acc k =>
       match get ms k with
       | Some v => set_prop acc k v
       | None => acc
       end)
    (sort_by str_compare (keys ms)) [].

(** [stableSortJsonLd]: the members of an object are canonicalised first
    and then read back key by key in sorted order, which is what
    [acc[k] = stableSortJsonLd(value[k])] yields. *)
Fixpoint stableSortJsonLd (value : json) : json :=
  match value with
  | JArr xs => JArr (sort_by by_serialization (map stableSortJsonLd xs))
  | JObj ms =>
      JObj (rebuild_sorted
              (map (fun kv => (fst kv, stableSortJsonLd (snd kv))) ms))
  | _ => value
  end.

Definition k_captureDate : jsstring := js "agentnet:captureDate".
Definition k_cgRunId : jsstring := js "agentnet:cgRunId".
Definition k_cgManifestPath : jsstring := js "agentnet:cgManifestPath".
Definition k_asserted : jsstring := js "agentnet:asserted".
Definition k_content : jsstring := js "agentnet:content".
Definition k_report : jsstring := js "agentnet:report".
Definition k_json : jsstring := js "json".
Definition k_provenance : jsstring := js "provenance".
Definition k_capturedAt : jsstring := js "capturedAt".

(** [delete prov.capturedAt] inside [e["agentnet:asserted"]], when the
    provenance is an object.  (On an array the [delete] changes nothing.) *)
Definition strip_provenance_time (e : members) : members :=
  match get e k_asserted with
  | Some (JObj am) =>
      match get am k_provenance with
      | Some (JObj pm) =>
          set_prop e k_asserted
            (JObj (set_prop am k_provenance (JObj (delete pm k_capturedAt))))
      | _ => e
      end
  | _ => e
  end.

(** The canonicalisation of [e["agentnet:asserted"].json]. *)
Definition canonical_asserted (e : members) : members :=
  match get e k_asserted with
  | Some (JObj am) =>
      match get am k_json with
      | Some (JArr blocks) =>
          let keyed := map stableSortJsonLd blocks in
          set_prop e k_asserted
            (JObj (set_prop am k_json
                     (JArr (sort_by by_serialization keyed))))
      | Some (JObj jm) =>
          set_prop e k_asserted
            (JObj (set_prop am k_json (stableSortJsonLd (JObj jm))))
      | _ => e
      end
  | _ => e
  end.

(** The canonicalisation of [e["agentnet:content"]]. *)
Definition canonical_content (e : members) : members :=
  match get e k_content with
  | Some (JObj cm) => set_prop e k_content (stableSortJsonLd (JObj cm))
  | Some (JArr xs) => set_prop e k_content (stableSortJsonLd (JArr xs))
  | _ => e
  end.

(** [stableFingerprintView(envelope)] on an envelope object.  The deep
    copy [JSON.parse(JSON.stringify(envelope))] is the identity on JSON
    trees. *)
Definition stableFingerprintView (envelope : members) : members :=
  let e := envelope in
  let e := delete e k_captureDate in
  let e := delete e k_cgRunId in
  let e := delete e k_cgManifestPath in
  let e := strip_provenance_time e in
  let e := canonical_asserted e in
  canonical_content e.

(** [fp(obj)] *)
Definition fp (obj : json) : jsstring :=
  js "sha256:" ++ sha256_hex (stringify obj).

(** [fp(CG_DETERMINISTIC ? stableFingerprintView(envelope) : envelope)] *)
Definition fingerprint (CG_DETERMINISTIC : bool) (envelope : members)
  : jsstring :=
  fp (JObj (if CG_DETERMINISTIC then stableFingerprintView envelope
            else envelope)).

End Fingerprint.

(* --------------------------------------------------------------------- *)
(** ** The digest  ([TextEncoder], [fastSha256], [toString('hex')])       *)
(* --------------------------------------------------------------------- *)

(** The code points of a string of code units; a lone surrogate reads as
    U+FFFD, as [TextEncoder] does. *)
Fixpoint code_points (s : jsstring) : list N :=
  match s with
  | [] => []
  | c :: t =>
      if is_high_surrogate c then
        match t with
        | d :: t' =>
            if is_low_surrogate d
            then (65536 + (c - 55296) * 1024 + (d - 56320))%N :: code_points t'
            else 65533%N :: code_points t
        | [] => [65533%N]
        end
      else if is_low_surrogate c then 65533%N :: code_points t
      else c :: code_points t
  end.

Definition utf8 (cp : N) : list N :=
  (if cp <? 128 then [cp]
   else if cp <? 2048 then [192 + cp / 64; 128 + cp mod 64]
   else if cp <? 65536 then
     [224 + cp / 4096; 128 + (cp / 64) mod 64; 128 + cp mod 64]
   else [240 + cp / 262144; 128 + (cp / 4096) mod 64;
         128 + (cp / 64) mod 64; 128 + cp mod 64])%N.

(** [new TextEncoder().encode(s)] *)
Definition TextEncoder_encode (s : jsstring) : list N :=
  flat_map utf8 (code_points s).

Definition word32 (x : N) : N := (x mod 4294967296)%N.

Definition rotr (n x : N) : N :=
  word32 (N.lor (N.shiftr x n) (N.shiftl x (32 - n))).

(** The primes below 312: there are sixty-four of them. *)
Definition is_prime (n : N) : bool :=
  forallb (fun d => negb (n mod N.of_nat d =? 0)%N)
          (seq 2 (N.to_nat n - 2)).

Definition first_primes : list N :=
  filter is_prime (map N.of_nat (seq 2 310)).

(** The integer cube root of a number below [2^120]. *)
Definition cube_root (x : N) : N :=
  fold_left
    (fun r i =>
       let r' := (r + N.shiftl 1 (N.of_nat i))%N in
       if (r' * r' * r' <=? x)%N then r' else r)
    (rev (seq 0 40)) 0%N.

(** The round constants: the first thirty-two bits of the fractional
    parts of the cube roots of the primes. *)
Definition sha_K : list N :=
  Eval vm_compute in
  map (fun p => word32 (cube_root (p * N.shiftl 1 96))) first_primes.

(** The initial state: the same of the square roots of the first eight
    primes. *)
Definition sha_H0 : list N :=
  Eval vm_compute in
  map (fun p => word32 (N.sqrt (p * N.shiftl 1 64))) (firstn 8 first_primes).

Definition small_sigma0 (x : N) : N :=
  N.lxor (N.lxor (rotr 7 x) (rotr 18 x)) (N.shiftr x 3).
Definition small_sigma1 (x : N) : N :=
  N.lxor (N.lxor (rotr 17 x) (rotr 19 x)) (N.shiftr x 10).
Definition big_sigma0 (x : N) : N :=
  N.lxor (N.lxor (rotr 2 x) (rotr 13 x)) (rotr 22 x).
Definition big_sigma1 (x : N) : N :=
  N.lxor (N.lxor (rotr 6 x) (rotr 11 x)) (rotr 25 x).
Definition ch (x y z : N) : N :=
  N.lxor (N.land x y) (N.land (N.lxor x 4294967295) z).
Definition maj (x y z : N) : N :=
  N.lxor (N.lxor (N.land x y) (N.land x z)) (N.land y z).

(** The big-endian words of a block of bytes. *)
Fixpoint words_of (bytes : list N) : list N :=
  match bytes with
  | a :: b :: c :: d :: t =>
      (a * 16777216 + b * 65536 + c * 256 + d)%N :: words_of t
  | _ => []
  end.

(** The message schedule, most recent word first. *)
Fixpoint extend (n : nat) (rw : list N) : list N :=
  match n with
  | O => rw
  | S n' =>
      let w :=
        word32 (small_sigma1 (nth 1 rw 0) + nth 6 rw 0
                + small_sigma0 (nth 14 rw 0) + nth 15 rw 0)%N in
      extend n' (w :: rw)
  end.

Definition schedule (block : list N) : list N :=
  rev (extend 48 (rev (words_of block))).

Definition sha_round (st : list N) (kw : N * N) : list N :=
  match st with
  | [a; b; c; d; e; f; g; h] =>
      let t1 := (h + big_sigma1 e + ch e f g + fst kw + snd kw)%N in
      let t2 := (big_sigma0 a + maj a b c)%N in
      [word32 (t1 + t2); a; b; c; word32 (d + t1); e; f; g]
  | _ => st
  end.

Definition compress (hs : list N) (block : list N) : list N :=
  map (fun p => word32 (fst p + snd p))
      (combine hs (fold_left sha_round (combine sha_K (schedule block)) hs)).

Fixpoint be_bytes (n : nat) (x : N) : list N :=
  match n with
  | O => []
  | S n' => be_bytes n' (x / 256)%N ++ [(x mod 256)%N]
  end.

Definition pad (msg : list N) : list N :=
  let len := N.of_nat (List.length msg) in
  let zeros := N.to_nat ((119 - len mod 64) mod 64) in
  msg ++ 128%N :: repeat 0%N zeros ++ be_bytes 8 (8 * len).

Fixpoint blocks_of (n : nat) (bytes : list N) : list (list N) :=
  match n with
  | O => []
  | S n' =>
      match bytes with
      | [] => []
      | _ => firstn 64 bytes :: blocks_of n' (skipn 64 bytes)
      end
  end.

(** SHA-256 (FIPS 180-4) of a byte string. *)
Definition fastSha256 (msg : list N) : list N :=
  let p := pad msg in
  flat_map (be_bytes 4)
           (fold_left compress (blocks_of (List.length p) p) sha_H0).

(** [Buffer.from(bytes).toString('hex')] *)
Definition hex_string (bytes : list N) : jsstring :=
  flat_map (fun b => [hex_digit (b / 16); hex_digit (b mod 16)]%N) bytes.

(** The digest [fp] applies to the serialization. *)
Definition sha256_text (s : jsstring) : jsstring :=
  hex_string (fastSha256 (TextEncoder_encode s)).

(* --------------------------------------------------------------------- *)
(** ** JSON-LD extractor  (extractor/jsonld.js)                           *)
(* --------------------------------------------------------------------- *)

Fixpoint drop_white_space (s : jsstring) : jsstring :=
  match s with
  | c :: t => if is_white_space c then drop_white_space t else s
  | [] => []
  end.

(** [s.trim()] *)
Definition trim (s : jsstring) : jsstring :=
  rev (drop_white_space (rev (drop_white_space s))).

(** [g && typeof g === "object"] *)
Definition is_object_like (g : json) : bool :=
  match g with
  | JArr _ | JObj _ => true
  | _ => false
  end.

(** [flattenJsonLd]: a falsy or primitive value gives nothing, an array is
    flattened item by item, an object is kept and followed by the
    object-like entries of its [@graph] array. *)
Fixpoint flattenJsonLd (parsed : json) : list json :=
  match parsed with
  | JArr items => flat_map flattenJsonLd items
  | JObj ms =>
      parsed ::
      match get ms (js "@graph") with
      | Some (JArr graph) => filter is_object_like graph
      | _ => []
      end
  | _ => []
  end.

(** One returned block: the object and its provenance. *)
Record block : Type := mkBlock {
  block_json : json;
  block_scriptIndex : nat;
  block_provenance : json
}.

Record parseError : Type := mkParseError {
  pe_index : nat;
  pe_message : jsstring
}.

Record extraction : Type := mkExtraction {
  found : bool;
  blocks : list block;
  rawCount : nat;
  parseErrors : list parseError
}.

Section Extractor.

(** [JSON.parse]; [None] when it throws. *)
Variable JSON_parse : jsstring -> option json.
(** [sha256Hex] *)
Variable sha256Hex : jsstring -> jsstring.

(** [safeJsonParse]: [null] when parsing throws. *)
Definition safeJsonParse (raw : jsstring) : json :=
  match JSON_parse raw with
  | Some v => v
  | None => JNull
  end.

Definition script_provenance (url capturedAt raw : jsstring) (i : nat)
  : json :=
  JObj [ (js "sourceUrl", JStr url);
         (js "capturedAt", JStr capturedAt);
         (js "evidenceType", JStr (js "jsonld-script"));
         (js "scriptIndex", JNum (index_string (N.of_nat i)));
         (js "selector", JStr (js "script[type='application/ld+json']"));
         (js "snippetHash", JStr (js "sha256:" ++ sha256Hex raw)) ].

(** The body of [scripts.forEach((el, i) => ...)]: [html] is what
    [$(el).html() || ""] returns for the script element. *)
Definition extract_script (url capturedAt : jsstring) (flattenGraph : bool)
           (acc : list block * list parseError) (i : nat) (html : jsstring)
  : list block * list parseError :=
  let raw := trim html in
  match raw with
  | [] => acc
  | _ =>
      let parsed := safeJsonParse raw in
      if negb (truthy parsed)
      then (fst acc,
            snd acc ++ [mkParseError i (js "Invalid JSON (JSON.parse failed)")])
      else
        let normalized :=
          if flattenGraph then flattenJsonLd parsed else [parsed] in
        (fst acc ++
           map (fun obj =>
                  mkBlock obj i (script_provenance url capturedAt raw i))
               normalized,
         snd acc)
  end.

Fixpoint extract_scripts (url capturedAt : jsstring) (flattenGraph : bool)
         (acc : list block * list parseError) (i : nat)
         (scripts : list jsstring) : list block * list parseError :=
  match scripts with
  | [] => acc
  | html :: rest =>
      extract_scripts url capturedAt flattenGraph
        (extract_script url capturedAt flattenGraph acc i html) (S i) rest
  end.

(** [extractJsonLd], from the script elements cheerio selects:
    [scripts] lists their inner markup in document order. *)
Definition extractJsonLd (scripts : list jsstring) (url capturedAt : jsstring)
           (flattenGraph : bool) : extraction :=
  let r := extract_scripts url capturedAt flattenGraph ([], []) 0 scripts in
  mkExtraction
    (match fst r with [] => false | _ => true end)
    (fst r)
    (List.length scripts)
    (snd r).

(** The block at position [i] parsed: [JSON.parse] accepted its text. *)
Definition script_parsed (html : jsstring) : bool :=
  match JSON_parse (trim html) with
  | Some _ => true
  | None => false
  end.

(** The block at position [i] was given to the parser and did not yield a
    usable value. *)
Definition script_rejected (html : jsstring) : bool :=
  match trim html with
  | [] => false
  | raw => negb (truthy (safeJsonParse raw))
  end.

(** The structured objects a script contributes. *)
Definition script_objects (flattenGraph : bool) (html : jsstring)
  : list json :=
  match trim html with
  | [] => []
  | raw =>
      let parsed := safeJsonParse raw in
      if negb (truthy parsed) then []
      else if flattenGraph then flattenJsonLd parsed else [parsed]
  end.

End Extractor.

(* --------------------------------------------------------------------- *)
(** ** The content a fingerprint stands for                               *)
(* --------------------------------------------------------------------- *)

(** [cmp] is a total order on the members of [dom] that tells them
    apart. *)
Definition total_on {A : Type} (cmp : A -> A -> comparison) (dom : list A)
  : Prop :=
  (forall a b, In a dom -> In b dom -> cmp a b = Eq -> a = b)
  /\ (forall a b, In a dom -> In b dom -> cmp b a = CompOpp (cmp a b))
  /\ (forall a b c, In a dom -> In b dom -> In c dom ->
        cmp a b = Lt -> cmp b c = Lt -> cmp a c = Lt).

Definition comparison_eqb (c d : comparison) : bool :=
  match c, d with
  | Eq, Eq | Lt, Lt | Gt, Gt => true
  | _, _ => false
  end.

(** The decision of [total_on] for strings. *)
Definition total_onb (cmp : jsstring -> jsstring -> comparison)
           (dom : list jsstring) : bool :=
  forallb
    (fun a =>
       forallb
         (fun b =>
            match cmp a b with Eq => str_eqb a b | _ => true end
            && comparison_eqb (cmp b a) (CompOpp (cmp a b))
            && forallb
                 (fun c =>
                    match cmp a b, cmp b c with
                    | Lt, Lt => comparison_eqb (cmp a c) Lt
                    | _, _ => true
                    end)
                 dom)
         dom)
    dom.

Fixpoint distinct (l : list jsstring) : bool :=
  match l with
  | [] => true
  | k :: t => negb (existsb (str_eqb k) t) && distinct t
  end.

(** Two trees are equal up to the order of array elements and of object
    members, at any depth. *)
Inductive reorder : json -> json -> Prop :=
| ro_refl v : reorder v v
| ro_arr xs ys : reorder_arr xs ys -> reorder (JArr xs) (JArr ys)
| ro_obj ms ns : reorder_obj ms ns -> reorder (JObj ms) (JObj ns)
with reorder_arr : list json -> list json -> Prop :=
| ra_nil : reorder_arr [] []
| ra_cons x y xs ys :
    reorder x y -> reorder_arr xs ys -> reorder_arr (x :: xs) (y :: ys)
| ra_swap x y xs : reorder_arr (x :: y :: xs) (y :: x :: xs)
| ra_trans xs ys zs :
    reorder_arr xs ys -> reorder_arr ys zs -> reorder_arr xs zs
with reorder_obj : members -> members -> Prop :=
| rm_nil : reorder_obj [] []
| rm_cons k x y ms ns :
    reorder x y -> reorder_obj ms ns ->
    reorder_obj ((k, x) :: ms) ((k, y) :: ns)
| rm_swap j x k y ms :
    j <> k -> reorder_obj ((j, x) :: (k, y) :: ms) ((k, y) :: (j, x) :: ms)
| rm_trans ms ns os :
    reorder_obj ms ns -> reorder_obj ns os -> reorder_obj ms os.

Scheme reorder_mut := Minimality for reorder Sort Prop
  with reorder_arr_mut := Minimality for reorder_arr Sort Prop
  with reorder_obj_mut := Minimality for reorder_obj Sort Prop.

Combined Scheme reorder_mutind
  from reorder_mut, reorder_arr_mut, reorder_obj_mut.

(** The members of an object with a function applied to each value. *)
Definition map_values (f : jsstring -> json -> json) (ms : members)
  : members :=
  map (fun kv => (fst kv, f (fst kv) (snd kv))) ms.

(** [f] at key [k], nothing elsewhere. *)
Definition at_key (k : jsstring) (f : json -> json) (k' : jsstring)
           (v : json) : json :=
  if str_eqb k' k then f v else v.

(** [F] on the members of an object, nothing on another value. *)
Definition in_object (F : jsstring -> json -> json) (v : json) : json :=
  match v with
  | JObj m => JObj (map_values F m)
  | _ => v
  end.

(** The members of an object with their values serialized. *)
Definition ser_view (ms : members) : list (jsstring * jsstring) :=
  map (fun kv => (fst kv, stringify (snd kv))) ms.

(** Two member lists are related member by member, key by key. *)
Definition member_rel (R : jsstring -> json -> json -> Prop)
           (x y : jsstring * json) : Prop :=
  fst x = fst y /\ R (fst x) (snd x) (snd y).

(** The envelope without its volatile top-level fields. *)
Definition strip_volatile (e : members) : members :=
  delete (delete (delete e k_captureDate) k_cgRunId) k_cgManifestPath.

(** Two provenance records differ by their capture time at most. *)
Definition provenance_variant (p q : json) : Prop :=
  match p, q with
  | JObj pm, JObj qm => delete pm k_capturedAt = delete qm k_capturedAt
  | _, _ => p = q
  end.

Definition asserted_field_variant (k : jsstring) (x y : json) : Prop :=
  if str_eqb k k_json then reorder x y
  else if str_eqb k k_provenance then provenance_variant x y
  else x = y.

Definition asserted_variant (x y : json) : Prop :=
  match x, y with
  | JObj am, JObj bm => Forall2 (member_rel asserted_field_variant) am bm
  | _, _ => x = y
  end.

Definition envelope_field_variant (k : jsstring) (x y : json) : Prop :=
  if str_eqb k k_asserted then asserted_variant x y
  else if str_eqb k k_content then reorder x y
  else x = y.

(** Two envelopes differ only by the volatile fields (capture date, run
    identifier, manifest path, capture time of the asserted provenance),
    by the order of the asserted blocks, and by the order of members and
    elements inside the asserted blocks and the content. *)
Definition same_substance (a b : members) : Prop :=
  Forall2 (member_rel envelope_field_variant)
          (strip_volatile a) (strip_volatile b).

(** What the view does to each field. *)
Definition provenance_view (p : json) : json :=
  match p with
  | JObj pm => JObj (delete pm k_capturedAt)
  | _ => p
  end.

Section Substance.

Variable localeCompare : jsstring -> jsstring -> comparison.

Local Abbreviation canon := (stableSortJsonLd localeCompare).

(** Every array the canonicalisation sorts holds elements whose canonical
    serializations the collation orders totally and tells apart. *)
Fixpoint sortable (v : json) : bool :=
  match v with
  | JArr xs =>
      forallb sortable xs
      && total_onb localeCompare (map (fun x => stringify (canon x)) xs)
  | JObj ms => forallb (fun kv => sortable (snd kv)) ms
  | _ => true
  end.

Definition asserted_field_view (k : jsstring) (v : json) : json :=
  if str_eqb k k_json then canon v
  else if str_eqb k k_provenance then provenance_view v
  else v.

Definition asserted_view (v : json) : json :=
  match v with
  | JObj am => JObj (map_values asserted_field_view am)
  | _ => v
  end.

Definition view_field (k : jsstring) (v : json) : json :=
  if str_eqb k k_asserted then asserted_view v
  else if str_eqb k k_content then canon v
  else v.

(** The envelope is an object with distinct keys, so is its asserted
    record, and the asserted blocks and the content are sortable. *)
Definition canonicalisable (e : members) : bool :=
  distinct (keys e)
  && match get e k_asserted with
     | Some (JObj am) =>
         distinct (keys am)
         && match get am k_json with
            | Some x => sortable x
            | None => true
            end
     | _ => true
     end
  && match get e k_content with
     | Some c => sortable c
     | None => true
     end.

End Substance.

(** A collation that honours the canonical equivalence of U+00E9 and
    U+0065 U+0301, as [localeCompare] must, and is the code-unit order
    otherwise. *)
Fixpoint compose_acute (s : jsstring) : jsstring :=
  match s with
  | [] => []
  | c :: t =>
      match t with
      | d :: t' =>
          if ((c =? 101) && (d =? 769))%N then 233%N :: compose_acute t'
          else c :: compose_acute t
      | [] => [c]
      end
  end.

Definition example_localeCompare (a b : jsstring) : comparison :=
  str_compare (compose_acute a) (compose_acute b).

(* --------------------------------------------------------------------- *)
(** ** Envelope and validation gate  (worker.js, cg-0.5)                  *)
(* --------------------------------------------------------------------- *)

(** The settings read from the environment. *)
Record settings : Type := mkSettings {
  CG_VERSION : jsstring;
  SINGLE_PAGE : bool;
  CG_DETERMINISTIC : bool;
  EFFECTIVE_ENABLE_LLM : bool;
  MAX_DEPTH : Z;
  MAX_PAGES_PER_SITE : Z
}.

(** The argument of [buildEnvelope]; [None] is [undefined]. *)
Record envelopeArgs : Type := mkEnvelopeArgs {
  a_url : jsstring;
  a_harvestedAt : jsstring;
  a_cgRunId : jsstring;
  a_manifestPath : jsstring;
  a_assertedJsonLd : option json;
  a_assertedProvenance : option json;
  a_jsonldRawScriptCount : nat;
  a_jsonldParseErrors : nat;
  a_enrichedContent : option json;
  a_inferredMeta : option json;
  a_structuredMarkup : jsstring;
  a_assertedPrimaryIndex : option nat;
  a_assertedPrimaryType : option json
}.

Definition num_of_nat (n : nat) : json := JNum (index_string (N.of_nat n)).

Definition truthy_opt (x : option json) : bool :=
  match x with Some v => truthy v | None => false end.

(** [buildEnvelope] *)
Definition buildEnvelope (cfg : settings) (a : envelopeArgs) : members :=
  [ (k_context, JStr (js "https://agentnet.ai/context"));
    (k_type, JStr (js "agentnet:Capsule"));
    (js "agentnet:cgVersion", JStr (CG_VERSION cfg));
    (k_cgRunId, JStr (a_cgRunId a)) ]
  ++ (match a_manifestPath a with
      | [] => []
      | p => [(k_cgManifestPath, JStr p)]
      end)
  ++ [ (js "agentnet:source", JStr (a_url a));
       (k_captureDate, JStr (a_harvestedAt a));
       (k_asserted,
        if truthy_opt (a_assertedJsonLd a)
        then JObj [ (k_json, some_or JNull (a_assertedJsonLd a));
                    (k_provenance,
                     some_or JNull
                       (or_else (a_assertedProvenance a) (Some JNull))) ]
        else JNull);
       (k_content,
        some_or (JObj []) (or_else (a_enrichedContent a) (Some (JObj [])))) ]
  ++ (match a_inferredMeta a with
      | Some m =>
          if truthy m && negb (match own_props m with [] => true | _ => false end)
          then [(k_inferred, m)]
          else []
      | None => []
      end)
  ++ [ (k_report,
        JObj [ (js "structuredMarkup", JStr (a_structuredMarkup a));
               (js "jsonldRawScriptCount",
                num_of_nat (a_jsonldRawScriptCount a));
               (js "jsonldParseErrors", num_of_nat (a_jsonldParseErrors a));
               (js "singlePageMode", JBool (SINGLE_PAGE cfg));
               (js "assertedPrimaryIndex",
                match a_assertedPrimaryIndex a with
                | Some i => num_of_nat i
                | None => JNull
                end);
               (js "assertedPrimaryType",
                some_or JNull (a_assertedPrimaryType a));
               (js "deterministic", JBool (CG_DETERMINISTIC cfg));
               (js "llmEnabled", JBool (EFFECTIVE_ENABLE_LLM cfg)) ]) ].

(** The [status] column of the capsules table. *)
Inductive capsuleStatus : Type := St_ok | St_needs_review | St_error.

Record siteStats : Type := mkSiteStats {
  pages : nat;
  capsules : nat;
  inferred : nat;
  errors : nat;
  schemaErrors : nat;
  rejected : nat;
  inserted : nat
}.

(** One row of the capsules table. *)
Record capsuleRow : Type := mkCapsuleRow {
  row_node_id : N;
  row_fingerprint : jsstring;
  row_capsule_json : members;
  row_harvested_at : jsstring;
  row_status : capsuleStatus
}.

Fixpoint replace_first (c : char) (by_ : jsstring) (s : jsstring) : jsstring :=
  match s with
  | [] => []
  | x :: t => if N.eqb x c then by_ ++ t else x :: replace_first c by_ t
  end.

Fixpoint before_first (c : char) (s : jsstring) : jsstring :=
  match s with
  | [] => []
  | x :: t => if N.eqb x c then [] else x :: before_first c t
  end.

(** [harvested_at.replace("T", " ").replace("Z", "").split(".")[0]] *)
Definition mysql_datetime (harvested_at : jsstring) : jsstring :=
  before_first 46%N
    (replace_first 90%N [] (replace_first 84%N [32%N] harvested_at)).

Definition same_capsule (a b : capsuleRow) : bool :=
  N.eqb (row_node_id a) (row_node_id b)
  && str_eqb (row_fingerprint a) (row_fingerprint b).

Fixpoint upsert_row (r : capsuleRow) (table : list capsuleRow)
  : list capsuleRow :=
  match table with
  | [] => [r]
  | x :: t => if same_capsule r x then r :: t else x :: upsert_row r t
  end.

(** [insertCapsule]: [INSERT ... ON DUPLICATE KEY UPDATE] on the capsules
    table.  [unique_fp] tells whether the table carries the unique key on
    (node, fingerprint) the statement relies on; [reachable] is whether the
    query reaches the database at all ([None]: the promise rejects). *)
Definition insertCapsule (unique_fp reachable : bool)
           (table : list capsuleRow)
           (node_id : N) (capsule_json : members) (fingerprint_ : jsstring)
           (harvested_at : jsstring) (status : capsuleStatus)
  : option (list capsuleRow) :=
  let r := mkCapsuleRow node_id fingerprint_ capsule_json
             (mysql_datetime harvested_at) status in
  if reachable
  then Some (if unique_fp then upsert_row r table else table ++ [r])
  else None.

(** The compiled schema validator: its verdict and the [errors] it leaves
    ([None] is [null]). *)
Definition validator : Type := members -> bool * option (list json).

(** [envelope["agentnet:report"].schemaErrors = errs]; [None] when the
    report is missing (the assignment throws). *)
Definition attach_schemaErrors (envelope : members) (errs : list json)
  : option members :=
  match get envelope k_report with
  | Some (JObj rm) =>
      Some (set_prop envelope k_report
              (JObj (set_prop rm (js "schemaErrors") (JArr errs))))
  | Some _ => Some envelope
  | None => None
  end.

Definition errors_or_empty (errs : option (list json)) : list json :=
  match errs with Some l => l | None => [] end.

(** What the page handler leaves behind. *)
Inductive pageOutcome : Type :=
| Persisted (table : list capsuleRow) (envelope : members)
            (status : capsuleStatus) (stats : siteStats)
| PageFailed (stats : siteStats).

Definition count_error (s : siteStats) : siteStats :=
  mkSiteStats (pages s) (capsules s) (inferred s) (S (errors s))
              (schemaErrors s) (rejected s) (inserted s).

Definition count_schemaErrors (n : nat) (s : siteStats) : siteStats :=
  mkSiteStats (pages s) (capsules s) (inferred s) (errors s)
              (schemaErrors s + n) (rejected s) (inserted s).

Definition count_capsule (status : capsuleStatus) (has_inferred : bool)
           (s : siteStats) : siteStats :=
  mkSiteStats (S (pages s)) (S (capsules s))
              (if has_inferred then S (inferred s) else inferred s)
              (errors s) (schemaErrors s)
              (match status with St_ok => rejected s | _ => S (rejected s) end)
              (match status with St_ok => S (inserted s) | _ => inserted s end).

Section ValidationGate.

Variable localeCompare : jsstring -> jsstring -> comparison.
Variable sha256_hex : jsstring -> jsstring.
Variable Number : json -> jsnum.
Variable number_json : Q -> json.

(** [guardTinyPrice(envelope["agentnet:content"],
                    envelope["agentnet:report"])] on the envelope. *)
Definition guard_envelope (envelope : members) : option members :=
  match get envelope k_report with
  | Some (JObj rm) =>
      let content := some_or JNull (get envelope k_content) in
      let '(content', report') :=
        guardTinyPrice Number number_json content rm in
      Some (set_prop
              (match get envelope k_content with
               | Some _ => set_prop envelope k_content content'
               | None => envelope
               end)
              k_report (JObj report'))
  | _ => None
  end.

(** The schema validation gate: the status, the envelope and the
    statistics after [if (validateEnvelope) { ... }].  [None]: the
    assignment to the report throws. *)
Definition validation_gate (validateEnvelope : option validator)
           (envelope : members) (stats : siteStats)
  : option (capsuleStatus * members * siteStats) :=
  match validateEnvelope with
  | None => Some (St_ok, envelope, stats)
  | Some validate =>
      let '(valid, errs) := validate envelope in
      if valid then Some (St_ok, envelope, stats)
      else
        match attach_schemaErrors envelope (errors_or_empty errs) with
        | Some envelope' =>
            Some (St_needs_review, envelope',
                  count_schemaErrors (List.length (errors_or_empty errs)) stats)
        | None => None
        end
  end.

(** The page handler of [crawlSite] from the assembled envelope on:
    guardrail, fingerprint, validation gate, [insertCapsule], counters.
    An exception anywhere ends in the handler's [catch], which counts an
    error. *)
Definition persist_page (cfg : settings) (validateEnvelope : option validator)
           (unique_fp reachable : bool) (table : list capsuleRow)
           (nodeId : N) (a : envelopeArgs) (stats : siteStats)
  : pageOutcome :=
  match guard_envelope (buildEnvelope cfg a) with
  | None => PageFailed (count_error stats)
  | Some envelope =>
      let fingerprint_ :=
        fingerprint localeCompare sha256_hex (CG_DETERMINISTIC cfg) envelope in
      match validation_gate validateEnvelope envelope stats with
      | None => PageFailed (count_error stats)
      | Some (status, envelope', stats') =>
          match insertCapsule unique_fp reachable table nodeId envelope'
                  fingerprint_ (a_harvestedAt a) status with
          | None => PageFailed (count_error stats')
          | Some table' =>
              Persisted table' envelope' status
                (count_capsule status
                   (match a_inferredMeta a with
                    | Some m =>
                        truthy m &&
                        negb (match own_props m with [] => true | _ => false end)
                    | None => false
                    end)
                   stats')
          end
      end
  end.

End ValidationGate.

(* --------------------------------------------------------------------- *)
(** ** Reading a serialization back                                       *)
(* --------------------------------------------------------------------- *)

Definition unhex (c : char) : N :=
  (if c <? 58 then c - 48 else c - 87)%N.

Definition unescape (e : char) : char :=
  (if e =? 98 then 8
   else if e =? 116 then 9
   else if e =? 110 then 10
   else if e =? 102 then 12
   else if e =? 114 then 13
   else e)%N.

(** The code unit four hexadecimal digits stand for. *)
Definition hex4 (h3 h2 h1 h0 : char) : char :=
  (4096 * unhex h3 + 256 * unhex h2 + 16 * unhex h1 + unhex h0)%N.

Arguments hex4 : simpl never.

(** The string a quoted text stands for, and what follows its closing
    quote; the opening quote is already read. *)
Fixpoint unquote (fuel : nat) (s : jsstring) : option (jsstring * jsstring) :=
  match fuel with
  | O => None
  | S f =>
      match s with
      | [] => None
      | c :: t =>
          if (c =? 34)%N then Some ([], t)
          else if (c =? 92)%N then
            match t with
            | [] => None
            | e :: t1 =>
                if (e =? 117)%N then
                  match t1 with
                  | h3 :: h2 :: h1 :: h0 :: t2 =>
                      option_map
                        (fun p =>
                           (hex4 h3 h2 h1 h0 :: fst p, snd p))
                        (unquote f t2)
                  | _ => None
                  end
                else
                  option_map (fun p => (unescape e :: fst p, snd p))
                             (unquote f t1)
            end
          else option_map (fun p => (c :: fst p, snd p)) (unquote f t)
      end
  end.

(** The characters of a number as [JSON.stringify] writes it. *)
Definition number_char (c : char) : bool :=
  is_digit c || (c =? 45)%N || (c =? 43)%N || (c =? 46)%N
  || (c =? 101)%N || (c =? 69)%N.

Definition number_literal (lit : jsstring) : bool :=
  match lit with
  | [] => false
  | c :: _ => (is_digit c || (c =? 45)%N) && forallb number_char lit
  end.

(** Every number of the tree is written as a number. *)
Fixpoint valid_numbers (v : json) : bool :=
  match v with
  | JNum lit => number_literal lit
  | JArr xs => forallb valid_numbers xs
  | JObj ms => forallb (fun kv => valid_numbers (snd kv)) ms
  | _ => true
  end.

(** What follows a value inside a serialization: nothing, or a comma or a
    closing bracket. *)
Definition delimited (r : jsstring) : bool :=
  match r with
  | [] => true
  | c :: _ => (c =? 44)%N || (c =? 93)%N || (c =? 125)%N
  end.

(** The kind of value a first character announces. *)
Inductive value_kind : Type :=
| KNull | KTrue | KFalse | KNum | KStr | KArr | KObj.

Definition kind_of (v : json) : value_kind :=
  match v with
  | JNull => KNull
  | JBool true => KTrue
  | JBool false => KFalse
  | JNum _ => KNum
  | JStr _ => KStr
  | JArr _ => KArr
  | JObj _ => KObj
  end.

Definition kind_of_char (c : char) : option value_kind :=
  (if c =? 110 then Some KNull
   else if c =? 116 then Some KTrue
   else if c =? 102 then Some KFalse
   else if c =? 34 then Some KStr
   else if c =? 91 then Some KArr
   else if c =? 123 then Some KObj
   else if is_digit c || (c =? 45) then Some KNum
   else None)%N.

(** The elements of an array after the first, each behind its comma, up
    to the closing bracket and what follows it. *)
Fixpoint arr_rest (xs : list json) (r : jsstring) : jsstring :=
  match xs with
  | [] => 93%N :: r
  | x :: xs' => 44%N :: stringify x ++ arr_rest xs' r
  end.

Definition arr_body (xs : list json) (r : jsstring) : jsstring :=
  match xs with
  | [] => 93%N :: r
  | x :: xs' => stringify x ++ arr_rest xs' r
  end.

Definition member_text (kv : jsstring * json) : jsstring :=
  quote (fst kv) ++ 58%N :: stringify (snd kv).

(** The same for the members of an object. *)
Fixpoint obj_rest (ms : members) (r : jsstring) : jsstring :=
  match ms with
  | [] => 125%N :: r
  | kv :: ms' => 44%N :: member_text kv ++ obj_rest ms' r
  end.

Definition obj_body (ms : members) (r : jsstring) : jsstring :=
  match ms with
  | [] => 125%N :: r
  | kv :: ms' => member_text kv ++ obj_rest ms' r
  end.

(** The serialization of [v1] is the beginning of no other value's. *)
Definition prefix_free (v1 : json) : Prop :=
  forall (v2 : json) (r1 r2 : jsstring),
    valid_numbers v2 = true -> delimited r1 = true -> delimited r2 = true ->
    stringify v1 ++ r1 = stringify v2 ++ r2 -> v1 = v2 /\ r1 = r2.

(* --------------------------------------------------------------------- *)
(** ** Job handler and run manifest  (worker.js, cg-0.3)                  *)
(* --------------------------------------------------------------------- *)

(** The outcome of an awaited call: a value, or an exception with its
    message. *)
Inductive outcome (A : Type) : Type :=
| Ok (a : A)
| Throws (message : jsstring).
Arguments Ok {A} a.
Arguments Throws {A} message.

(** An entry of [runMeta.errors]. *)
Record errorEntry : Type := mkErrorEntry {
  err_url : jsstring;
  err_message : jsstring;
  err_fatal : bool
}.

Record runSummary : Type := mkRunSummary {
  sum_pages : nat;
  sum_capsules : nat;
  sum_inferred : nat;
  sum_errors : nat
}.

(** [runMeta], the object written as the run manifest. *)
Record runMeta : Type := mkRunMeta {
  rm_runId : jsstring;
  rm_finished : bool;
  rm_nodeId : option N;
  rm_summary : runSummary;
  rm_capsules : list jsstring;
  rm_errors : list errorEntry;
  rm_manifestPath : jsstring
}.

(** What [crawlSite] leaves in [runMeta] (receipts and page errors pushed
    so far) and how it ends. *)
Record crawlRun : Type := mkCrawlRun {
  cr_capsules : list jsstring;
  cr_errors : list errorEntry;
  cr_result : outcome runSummary
}.

(** The calls of one job execution whose outcome the handler does not
    decide: browser, database, crawl, file system. *)
Record jobWorld : Type := mkJobWorld {
  w_launch : outcome unit;
  w_newContext : outcome unit;
  w_upsertNode : outcome N;
  w_crawlSite : crawlRun;
  w_close : outcome unit;
  w_writeManifest : outcome unit;
  w_close_in_catch : outcome unit;
  w_writeManifest_in_catch : outcome unit;
  w_appendLog : outcome unit
}.

(** The observable steps of a job execution, in order. *)
Inductive jobEvent : Type :=
| Ev_launch
| Ev_newContext
| Ev_upsertNode
| Ev_crawlSite
| Ev_close
| Ev_writeRunManifest (manifest : runMeta) (written : bool)
| Ev_appendLog.

Inductive jobResult : Type :=
| Returned (runId manifestPath : jsstring)
| Rejected (message : jsstring).

Definition is_manifest_write (e : jobEvent) : bool :=
  match e with Ev_writeRunManifest _ _ => true | _ => false end.

(** The number of calls of [writeRunManifestAt] in a trace. *)
Definition manifest_writes (trace : list jobEvent) : nat :=
  List.length (filter is_manifest_write trace).

Definition succeeded {A : Type} (o : outcome A) : bool :=
  match o with Ok _ => true | Throws _ => false end.

(** The [catch (e)] block of the handler. *)
Definition job_catch (w : jobWorld) (url : jsstring) (meta : runMeta)
           (trace : list jobEvent) (e : jsstring)
  : list jobEvent * jobResult :=
  match w_close_in_catch w with
  | Throws e2 => (trace ++ [Ev_close], Rejected e2)
  | Ok _ =>
      let meta :=
        mkRunMeta (rm_runId meta) true (rm_nodeId meta) (rm_summary meta)
                  (rm_capsules meta)
                  (rm_errors meta ++ [mkErrorEntry url e true])
                  (rm_manifestPath meta) in
      let trace :=
        trace ++ [Ev_close;
                  Ev_writeRunManifest meta
                    (succeeded (w_writeManifest_in_catch w));
                  Ev_appendLog] in
      match w_appendLog w with
      | Throws e3 => (trace, Rejected e3)
      | Ok _ => (trace, Rejected e)
      end
  end.

(** The job handler given to [new Worker(queueName, async (job) => ...)]. *)
Definition job_handler (w : jobWorld) (runId manifestPath url : jsstring)
  : list jobEvent * jobResult :=
  let meta :=
    mkRunMeta runId false None (mkRunSummary 0 0 0 0) [] [] manifestPath in
  match w_launch w with
  | Throws e => ([Ev_launch], Rejected e)
  | Ok _ =>
  match w_newContext w with
  | Throws e => ([Ev_launch; Ev_newContext], Rejected e)
  | Ok _ =>
      let trace := [Ev_launch; Ev_newContext; Ev_upsertNode] in
      match w_upsertNode w with
      | Throws e => job_catch w url meta trace e
      | Ok nodeId =>
          let meta :=
            mkRunMeta runId false (Some nodeId) (rm_summary meta) [] []
                      manifestPath in
          let trace := trace ++ [Ev_crawlSite] in
          let crawl := w_crawlSite w in
          let meta :=
            mkRunMeta runId false (Some nodeId) (rm_summary meta)
                      (cr_capsules crawl) (cr_errors crawl) manifestPath in
          match cr_result crawl with
          | Throws e => job_catch w url meta trace e
          | Ok stats =>
              let trace := trace ++ [Ev_close] in
              match w_close w with
              | Throws e => job_catch w url meta trace e
              | Ok _ =>
                  let meta :=
                    mkRunMeta runId true (Some nodeId) stats
                              (cr_capsules crawl) (cr_errors crawl)
                              manifestPath in
                  match w_writeManifest w with
                  | Throws e =>
                      job_catch w url meta
                        (trace ++ [Ev_writeRunManifest meta false]) e
                  | Ok _ =>
                      (trace ++ [Ev_writeRunManifest meta true],
                       Returned runId manifestPath)
                  end
              end
          end
      end
  end
  end.

(* --------------------------------------------------------------------- *)
(** ** URL normalisation and frontier  (worker.js, [crawlSite])           *)
(* --------------------------------------------------------------------- *)

(** An [http] or [https] URL as [new URL(raw)] holds it, by the parts
    that [u.toString()] writes: the origin (scheme, host and port), with
    the user name and password it encloses when there are any
    ([u_userinfo], empty otherwise), the path, the query behind its [?]
    when there is one, and the fragment with its [#] ([u_hash], empty when
    there is none).  Two URLs are written alike exactly when these parts
    agree.  [u_searchParams] is the list of name-value pairs the host
    reads from the query, which [u.searchParams] iterates. *)
Record url : Type := mkUrl {
  u_origin : jsstring;
  u_userinfo : jsstring;
  u_pathname : jsstring;
  u_search : option jsstring;
  u_searchParams : list (jsstring * jsstring);
  u_hash : jsstring
}.

Definition dropPrefixes : list jsstring :=
  [js "utm_"; js "gclid"; js "fbclid"; js "msclkid"; js "a_ajs_"].

(** [dropPrefixes.some((p) => key === p || key.startsWith(p))
     || key.startsWith("a_ajs_")] *)
Definition is_tracking_key (key : jsstring) : bool :=
  existsb (fun p => str_eqb key p || starts_with p key) dropPrefixes
  || starts_with (js "a_ajs_") key.

Definition hex_upper (d : N) : char :=
  (if d <? 10 then 48 + d else 55 + d)%N.

(** One byte under the [application/x-www-form-urlencoded] serializer:
    letters, digits and [*-._] stay, a space becomes [+], every other byte
    is written [%XX]. *)
Definition form_byte (b : N) : jsstring :=
  if is_digit b || is_upper b || is_lower b
     || existsb (N.eqb b) [42; 45; 46; 95]%N
  then [b]
  else if N.eqb b 32 then [43%N]
  else [37%N; hex_upper (b / 16); hex_upper (b mod 16)].

Definition form_encode (s : jsstring) : jsstring :=
  flat_map form_byte (TextEncoder_encode s).

Fixpoint join_amp (parts : list jsstring) : jsstring :=
  match parts with
  | [] => []
  | [p] => p
  | p :: rest => p ++ 38%N :: join_amp rest
  end.

(** The query [URLSearchParams] writes back into its URL after a
    [delete]: the pairs serialized again, and no query at all when that
    gives the empty string. *)
Definition updated_query (params : list (jsstring * jsstring))
  : option jsstring :=
  match join_amp (map (fun kv => form_encode (fst kv) ++ 61%N
                                 :: form_encode (snd kv)) params) with
  | [] => None
  | query => Some query
  end.

(** [normalizeUrl]: [u.hash = ""], then [u.searchParams.delete(key)] for
    every tracking key.  A deletion writes the remaining pairs back as the
    query; without any deletion the query stays as it was written. *)
Definition normalizeUrl (u : url) : url :=
  let kept :=
    filter (fun kv => negb (is_tracking_key (fst kv))) (u_searchParams u) in
  if existsb (fun kv => is_tracking_key (fst kv)) (u_searchParams u)
  then mkUrl (u_origin u) (u_userinfo u) (u_pathname u)
             (updated_query kept) kept []
  else mkUrl (u_origin u) (u_userinfo u) (u_pathname u)
             (u_search u) (u_searchParams u) [].

Definition params_eqb (a b : list (jsstring * jsstring)) : bool :=
  (List.length a =? List.length b)%nat
  && forallb (fun p => str_eqb (fst (fst p)) (fst (snd p))
                       && str_eqb (snd (fst p)) (snd (snd p)))
             (combine a b).

Definition search_eqb (a b : option jsstring) : bool :=
  match a, b with
  | Some x, Some y => str_eqb x y
  | None, None => true
  | _, _ => false
  end.

(** The visited set holds the strings [u.toString()]: two of them are the
    same key when all their parts agree as written.  The pairs are read
    from the query, and agree with it. *)
Definition url_eqb (a b : url) : bool :=
  str_eqb (u_origin a) (u_origin b)
  && str_eqb (u_userinfo a) (u_userinfo b)
  && str_eqb (u_pathname a) (u_pathname b)
  && search_eqb (u_search a) (u_search b)
  && params_eqb (u_searchParams a) (u_searchParams b)
  && str_eqb (u_hash a) (u_hash b).

(** A queue item [{ url, depth }]. *)
Abbreviation item := (url * Z)%type.

(** [visited] lists the visited URLs in the order they were added (a
    [Set] keeps insertion order); [q] is the queue. *)
Record frontier : Type := mkFrontier {
  visited : list item;
  q : list item
}.

(** [visited.has(u)] *)
Definition visited_has (v : list item) (u : url) : bool :=
  existsb (fun x => url_eqb (fst x) u) v.

Section Crawl.

Variable cfg : settings.

(** What visiting a page yields: [None] when the handler's [try] ends in
    its [catch] before link discovery, otherwise the [href]s of the page,
    each one parsed ([None] for an [href] that [new URL] rejects). *)
Variable site : url -> option (list (option url)).

(** [new URL(baseUrl).origin] *)
Variable origin : jsstring.

Definition pageLimit : Z :=
  if SINGLE_PAGE cfg then 1%Z else MAX_PAGES_PER_SITE cfg.

(** The body of [for (const link of links)]. *)
Definition enqueue_link (v : list item) (depth : Z) (queue : list item)
           (link : option url) : list item :=
  match link with
  | None => queue
  | Some l =>
      let normLink := normalizeUrl l in
      if negb (str_eqb (u_origin normLink) origin) then queue
      else if visited_has v normLink then queue
      else queue ++ [(normLink, (depth + 1)%Z)]
  end.

(** The links a visited page adds to the queue. *)
Definition discover (v : list item) (u : url) (depth : Z)
           (queue : list item) : list item :=
  match site u with
  | Some links =>
      if negb (SINGLE_PAGE cfg) && (depth <? MAX_DEPTH cfg)%Z
      then fold_left (enqueue_link v depth) links queue
      else queue
  | None => queue
  end.

(** One turn of [while (q.length && visited.size < pageLimit)];
    [None] when the loop condition fails. *)
Definition crawl_step (st : frontier) : option frontier :=
  match q st with
  | [] => None
  | (raw, depth) :: rest =>
      if (Z.of_nat (List.length (visited st)) <? pageLimit)%Z then
        let u := normalizeUrl raw in
        if visited_has (visited st) u || (MAX_DEPTH cfg <? depth)%Z
        then Some (mkFrontier (visited st) rest)
        else
          let v := visited st ++ [(u, depth)] in
          Some (mkFrontier v (discover v u depth rest))
      else None
  end.

(** The loop, with a bound on the number of turns; [None] when the bound
    is reached before the loop condition fails. *)
Fixpoint crawl_loop (fuel : nat) (st : frontier) : option frontier :=
  match crawl_step st with
  | None => Some st
  | Some st' =>
      match fuel with
      | O => None
      | S fuel' => crawl_loop fuel' st'
      end
  end.

(** The state [crawlSite] starts from. *)
Definition crawl_start (baseUrl : url) : frontier :=
  mkFrontier [] [(normalizeUrl baseUrl, 0%Z)].

(** The pages the crawl can reach: the seed at distance 0, and at distance
    [d + 1] every same-origin link of a page at distance [d] on which link
    discovery runs. *)
Inductive reach (baseUrl : url) : nat -> url -> Prop :=
| reach_seed : reach baseUrl 0 (normalizeUrl baseUrl)
| reach_link (d : nat) (u l : url) (links : list (option url)) :
    reach baseUrl d u ->
    site u = Some links ->
    SINGLE_PAGE cfg = false ->
    In (Some l) links ->
    u_origin (normalizeUrl l) = origin ->
    reach baseUrl (S d) (normalizeUrl l).

End Crawl.

(** Depths never decrease along a list of items. *)
Definition depth_sorted (l : list item) : Prop :=
  StronglySorted (fun a b => (snd a <= snd b)%Z) l.

Section CrawlInvariant.

Variable cfg : settings.
Variable site : url -> option (list (option url)).
Variable origin : jsstring.
Variable baseUrl : url.

(** What holds of the frontier throughout the loop. *)
Record frontier_inv (st : frontier) : Prop := mkFrontierInv {
  inv_normalized :
    forall x, In x (visited st ++ q st) -> normalizeUrl (fst x) = fst x;
  inv_nodup : NoDup (map fst (visited st));
  inv_bound :
    (Z.of_nat (List.length (visited st)) <= Z.max 0 (pageLimit cfg))%Z;
  inv_sorted : depth_sorted (visited st ++ q st);
  inv_span :
    forall h rest x, q st = h :: rest -> In x (q st) ->
                     (snd x <= snd h + 1)%Z;
  inv_reach :
    forall x, In x (visited st ++ q st) ->
              exists n, Z.of_nat n = snd x /\
                        reach cfg site origin baseUrl n (fst x);
  inv_cap : forall x, In x (visited st) -> (snd x <= MAX_DEPTH cfg)%Z;
  inv_closed :
    forall u du links l,
      In (u, du) (visited st) ->
      site u = Some links ->
      SINGLE_PAGE cfg = false ->
      (du < MAX_DEPTH cfg)%Z ->
      In (Some l) links ->
      u_origin (normalizeUrl l) = origin ->
      (exists dv, In (normalizeUrl l, dv) (visited st) /\ (dv <= du + 1)%Z)
      \/ In (normalizeUrl l, (du + 1)%Z) (q st);
  inv_seed :
    (0 <= MAX_DEPTH cfg)%Z ->
    (exists dv, In (normalizeUrl baseUrl, dv) (visited st) /\ (dv <= 0)%Z)
    \/ In (normalizeUrl baseUrl, 0%Z) (q st)
}.

End CrawlInvariant.

(* --------------------------------------------------------------------- *)
(** ** Regular expressions  (the constructs the sources use)              *)
(* --------------------------------------------------------------------- *)

(** Patterns: a class matches one code unit; quantifiers are greedy. *)
Inductive regex : Type :=
| Re_empty
| Re_char (p : char -> bool)
| Re_seq (a b : regex)
| Re_alt (a b : regex)
| Re_star (a : regex)
| Re_group (i : nat) (a : regex)
| Re_wordb.

(** The state of a match attempt: the code unit before the current
    position, the input from the current position on, and the captures
    made so far (latest first). *)
Record mstate : Type := mkMstate {
  ms_prev : option char;
  ms_rest : jsstring;
  ms_caps : list (nat * jsstring)
}.

Definition is_word_opt (c : option char) : bool :=
  match c with Some x => is_word x | None => false end.

(** [\b] *)
Definition word_boundary (s : mstate) : bool :=
  xorb (is_word_opt (ms_prev s)) (is_word_opt (hd_error (ms_rest s))).

(** The text consumed between two states of one attempt. *)
Definition consumed (before after : mstate) : jsstring :=
  firstn (List.length (ms_rest before) - List.length (ms_rest after))
         (ms_rest before).

(** Greedy iteration of [body]: an iteration has to consume input; [n]
    bounds the iterations by the length of the remaining input. *)
Fixpoint star_iter {R : Type}
         (body : (mstate -> option R) -> mstate -> option R)
         (k : mstate -> option R) (n : nat) (s : mstate) : option R :=
  match n with
  | O => k s
  | S n' =>
      match body (fun s' =>
                    if (List.length (ms_rest s') <? List.length (ms_rest s))%nat
                    then star_iter body k n' s'
                    else None) s with
      | Some x => Some x
      | None => k s
      end
  end.

(** The backtracking matcher: [k] is what remains to be matched. *)
Fixpoint rmatch {R : Type} (r : regex) (k : mstate -> option R) (s : mstate)
  : option R :=
  match r with
  | Re_empty => k s
  | Re_char p =>
      match ms_rest s with
      | c :: t => if p c then k (mkMstate (Some c) t (ms_caps s)) else None
      | [] => None
      end
  | Re_seq a b => rmatch a (rmatch b k) s
  | Re_alt a b =>
      match rmatch a k s with
      | Some x => Some x
      | None => rmatch b k s
      end
  | Re_star a => star_iter (rmatch a) k (List.length (ms_rest s)) s
  | Re_group i a =>
      rmatch a
        (fun s' =>
           k (mkMstate (ms_prev s') (ms_rest s')
                       ((i, consumed s s') :: ms_caps s')))
        s
  | Re_wordb => if word_boundary s then k s else None
  end.

(** [x?] *)
Definition Re_opt (a : regex) : regex := Re_alt a Re_empty.

(** A literal, case-sensitive. *)
Fixpoint Re_lit (w : jsstring) : regex :=
  match w with
  | [] => Re_empty
  | c :: t => Re_seq (Re_char (N.eqb c)) (Re_lit t)
  end.

Definition upper_char (c : char) : char :=
  if is_lower c then (c - 32)%N else c.

(** Canonicalize under the [i] flag, for patterns in Basic Latin. *)
Definition char_ci (x : char) (c : char) : bool :=
  N.eqb (upper_char c) (upper_char x).

(** A literal under the [i] flag. *)
Fixpoint Re_lit_i (w : jsstring) : regex :=
  match w with
  | [] => Re_empty
  | c :: t => Re_seq (Re_char (char_ci c)) (Re_lit_i t)
  end.

(** [a|b|...] *)
Fixpoint Re_any (rs : list regex) : regex :=
  match rs with
  | [] => Re_char (fun _ => false)
  | [r] => r
  | r :: rest => Re_alt r (Re_any rest)
  end.

(** The first match, scanning the start position from left to right:
    [re.exec(text)] without the [g] flag.  The result is the final state. *)
Fixpoint exec_from (r : regex) (prev : option char) (s : jsstring)
  : option mstate :=
  match rmatch r (fun st => Some st) (mkMstate prev s []) with
  | Some st => Some st
  | None =>
      match s with
      | [] => None
      | c :: t => exec_from r (Some c) t
      end
  end.

Definition exec (r : regex) (text : jsstring) : option mstate :=
  exec_from r None text.

(** [re.test(text)] *)
Definition test (r : regex) (text : jsstring) : bool :=
  match exec r text with Some _ => true | None => false end.

(** [m[i]]; [None] is [undefined]. *)
Fixpoint capture (i : nat) (caps : list (nat * jsstring)) : option jsstring :=
  match caps with
  | [] => None
  | (j, w) :: rest => if (i =? j)%nat then Some w else capture i rest
  end.

(** [(text.match(re) || []).length] with the [g] flag: matches are taken
    from left to right, each search starting where the last match ended
    (one further after an empty match). *)
Fixpoint count_matches (fuel : nat) (r : regex) (prev : option char)
         (s : jsstring) : nat :=
  match fuel with
  | O => 0
  | S fuel' =>
      match rmatch r (fun st => Some st) (mkMstate prev s []) with
      | Some st =>
          if (List.length (ms_rest st) <? List.length s)%nat
          then S (count_matches fuel' r (ms_prev st) (ms_rest st))
          else match s with
               | [] => 1
               | c :: t => S (count_matches fuel' r (Some c) t)
               end
      | None =>
          match s with
          | [] => 0
          | c :: t => count_matches fuel' r (Some c) t
          end
      end
  end.

Definition match_count (r : regex) (text : jsstring) : nat :=
  count_matches (S (List.length text)) r None text.

(** What a pattern accepts, read as a language: [\b] and groups consume
    nothing of their own. *)
Inductive Lang : regex -> jsstring -> Prop :=
| L_empty : Lang Re_empty []
| L_char (p : char -> bool) (c : char) : p c = true -> Lang (Re_char p) [c]
| L_seq (a b : regex) (u v : jsstring) :
    Lang a u -> Lang b v -> Lang (Re_seq a b) (u ++ v)
| L_alt_l (a b : regex) (u : jsstring) : Lang a u -> Lang (Re_alt a b) u
| L_alt_r (a b : regex) (u : jsstring) : Lang b u -> Lang (Re_alt a b) u
| L_star_nil (a : regex) : Lang (Re_star a) []
| L_star_cons (a : regex) (u v : jsstring) :
    Lang a u -> Lang (Re_star a) v -> Lang (Re_star a) (u ++ v)
| L_group (i : nat) (a : regex) (u : jsstring) :
    Lang a u -> Lang (Re_group i a) u
| L_wordb : Lang Re_wordb [].

(** A successful traversal of a pattern from one state to another. *)
Inductive Matches : regex -> mstate -> mstate -> Prop :=
| M_empty (s : mstate) : Matches Re_empty s s
| M_char (p : char -> bool) (c : char) (t : jsstring) (pv : option char)
         (caps : list (nat * jsstring)) :
    p c = true ->
    Matches (Re_char p) (mkMstate pv (c :: t) caps) (mkMstate (Some c) t caps)
| M_seq (a b : regex) (s1 s2 s3 : mstate) :
    Matches a s1 s2 -> Matches b s2 s3 -> Matches (Re_seq a b) s1 s3
| M_alt_l (a b : regex) (s s' : mstate) :
    Matches a s s' -> Matches (Re_alt a b) s s'
| M_alt_r (a b : regex) (s s' : mstate) :
    Matches b s s' -> Matches (Re_alt a b) s s'
| M_star_nil (a : regex) (s : mstate) : Matches (Re_star a) s s
| M_star_cons (a : regex) (s1 s2 s3 : mstate) :
    Matches a s1 s2 -> Matches (Re_star a) s2 s3 ->
    Matches (Re_star a) s1 s3
| M_group (i : nat) (a : regex) (s s' : mstate) :
    Matches a s s' ->
    Matches (Re_group i a) s
            (mkMstate (ms_prev s') (ms_rest s')
                      ((i, consumed s s') :: ms_caps s'))
| M_wordb (s : mstate) : word_boundary s = true -> Matches Re_wordb s s.

(** A pattern without capturing groups. *)
Fixpoint groupless (r : regex) : bool :=
  match r with
  | Re_group _ _ => false
  | Re_seq a b | Re_alt a b => groupless a && groupless b
  | Re_star a => groupless a
  | _ => true
  end.

(** Every code unit of an accepted word satisfies a predicate all classes
    of the pattern imply. *)
Fixpoint classes_within (P : char -> bool) (r : regex) : Prop :=
  match r with
  | Re_char p => forall c, p c = true -> P c = true
  | Re_seq a b | Re_alt a b => classes_within P a /\ classes_within P b
  | Re_star a | Re_group _ a => classes_within P a
  | _ => True
  end.

(** Letter case is ignored. *)
Definition ci_eqb (a b : jsstring) : bool :=
  str_eqb (map upper_char a) (map upper_char b).

(* --------------------------------------------------------------------- *)
(** ** Inference engine  (inferencer/index.js)                            *)
(* --------------------------------------------------------------------- *)

(** [s.replace(/\s+/g, " ")]: every run of white space becomes one
    space. *)
Fixpoint collapse_spaces (in_run : bool) (s : jsstring) : jsstring :=
  match s with
  | [] => []
  | c :: t =>
      if is_white_space c
      then if in_run then collapse_spaces true t
           else 32%N :: collapse_spaces true t
      else c :: collapse_spaces false t
  end.

(** [normText]: the second [replace] finds single spaces only and leaves
    them. *)
Definition normText (s : jsstring) : jsstring :=
  trim (collapse_spaces false s).

Section Inference.

(** [s.toLowerCase()]: the lower-casing of the host, which follows the
    Unicode case mappings. *)
Variable toLowerCase : jsstring -> jsstring.

(** [a / b] on two counts: the quotient as the host computes it in
    floating point, given by its exact value. *)
Variable divide : nat -> nat -> Q.

(** [new RegExp(`\\b${escaped}\\b`, "g")] for an indicator phrase. *)
Definition indicator_regex (ind : jsstring) : regex :=
  Re_seq Re_wordb (Re_seq (Re_lit (toLowerCase ind)) Re_wordb).

(** [indicatorScore] *)
Definition indicatorScore (text : jsstring) (indicators : list jsstring)
  : nat :=
  let t := toLowerCase text in
  fold_left (fun score ind => score + match_count (indicator_regex ind) t)
            indicators 0.

Definition productIndicators : list jsstring :=
  map js ["add to cart"; "buy now"; "sku"; "specifications"; "in stock";
          "price"; "was"; "sale"; "checkout"]%string.

Definition orgIndicators : list jsstring :=
  map js ["about us"; "our team"; "contact us"; "headquarters"; "mission";
          "careers"; "phone"; "address"; "hours"]%string.

Definition articleIndicators : list jsstring :=
  map js ["by "; "author"; "published"; "updated"; "read more";
          "minutes read"; "newsletter"]%string.

Inductive guessedType : Type :=
| T_Thing | T_Product | T_Organization | T_Article.

Definition type_name (t : guessedType) : jsstring :=
  match t with
  | T_Thing => js "agentnet:Thing"
  | T_Product => js "agentnet:Product"
  | T_Organization => js "agentnet:Organization"
  | T_Article => js "agentnet:Article"
  end.

Record typeGuess : Type := mkTypeGuess {
  tg_type : guessedType;
  tg_confidence : Q;
  tg_scores : nat * nat * nat
}.

(** [clamp(n)] with the default bounds 0 and 1. *)
Definition clamp (x : Q) : Q :=
  Qmax (Qmake 0 1) (Qmin (Qmake 1 1) x).

(** [detectType] *)
Definition detectType (text : jsstring) : typeGuess :=
  let prodScore := indicatorScore text productIndicators in
  let orgScore := indicatorScore text orgIndicators in
  let artScore := indicatorScore text articleIndicators in
  let max := Nat.max prodScore (Nat.max orgScore artScore) in
  let type := T_Thing in
  let type :=
    if (max =? prodScore)%nat && (0 <? max)%nat then T_Product else type in
  let type :=
    if (max =? orgScore)%nat && (prodScore <? max)%nat
    then T_Organization else type in
  let type :=
    if (max =? artScore)%nat && (prodScore <? max)%nat
       && (orgScore <? max)%nat
    then T_Article else type in
  let total := prodScore + orgScore + artScore in
  let confidence :=
    clamp (divide max (Nat.max 6 (if (total =? 0)%nat then 1 else total)))
  in
  mkTypeGuess type confidence (prodScore, orgScore, artScore).

Definition strongTokens : list jsstring :=
  map js ["add to cart"; "checkout"; "buy now"; "shop now"; "order now";
          "shipping"; "returns"; "size"; "color"; "quantity"; "in stock";
          "out of stock"; "variants"; "select size"; "select color"]%string.

(** The loop of [hasStrongCommerceIntent]: it returns as soon as two
    tokens of the list occur in the text. *)
Fixpoint strong_loop (t : jsstring) (tokens : list jsstring) (hits : nat)
  : bool :=
  match tokens with
  | [] => false
  | token :: rest =>
      let hits := if includes t token then S hits else hits in
      if (2 <=? hits)%nat then true else strong_loop t rest hits
  end.

(** [hasStrongCommerceIntent] *)
Definition hasStrongCommerceIntent (text : jsstring) : bool :=
  strong_loop (toLowerCase text) strongTokens 0.

(** [toUSDLikeCurrency] *)
Definition toUSDLikeCurrency (sym : option jsstring) : option jsstring :=
  match sym with
  | None => None
  | Some s =>
      if str_eqb s [36%N] then Some (js "USD")
      else if str_eqb s [8364%N] then Some (js "EUR")
      else if str_eqb s [163%N] then Some (js "GBP")
      else if str_eqb s [165%N] then Some (js "JPY")
      else if str_eqb s (js "C$") then Some (js "CAD")
      else if str_eqb s (js "A$") then Some (js "AUD")
      else None
  end.

Definition isoCodes : list jsstring :=
  map js ["USD"; "EUR"; "GBP"; "JPY"; "CAD"; "AUD"]%string.

(** [USD|EUR|GBP|JPY|CAD|AUD] under the [i] flag. *)
Definition re_codes : regex := Re_any (map Re_lit_i isoCodes).

(** [[$€£¥]] *)
Definition is_currency_symbol (c : char) : bool :=
  existsb (N.eqb c) [36; 8364; 163; 165]%N.

(** [[$€£¥]|C\$|A\$] under the [i] flag. *)
Definition re_symbol : regex :=
  Re_alt (Re_char is_currency_symbol)
         (Re_alt (Re_seq (Re_char (char_ci 67%N)) (Re_char (N.eqb 36%N)))
                 (Re_seq (Re_char (char_ci 65%N)) (Re_char (N.eqb 36%N)))).

Definition re_digit : regex := Re_char is_digit.

(** [[.,]] *)
Definition is_separator (c : char) : bool :=
  (N.eqb c 46 || N.eqb c 44)%N.

(** [\d{1,3}(?:[.,]\d{3})*(?:[.,]\d{2})?] *)
Definition re_amount : regex :=
  Re_seq
    (Re_seq re_digit (Re_opt (Re_seq re_digit (Re_opt re_digit))))
    (Re_seq
       (Re_star (Re_seq (Re_char is_separator)
                        (Re_seq re_digit (Re_seq re_digit re_digit))))
       (Re_opt (Re_seq (Re_char is_separator) (Re_seq re_digit re_digit)))).

Definition re_space : regex := Re_char is_white_space.

(** [(?:USD|EUR|GBP|JPY|CAD|AUD)?\s*([$€£¥]|C\$|A\$)\s?(amount)\b] *)
Definition re_price_symbol : regex :=
  Re_seq (Re_opt re_codes)
    (Re_seq (Re_star re_space)
       (Re_seq (Re_group 1 re_symbol)
          (Re_seq (Re_opt re_space)
             (Re_seq (Re_group 2 re_amount) Re_wordb)))).

(** [(?:\b(USD|EUR|GBP|JPY|CAD|AUD)\b)\s?(amount)\b] *)
Definition re_price_code : regex :=
  Re_seq (Re_seq Re_wordb (Re_seq (Re_group 3 re_codes) Re_wordb))
    (Re_seq (Re_opt re_space)
       (Re_seq (Re_group 4 re_amount) Re_wordb)).

(** [priceRe] *)
Definition priceRe : regex := Re_alt re_price_symbol re_price_code.

Definition three_digits_then_boundary (t : jsstring) : bool :=
  match t with
  | d1 :: d2 :: d3 :: r =>
      is_digit d1 && is_digit d2 && is_digit d3
      && negb (is_word_opt (hd_error r))
  | _ => false
  end.

(** [s.replace(/[.,](?=\d{3}\b)/g, "")] *)
Fixpoint strip_group_separators (s : jsstring) : jsstring :=
  match s with
  | [] => []
  | c :: t =>
      if is_separator c && three_digits_then_boundary t
      then strip_group_separators t
      else c :: strip_group_separators t
  end.

(** [x || null] on a capture: an empty string is falsy. *)
Definition nonempty (x : option jsstring) : option jsstring :=
  match x with
  | Some [] => None
  | _ => x
  end.

Definition first_some (a b : option jsstring) : option jsstring :=
  match a with Some _ => a | None => b end.

Record priceMatch : Type := mkPriceMatch {
  pm_price : jsstring;
  pm_priceCurrency : jsstring
}.

(** [Number(s)] on a string. *)
Variable Number_of_string : jsstring -> jsnum.
(** [x.toFixed(2)] *)
Variable toFixed2 : Q -> jsstring.
(** [Number(clamp(x).toFixed(2))] as the JSON number stored under
    [confidence]; the argument is the exact value of the source
    expression. *)
Variable confidence_json : Q -> json.

(** The field extractors that do not take part in the price gate; each is
    a regular expression search over the text or the markup. *)
Variable extractSKU : jsstring -> option jsstring.
Variable extractBrand : jsstring -> jsstring -> option jsstring.
Variable extractContacts : jsstring -> list jsstring * list jsstring.
Variable extractAddress : jsstring -> option json.
Variable extractPublishDates :
  jsstring -> jsstring -> option jsstring * option jsstring.
Variable byline_author : jsstring -> option jsstring.
(** The name the [<title>] of the markup gives once the site suffix is cut
    off, when there is a title; the [content] of the description meta
    tag. *)
Variable title_name : jsstring -> option jsstring.
Variable meta_description : jsstring -> option jsstring.

(** [callLLMEnrichment({ url, html, text, seedCapsule, model })]: [None]
    when it returns [null] or throws. *)
Variable callLLMEnrichment :
  jsstring -> jsstring -> jsstring -> members -> jsstring -> option json.

(** [extractPrice] *)
Definition extractPrice (text : jsstring) : option priceMatch :=
  match exec priceRe text with
  | None => None
  | Some m =>
      let sym := nonempty (capture 1 (ms_caps m)) in
      let amountRaw1 := nonempty (capture 2 (ms_caps m)) in
      let code := nonempty (capture 3 (ms_caps m)) in
      let amountRaw2 := nonempty (capture 4 (ms_caps m)) in
      match first_some amountRaw1 amountRaw2 with
      | None => None
      | Some amountRaw =>
          match Number_of_string
                  (replace_first 44%N [46%N]
                     (strip_group_separators amountRaw)) with
          | Finite amount =>
              match first_some code (toUSDLikeCurrency sym) with
              | None => None
              | Some priceCurrency =>
                  Some (mkPriceMatch (toFixed2 amount) priceCurrency)
              end
          | _ => None
          end
      end
  end.

(** [addProvenance(target, key, confidence, source, method)] *)
Definition addProvenance (target : members) (key : jsstring)
           (confidence : Q) (source method : string) : members :=
  let entry :=
    JObj [ (js "confidence", confidence_json confidence);
           (js "source", JStr (js source));
           (js "method", JStr (js method)) ] in
  let prov :=
    match get target k_inferred with
    | Some v => if truthy v then v else JObj []
    | None => JObj []
    end in
  match prov with
  | JObj pm => set_prop target k_inferred (JObj (set_prop pm key entry))
  | _ => set_prop target k_inferred prov
  end.

(** [inferred[key] = value; addProvenance(inferred, key, ...)] *)
Definition infer_field (inferred : members) (key : jsstring) (value : json)
           (confidence : Q) (method : string) : members :=
  addProvenance (set_prop inferred key value) key confidence
                "heuristic" method.

Definition infer_string (inferred : members) (key : jsstring)
           (value : option jsstring) (confidence : Q) (method : string)
  : members :=
  match nonempty value with
  | Some s => infer_field inferred key (JStr s) confidence method
  | None => inferred
  end.

(** The options of [inferCapsule] and the credential of the process. *)
Record inferOptions : Type := mkInferOptions {
  enableLLM : bool;
  overwriteExplicit : bool;
  model : option jsstring;
  OPENAI_API_KEY : option jsstring
}.

Definition llm_runs (opts : inferOptions) : bool :=
  enableLLM opts
  && match nonempty (model opts) with Some _ => true | None => false end
  && match nonempty (OPENAI_API_KEY opts) with
     | Some _ => true
     | None => false
     end.

(** [typeof extracted["@type"] === "string" ? extracted["@type"] : ""] *)
Definition assertedType (extracted : members) : jsstring :=
  match get extracted k_type with
  | Some (JStr s) => s
  | _ => []
  end.

(** [/Product/i.test(assertedType)] *)
Definition assertedLooksProduct (extracted : members) : bool :=
  test (Re_lit_i (js "Product")) (assertedType extracted).

(** The resolved [@type] of the inferred object. *)
Definition resolved_type (extracted : members) (guess : typeGuess) : json :=
  some_or (JStr (js "agentnet:Thing"))
    (or_else (get extracted k_type)
       (or_else (Some (JStr (type_name (tg_type guess))))
          (Some (JStr (js "agentnet:Thing"))))).

Definition is_type (v : json) (name : string) : bool :=
  match v with
  | JStr s => str_eqb s (js name)
  | _ => false
  end.

(** [allowPriceInference] *)
Definition allowPriceInference (extracted : members) (guess : typeGuess)
           (t : jsstring) : bool :=
  assertedLooksProduct extracted
  || (is_type (resolved_type extracted guess) "agentnet:Product"
      && hasStrongCommerceIntent t).

(** The block guarded by [if (allowPriceInference)]. *)
Definition infer_price (inferred : members) (t : jsstring) : members :=
  match extractPrice t with
  | Some p =>
      let inferred :=
        match pm_price p with
        | [] => inferred
        | price =>
            infer_field inferred k_price (JStr price) (Qmake 8 10)
                        "price-regex"
        end in
      match pm_priceCurrency p with
      | [] => inferred
      | cur =>
          infer_field inferred k_priceCurrency (JStr cur) (Qmake 7 10)
                      "currency-map"
      end
  | None => inferred
  end.

(** The object [inferCapsule] starts from: context, resolved type, and
    the provenance of the type when it was guessed. *)
Definition seed_inferred (extracted : members) (guess : typeGuess)
  : members :=
  let inferred :=
    [ (k_context, DEFAULT_CONTEXT);
      (k_type, resolved_type extracted guess) ] in
  if negb (truthy_opt (get extracted k_type))
     && negb (match tg_type guess with T_Thing => true | _ => false end)
  then addProvenance inferred k_type
         (clamp (Qplus (Qmake 65 100)
                       (Qmult (Qmake 3 10) (tg_confidence guess))))
         "heuristic" "type-detection"
  else inferred.

(** Product-like fields. *)
Definition product_stage (extracted : members) (html t : jsstring)
           (guess : typeGuess) (inferred : members) : members :=
  let guessedProduct :=
    is_type (resolved_type extracted guess) "agentnet:Product" in
  if guessedProduct || test (Re_lit_i (js "product")) t then
    let inferred :=
      if allowPriceInference extracted guess t
      then infer_price inferred t
      else inferred in
    let inferred :=
      infer_string inferred (js "agentnet:sku") (extractSKU t)
                   (Qmake 7 10) "sku-regex" in
    infer_string inferred (js "agentnet:brand") (extractBrand t html)
                 (Qmake 75 100) "brand-heuristic"
  else inferred.

(** Organization-like fields. *)
Definition organization_stage (t : jsstring) (type : json)
           (inferred : members) : members :=
  if is_type type "agentnet:Organization" then
    let inferred :=
      match fst (extractContacts t) with
      | e :: _ =>
          infer_field inferred (js "agentnet:email") (JStr e)
                      (Qmake 85 100) "email-regex"
      | [] => inferred
      end in
    let inferred :=
      match snd (extractContacts t) with
      | p :: _ =>
          infer_field inferred (js "agentnet:telephone") (JStr p)
                      (Qmake 8 10) "phone-regex"
      | [] => inferred
      end in
    match extractAddress t with
    | Some addr =>
        infer_field inferred (js "agentnet:address") addr (Qmake 7 10)
                    "address-regex"
    | None => inferred
    end
  else inferred.

(** Article-like fields. *)
Definition article_stage (html t : jsstring) (type : json)
           (inferred : members) : members :=
  if is_type type "agentnet:Article" then
    let inferred :=
      infer_string inferred (js "agentnet:datePublished")
                   (fst (extractPublishDates t html))
                   (Qmake 8 10) "date-meta" in
    let inferred :=
      infer_string inferred (js "agentnet:dateModified")
                   (snd (extractPublishDates t html))
                   (Qmake 7 10) "date-meta" in
    match byline_author t with
    | Some a =>
        infer_field inferred (js "agentnet:author") (JStr a)
                    (Qmake 65 100) "byline-regex"
    | None => inferred
    end
  else inferred.

(** Generic name and description. *)
Definition generic_stage (extracted : members) (html : jsstring)
           (inferred : members) : members :=
  let inferred :=
    if negb (truthy_opt (get extracted (js "agentnet:name"))) then
      match title_name html with
      | Some name =>
          infer_field inferred (js "agentnet:name") (JStr name)
                      (Qmake 6 10) "title-fallback"
      | None => inferred
      end
    else inferred in
  if negb (truthy_opt (get extracted (js "agentnet:description"))) then
    match nonempty (meta_description html) with
    | Some d =>
        infer_field inferred (js "agentnet:description") (JStr (trim d))
                    (Qmake 65 100) "meta-description"
    | None => inferred
    end
  else inferred.

(** The heuristic pass of [inferCapsule], stage after stage. *)
Definition heuristics (extracted : members) (html t : jsstring)
           (guess : typeGuess) : members :=
  let type := resolved_type extracted guess in
  generic_stage extracted html
    (article_stage html t type
       (organization_stage t type
          (product_stage extracted html t guess
             (seed_inferred extracted guess)))).

(** The names every plain object inherits from [Object.prototype]: a
    read [o[k]] of one of them is never [undefined], own property or
    not. *)
Definition prototype_names : list jsstring :=
  map js ["constructor"; "__proto__"; "hasOwnProperty"; "isPrototypeOf";
          "propertyIsEnumerable"; "toLocaleString"; "toString"; "valueOf";
          "__defineGetter__"; "__defineSetter__"; "__lookupGetter__";
          "__lookupSetter__"]%string.

Definition inherited_key (k : jsstring) : bool :=
  existsb (str_eqb k) prototype_names.

(** [typeof o[k] === "undefined"], for a plain object [o]. *)
Definition reads_undefined (o : members) (k : jsstring) : bool :=
  negb (has o k) && negb (inherited_key k).

(** The fields of the model's reply that are accepted: not reserved and
    read as [undefined] from both the heuristics' result and the asserted
    seed. *)
Definition llm_accepts (inferred extracted : members)
           (kv : jsstring * json) : bool :=
  negb (reserved_key (fst kv))
  && reads_undefined inferred (fst kv)
  && reads_undefined extracted (fst kv).

(** [for (const k of Object.keys(llmAugmented)) { addProvenance(...);
    inferred[k] = llmAugmented[k]; }] *)
Definition llm_write (inferred : members) (kv : jsstring * json) : members :=
  set_prop (addProvenance inferred (fst kv) (Qmake 55 100)
                          "llm" "openai-summary")
           (fst kv) (snd kv).

(** The optional model augmentation. *)
Definition llm_stage (opts : inferOptions) (url html t : jsstring)
           (extracted inferred : members) : members :=
  if llm_runs opts then
    match callLLMEnrichment url html t
            (mergeCapsules (Some (JObj extracted)) (Some (JObj inferred))
                           false)
            (match model opts with Some m => m | None => [] end) with
    | Some llmCapsule =>
        if is_object_like llmCapsule then
          let llmAugmented :=
            fold_left (fun acc kv => set_prop acc (fst kv) (snd kv))
                      (filter (llm_accepts inferred extracted)
                              (own_props llmCapsule)) [] in
          fold_left llm_write llmAugmented inferred
        else inferred
    | None => inferred
    end
  else inferred.

Record inference : Type := mkInference {
  inf_capsule : members;
  inf_inferred : members;
  inf_typeGuess : typeGuess
}.

(** [inferCapsule({ url, html, text, extractedCapsule, options })] *)
Definition inferCapsule (url html text : jsstring)
           (extractedCapsule : option json) (opts : inferOptions)
  : inference :=
  let extracted := asObject extractedCapsule in
  let t := normText text in
  let guess := detectType t in
  let inferred := heuristics extracted html t guess in
  let inferred := llm_stage opts url html t extracted inferred in
  let capsule :=
    mergeCapsules (Some (JObj extracted)) (Some (JObj inferred))
                  (overwriteExplicit opts) in
  let capsule :=
    if truthy_opt (get capsule k_context) then capsule
    else set_prop capsule k_context DEFAULT_CONTEXT in
  mkInference capsule inferred guess.

End Inference.

(** A currency marker: one of the symbols, [C$] or [A$], or an ISO code,
    letter case ignored. *)
Definition is_currency_marker (m : jsstring) : bool :=
  match m with [c] => is_currency_symbol c | _ => false end
  || ci_eqb m (js "C$") || ci_eqb m (js "A$")
  || existsb (ci_eqb m) isoCodes.

(** The text shows a currency symbol or an ISO code somewhere. *)
Definition has_currency_marker (text : jsstring) : bool :=
  existsb is_currency_symbol text
  || existsb (includes (map upper_char text)) isoCodes.

(** The shape of a matched amount: digits and separators, a digit
    first. *)
Definition amount_shape (w : jsstring) : bool :=
  match w with
  | d :: _ => is_digit d
  | [] => false
  end
  && forallb (fun c => is_digit c || is_separator c) w.

(** A key under which a price or its currency is stored. *)
Definition price_key (k : jsstring) : Prop :=
  k = k_price \/ k = k_priceCurrency.

(** Two distinct phrases of the strong commerce list occur in the
    lower-cased text. *)
Definition two_strong_phrases (toLowerCase : jsstring -> jsstring)
           (t : jsstring) : Prop :=
  exists a b,
    a <> b /\ In a strongTokens /\ In b strongTokens /\
    includes (toLowerCase t) a = true /\ includes (toLowerCase t) b = true.

(* --------------------------------------------------------------------- *)
(** ** The shape of a normalised text                                     *)
(* --------------------------------------------------------------------- *)

(** Every white space of [s] is a single space that follows a character
    other than white space; [after_space] tells whether what precedes [s]
    is white space. *)
Fixpoint spaced (after_space : bool) (s : jsstring) : bool :=
  match s with
  | [] => true
  | c :: t =>
      if is_white_space c
      then N.eqb c 32 && negb after_space && spaced true t
      else spaced false t
  end.

Definition ends_in_text (s : jsstring) : bool :=
  match rev s with
  | c :: _ => negb (is_white_space c)
  | [] => true
  end.

(** No white space at either end, and single spaces only in between. *)
Definition normal_text (s : jsstring) : bool :=
  spaced true s && ends_in_text s.

Definition is_text_char (c : char) : bool := negb (is_white_space c).

(* --------------------------------------------------------------------- *)
(** ** Provenance of inferred fields                                      *)
(* --------------------------------------------------------------------- *)

(** [inferred["agentnet:inferred"]] is an object with an entry for [k]. *)
Definition has_provenance (inferred : members) (k : jsstring) : bool :=
  match get inferred k_inferred with
  | Some (JObj pm) => has pm k
  | _ => false
  end.

(** The provenance map, where there is one, is an object, and it has an
    entry for every field other than [@context], [@type] and itself. *)
Definition provenance_complete (inferred : members) : Prop :=
  match get inferred k_inferred with
  | None | Some (JObj _) => True
  | Some _ => False
  end
  /\ forall k, has inferred k = true -> reserved_key k = false ->
               has_provenance inferred k = true.

(** Blocks in the order of the script elements they come from. *)
Definition by_script (a b : block) : Prop :=
  block_scriptIndex a <= block_scriptIndex b.

(** No code unit of [s] is [c]. *)
Definition free_of (c : char) (s : jsstring) : bool :=
  forallb (fun x => negb (N.eqb x c)) s.

(** The rows of the table for one node and fingerprint. *)
Definition rows_of (node_id : N) (fingerprint_ : jsstring)
           (table : list capsuleRow) : list capsuleRow :=
  filter (fun x => N.eqb (row_node_id x) node_id
                   && str_eqb (row_fingerprint x) fingerprint_) table.

(* --------------------------------------------------------------------- *)
(** ** The seed of the inferencer  (worker.js, cg-0.3)                    *)
(* --------------------------------------------------------------------- *)

(** [String(v)]: an array joins the strings of its elements with commas,
    [null] elements giving the empty string. *)
Fixpoint String_of (v : json) : jsstring :=
  match v with
  | JNull => js "null"
  | JBool true => js "true"
  | JBool false => js "false"
  | JNum lit => lit
  | JStr s => s
  | JArr xs =>
      join_comma
        (map (fun x => match x with JNull => [] | _ => String_of x end) xs)
  | JObj _ => js "[object Object]"
  end.

(** [String(x).includes("Product")] *)
Definition mentions_Product (x : json) : bool :=
  includes (String_of x) (js "Product").

(** [isProduct] of [pickBestAssertedWithIndex]. *)
Definition isProduct (o : json) : bool :=
  match get (asObject (Some o)) k_type with
  | Some (JArr ts) => existsb mentions_Product ts
  | t => mentions_Product (some_or (JStr []) (or_else t (Some (JStr []))))
  end.

(** [arr.findIndex(p)]; [None] is [-1]. *)
Fixpoint findIndex {A : Type} (p : A -> bool) (l : list A) : option nat :=
  match l with
  | [] => None
  | x :: t => if p x then Some 0 else option_map S (findIndex p t)
  end.

Record pick : Type := mkPick {
  pick_primary : json;
  pick_primaryIndex : option nat;
  pick_primaryType : json
}.

Definition pickBestAssertedWithIndex (assertedArray : list json) : pick :=
  match assertedArray with
  | [] => mkPick (JObj []) None JNull
  | _ =>
      let primaryIndex :=
        match findIndex isProduct assertedArray with
        | Some idx => idx
        | None => 0
        end in
      let primary :=
        some_or (JObj [])
          (or_else (nth_error assertedArray primaryIndex) (Some (JObj []))) in
      let primaryType :=
        some_or JNull
          (or_else (get (asObject (Some primary)) k_type) (Some JNull)) in
      mkPick primary (Some primaryIndex) primaryType
  end.

(* --------------------------------------------------------------------- *)
(** ** The primary asserted block  (worker.js, cg-0.5)                    *)
(* --------------------------------------------------------------------- *)

(** An element of [cleanedBlocks]. *)
Record cleanedBlock : Type := mkCleanedBlock {
  cb_json : json;
  cb_provenance : json
}.

Record scored : Type := mkScored {
  sc_i : nat;
  sc_s : jsstring;
  sc_t : option json
}.

(** [JSON.stringify(b?.json ?? {})] *)
Definition block_serialization (b : cleanedBlock) : jsstring :=
  stringify (match cb_json b with JNull => JObj [] | j => j end).

(** [b?.json ? b.json["@type"] : null]; [None] is [undefined]. *)
Definition block_type (b : cleanedBlock) : option json :=
  if truthy (cb_json b)
  then get (asObject (Some (cb_json b))) k_type
  else Some JNull.

(** [blocks.map((b, i) => ({ i, s, t }))] from index [i] on. *)
Fixpoint score_from (i : nat) (blocks : list cleanedBlock) : list scored :=
  match blocks with
  | [] => []
  | b :: rest =>
      mkScored i (block_serialization b) (block_type b)
      :: score_from (S i) rest
  end.

(** [type.replace(/^schema:/, "")] *)
Definition strip_schema (s : jsstring) : jsstring :=
  if starts_with (js "schema:") s then skipn 7 s else s.

(** The type returned for the picked entry's [t]. *)
Definition cleaned_type (t : option json) : json :=
  let type :=
    match t with
    | Some (JArr ts) => nth_error ts 0
    | _ => t
    end in
  let cleanedType :=
    match type with
    | Some (JStr s) => Some (JStr (strip_schema s))
    | _ => type
    end in
  some_or JNull (or_else cleanedType (Some JNull)).

Record selection : Type := mkSelection {
  sel_index : option nat;
  sel_type : json
}.

Section Selection.

Variable localeCompare : jsstring -> jsstring -> comparison.

Definition selectPrimaryIndexDeterministic (blocks : list cleanedBlock)
  : selection :=
  match blocks with
  | [] => mkSelection None JNull
  | _ =>
      match sort_by (fun a b => localeCompare (sc_s a) (sc_s b))
                    (score_from 0 blocks) with
      | pick :: _ => mkSelection (Some (sc_i pick)) (cleaned_type (sc_t pick))
      | [] => mkSelection None JNull
      end
  end.

End Selection.

(* --------------------------------------------------------------------- *)
(** ** One capsule per JSON-LD block  (worker.js, first version)          *)
(* --------------------------------------------------------------------- *)

Section ExtractCapsules.

(** [JSON.parse]; [None] when it throws. *)
Variable JSON_parse : jsstring -> option json.

(** What one [script] element adds to [ldBlocks]. *)
Definition ld_blocks_of (html : jsstring) : list json :=
  match trim html with
  | [] => []
  | raw =>
      match JSON_parse raw with
      | Some (JArr parsed) => parsed
      | Some parsed => [parsed]
      | None => []
      end
  end.

Definition capsule_around (url now : jsstring) (content : json) : members :=
  [ (k_context, JStr (js "https://agentnet.ai/context"));
    (k_type, JStr (js "agentnet:Capsule"));
    (js "agentnet:source", JStr url);
    (k_captureDate, JStr now);
    (k_content, content) ].

Definition no_jsonld : json :=
  JObj [ (k_type, JStr (js "agentnet:Error"));
         (js "message", JStr (js "No JSON-LD data found.")) ].

(** [extractCapsules]: [scripts] are the contents of the JSON-LD script
    elements in document order, [now] is the time of the call. *)
Definition extractCapsules (scripts : list jsstring) (url now : jsstring)
  : list members :=
  match flat_map ld_blocks_of scripts with
  | [] => [capsule_around url now no_jsonld]
  | ldBlocks => map (capsule_around url now) ldBlocks
  end.

End ExtractCapsules.

(* --------------------------------------------------------------------- *)
(** ** Snapshot names  (worker.js)                                        *)
(* --------------------------------------------------------------------- *)

Section Snapshot.

(** [new URL(url)]: the [host] and the [pathname]; [None] when the
    constructor throws. *)
Variable URL_parts : jsstring -> option (jsstring * jsstring).
(** [crypto.createHash("sha256").update(url).digest("hex")] *)
Variable sha256_hex : jsstring -> jsstring.

(** The class [[a-zA-Z0-9/_-]]. *)
Definition is_base_char (c : char) : bool :=
  is_lower c || is_upper c || is_digit c
  || N.eqb c 47 || N.eqb c 95 || N.eqb c 45.

(** [s.replace(re, "_")] with the [g] flag, for a pattern that is one
    class: [keep] tells the code units the pattern does not match. *)
Definition replace_class (keep : char -> bool) (s : jsstring) : jsstring :=
  map (fun c => if keep c then c else 95%N) s.

(** [snapshotName]; [None] when [new URL(url)] throws. *)
Definition snapshotName (url : jsstring) : option jsstring :=
  match URL_parts url with
  | None => None
  | Some (host, pathname) =>
      let base := replace_class is_base_char (host ++ pathname) in
      let hash := firstn 16 (sha256_hex url) in
      let safeBase :=
        firstn 120 (replace_class (fun c => negb (N.eqb c 47)) base) in
      Some (safeBase ++ js "__" ++ hash ++ js ".html")
  end.

End Snapshot.

(** The code units of a file name stem: letters, digits, [_] and [-]. *)
Definition is_stem_char (c : char) : bool :=
  is_lower c || is_upper c || is_digit c || N.eqb c 95 || N.eqb c 45.

(* --------------------------------------------------------------------- *)
(** ** SKU extraction  (inferencer)                                       *)
(* --------------------------------------------------------------------- *)

(** [[A-Z0-9\-_/]] under the [i] flag. *)
Definition is_sku_char (c : char) : bool :=
  is_upper c || is_lower c || is_digit c
  || N.eqb c 45 || N.eqb c 95 || N.eqb c 47.

(** [[:#]] *)
Definition is_sku_sep (c : char) : bool := N.eqb c 58 || N.eqb c 35.

(** [(?:SKU|Part\s*(?:No\.?|Number))] under the [i] flag. *)
Definition re_sku_marker : regex :=
  Re_alt (Re_lit_i (js "SKU"))
    (Re_seq (Re_lit_i (js "Part"))
       (Re_seq (Re_star re_space)
          (Re_alt (Re_seq (Re_lit_i (js "No")) (Re_opt (Re_char (N.eqb 46))))
                  (Re_lit_i (js "Number"))))).

(** [/\b(?:SKU|Part\s*(?:No\.?|Number))[:#]?\s*([A-Z0-9\-_/]{3,})\b/i] *)
Definition re_sku : regex :=
  Re_seq Re_wordb
    (Re_seq re_sku_marker
       (Re_seq (Re_opt (Re_char is_sku_sep))
          (Re_seq (Re_star re_space)
             (Re_seq
                (Re_group 1
                   (Re_seq (Re_char is_sku_char)
                      (Re_seq (Re_char is_sku_char)
                         (Re_seq (Re_char is_sku_char)
                            (Re_star (Re_char is_sku_char))))))
                Re_wordb)))).

(** [extractSKU]; [None] is [null]. *)
Definition extractSKU (text : jsstring) : option jsstring :=
  match exec re_sku text with
  | Some m => capture 1 (ms_caps m)
  | None => None
  end.

(** The words that announce a SKU: [SKU], or [Part] followed, after any
    white space, by [No], [No.] or [Number]; letter case is ignored. *)
Definition sku_marker (w : jsstring) : bool :=
  ci_eqb w (js "SKU")
  || (ci_eqb (firstn 4 w) (js "Part")
      && existsb (ci_eqb (drop_white_space (skipn 4 w)))
                 [js "No"; js "No."; js "Number"]).

(** The representation invariant of objects: no key occurs twice, at any
    depth. *)
Fixpoint distinct_keys (v : json) : bool :=
  match v with
  | JArr xs => forallb distinct_keys xs
  | JObj ms =>
      distinct (keys ms) && forallb (fun kv => distinct_keys (snd kv)) ms
  | _ => true
  end.

(* --------------------------------------------------------------------- *)
(** ** Instances of the host primitives used by the examples              *)
(* --------------------------------------------------------------------- *)

(** The parser on the texts of the examples below: the empty array
    literal is valid JSON, the other text is not. *)
Definition example_parse (raw : jsstring) : option json :=
  if str_eqb raw (js "[]") then Some (JArr []) else None.

(** A site of four pages in a chain, [/0 -> /1 -> /2 -> /3], each link
    written with a fragment and a tracking parameter. *)
Definition chain_origin : jsstring := js "https://example.com".

Definition chain_page (n : nat) : url :=
  mkUrl chain_origin [] (js "/" ++ index_string (N.of_nat n)) None [] [].

Definition chain_link (n : nat) : url :=
  mkUrl chain_origin [] (js "/" ++ index_string (N.of_nat n))
        (Some (js "utm_source=nav")) [(js "utm_source", js "nav")]
        (js "#top").

Definition chain_site (u : url) : option (list (option url)) :=
  if url_eqb u (chain_page 0) then Some [Some (chain_link 1)]
  else if url_eqb u (chain_page 1) then Some [Some (chain_link 2)]
  else if url_eqb u (chain_page 2) then Some [Some (chain_link 3)]
  else Some [].

(** A page reached by two links, one of them with a tracking parameter
    behind a query that holds a comma: [/p?q=a,b] and
    [/p?q=a,b&utm_source=x]. *)
Definition query_page : url :=
  mkUrl chain_origin [] (js "/p") (Some (js "q=a,b")) [(js "q", js "a,b")]
        [].

Definition query_link : url :=
  mkUrl chain_origin [] (js "/p") (Some (js "q=a,b&utm_source=x"))
        [(js "q", js "a,b"); (js "utm_source", js "x")] [].

Definition query_site (u : url) : option (list (option url)) :=
  if url_eqb u (chain_page 0)
  then Some [Some query_page; Some query_link]
  else Some [].

(** Depth cap 1 and room for three pages. *)
Definition shallow_settings : settings :=
  mkSettings (js "cg-0.3-run-manifest") false false false 1%Z 3%Z.

(** Depth cap 10 and room for two pages. *)
Definition narrow_settings : settings :=
  mkSettings (js "cg-0.3-run-manifest") false false false 10%Z 2%Z.

(** [Number] on the plain decimal literals [ddd] and [ddd.ddd], exactly;
    every other value reads as [NaN] here. *)
Fixpoint split_dot (s : jsstring) : jsstring * option jsstring :=
  match s with
  | [] => ([], None)
  | c :: t =>
      if N.eqb c 46 then ([], Some t)
      else let (a, b) := split_dot t in (c :: a, b)
  end.

Definition decimal_value (s : jsstring) : option Q :=
  match split_dot s with
  | ([], _) => None
  | (ip, None) =>
      match digits_value 0 ip with
      | Some a => Some (Qmake (Z.of_N a) 1)
      | None => None
      end
  | (ip, Some fp) =>
      match fp, digits_value 0 ip, digits_value 0 fp with
      | _ :: _, Some a, Some b =>
          let scale := Pos.pow 10 (Pos.of_nat (List.length fp)) in
          Some (Qmake (Z.of_N (a * Npos scale + b)) scale)
      | _, _, _ => None
      end
  end.

Definition example_Number (v : json) : jsnum :=
  match v with
  | JNum lit | JStr lit =>
      match decimal_value lit with
      | Some q => Finite q
      | None => NaN
      end
  | _ => NaN
  end.

(** The JSON number the examples store for an observed price. *)
Definition example_number_json (q : Q) : json :=
  JNum (index_string (Z.to_N (Qnum q)) ++ js "/"
        ++ index_string (Npos (Qden q))).






(** [Number] on strings, as above. *)
Definition example_Number_of_string (s : jsstring) : jsnum :=
  example_Number (JStr s).

Definition two_digits (n : N) : jsstring :=
  [(48 + (n / 10) mod 10)%N; (48 + n mod 10)%N].

(** [toFixed(2)] on a non-negative rational, rounding half up. *)
Definition example_toFixed2 (q : Q) : jsstring :=
  let cents := Z.to_N ((Qnum q * 200 + Zpos (Qden q)) / (2 * Zpos (Qden q))) in
  index_string (cents / 100)%N ++ 46%N :: two_digits (cents mod 100)%N.

Definition example_confidence (q : Q) : json :=
  JNum (example_toFixed2 q).

(** Field extractors that find nothing. *)
Definition no_field (_ : jsstring) : option jsstring := None.
Definition no_field2 (_ _ : jsstring) : option jsstring := None.
Definition no_contacts (_ : jsstring) : list jsstring * list jsstring :=
  ([], []).
Definition no_address (_ : jsstring) : option json := None.
Definition no_dates (_ _ : jsstring) : option jsstring * option jsstring :=
  (None, None).

(** A model that is never consulted, and one that answers with a price. *)
Definition silent_model (_ _ _ : jsstring) (_ : members) (_ : jsstring)
  : option json := None.

Definition pricing_model (_ _ _ : jsstring) (_ : members) (_ : jsstring)
  : option json :=
  Some (JObj [ (k_price, JStr (js "19.99"));
               (k_priceCurrency, JStr (js "USD")) ]).

(** Lower-casing on the code units whose lower case lies in Basic Latin:
    the capitals [A] to [Z], U+212A KELVIN SIGN ([k]) and U+0130 ([i]
    followed by U+0307).  The example texts hold no other cased
    letter. *)
Definition example_lower (c : char) : jsstring :=
  if is_upper c then [(c + 32)%N]
  else if N.eqb c 8490 then [107%N]
  else if N.eqb c 304 then [105%N; 775%N]
  else [c].

Definition example_toLowerCase (s : jsstring) : jsstring :=
  flat_map example_lower s.

(** The double nearest to the quotient of two counts, ties to even: the
    quotient lies in [[2^e, 2^(e+1))] and is rounded to a multiple of
    [2^(e-52)].  A zero divisor does not occur, the divisor of
    [detectType] being 6 or more. *)
Definition example_divide (a b : nat) : Q :=
  let a := Z.of_nat a in
  let b := Z.of_nat b in
  if ((a =? 0) || (b =? 0))%Z then 0%Q
  else
    let e0 := (Z.log2 a - Z.log2 b)%Z in
    let reaches :=
      if (0 <=? e0)%Z then (b * 2 ^ e0 <=? a)%Z
      else (b <=? a * 2 ^ (- e0))%Z in
    let e := if reaches then e0 else (e0 - 1)%Z in
    let k := (52 - e)%Z in
    let num := if (0 <=? k)%Z then (a * 2 ^ k)%Z else a in
    let den := if (0 <=? k)%Z then b else (b * 2 ^ (- k))%Z in
    let quo := (num / den)%Z in
    let r := (num mod den)%Z in
    let n :=
      if (2 * r <? den)%Z then quo
      else if (den <? 2 * r)%Z then (quo + 1)%Z
           else if Z.even quo then quo else (quo + 1)%Z in
    if (0 <=? k)%Z then Qmake n (Z.to_pos (2 ^ k))
    else inject_Z (n * 2 ^ (- k)).

(** [inferCapsule] with these instances. *)
Definition example_infer
           (llm : jsstring -> jsstring -> jsstring -> members -> jsstring
                  -> option json) :=
  inferCapsule example_toLowerCase example_divide example_Number_of_string example_toFixed2 example_confidence
               no_field no_field2 no_contacts no_address no_dates
               no_field no_field no_field llm.

Definition heuristics_only : inferOptions :=
  mkInferOptions true false None None.

Definition with_model : inferOptions :=
  mkInferOptions true false (Some (js "gpt-4o-mini")) (Some (js "sk-test")).

(** Two runs over one page: the run identifier, the manifest path and the
    capture times differ, the asserted blocks come in another order, and
    so do the members of a block and of the content. *)
Definition block_product : json :=
  JObj [(js "@type", JStr (js "Product")); (js "name", JStr (js "Widget"))].
Definition block_product' : json :=
  JObj [(js "name", JStr (js "Widget")); (js "@type", JStr (js "Product"))].
Definition block_organization : json :=
  JObj [(js "@type", JStr (js "Organization"));
        (js "name", JStr (js "Acme"))].

Definition run_a : members :=
  [ (k_context, DEFAULT_CONTEXT);
    (k_cgRunId, JStr (js "run_2024-01-01T00-00-00-000Z__0123456789ab"));
    (js "agentnet:source", JStr (js "https://shop.example/widget"));
    (k_captureDate, JStr (js "2024-01-01T00:00:00.000Z"));
    (k_asserted,
     JObj [ (k_json, JArr [block_product; block_organization]);
            (k_provenance,
             JObj [ (js "evidenceType", JStr (js "jsonld-script"));
                    (js "url", JStr (js "https://shop.example/widget"));
                    (k_capturedAt, JStr (js "2024-01-01T00:00:00.000Z")) ]) ]);
    (k_content,
     JObj [ (k_type, JStr (js "agentnet:Product"));
            (k_price, JNum (js "49.99")) ]) ].

Definition run_b : members :=
  [ (k_context, DEFAULT_CONTEXT);
    (k_cgRunId, JStr (js "run_2024-02-02T00-00-00-000Z__ba9876543210"));
    (k_cgManifestPath, JStr (js "/runs/run_2024-02-02.json"));
    (js "agentnet:source", JStr (js "https://shop.example/widget"));
    (k_captureDate, JStr (js "2024-02-02T00:00:00.000Z"));
    (k_asserted,
     JObj [ (k_json, JArr [block_organization; block_product']);
            (k_provenance,
             JObj [ (js "evidenceType", JStr (js "jsonld-script"));
                    (js "url", JStr (js "https://shop.example/widget"));
                    (k_capturedAt, JStr (js "2024-02-02T00:00:00.000Z")) ]) ]);
    (k_content,
     JObj [ (k_price, JNum (js "49.99"));
            (k_type, JStr (js "agentnet:Product")) ]) ].

(** A page that names one place twice, once with U+00E9 and once with
    U+0065 U+0301: two different blocks whose serializations the collation
    holds equal. *)
Definition block_composed : json :=
  JObj [(js "name", JStr (js "Caf" ++ [233%N]))].
Definition block_decomposed : json :=
  JObj [(js "name", JStr (js "Caf" ++ [101%N; 769%N]))].

Definition accent_envelope (blocks : list json) : members :=
  [ (k_context, DEFAULT_CONTEXT);
    (js "agentnet:source", JStr (js "https://cafe.example/"));
    (k_asserted, JObj [(k_json, JArr blocks); (k_provenance, JNull)]);
    (k_content, JObj []) ].

(** A job whose browser cannot be launched, and a job whose crawl throws
    once the browser is up. *)
Definition launch_fails : jobWorld :=
  mkJobWorld (Throws (js "browserType.launch: executable missing"))
             (Ok tt) (Ok 1%N)
             (mkCrawlRun [] [] (Ok (mkRunSummary 0 0 0 0)))
             (Ok tt) (Ok tt) (Ok tt) (Ok tt) (Ok tt).

Definition crawl_fails : jobWorld :=
  mkJobWorld (Ok tt) (Ok tt) (Ok 1%N)
             (mkCrawlRun [] [] (Throws (js "net::ERR_NAME_NOT_RESOLVED")))
             (Ok tt) (Ok tt) (Ok tt) (Ok tt) (Ok tt).

(** A JSON-LD wrapper with a [@graph] of three entries: an object, a
    string, and an object that has a [@graph] of its own. *)
Definition graph_entries : list json :=
  [ JObj [(js "@type", JStr (js "Product"))];
    JStr (js "stray");
    JObj [(js "@graph", JArr [JObj []])] ].

Definition graph_wrapper : members :=
  [ (js "@context", JStr (js "https://schema.org"));
    (js "@graph", JArr graph_entries) ].

(** A parser that knows the empty object only. *)
Definition parse_empty_object (raw : jsstring) : option json :=
  if str_eqb raw (js "{}") then Some (JObj []) else None.

(** The chain again, each page also linking to another site. *)
Definition stray_site (u : url) : option (list (option url)) :=
  match chain_site u with
  | Some links =>
      Some (Some (mkUrl (js "https://elsewhere.example") [] (js "/") None
                        [] [])
              :: links)
  | None => None
  end.

(** A reading of [new URL(url)] for [https] URLs written without
    characters the parser would escape: the host runs up to the first [/],
    the path up to [?] or [#]. *)
Fixpoint split_at (stop : char -> bool) (s : jsstring) : jsstring * jsstring :=
  match s with
  | [] => ([], [])
  | c :: t =>
      if stop c then ([], s)
      else let (a, b) := split_at stop t in (c :: a, b)
  end.

Definition example_URL_parts (url : jsstring) : option (jsstring * jsstring) :=
  if starts_with (js "https://") url then
    let (host, rest) := split_at (N.eqb 47) (skipn 8 url) in
    let (path, _) := split_at (fun c => N.eqb c 63 || N.eqb c 35) rest in
    match host with
    | [] => None
    | _ => Some (host, match path with [] => js "/" | _ => path end)
    end
  else None.

Definition snapshot_url : jsstring :=
  js "https://shop.example/p/blue~widget.html?x=1".

(** Two cleaned blocks. *)
Definition primary_product : cleanedBlock :=
  mkCleanedBlock
    (JObj [ (k_type, JStr (js "schema:Product"));
            (js "name", JStr (js "Lamp")) ])
    JNull.

Definition primary_organization : cleanedBlock :=
  mkCleanedBlock
    (JObj [ (k_type, JStr (js "schema:Organization")) ])
    JNull.

(** A tree with an unsorted array and unsorted keys. *)
Definition unsorted_tree : json :=
  JObj [ (js "tags", JArr [JStr (js "lamp"); JStr (js "brass")]);
         (js "name", JStr (js "Lamp"));
         (js "7", JObj [ (js "b", JNull); (js "a", JBool true) ]) ].
(* ===================================================================== *)
(** * Part II. Lemmas and theorems                                        *)
(* ===================================================================== *)

Lemma str_eqb_refl (a : jsstring) : str_eqb a a = true.
Proof.
  induction a as [|x a IH]; simpl; [reflexivity|].
  now rewrite N.eqb_refl.
Qed.

Lemma str_eqb_eq (a b : jsstring) : str_eqb a b = true <-> a = b.
Proof.
  split.
  - revert b; induction a as [|x a IH]; intros [|y b]; simpl;
      try discriminate; [reflexivity|].
    intros H. apply andb_true_iff in H as [Hx Hr].
    apply N.eqb_eq in Hx. f_equal; auto.
  - intros ->. apply str_eqb_refl.
Qed.

Lemma str_eqb_neq (a b : jsstring) : str_eqb a b = false <-> a <> b.
Proof.
  rewrite <- str_eqb_eq. destruct (str_eqb a b); split; congruence.
Qed.

Lemma str_eqb_sym (a b : jsstring) : str_eqb a b = str_eqb b a.
Proof.
  destruct (str_eqb a b) eqn:E.
  - apply str_eqb_eq in E. subst. symmetry. apply str_eqb_refl.
  - apply str_eqb_neq in E. symmetry. apply str_eqb_neq. congruence.
Qed.

(* --------------------------------------------------------------------- *)
(** ** Own-property lookup after update                                   *)
(* --------------------------------------------------------------------- *)

Lemma get_app (a b : members) (k : jsstring) :
  get (a ++ b) k = match get a k with Some v => Some v | None => get b k end.
Proof.
  induction a as [|[k' v'] a IH]; simpl; [reflexivity|].
  destruct (str_eqb k k'); auto.
Qed.

Lemma get_replace_prop_same (ms : members) (k : jsstring) (v : json) :
  has ms k = true -> get (replace_prop ms k v) k = Some v.
Proof.
  unfold has. induction ms as [|[k' v'] ms IH]; simpl; [discriminate|].
  destruct (str_eqb k k') eqn:E; simpl; rewrite E; auto.
Qed.

Lemma get_replace_prop_other (ms : members) (k k' : jsstring) (v : json) :
  k' <> k -> get (replace_prop ms k v) k' = get ms k'.
Proof.
  intros Hne. induction ms as [|[k0 v0] ms IH]; simpl; [reflexivity|].
  destruct (str_eqb k k0) eqn:E; simpl.
  - apply str_eqb_eq in E. subst k0.
    apply str_eqb_neq in Hne. now rewrite Hne.
  - rewrite IH. reflexivity.
Qed.

Lemma get_insert_index_same (i : N) (ms : members) (k : jsstring) (v : json) :
  get ms k = None -> get (insert_index i k v ms) k = Some v.
Proof.
  induction ms as [|[k0 v0] ms IH]; simpl; intros H.
  - now rewrite str_eqb_refl.
  - destruct (str_eqb k k0) eqn:E; [discriminate|].
    destruct (array_index k0) as [j|]; [destruct (j <? i)%N|]; simpl;
      rewrite ?E, ?str_eqb_refl; auto.
Qed.

Lemma get_insert_index_other (i : N) (ms : members) (k k' : jsstring)
      (v : json) :
  k' <> k -> get (insert_index i k v ms) k' = get ms k'.
Proof.
  intros Hne. apply str_eqb_neq in Hne.
  induction ms as [|[k0 v0] ms IH]; simpl.
  - now rewrite Hne.
  - destruct (array_index k0) as [j|]; [destruct (j <? i)%N|]; simpl;
      rewrite ?Hne, ?IH; reflexivity.
Qed.

Lemma has_false_get (ms : members) (k : jsstring) :
  has ms k = false -> get ms k = None.
Proof. unfold has. destruct (get ms k); congruence. Qed.

Lemma get_define_prop_same (ms : members) (k : jsstring) (v : json) :
  get (define_prop ms k v) k = Some v.
Proof.
  unfold define_prop. destruct (has ms k) eqn:H.
  - now apply get_replace_prop_same.
  - apply has_false_get in H.
    destruct (array_index k).
    + now apply get_insert_index_same.
    + rewrite get_app, H. simpl. now rewrite str_eqb_refl.
Qed.

Lemma get_define_prop_other (ms : members) (k k' : jsstring) (v : json) :
  k' <> k -> get (define_prop ms k v) k' = get ms k'.
Proof.
  intros Hne. unfold define_prop. destruct (has ms k).
  - now apply get_replace_prop_other.
  - destruct (array_index k).
    + now apply get_insert_index_other.
    + rewrite get_app. destruct (get ms k'); [reflexivity|].
      simpl. apply str_eqb_neq in Hne. now rewrite Hne.
Qed.

(** An assignment is a definition, except for a new [__proto__]. *)
Lemma set_prop_plain (ms : members) (k : jsstring) (v : json) :
  str_eqb k k_proto = false -> set_prop ms k v = define_prop ms k v.
Proof. intros H. unfold set_prop. now rewrite H. Qed.

Lemma set_prop_own (ms : members) (k : jsstring) (v : json) :
  has ms k = true -> set_prop ms k v = define_prop ms k v.
Proof. intros H. unfold set_prop. rewrite H. now rewrite andb_false_r. Qed.

Lemma set_prop_proto (ms : members) (v : json) :
  has ms k_proto = false -> set_prop ms k_proto v = ms.
Proof. intros H. unfold set_prop. now rewrite H. Qed.

Lemma get_set_prop_same (ms : members) (k : jsstring) (v : json) :
  str_eqb k k_proto = false -> get (set_prop ms k v) k = Some v.
Proof.
  intros H. rewrite set_prop_plain by assumption.
  apply get_define_prop_same.
Qed.

Lemma get_set_prop_own (ms : members) (k : jsstring) (v : json) :
  has ms k = true -> get (set_prop ms k v) k = Some v.
Proof.
  intros H. rewrite set_prop_own by assumption.
  apply get_define_prop_same.
Qed.

Lemma get_set_prop_other (ms : members) (k k' : jsstring) (v : json) :
  k' <> k -> get (set_prop ms k v) k' = get ms k'.
Proof.
  intros Hne. unfold set_prop.
  destruct (str_eqb k k_proto && negb (has ms k)); [reflexivity|].
  now apply get_define_prop_other.
Qed.

Lemma get_delete_same (ms : members) (k : jsstring) :
  get (delete ms k) k = None.
Proof.
  unfold delete. induction ms as [|[k0 v0] ms IH]; simpl; [reflexivity|].
  destruct (str_eqb k k0) eqn:E; simpl; [assumption|].
  now rewrite E.
Qed.

Lemma get_delete_other (ms : members) (k k' : jsstring) :
  k' <> k -> get (delete ms k) k' = get ms k'.
Proof.
  intros Hne. unfold delete.
  induction ms as [|[k0 v0] ms IH]; simpl; [reflexivity|].
  destruct (str_eqb k k0) eqn:E; simpl.
  - apply str_eqb_eq in E. subst k0.
    apply str_eqb_neq in Hne. now rewrite Hne.
  - now rewrite IH.
Qed.

Lemma get_In (ms : members) (k : jsstring) (v : json) :
  NoDup (keys ms) -> In (k, v) ms -> get ms k = Some v.
Proof.
  induction ms as [|[k0 v0] ms IH]; simpl; intros Hnd Hin; [contradiction|].
  inversion Hnd as [|? ? Hnotin Hnd']; subst.
  destruct Hin as [Heq|Hin].
  - inversion Heq; subst. now rewrite str_eqb_refl.
  - destruct (str_eqb k k0) eqn:E.
    + apply str_eqb_eq in E. subst k0. exfalso. apply Hnotin.
      change k with (fst (k, v)). now apply in_map.
    + now apply IH.
Qed.

Lemma get_Some_In (ms : members) (k : jsstring) (v : json) :
  get ms k = Some v -> In (k, v) ms.
Proof.
  induction ms as [|[k0 v0] ms IH]; simpl; [discriminate|].
  destruct (str_eqb k k0) eqn:E.
  - apply str_eqb_eq in E. intros [= ->]. subst. now left.
  - intros H. right. now apply IH.
Qed.

Lemma get_None_keys (ms : members) (k : jsstring) :
  get ms k = None <-> ~ In k (keys ms).
Proof.
  induction ms as [|[k0 v0] ms IH]; simpl.
  - tauto.
  - destruct (str_eqb k k0) eqn:E.
    + apply str_eqb_eq in E. subst. split; [discriminate|tauto].
    + apply str_eqb_neq in E. rewrite IH. split.
      * intros H [H1|H1]; [congruence|tauto].
      * tauto.
Qed.

(* --------------------------------------------------------------------- *)
(** ** Tiny-price guardrail                                               *)
(* --------------------------------------------------------------------- *)

Section GuardTinyPriceFacts.

Variable Number : json -> jsnum.
Variable number_json : Q -> json.

Local Abbreviation guard := (guardTinyPrice Number number_json).

Lemma tiny_spec (q : Q) :
  tiny (Finite q) = true <-> (0 # 1 < q /\ q < 5 # 1)%Q.
Proof.
  unfold tiny, Qltb. rewrite andb_true_iff, !negb_true_iff.
  split.
  - intros [H1 H2]. split; apply Qnot_le_lt; intros H;
      apply Qle_bool_iff in H; congruence.
  - intros [H1 H2]. split.
    + destruct (Qle_bool q (0 # 1)) eqn:E; [|reflexivity].
      apply Qle_bool_iff in E. exfalso. now apply (Qlt_not_le _ _ H1).
    + destruct (Qle_bool (5 # 1) q) eqn:E; [|reflexivity].
      apply Qle_bool_iff in E. exfalso. now apply (Qlt_not_le _ _ H2).
Qed.

(** C3. Tiny-price guardrail: a price that converts to a finite number
    strictly between 0 and the threshold 5 is removed from the content and
    the report receives a [priceGuardrail] record with reason
    [tiny_price]; when the price is absent, does not convert to a finite
    number, or converts to a number that is zero, negative or at least 5,
    content and report come back unchanged. *)
Theorem guardTinyPrice_contract :
  (forall (cm report : members) (p : json) (q : Q),
      resolved_price (JObj cm) = Some p ->
      Number p = Finite q ->
      (0 # 1 < q /\ q < 5 # 1)%Q ->
      exists entry,
        guard (JObj cm) report =
          (JObj (delete cm k_price),
           set_prop report (js "priceGuardrail") (JObj entry)) /\
        get (delete cm k_price) k_price = None /\
        (forall k, k <> k_price -> get (delete cm k_price) k = get cm k) /\
        get (set_prop report (js "priceGuardrail") (JObj entry))
            (js "priceGuardrail") = Some (JObj entry) /\
        get entry (js "reason") = Some (JStr (js "tiny_price")) /\
        get entry (js "dropped") = Some (JBool true))
  /\
  (forall (content : json) (report : members),
      match resolved_price content with
      | None => True
      | Some p =>
          match Number p with
          | Finite q => (q <= 0 # 1 \/ 5 # 1 <= q)%Q
          | _ => True
          end
      end ->
      guard content report = (content, report)).
Proof.
  split.
  - intros cm report p q Hp Hn [H0 H5].
    exists [ (js "dropped", JBool true);
             (js "reason", JStr (js "tiny_price"));
             (js "threshold", JNum (js "5"));
             (js "observed", number_json q) ].
    assert (Ht : tiny (Finite q) = true) by (apply tiny_spec; now split).
    repeat split.
    + unfold guardTinyPrice. simpl in Hp.
      destruct (get cm k_price) as [p'|]; [|discriminate].
      destruct p'; try discriminate; inversion Hp; subst p;
        rewrite Hn, Ht; reflexivity.
    + apply get_delete_same.
    + intros k Hk. now apply get_delete_other.
    + now apply get_set_prop_same.
  - intros content report H.
    unfold guardTinyPrice. destruct content; try reflexivity.
    simpl in H. destruct (get ms k_price) as [p|]; [|reflexivity].
    assert (Hgen : match Number p with
                   | Finite q => (q <= 0 # 1 \/ 5 # 1 <= q)%Q
                   | _ => True
                   end ->
                   match Number p with
                   | Finite q =>
                       if tiny (Finite q)
                       then (JObj (delete ms k_price),
                             set_prop report (js "priceGuardrail")
                                      (priceGuardrail_entry number_json q))
                       else (JObj ms, report)
                   | _ => (JObj ms, report)
                   end = (JObj ms, report)).
    { destruct (Number p) as [| |q]; try reflexivity.
      intros Hq. destruct (tiny (Finite q)) eqn:Ht; [|reflexivity].
      apply tiny_spec in Ht. destruct Ht as [H0 H5]. exfalso.
      destruct Hq as [Hq|Hq].
      - now apply (Qlt_not_le _ _ H0).
      - now apply (Qlt_not_le _ _ H5). }
    destruct p; auto.
Qed.

End GuardTinyPriceFacts.

(** The guardrail on a content object priced ["2.50"], and on one priced
    ["49.99"]. *)
Lemma guardTinyPrice_contract_witness :
  (exists entry,
     guardTinyPrice example_Number example_number_json
       (JObj [(js "agentnet:name", JStr (js "Widget"));
              (k_price, JStr (js "2.50"))]) []
     = (JObj [(js "agentnet:name", JStr (js "Widget"))],
        [(js "priceGuardrail", JObj entry)]) /\
     get entry (js "reason") = Some (JStr (js "tiny_price")))
  /\
  guardTinyPrice example_Number example_number_json
    (JObj [(k_price, JStr (js "49.99"))]) []
  = (JObj [(k_price, JStr (js "49.99"))], []).
Proof.
  split.
  - destruct (proj1 (guardTinyPrice_contract example_Number
                       example_number_json)
                [(js "agentnet:name", JStr (js "Widget"));
                 (k_price, JStr (js "2.50"))] []
                (JStr (js "2.50")) (Qmake 250 100) eq_refl eq_refl
                (conj eq_refl eq_refl))
      as (entry & Heq & _ & _ & _ & Hreason & _).
    exists entry. split; [exact Heq|exact Hreason].
  - apply (proj2 (guardTinyPrice_contract example_Number
                    example_number_json)).
    vm_compute. right. discriminate.
Defined.


(* --------------------------------------------------------------------- *)
(** ** Merge policy                                                       *)
(* --------------------------------------------------------------------- *)

Lemma reserved_key_false (k : jsstring) :
  reserved_key k = false ->
  k <> k_context /\ k <> k_type /\ k <> k_inferred.
Proof.
  unfold reserved_key. intros H.
  apply orb_false_iff in H as [H H3]. apply orb_false_iff in H as [H1 H2].
  repeat split; now apply str_eqb_neq.
Qed.

Lemma merge_entry_get_other (orig : members) (ow : bool) (out : members)
      (kv : jsstring * json) (k : jsstring) :
  k <> fst kv -> get (merge_entry orig ow out kv) k = get out k.
Proof.
  destruct kv as [k0 v0]. simpl. intros Hne.
  destruct (reserved_key k0); [reflexivity|].
  destruct (negb (has orig k0) || isEmptyExplicit (get orig k0) || ow);
    [|reflexivity].
  now apply get_set_prop_other.
Qed.

Lemma merge_loop_get_absent (orig : members) (ow : bool) (inf out : members)
      (k : jsstring) :
  ~ In k (keys inf) ->
  get (fold_left (merge_entry orig ow) inf out) k = get out k.
Proof.
  revert out. induction inf as [|kv inf IH]; simpl; intros out Hk;
    [reflexivity|].
  rewrite IH by tauto. apply merge_entry_get_other. intros ->. tauto.
Qed.

(** The kept values, in terms of the two tests of the loop. *)
Lemma explicit_nonempty_tests (orig : members) (k : jsstring) :
  explicit_nonempty orig k
  = has orig k && negb (isEmptyExplicit (get orig k)).
Proof.
  unfold explicit_nonempty, has, isEmptyExplicit.
  destruct (get orig k) as [[| | |s| |]|]; reflexivity.
Qed.

Lemma merge_loop_get_explicit (orig inf out : members) (k : jsstring) :
  explicit_nonempty orig k = true ->
  get (fold_left (merge_entry orig false) inf out) k = get out k.
Proof.
  intros He. revert out. induction inf as [|[k0 v0] inf IH]; intros out;
    simpl; [reflexivity|].
  rewrite IH. destruct (reserved_key k0); [reflexivity|].
  destruct (str_eqb k k0) eqn:E.
  - apply str_eqb_eq in E. subst k0. rewrite explicit_nonempty_tests in He.
    apply andb_prop in He as [H1 H2]. apply negb_true_iff in H2.
    now rewrite H1, H2.
  - apply str_eqb_neq in E.
    destruct (negb (has orig k0) || isEmptyExplicit (get orig k0) || false);
      [|reflexivity].
    now apply get_set_prop_other.
Qed.

(** What the loop leaves under an inferred key: the value it found when
    the asserted one is kept, and otherwise what the assignment
    [out[k] = v] gives. *)
Lemma merge_loop_get (orig : members) (ow : bool) (inf out : members)
      (k : jsstring) (v : json) :
  NoDup (keys inf) -> In (k, v) inf -> reserved_key k = false ->
  get (fold_left (merge_entry orig ow) inf out) k =
    if negb ow && explicit_nonempty orig k then get out k
    else get (set_prop out k v) k.
Proof.
  revert out. induction inf as [|[k0 v0] inf IH];
    intros out Hnd Hin Hres; [contradiction|].
  cbn [fold_left]. simpl in Hnd.
  inversion Hnd as [|? ? Hnotin Hnd']; subst.
  destruct Hin as [Heq|Hin].
  - inversion Heq; subst k0 v0.
    rewrite merge_loop_get_absent by assumption.
    rewrite explicit_nonempty_tests. cbn [merge_entry]. rewrite Hres.
    destruct ow, (has orig k), (isEmptyExplicit (get orig k)); reflexivity.
  - rewrite IH by assumption.
    assert (Hne : k <> k0).
    { intros ->. apply Hnotin. change k0 with (fst (k0, v)).
      now apply in_map. }
    pose proof (merge_entry_get_other orig ow out (k0, v0) k Hne) as Hout.
    set (out' := merge_entry orig ow out (k0, v0)) in *.
    destruct (negb ow && explicit_nonempty orig k); [exact Hout|].
    unfold set_prop, has. rewrite Hout.
    destruct (str_eqb k k_proto && negb _); [exact Hout|].
    now rewrite !get_define_prop_same.
Qed.

(** The last step of the merge touches the provenance only. *)
Lemma merge_get_loop (original inferred : option json) (ow : bool)
      (k : jsstring) :
  k <> k_inferred ->
  get (mergeCapsules original inferred ow) k
  = get (fold_left (merge_entry (asObject original) ow) (asObject inferred)
           (set_prop
              (set_prop (asObject original) k_context
                 (some_or DEFAULT_CONTEXT
                    (or_else (get (asObject original) k_context)
                       (or_else (get (asObject inferred) k_context)
                          (Some DEFAULT_CONTEXT)))))
              k_type
              (some_or (JStr (js "agentnet:Thing"))
                 (or_else (get (asObject original) k_type)
                    (or_else (get (asObject inferred) k_type)
                       (Some (JStr (js "agentnet:Thing")))))))) k.
Proof.
  intros Hk. unfold mergeCapsules. cbv zeta.
  rewrite (get_set_prop_other (asObject original) k_context k_type)
    by discriminate.
  destruct (get (asObject inferred) k_inferred) as [ip|].
  - destruct (truthy ip); [now rewrite get_set_prop_other|].
    destruct (negb _); [now rewrite get_set_prop_other|reflexivity].
  - destruct (negb _); [now rewrite get_set_prop_other|reflexivity].
Qed.

Lemma merge_loop_get_reserved (orig : members) (ow : bool)
      (inf out : members) (k : jsstring) :
  reserved_key k = true ->
  get (fold_left (merge_entry orig ow) inf out) k = get out k.
Proof.
  intros Hr. revert out. induction inf as [|[k0 v0] inf IH]; intros out;
    simpl; [reflexivity|].
  rewrite IH. destruct (reserved_key k0) eqn:E; [reflexivity|].
  destruct (negb (has orig k0) || isEmptyExplicit (get orig k0) || ow);
    [|reflexivity].
  apply get_set_prop_other. intros ->. congruence.
Qed.

(** The merged value under an inferred key that is not reserved. *)
Lemma merge_get_inferred (orig inf : members) (ow : bool) (k : jsstring)
      (v : json) :
  NoDup (keys inf) -> In (k, v) inf -> reserved_key k = false ->
  get (mergeCapsules (Some (JObj orig)) (Some (JObj inf)) ow) k
  = if negb ow && explicit_nonempty orig k then get orig k
    else if str_eqb k k_proto && negb (has orig k) then None
         else Some v.
Proof.
  intros Hnd Hin Hres.
  destruct (reserved_key_false k Hres) as (Hc & Ht & Hi).
  rewrite merge_get_loop by assumption. cbn [asObject].
  rewrite (merge_loop_get orig ow inf _ k v Hnd Hin Hres).
  assert (Hget : forall a b,
             get (set_prop (set_prop orig k_context a) k_type b) k
             = get orig k).
  { intros a b. now rewrite !get_set_prop_other by assumption. }
  destruct (negb ow && explicit_nonempty orig k); [apply Hget|].
  unfold set_prop at 1. unfold has at 1. rewrite Hget.
  fold (has orig k).
  destruct (str_eqb k k_proto && negb (has orig k)) eqn:E.
  - rewrite Hget. apply andb_prop in E as [_ E].
    apply negb_true_iff in E. now apply has_false_get.
  - apply get_define_prop_same.
Qed.

(** C2. What [mergeCapsules] does with an inferred key other than
    [@context], [@type] and [agentnet:inferred] when [overwriteExplicit]
    is off.  The inferred value is written when the asserted object has
    no such property or holds a string that trims to nothing; every other
    asserted value is kept, [null], [[]] and [{}] included, which is where
    the code departs from the claim; and an inferred [__proto__] the
    asserted object lacks is never written.  The claim's own example
    holds. *)
Theorem merge_keeps_empty_asserted :
  (forall (orig inf : members) (k : jsstring) (v : json),
      NoDup (keys inf) ->
      In (k, v) inf ->
      reserved_key k = false ->
      get (mergeCapsules (Some (JObj orig)) (Some (JObj inf)) false) k
      = match get orig k with
        | Some (JStr s) => if blank s then Some v else Some (JStr s)
        | Some a => Some a
        | None => if str_eqb k k_proto then None else Some v
        end)
  /\
  (let merged :=
     mergeCapsules
       (Some (JObj [(js "name", JStr (js "Acme"))]))
       (Some (JObj [(js "name", JStr (js "Other"));
                    (js "email", JStr (js "x@y.com"))]))
       false in
   get merged (js "name") = Some (JStr (js "Acme")) /\
   get merged (js "email") = Some (JStr (js "x@y.com"))).
Proof.
  split; [|split; reflexivity].
  intros orig inf k v Hnd Hin Hres.
  rewrite (merge_get_inferred orig inf false k v Hnd Hin Hres).
  unfold explicit_nonempty, has.
  destruct (get orig k) as [[| | |s| |]|]; simpl;
    rewrite ?andb_false_r, ?andb_true_r; try reflexivity.
  destruct (blank s); reflexivity.
Qed.

(** An asserted [null] stands although the inferred object has a value
    for the key. *)
Lemma merge_keeps_empty_asserted_witness :
  get (mergeCapsules
         (Some (JObj [(js "name", JNull)]))
         (Some (JObj [(js "name", JStr (js "Other"));
                      (js "email", JStr (js "x@y.com"))]))
         false) (js "name") = Some JNull.
Proof.
  refine (proj1 merge_keeps_empty_asserted
            [(js "name", JNull)]
            [(js "name", JStr (js "Other")); (js "email", JStr (js "x@y.com"))]
            (js "name") (JStr (js "Other")) _ _ _).
  - repeat constructor; simpl; intuition discriminate.
  - simpl. left. reflexivity.
  - reflexivity.
Defined.

(* --------------------------------------------------------------------- *)
(** ** JSON-LD extractor                                                  *)
(* --------------------------------------------------------------------- *)

Section ExtractorFacts.

Variable JSON_parse : jsstring -> option json.
Variable sha256Hex : jsstring -> jsstring.
Variables url capturedAt : jsstring.
Variable flattenGraph : bool.

Local Abbreviation objects := (script_objects JSON_parse flattenGraph).
Local Abbreviation rejected := (script_rejected JSON_parse).
Local Abbreviation step :=
  (extract_script JSON_parse sha256Hex url capturedAt flattenGraph).
Local Abbreviation run :=
  (extract_scripts JSON_parse sha256Hex url capturedAt flattenGraph).

Let invalid : jsstring := js "Invalid JSON (JSON.parse failed)".

Let blocks_of (i : nat) (html : jsstring) : list block :=
  map (fun obj =>
         mkBlock obj i
           (script_provenance sha256Hex url capturedAt (trim html) i))
      (objects html).

Let errors_of (i : nat) (html : jsstring) : list parseError :=
  if rejected html then [mkParseError i invalid] else [].

Lemma extract_script_eq (acc : list block * list parseError) (i : nat)
      (html : jsstring) :
  step acc i html = (fst acc ++ blocks_of i html, snd acc ++ errors_of i html).
Proof.
  unfold extract_script, blocks_of, errors_of, script_objects,
    script_rejected.
  destruct (trim html) as [|c raw] eqn:E.
  - simpl. rewrite !app_nil_r. now destruct acc.
  - destruct (negb (truthy (safeJsonParse JSON_parse (c :: raw)))).
    + simpl. now rewrite app_nil_r.
    + now rewrite app_nil_r.
Qed.

Lemma extract_scripts_blocks (scripts : list jsstring) :
  forall acc i b,
    In b (fst (run acc i scripts)) <->
    In b (fst acc) \/
    exists j html, nth_error scripts j = Some html /\
                   In b (blocks_of (i + j) html).
Proof.
  induction scripts as [|h rest IH]; intros acc i b; simpl.
  - split; [tauto|]. intros [H|(j & html & Hn & _)]; [assumption|].
    now destruct j.
  - rewrite IH, extract_script_eq. simpl. rewrite in_app_iff. split.
    + intros [[H|H]|(j & html & Hn & Hb)].
      * now left.
      * right. exists 0, h. rewrite Nat.add_0_r. now split.
      * right. exists (S j), html. rewrite Nat.add_succ_r. now split.
    + intros [H|(j & html & Hn & Hb)].
      * left. now left.
      * destruct j as [|j]; simpl in Hn.
        -- inversion Hn; subst. rewrite Nat.add_0_r in Hb. left. now right.
        -- right. exists j, html. rewrite Nat.add_succ_r in Hb. now split.
Qed.

Lemma extract_scripts_errors (scripts : list jsstring) :
  forall acc i e,
    In e (snd (run acc i scripts)) <->
    In e (snd acc) \/
    exists j html, nth_error scripts j = Some html /\
                   In e (errors_of (i + j) html).
Proof.
  induction scripts as [|h rest IH]; intros acc i e; simpl.
  - split; [tauto|]. intros [H|(j & html & Hn & _)]; [assumption|].
    now destruct j.
  - rewrite IH, extract_script_eq. simpl. rewrite in_app_iff. split.
    + intros [[H|H]|(j & html & Hn & Hb)].
      * now left.
      * right. exists 0, h. rewrite Nat.add_0_r. now split.
      * right. exists (S j), html. rewrite Nat.add_succ_r. now split.
    + intros [H|(j & html & Hn & Hb)].
      * left. now left.
      * destruct j as [|j]; simpl in Hn.
        -- inversion Hn; subst. rewrite Nat.add_0_r in Hb. left. now right.
        -- right. exists j, html. rewrite Nat.add_succ_r in Hb. now split.
Qed.

Lemma rejected_no_objects (html : jsstring) :
  rejected html = true -> objects html = [].
Proof.
  unfold script_rejected, script_objects.
  destruct (trim html); [reflexivity|].
  now intros ->.
Qed.

(** C6 (amended). Extractor contract: [rawCount] is the number of script
    blocks whatever their content; [found] holds exactly when some block
    contributes at least one structured object, that is when the returned
    block list is not empty; a block whose non-blank text the parser
    rejects (or turns into a falsy value) is recorded as a parse error
    with its index and the fixed message and contributes no returned
    block; every recorded parse error comes from such a block. *)
Theorem extractJsonLd_contract (scripts : list jsstring) :
  let r := extractJsonLd JSON_parse sha256Hex scripts url capturedAt
             flattenGraph in
  rawCount r = List.length scripts /\
  (found r = true <-> blocks r <> []) /\
  (found r = true <->
   exists i html, nth_error scripts i = Some html /\ objects html <> []) /\
  (forall i html,
      nth_error scripts i = Some html ->
      rejected html = true ->
      In (mkParseError i invalid) (parseErrors r) /\
      forall b, In b (blocks r) -> block_scriptIndex b <> i) /\
  (forall e, In e (parseErrors r) ->
             pe_message e = invalid /\
             exists html, nth_error scripts (pe_index e) = Some html /\
                          rejected html = true).
Proof.
  unfold extractJsonLd. cbn [rawCount found blocks parseErrors].
  set (r := run ([], []) 0 scripts).
  assert (Hb : forall b, In b (fst r) <->
               exists j html, nth_error scripts j = Some html /\
                              In b (blocks_of j html)).
  { intros b. unfold r. rewrite extract_scripts_blocks. simpl. tauto. }
  assert (He : forall e, In e (snd r) <->
               exists j html, nth_error scripts j = Some html /\
                              In e (errors_of j html)).
  { intros e. unfold r. rewrite extract_scripts_errors. simpl. tauto. }
  assert (Hfound : match fst r with [] => false | _ :: _ => true end = true
                   <-> fst r <> []).
  { destruct (fst r); split; congruence. }
  split; [reflexivity|]. split; [exact Hfound|]. split; [|split].
  - rewrite Hfound. split.
    + intros Hne. destruct (fst r) as [|b l] eqn:E; [congruence|].
      destruct (proj1 (Hb b)) as (j & html & Hn & Hin); [now left|].
      exists j, html. split; [assumption|].
      unfold blocks_of in Hin. intros Hnil. rewrite Hnil in Hin.
      contradiction.
    + intros (i & html & Hn & Hobj) Hnil.
      destruct (objects html) as [|o os] eqn:E; [congruence|].
      assert (Hin : In (mkBlock o i
                          (script_provenance sha256Hex url capturedAt
                             (trim html) i)) (fst r)).
      { apply Hb. exists i, html. split; [assumption|].
        unfold blocks_of. rewrite E. now left. }
      rewrite Hnil in Hin. contradiction.
  - intros i html Hn Hrej. split.
    + apply He. exists i, html. split; [assumption|].
      unfold errors_of. rewrite Hrej. now left.
    + intros b Hin Hidx. apply Hb in Hin.
      destruct Hin as (j & html' & Hn' & Hin).
      unfold blocks_of in Hin. apply in_map_iff in Hin.
      destruct Hin as (o & <- & Ho). simpl in Hidx. subst j.
      rewrite Hn in Hn'. inversion Hn'; subst html'.
      rewrite (rejected_no_objects html Hrej) in Ho. contradiction.
  - intros e Hin. apply He in Hin. destruct Hin as (j & html & Hn & Hin).
    unfold errors_of in Hin. destruct (rejected html) eqn:Hrej;
      [|contradiction].
    destruct Hin as [<-|[]]. simpl. split; [reflexivity|].
    exists html. now split.
Qed.

End ExtractorFacts.

(** C6, as stated, fails: a script block holding the empty array parses,
    yet [found] is false, and nothing is recorded as a parse error. *)
Lemma extractJsonLd_found_counterexample :
  let scripts := [js " [] "] in
  let r := extractJsonLd example_parse (fun _ => js "00") scripts
             (js "https://example.com/") (js "2024-01-01T00:00:00.000Z")
             true in
  ~ (found r = true <->
     exists html, In html scripts /\ script_parsed example_parse html = true)
  /\ parseErrors r = [].
Proof.
  split; [|reflexivity].
  intros [_ H]. enough (false = true) by discriminate.
  apply H. exists (js " [] "). split; [now left|reflexivity].
Qed.

(** The contract on a page with an unparsable block, a blank block and a
    block that holds one object. *)
Lemma extractJsonLd_contract_witness :
  let parse := fun raw =>
    if str_eqb raw (js "{}") then Some (JObj []) else None in
  let scripts := [js "{oops"; js "  "; js "{}"] in
  let r := extractJsonLd parse (fun _ => js "00") scripts
             (js "https://example.com/") (js "t") true in
  In (mkParseError 0 (js "Invalid JSON (JSON.parse failed)"))
     (parseErrors r)
  /\ (forall b, In b (blocks r) -> block_scriptIndex b <> 0).
Proof.
  intros parse scripts r.
  exact (proj1 (proj2 (proj2 (proj2
           (extractJsonLd_contract parse (fun _ => js "00")
              (js "https://example.com/") (js "t") true scripts))))
           0 (js "{oops") eq_refl eq_refl).
Defined.

(* --------------------------------------------------------------------- *)
(** ** Validation gate                                                    *)
(* --------------------------------------------------------------------- *)

Lemma buildEnvelope_report (cfg : settings) (a : envelopeArgs) :
  exists rm, get (buildEnvelope cfg a) k_report = Some (JObj rm).
Proof.
  unfold buildEnvelope. rewrite !get_app.
  destruct (a_manifestPath a);
    (destruct (a_inferredMeta a) as [m|];
     [destruct (truthy m && negb match own_props m with
                                 | [] => true | _ :: _ => false end)|]);
    cbn; eexists; reflexivity.
Qed.

Lemma upsert_row_In (r : capsuleRow) (table : list capsuleRow) :
  In r (upsert_row r table).
Proof.
  induction table as [|x t IH]; simpl; [now left|].
  destruct (same_capsule r x); [now left|now right].
Qed.


Section ValidationGateFacts.

Variable localeCompare : jsstring -> jsstring -> comparison.
Variable sha256_hex : jsstring -> jsstring.
Variable Number : json -> jsnum.
Variable number_json : Q -> json.

Local Abbreviation guarded := (guard_envelope Number number_json).
Local Abbreviation page :=
  (persist_page localeCompare sha256_hex Number number_json).

Lemma guard_envelope_report (envelope : members) (rm : members) :
  get envelope k_report = Some (JObj rm) ->
  exists envelope' rm',
    guarded envelope = Some envelope' /\
    get envelope' k_report = Some (JObj rm').
Proof.
  intros H. unfold guard_envelope. rewrite H.
  destruct (guardTinyPrice Number number_json
              (some_or JNull (get envelope k_content)) rm)
    as [content' report'].
  eexists. exists report'. split; [reflexivity|].
  now apply get_set_prop_same.
Qed.


End ValidationGateFacts.


(* --------------------------------------------------------------------- *)
(** ** Job handler and run manifest                                       *)
(* --------------------------------------------------------------------- *)

Lemma manifest_writes_app (a b : list jobEvent) :
  manifest_writes (a ++ b) = manifest_writes a + manifest_writes b.
Proof.
  unfold manifest_writes. now rewrite filter_app, length_app.
Qed.

(** Failures of the browser set-up happen before the [try]: the handler
    rejects without any call of [writeRunManifestAt]. *)
Lemma job_setup_failure (w : jobWorld) (runId manifestPath url e : jsstring) :
  w_launch w = Throws e \/
  (w_launch w = Ok tt /\ w_newContext w = Throws e) ->
  manifest_writes (fst (job_handler w runId manifestPath url)) = 0 /\
  snd (job_handler w runId manifestPath url) = Rejected e.
Proof.
  unfold job_handler. intros [H|[H1 H2]].
  - rewrite H. split; reflexivity.
  - rewrite H1, H2. split; reflexivity.
Qed.

(** The [catch] block calls [writeRunManifestAt] once, with the fatal
    entry appended, provided closing the browser does not throw. *)
Lemma job_catch_writes (w : jobWorld) (url e : jsstring) (meta : runMeta)
      (trace : list jobEvent) :
  w_close_in_catch w = Ok tt ->
  exists manifest written msg,
    job_catch w url meta trace e =
      (trace ++ [Ev_close; Ev_writeRunManifest manifest written; Ev_appendLog],
       Rejected msg) /\
    In (mkErrorEntry url e true) (rm_errors manifest) /\
    rm_capsules manifest = rm_capsules meta /\
    (w_appendLog w = Ok tt -> msg = e).
Proof.
  intros Hc. unfold job_catch. rewrite Hc.
  destruct (w_appendLog w) as [[]|e3] eqn:Hl;
    eexists; eexists; eexists; (split; [reflexivity|]);
    (split; [apply in_or_app; right; now left|]);
    (split; [reflexivity|]); congruence.
Qed.

(** Once the browser is set up and can be closed, every execution calls
    [writeRunManifestAt]: once when the final write succeeds or when the
    failure occurs before it, and a second time from the [catch] block
    when the final write itself throws. *)
Lemma job_manifest_after_setup (w : jobWorld)
      (runId manifestPath url : jsstring) :
  w_launch w = Ok tt -> w_newContext w = Ok tt ->
  w_close_in_catch w = Ok tt ->
  let n := manifest_writes (fst (job_handler w runId manifestPath url)) in
  (n = 1 \/ n = 2) /\
  (n = 2 ->
   succeeded (w_upsertNode w) = true /\
   succeeded (cr_result (w_crawlSite w)) = true /\
   succeeded (w_close w) = true /\
   succeeded (w_writeManifest w) = false).
Proof.
  intros Hl Hn Hc. unfold job_handler. rewrite Hl, Hn.
  destruct (w_upsertNode w) as [nodeId|e].
  2:{ destruct (job_catch_writes w url e
                  (mkRunMeta runId false None (mkRunSummary 0 0 0 0) [] []
                     manifestPath)
                  [Ev_launch; Ev_newContext; Ev_upsertNode] Hc)
        as (m & wr & msg & -> & _).
      cbn. split; [now left|discriminate]. }
  destruct (cr_result (w_crawlSite w)) as [stats|e].
  2:{ match goal with |- context [job_catch w url ?meta ?tr e] =>
        destruct (job_catch_writes w url e meta tr Hc)
          as (m & wr & msg & -> & _) end.
      cbn. split; [now left|discriminate]. }
  destruct (w_close w) as [[]|e].
  2:{ match goal with |- context [job_catch w url ?meta ?tr e] =>
        destruct (job_catch_writes w url e meta tr Hc)
          as (m & wr & msg & -> & _) end.
      cbn. split; [now left|discriminate]. }
  destruct (w_writeManifest w) as [[]|e].
  - cbn. split; [now left|discriminate].
  - match goal with |- context [job_catch w url ?meta ?tr e] =>
      destruct (job_catch_writes w url e meta tr Hc)
        as (m & wr & msg & -> & _) end.
    cbn. split; [now right|]. intros _. repeat split.
Qed.

(** C9. Manifest on every exit path fails for the browser set-up, which
    the handler awaits before its [try]: a job whose [chromium.launch] or
    [browser.newContext] rejects ends with that error and no call of
    [writeRunManifestAt] at all.  Once the browser is set up (and closing
    it in the [catch] block does not throw), every execution, successful
    or failed, calls [writeRunManifestAt] at least once. *)
Theorem job_launch_failure_skips_manifest :
  (forall (w : jobWorld) (runId manifestPath url e : jsstring),
      w_launch w = Throws e \/
      (w_launch w = Ok tt /\ w_newContext w = Throws e) ->
      manifest_writes (fst (job_handler w runId manifestPath url)) = 0 /\
      snd (job_handler w runId manifestPath url) = Rejected e)
  /\
  (forall (w : jobWorld) (runId manifestPath url : jsstring),
      w_launch w = Ok tt -> w_newContext w = Ok tt ->
      w_close_in_catch w = Ok tt ->
      1 <= manifest_writes (fst (job_handler w runId manifestPath url))).
Proof.
  split.
  - intros w runId manifestPath url e H. now apply job_setup_failure.
  - intros w runId manifestPath url Hl Hn Hc.
    pose proof (job_manifest_after_setup w runId manifestPath url Hl Hn Hc)
      as H.
    cbv zeta in H. destruct H as [[H|H] _]; rewrite H; lia.
Qed.

(** A job whose browser cannot be launched, and one whose crawl throws
    after the browser is up. *)
Lemma job_launch_failure_skips_manifest_witness :
  (manifest_writes
     (fst (job_handler launch_fails (js "run_1") (js "runs/run_1.json")
                       (js "https://example.com/"))) = 0
   /\ snd (job_handler launch_fails (js "run_1") (js "runs/run_1.json")
                       (js "https://example.com/"))
      = Rejected (js "browserType.launch: executable missing"))
  /\ 1 <= manifest_writes
            (fst (job_handler crawl_fails (js "run_2") (js "runs/run_2.json")
                              (js "https://example.com/"))).
Proof.
  split.
  - apply (proj1 job_launch_failure_skips_manifest). left. reflexivity.
  - apply (proj2 job_launch_failure_skips_manifest); reflexivity.
Defined.

(* --------------------------------------------------------------------- *)
(** ** URL normalisation and frontier                                     *)
(* --------------------------------------------------------------------- *)

Lemma params_eqb_eq (a b : list (jsstring * jsstring)) :
  params_eqb a b = true <-> a = b.
Proof.
  unfold params_eqb. split.
  - revert b. induction a as [|[k v] a IH]; intros [|[k' v'] b]; simpl;
      try discriminate; [reflexivity|].
    intros H. apply andb_true_iff in H as [Hlen H].
    apply andb_true_iff in H as [Hkv Hrest].
    apply andb_true_iff in Hkv as [Hk Hv].
    apply str_eqb_eq in Hk. apply str_eqb_eq in Hv. subst.
    f_equal. apply IH. now rewrite Hlen, Hrest.
  - intros <-. rewrite Nat.eqb_refl. simpl.
    induction a as [|[k v] a IH]; simpl; [reflexivity|].
    now rewrite !str_eqb_refl, IH.
Qed.

Lemma search_eqb_eq (a b : option jsstring) :
  search_eqb a b = true <-> a = b.
Proof.
  destruct a as [x|], b as [y|]; simpl; try (split; congruence).
  rewrite str_eqb_eq. split; congruence.
Qed.

Lemma url_eqb_eq (a b : url) : url_eqb a b = true <-> a = b.
Proof.
  unfold url_eqb.
  rewrite !andb_true_iff, !str_eqb_eq, params_eqb_eq, search_eqb_eq.
  destruct a, b; simpl. split.
  - intros [[[[[-> ->] ->] ->] ->] ->]. reflexivity.
  - intros [= -> -> -> -> -> ->]. repeat split; reflexivity.
Qed.

Lemma visited_has_true (v : list item) (u : url) :
  visited_has v u = true <-> In u (map fst v).
Proof.
  unfold visited_has. rewrite existsb_exists, in_map_iff. split.
  - intros (x & Hin & Heq). apply url_eqb_eq in Heq. now exists x.
  - intros (x & Heq & Hin). exists x. split; [assumption|].
    now apply url_eqb_eq.
Qed.

Lemma visited_has_false (v : list item) (u : url) :
  visited_has v u = false <-> ~ In u (map fst v).
Proof.
  rewrite <- visited_has_true. destruct (visited_has v u); split; congruence.
Qed.

Lemma filter_idem {A : Type} (f : A -> bool) (l : list A) :
  filter f (filter f l) = filter f l.
Proof.
  induction l as [|x l IH]; simpl; [reflexivity|].
  destruct (f x) eqn:E; simpl; rewrite ?E, IH; reflexivity.
Qed.

Lemma no_tracking_kept (ps : list (jsstring * jsstring)) :
  existsb (fun kv => is_tracking_key (fst kv))
          (filter (fun kv => negb (is_tracking_key (fst kv))) ps) = false.
Proof.
  induction ps as [|kv ps IH]; simpl; [reflexivity|].
  destruct (is_tracking_key (fst kv)) eqn:E; simpl; [assumption|].
  now rewrite E.
Qed.

Lemma normalizeUrl_idem (u : url) : normalizeUrl (normalizeUrl u) = normalizeUrl u.
Proof.
  unfold normalizeUrl. cbv zeta.
  destruct (existsb _ (u_searchParams u)) eqn:E; cbn [u_searchParams].
  - rewrite no_tracking_kept. reflexivity.
  - rewrite E. reflexivity.
Qed.

Lemma normalizeUrl_origin (u : url) : u_origin (normalizeUrl u) = u_origin u.
Proof. unfold normalizeUrl. cbv zeta. now destruct (existsb _ _). Qed.

(** A normalised URL has no fragment and no tracking parameter. *)
Lemma normalizeUrl_clean (u : url) :
  u_hash (normalizeUrl u) = []
  /\ forall kv, In kv (u_searchParams (normalizeUrl u)) ->
                is_tracking_key (fst kv) = false.
Proof.
  unfold normalizeUrl. cbv zeta.
  destruct (existsb _ (u_searchParams u)) eqn:E;
    cbn [u_hash u_searchParams]; (split; [reflexivity|]); intros kv Hin.
  - apply filter_In in Hin as [_ H]. now apply negb_true_iff in H.
  - destruct (is_tracking_key (fst kv)) eqn:Ek; [|reflexivity].
    assert (existsb (fun kv => is_tracking_key (fst kv)) (u_searchParams u)
            = true) by (apply existsb_exists; now exists kv).
    congruence.
Qed.

(** The fragment plays no part in the normal form. *)
Lemma normalizeUrl_fragment (o c p : jsstring) (s : option jsstring)
      (ps : list (jsstring * jsstring)) (h h' : jsstring) :
  normalizeUrl (mkUrl o c p s ps h) = normalizeUrl (mkUrl o c p s ps h').
Proof. reflexivity. Qed.

Lemma strongly_sorted_app {A : Type} (R : A -> A -> Prop) (l1 l2 : list A) :
  StronglySorted R (l1 ++ l2) <->
  StronglySorted R l1 /\ StronglySorted R l2 /\
  (forall x y, In x l1 -> In y l2 -> R x y).
Proof.
  induction l1 as [|a l1 IH]; simpl.
  - split.
    + intros H. repeat split; [constructor|assumption|contradiction].
    + tauto.
  - split.
    + intros H. apply StronglySorted_inv in H as [Hs Hf].
      apply IH in Hs as (H1 & H2 & H3).
      rewrite Forall_forall in Hf. repeat split.
      * constructor; [assumption|]. apply Forall_forall. intros x Hx.
        apply Hf. apply in_or_app. now left.
      * assumption.
      * intros x y [<-|Hx] Hy.
        -- apply Hf. apply in_or_app. now right.
        -- now apply H3.
    + intros (H1 & H2 & H3). apply StronglySorted_inv in H1 as [Hs Hf].
      constructor.
      * apply IH. repeat split; auto.
      * rewrite Forall_forall in *. intros x Hx.
        apply in_app_or in Hx as [Hx|Hx]; auto.
Qed.

Section CrawlFacts.

Variable cfg : settings.
Variable site : url -> option (list (option url)).
Variable origin : jsstring.
Variable baseUrl : url.

Local Abbreviation step := (crawl_step cfg site origin).
Local Abbreviation loop := (crawl_loop cfg site origin).
Local Abbreviation Inv := (frontier_inv cfg site origin baseUrl).
Local Abbreviation reachable := (reach cfg site origin baseUrl).

Lemma enqueue_fold_spec (v : list item) (d : Z) (links : list (option url)) :
  forall queue,
  exists pushed,
    fold_left (enqueue_link origin v d) links queue = queue ++ pushed /\
    (forall x, In x pushed ->
               snd x = (d + 1)%Z /\
               exists l, In (Some l) links /\ fst x = normalizeUrl l /\
                         u_origin (normalizeUrl l) = origin /\
                         ~ In (normalizeUrl l) (map fst v)) /\
    (forall l, In (Some l) links ->
               u_origin (normalizeUrl l) = origin ->
               In (normalizeUrl l) (map fst v) \/
               In (normalizeUrl l, (d + 1)%Z) pushed).
Proof.
  induction links as [|link links IH]; intros queue; simpl.
  - exists []. rewrite app_nil_r. repeat split; try contradiction.
  - remember (enqueue_link origin v d queue link) as q1 eqn:Hq1.
    destruct (IH q1) as (pushed & Heq & Hsound & Hcompl).
    unfold enqueue_link in Hq1.
    destruct link as [l|].
    + destruct (str_eqb (u_origin (normalizeUrl l)) origin) eqn:Ho;
        simpl in Hq1.
      * destruct (visited_has v (normalizeUrl l)) eqn:Hv; subst q1.
        -- exists pushed. split; [assumption|]. split.
           ++ intros x Hx. destruct (Hsound x Hx) as (Hd & l' & Hl' & Hrest).
              split; [assumption|]. exists l'. split; [now right|assumption].
           ++ intros l' [Hl'|Hl'] Hor.
              ** inversion Hl'; subst l'. left. now apply visited_has_true.
              ** now apply Hcompl.
        -- exists ((normalizeUrl l, (d + 1)%Z) :: pushed). split.
           ++ rewrite Heq. now rewrite <- app_assoc.
           ++ split.
              ** intros x [<-|Hx].
                 --- simpl. split; [reflexivity|]. exists l.
                     split; [now left|]. split; [reflexivity|].
                     split; [now apply str_eqb_eq|].
                     now apply visited_has_false.
                 --- destruct (Hsound x Hx) as (Hd & l' & Hl' & Hrest).
                     split; [assumption|]. exists l'.
                     split; [now right|assumption].
              ** intros l' [Hl'|Hl'] Hor.
                 --- inversion Hl'; subst l'. right. now left.
                 --- destruct (Hcompl l' Hl' Hor); [now left|].
                     right. now right.
      * subst q1. exists pushed. split; [assumption|]. split.
        -- intros x Hx. destruct (Hsound x Hx) as (Hd & l' & Hl' & Hrest).
           split; [assumption|]. exists l'. split; [now right|assumption].
        -- intros l' [Hl'|Hl'] Hor.
           ++ inversion Hl'; subst l'. apply str_eqb_neq in Ho. now elim Ho.
           ++ now apply Hcompl.
    + subst q1. exists pushed. split; [assumption|]. split.
      * intros x Hx. destruct (Hsound x Hx) as (Hd & l' & Hl' & Hrest).
        split; [assumption|]. exists l'. split; [now right|assumption].
      * intros l' [Hl'|Hl'] Hor; [discriminate|]. now apply Hcompl.
Qed.

(** What link discovery appends: only links of the page, one level
    deeper, same origin, not visited; and every such link that is not
    visited is appended. *)
Lemma discover_spec (v : list item) (u : url) (d : Z) (queue : list item) :
  exists pushed,
    discover cfg site origin v u d queue = queue ++ pushed /\
    (forall x, In x pushed ->
               snd x = (d + 1)%Z /\
               exists links l,
                 site u = Some links /\ SINGLE_PAGE cfg = false /\
                 (d < MAX_DEPTH cfg)%Z /\
                 In (Some l) links /\ fst x = normalizeUrl l /\
                 u_origin (normalizeUrl l) = origin /\
                 ~ In (normalizeUrl l) (map fst v)) /\
    (forall links l,
        site u = Some links -> SINGLE_PAGE cfg = false ->
        (d < MAX_DEPTH cfg)%Z ->
        In (Some l) links ->
        u_origin (normalizeUrl l) = origin ->
        In (normalizeUrl l) (map fst v) \/
        In (normalizeUrl l, (d + 1)%Z) pushed).
Proof.
  unfold discover. destruct (site u) as [links|] eqn:Hs.
  - destruct (SINGLE_PAGE cfg) eqn:Hsp; simpl.
    + exists []. rewrite app_nil_r. repeat split; try contradiction.
      intros; discriminate.
    + destruct (d <? MAX_DEPTH cfg)%Z eqn:Hd.
      * apply Z.ltb_lt in Hd.
        destruct (enqueue_fold_spec v d links queue)
          as (pushed & Heq & Hsound & Hcompl).
        exists pushed. split; [assumption|]. split.
        -- intros x Hx. destruct (Hsound x Hx) as (Hd' & l & Hl & Hrest).
           split; [assumption|]. exists links, l. repeat split; tauto.
        -- intros links' l [= <-] _ _ Hl Hor. now apply Hcompl.
      * apply Z.ltb_ge in Hd.
        exists []. rewrite app_nil_r. repeat split; try contradiction.
        intros. lia.
  - exists []. rewrite app_nil_r. repeat split; try contradiction.
    intros; discriminate.
Qed.

(** The two kinds of turn: the head of the queue is skipped, or it is
    visited and its links are appended. *)
Lemma crawl_step_cases (st st' : frontier) :
  step st = Some st' ->
  exists raw d rest,
    q st = (raw, d) :: rest /\
    (Z.of_nat (List.length (visited st)) < pageLimit cfg)%Z /\
    ((visited st' = visited st /\ q st' = rest /\
      (In (normalizeUrl raw) (map fst (visited st)) \/
       (MAX_DEPTH cfg < d)%Z))
     \/
     (~ In (normalizeUrl raw) (map fst (visited st)) /\
      (d <= MAX_DEPTH cfg)%Z /\
      visited st' = visited st ++ [(normalizeUrl raw, d)] /\
      q st' = discover cfg site origin (visited st') (normalizeUrl raw) d
                       rest)).
Proof.
  unfold crawl_step. destruct (q st) as [|[raw d] rest] eqn:Hq;
    [discriminate|].
  destruct (Z.of_nat (List.length (visited st)) <? pageLimit cfg)%Z eqn:Hlim;
    [|discriminate].
  apply Z.ltb_lt in Hlim.
  destruct (visited_has (visited st) (normalizeUrl raw)) eqn:Hv; simpl.
  - intros [= <-]. exists raw, d, rest. repeat split; try assumption.
    left. repeat split. left. now apply visited_has_true.
  - destruct (MAX_DEPTH cfg <? d)%Z eqn:Hd.
    + apply Z.ltb_lt in Hd. intros [= <-].
      exists raw, d, rest. repeat split; try assumption.
      left. repeat split. now right.
    + apply Z.ltb_ge in Hd. intros [= <-].
      exists raw, d, rest. repeat split; try assumption.
      right. repeat split; try assumption.
      now apply visited_has_false.
Qed.

(** The queue is used first in, first out: a turn removes the head and
    appends what it discovers. *)
Lemma crawl_step_fifo (st st' : frontier) :
  step st = Some st' ->
  exists pushed, q st' = tl (q st) ++ pushed /\
                 (visited st' = visited st \/
                  exists x, hd_error (q st) = Some x /\
                            visited st' =
                              visited st ++ [(normalizeUrl (fst x), snd x)]).
Proof.
  intros H. apply crawl_step_cases in H.
  destruct H as (raw & d & rest & Hq & _ & [(Hv & Hq' & _)|(_ & _ & Hv & Hq')]).
  - exists []. rewrite Hq, Hq', app_nil_r. split; [reflexivity|now left].
  - destruct (discover_spec (visited st') (normalizeUrl raw) d rest)
      as (pushed & Heq & _).
    exists pushed. rewrite Hq, Hq', Heq. split; [reflexivity|].
    right. exists (raw, d). now split.
Qed.

Lemma same_depth_sorted (l : list item) (d : Z) :
  (forall x, In x l -> snd x = d) -> depth_sorted l.
Proof.
  induction l as [|a l IH]; intros H; constructor.
  - apply IH. intros x Hx. apply H. now right.
  - apply Forall_forall. intros x Hx.
    rewrite (H a), (H x); [lia|now right|now left].
Qed.

Lemma NoDup_snoc {A : Type} (l : list A) (a : A) :
  NoDup l -> ~ In a l -> NoDup (l ++ [a]).
Proof.
  intros Hnd Hnotin. induction l as [|x l IH]; simpl.
  - constructor; [tauto|constructor].
  - inversion Hnd as [|? ? Hx Hl]; subst. constructor.
    + rewrite in_app_iff. simpl. intros [H|[H|[]]]; [tauto|].
      subst. apply Hnotin. now left.
    + apply IH; [assumption|]. intros H. apply Hnotin. now right.
Qed.

Lemma frontier_inv_start : Inv (crawl_start baseUrl).
Proof.
  constructor; simpl.
  - intros x [<-|[]]. apply normalizeUrl_idem.
  - constructor.
  - lia.
  - repeat constructor.
  - intros h rest x [= <- <-] [<-|[]]. lia.
  - intros x [<-|[]]. exists 0. split; [reflexivity|]. constructor.
  - contradiction.
  - contradiction.
  - intros _. right. now left.
Qed.

Lemma frontier_inv_step (st st' : frontier) :
  Inv st -> step st = Some st' -> Inv st'.
Proof.
  intros I Hstep.
  destruct (crawl_step_cases st st' Hstep)
    as (raw & d & rest & Hq & Hlim & Hcase).
  destruct I as [Inorm Ind Ibound Isorted Ispan Ireach Icap Iclosed Iseed].
  rewrite Hq in *.
  assert (Hraw : normalizeUrl raw = raw).
  { apply (Inorm (raw, d)). apply in_or_app. right. now left. }
  apply strongly_sorted_app in Isorted as (Sv & Sq & Svq).
  apply StronglySorted_inv in Sq as [Srest Shead].
  rewrite Forall_forall in Shead.
  assert (Hvd : forall x, In x (visited st) -> (snd x <= d)%Z).
  { intros x Hx. apply (Svq x (raw, d) Hx). now left. }
  assert (Hrd : forall x, In x rest -> (d <= snd x <= d + 1)%Z).
  { intros x Hx. split; [now apply (Shead x)|].
    apply (Ispan (raw, d) rest x eq_refl). now right. }
  destruct Hcase as [(Hv & Hq' & Hwhy)|(Hnew & Hcap & Hv & Hq')].
  - (* the head is skipped *)
    assert (Hold : forall u0 d0,
               (u0, d0) = (raw, d) -> (d0 <= MAX_DEPTH cfg)%Z ->
               exists dv, In (u0, dv) (visited st) /\ (dv <= d0)%Z).
    { intros u0 d0 [= -> ->] Hle.
      destruct Hwhy as [Hin|Hgt]; [|lia].
      rewrite Hraw in Hin. apply in_map_iff in Hin.
      destruct Hin as ([u1 dv] & Heq & Hin). simpl in Heq. subst u1.
      exists dv. split; [assumption|]. now apply (Hvd (raw, dv)). }
    constructor; rewrite ?Hv, ?Hq'.
    + intros x Hx. apply Inorm. apply in_app_or in Hx as [Hx|Hx];
        apply in_or_app; [now left|right; now right].
    + assumption.
    + assumption.
    + apply strongly_sorted_app. repeat split; try assumption.
      intros x y Hx Hy. apply Svq; [assumption|now right].
    + intros h rest' x Hrest Hx.
      assert (Hh : In h rest) by (rewrite Hrest; now left).
      pose proof (Hrd h Hh). pose proof (Hrd x Hx). lia.
    + intros x Hx. apply Ireach. apply in_app_or in Hx as [Hx|Hx];
        apply in_or_app; [now left|right; now right].
    + assumption.
    + intros u du links l Hin Hs Hsp Hdu Hl Hor.
      destruct (Iclosed u du links l Hin Hs Hsp Hdu Hl Hor)
        as [Hleft|[Hhead|Hrest]].
      * now left.
      * left. apply Hold; [now symmetry|lia].
      * now right.
    + intros Hmax. destruct (Iseed Hmax) as [Hleft|[Hhead|Hrest]].
      * now left.
      * left. apply Hold; [now symmetry|lia].
      * now right.
  - (* the head is visited *)
    rewrite Hraw in *.
    destruct (discover_spec (visited st') raw d rest)
      as (pushed & Hdisc & Hsound & Hcompl).
    rewrite Hdisc in Hq'. clear Hdisc.
    assert (Hpd : forall x, In x pushed -> snd x = (d + 1)%Z).
    { intros x Hx. now destruct (Hsound x Hx). }
    assert (Hv'd : forall x, In x (visited st') -> (snd x <= d)%Z).
    { rewrite Hv. intros x Hx. apply in_app_or in Hx as [Hx|[<-|[]]];
        [now apply Hvd|simpl; lia]. }
    constructor; rewrite ?Hq'.
    + intros x Hx. rewrite Hv in Hx.
      repeat (apply in_app_or in Hx as [Hx|Hx]).
      * apply Inorm. apply in_or_app. now left.
      * destruct Hx as [<-|[]]. exact Hraw.
      * apply Inorm. apply in_or_app. right. now right.
      * destruct (Hsound x Hx) as (_ & links & l & _ & _ & _ & _ & -> & _).
        apply normalizeUrl_idem.
    + rewrite Hv, map_app. simpl. now apply NoDup_snoc.
    + rewrite Hv, length_app. simpl. lia.
    + apply strongly_sorted_app. repeat split.
      * rewrite Hv. apply strongly_sorted_app. repeat split.
        -- assumption.
        -- repeat constructor.
        -- intros x y Hx [<-|[]]. simpl. now apply Hvd.
      * apply strongly_sorted_app. repeat split.
        -- assumption.
        -- now apply (same_depth_sorted pushed (d + 1)%Z).
        -- intros x y Hx Hy. rewrite (Hpd y Hy). now apply Hrd.
      * intros x y Hx Hy. pose proof (Hv'd x Hx).
        apply in_app_or in Hy as [Hy|Hy].
        -- pose proof (Hrd y Hy). lia.
        -- rewrite (Hpd y Hy). lia.
    + intros h rest' x Hrest Hx.
      assert (Hh : In h (h :: rest')) by now left.
      rewrite <- Hrest in Hh.
      assert (Hge : forall y, In y (rest ++ pushed) ->
                              (d <= snd y <= d + 1)%Z).
      { intros y Hy. apply in_app_or in Hy as [Hy|Hy].
        - now apply Hrd.
        - rewrite (Hpd y Hy). lia. }
      pose proof (Hge h Hh). pose proof (Hge x Hx). lia.
    + assert (Hrawreach : exists n, Z.of_nat n = d /\ reachable n raw).
      { apply (Ireach (raw, d)). apply in_or_app. right. now left. }
      intros x Hx. rewrite Hv in Hx.
      repeat (apply in_app_or in Hx as [Hx|Hx]).
      * apply Ireach. apply in_or_app. now left.
      * destruct Hx as [<-|[]]. exact Hrawreach.
      * apply Ireach. apply in_or_app. right. now right.
      * destruct (Hsound x Hx)
          as (Hd & links & l & Hs & Hsp & _ & Hl & Hfst & Hor & _).
        destruct Hrawreach as (n & Hn & Hr).
        exists (S n). split; [lia|]. rewrite Hfst.
        eapply reach_link; eassumption.
    + rewrite Hv. intros x Hx. apply in_app_or in Hx as [Hx|[<-|[]]];
        [now apply Icap|assumption].
    + intros u du links l Hin Hs Hsp Hdu Hl Hor.
      rewrite Hv in Hin. apply in_app_or in Hin as [Hin|[Heq|[]]].
      * destruct (Iclosed u du links l Hin Hs Hsp Hdu Hl Hor)
          as [(dv & Hdv & Hle)|[Hhead|Hrest]].
        -- left. exists dv. split; [|assumption].
           rewrite Hv. apply in_or_app. now left.
        -- left. exists d. inversion Hhead; subst.
           split; [|lia]. rewrite Hv. apply in_or_app. right. now left.
        -- right. apply in_or_app. now left.
      * inversion Heq; subst u du.
        destruct (Hcompl links l Hs Hsp Hdu Hl Hor) as [Hvis|Hpush].
        -- left. apply in_map_iff in Hvis.
           destruct Hvis as ([u1 dv] & Hfst & Hin). simpl in Hfst. subst u1.
           exists dv. split; [assumption|].
           pose proof (Hv'd _ Hin). simpl in *. lia.
        -- right. apply in_or_app. now right.
    + intros Hmax. destruct (Iseed Hmax) as [(dv & Hdv & Hle)|[Hhead|Hrest]].
      * left. exists dv. split; [|assumption].
        rewrite Hv. apply in_or_app. now left.
      * left. exists 0%Z. inversion Hhead; subst.
        split; [|lia]. rewrite Hv. apply in_or_app. right. now left.
      * right. apply in_or_app. now left.
Qed.

Lemma crawl_loop_inv (fuel : nat) :
  forall st final,
    Inv st -> loop fuel st = Some final ->
    Inv final /\ step final = None.
Proof.
  induction fuel as [|fuel IH]; intros st final I; simpl.
  - destruct (step st) eqn:E; [discriminate|].
    intros [= <-]. now split.
  - destruct (step st) as [st'|] eqn:E.
    + intros H. apply (IH st'); [|assumption].
      now apply (frontier_inv_step st st').
    + intros [= <-]. now split.
Qed.

(** The loop ends: every turn either visits a page, which the page limit
    allows finitely often, or shortens the queue. *)
Lemma crawl_loop_terminates (st : frontier) :
  exists fuel final, loop fuel st = Some final.
Proof.
  remember (Z.to_nat (pageLimit cfg - Z.of_nat (List.length (visited st))))
    as n eqn:Hn.
  assert (Hle : Z.to_nat (pageLimit cfg
                          - Z.of_nat (List.length (visited st))) <= n)
    by lia.
  clear Hn. revert st Hle.
  induction n as [|n IHn]; intros st Hle.
  - exists 0, st. simpl. unfold crawl_step.
    destruct (q st) as [|[raw d] rest]; [reflexivity|].
    destruct (Z.of_nat (List.length (visited st)) <? pageLimit cfg)%Z eqn:E;
      [|reflexivity].
    apply Z.ltb_lt in E. lia.
  - remember (List.length (q st)) as k eqn:Hk.
    assert (Hkle : List.length (q st) <= k) by lia. clear Hk.
    revert st Hle Hkle. induction k as [|k IHk]; intros st Hle Hkle.
    + exists 0, st. simpl. unfold crawl_step.
      destruct (q st); [reflexivity|simpl in Hkle; lia].
    + destruct (step st) as [st'|] eqn:E.
      * destruct (crawl_step_cases st st' E)
          as (raw & d & rest & Hq & Hlim & [(Hv & Hq' & _)|(_ & _ & Hv & _)]).
        -- destruct (IHk st') as (fuel & final & Hloop).
           ++ now rewrite Hv.
           ++ rewrite Hq'. rewrite Hq in Hkle. simpl in Hkle. lia.
           ++ exists (S fuel), final. simpl. now rewrite E.
        -- destruct (IHn st') as (fuel & final & Hloop).
           ++ rewrite Hv, length_app. simpl. lia.
           ++ exists (S fuel), final. simpl. now rewrite E.
      * exists 0, st. simpl. now rewrite E.
Qed.

Lemma crawl_step_none (st : frontier) :
  step st = None ->
  q st = [] \/ (pageLimit cfg <= Z.of_nat (List.length (visited st)))%Z.
Proof.
  unfold crawl_step. destruct (q st) as [|[raw d] rest]; [now left|].
  destruct (Z.of_nat (List.length (visited st)) <? pageLimit cfg)%Z eqn:E.
  - destruct (visited_has _ _ || _); discriminate.
  - apply Z.ltb_ge in E. now right.
Qed.

(** When the loop stops on an empty queue, every page within the depth cap
    has been visited, no deeper than its distance. *)
Lemma crawl_complete (final : frontier) :
  Inv final -> q final = [] ->
  forall n u, reachable n u -> (Z.of_nat n <= MAX_DEPTH cfg)%Z ->
              exists dv, In (u, dv) (visited final) /\ (dv <= Z.of_nat n)%Z.
Proof.
  intros I Hq n u Hr. induction Hr as [|n u l links Hr IH Hs Hsp Hl Hor];
    intros Hn.
  - destruct (inv_seed _ _ _ _ _ I) as [H|H]; [lia|exact H|].
    rewrite Hq in H. contradiction.
  - destruct IH as (du & Hdu & Hle); [lia|].
    destruct (inv_closed _ _ _ _ _ I u du links l Hdu Hs Hsp) as [(dv & Hdv & Hle')|H];
      try assumption; try lia.
    + exists dv. split; [assumption|lia].
    + rewrite Hq in H. contradiction.
Qed.

End CrawlFacts.

(** C7 (amended). Frontier bound and order: from the normalised seed the
    loop ends; the queue is first in, first out; the visited pages are
    pairwise distinct normalised URLs, none with a fragment or a tracking
    parameter, listed with depths that never decrease, each depth being
    the length of a link path from the seed; no visited page lies beyond
    the depth cap; at most [pageLimit] pages are visited (1 in single-page
    mode, [MAX_PAGES_PER_SITE] otherwise); the loop stops on an empty
    queue or a reached page limit; and when at least [pageLimit] distinct
    pages are reachable within the depth cap, exactly [pageLimit] pages
    are visited.  URLs that differ only in their fragment have one normal
    form. *)
Theorem crawl_frontier (cfg : settings)
        (site : url -> option (list (option url)))
        (origin : jsstring) (baseUrl : url) :
  (exists fuel final,
     crawl_loop cfg site origin fuel (crawl_start baseUrl) = Some final /\
     NoDup (map fst (visited final)) /\
     (forall x, In x (visited final) ->
                normalizeUrl (fst x) = fst x /\
                u_hash (fst x) = [] /\
                forall kv, In kv (u_searchParams (fst x)) ->
                           is_tracking_key (fst kv) = false) /\
     depth_sorted (visited final) /\
     (forall x, In x (visited final) ->
                exists n, Z.of_nat n = snd x /\
                          reach cfg site origin baseUrl n (fst x)) /\
     (forall x, In x (visited final) -> (snd x <= MAX_DEPTH cfg)%Z) /\
     (Z.of_nat (List.length (visited final)) <= Z.max 0 (pageLimit cfg))%Z /\
     (q final = [] \/
      (pageLimit cfg <= Z.of_nat (List.length (visited final)))%Z) /\
     (forall pages : list url,
         NoDup pages ->
         (forall u, In u pages ->
                    exists n, reach cfg site origin baseUrl n u /\
                              (Z.of_nat n <= MAX_DEPTH cfg)%Z) ->
         (pageLimit cfg <= Z.of_nat (List.length pages))%Z ->
         Z.of_nat (List.length (visited final)) = Z.max 0 (pageLimit cfg)))
  /\
  (forall st st',
      crawl_step cfg site origin st = Some st' ->
      exists pushed, q st' = tl (q st) ++ pushed)
  /\
  (forall o c p s ps h h',
      normalizeUrl (mkUrl o c p s ps h) = normalizeUrl (mkUrl o c p s ps h')).
Proof.
  split; [|split].
  - destruct (crawl_loop_terminates cfg site origin (crawl_start baseUrl))
      as (fuel & final & Hloop).
    exists fuel, final. split; [assumption|].
    destruct (crawl_loop_inv cfg site origin baseUrl fuel _ _
                (frontier_inv_start cfg site origin baseUrl) Hloop)
      as [I Hstop].
    pose proof (crawl_step_none cfg site origin final Hstop) as Hwhy.
    pose proof (inv_normalized _ _ _ _ _ I) as Inorm.
    pose proof (inv_bound _ _ _ _ _ I) as Ibound.
    pose proof (inv_reach _ _ _ _ _ I) as Ireach.
    pose proof (inv_sorted _ _ _ _ _ I) as Isorted.
    apply strongly_sorted_app in Isorted as (Sv & _ & _).
    split; [exact (inv_nodup _ _ _ _ _ I)|].
    split.
    { intros x Hx.
      assert (Hn : normalizeUrl (fst x) = fst x)
        by (apply Inorm; apply in_or_app; now left).
      split; [exact Hn|]. rewrite <- Hn. apply normalizeUrl_clean. }
    split; [assumption|].
    split; [intros x Hx; apply Ireach; apply in_or_app; now left|].
    split; [exact (inv_cap _ _ _ _ _ I)|].
    split; [assumption|]. split; [assumption|].
    intros pages Hnd Hreach Hmany.
    assert (Hge : (pageLimit cfg
                   <= Z.of_nat (List.length (visited final)))%Z).
    { destruct Hwhy as [Hq|Hlim]; [|assumption].
      assert (Hincl : incl pages (map fst (visited final))).
      { intros u Hu. destruct (Hreach u Hu) as (n & Hr & Hn).
        destruct (crawl_complete cfg site origin baseUrl final I Hq n u
                    Hr Hn) as (dv & Hdv & _).
        change u with (fst (u, dv)). now apply in_map. }
      pose proof (NoDup_incl_length Hnd Hincl) as Hlen.
      rewrite length_map in Hlen. lia. }
    lia.
  - intros st st' Hstep.
    destruct (crawl_step_fifo cfg site origin st st' Hstep)
      as (pushed & Hq & _).
    now exists pushed.
  - intros. apply normalizeUrl_fragment.
Qed.

Lemma chain_reach (cfg : settings) :
  SINGLE_PAGE cfg = false ->
  reach cfg chain_site chain_origin (chain_page 0) 0 (chain_page 0) /\
  reach cfg chain_site chain_origin (chain_page 0) 1 (chain_page 1) /\
  reach cfg chain_site chain_origin (chain_page 0) 2 (chain_page 2) /\
  reach cfg chain_site chain_origin (chain_page 0) 3 (chain_page 3).
Proof.
  intros Hsp.
  assert (r0 : reach cfg chain_site chain_origin (chain_page 0) 0
                     (chain_page 0))
    by exact (reach_seed cfg chain_site chain_origin (chain_page 0)).
  assert (r1 : reach cfg chain_site chain_origin (chain_page 0) 1
                     (chain_page 1))
    by exact (reach_link cfg chain_site chain_origin (chain_page 0) 0
                (chain_page 0) (chain_link 1) [Some (chain_link 1)]
                r0 eq_refl Hsp (or_introl eq_refl) eq_refl).
  assert (r2 : reach cfg chain_site chain_origin (chain_page 0) 2
                     (chain_page 2))
    by exact (reach_link cfg chain_site chain_origin (chain_page 0) 1
                (chain_page 1) (chain_link 2) [Some (chain_link 2)]
                r1 eq_refl Hsp (or_introl eq_refl) eq_refl).
  assert (r3 : reach cfg chain_site chain_origin (chain_page 0) 3
                     (chain_page 3))
    by exact (reach_link cfg chain_site chain_origin (chain_page 0) 2
                (chain_page 2) (chain_link 3) [Some (chain_link 3)]
                r2 eq_refl Hsp (or_introl eq_refl) eq_refl).
  auto.
Qed.

(** C7, as stated, fails: with depth cap 1 and [MAX_PAGES_PER_SITE = 3],
    the chain of four reachable pages is left after two visits, because
    the page at depth 1 is not expanded. *)
Lemma crawl_exact_counterexample :
  exists final,
    crawl_loop shallow_settings chain_site chain_origin 10
               (crawl_start (chain_page 0)) = Some final /\
    visited final = [(chain_page 0, 0%Z); (chain_page 1, 1%Z)] /\
    Z.of_nat (List.length (visited final))
      <> MAX_PAGES_PER_SITE shallow_settings /\
    NoDup [chain_page 0; chain_page 1; chain_page 2; chain_page 3] /\
    (MAX_PAGES_PER_SITE shallow_settings < 4)%Z /\
    (forall u, In u [chain_page 0; chain_page 1; chain_page 2; chain_page 3] ->
               exists n, reach shallow_settings chain_site chain_origin
                               (chain_page 0) n u).
Proof.
  eexists. split; [vm_compute; reflexivity|].
  split; [reflexivity|]. split; [discriminate|]. split.
  - repeat constructor; simpl; intuition discriminate.
  - split; [reflexivity|].
    destruct (chain_reach shallow_settings eq_refl) as (r0 & r1 & r2 & r3).
    intros u [<-|[<-|[<-|[<-|[]]]]];
      [exists 0|exists 1|exists 2|exists 3]; assumption.
Qed.

(** The chain crawled with room for two pages and depth cap 10: two pages
    are reachable within the cap, so exactly two are visited. *)
Lemma crawl_frontier_witness :
  exists fuel final,
    crawl_loop narrow_settings chain_site chain_origin fuel
               (crawl_start (chain_page 0)) = Some final /\
    Z.of_nat (List.length (visited final)) = 2%Z.
Proof.
  destruct (proj1 (crawl_frontier narrow_settings chain_site chain_origin
                     (chain_page 0)))
    as (fuel & final & Hloop & _ & _ & _ & _ & _ & _ & _ & Hexact).
  exists fuel, final. split; [exact Hloop|].
  apply (Hexact [chain_page 0; chain_page 1]).
  - repeat constructor; simpl; intuition discriminate.
  - destruct (chain_reach narrow_settings eq_refl) as (r0 & r1 & _).
    intros u [<-|[<-|[]]]; [exists 0|exists 1]; (split; [assumption|]);
      vm_compute; discriminate.
  - vm_compute. discriminate.
Defined.

(* --------------------------------------------------------------------- *)
(** ** The matcher against its relational reading                         *)
(* --------------------------------------------------------------------- *)

Lemma star_iter_sound {R : Type} (a : regex)
      (body : (mstate -> option R) -> mstate -> option R)
      (k : mstate -> option R) :
  (forall k' s x, body k' s = Some x ->
                  exists s', Matches a s s' /\ k' s' = Some x) ->
  forall n s x,
    star_iter body k n s = Some x ->
    exists s', Matches (Re_star a) s s' /\ k s' = Some x.
Proof.
  intros Hbody. induction n as [|n IH]; intros s x; simpl.
  - intros H. exists s. split; [constructor|assumption].
  - destruct (body _ s) as [y|] eqn:E.
    + intros [= <-]. apply Hbody in E. destruct E as (s1 & Hm & Hk).
      destruct (List.length (ms_rest s1) <? List.length (ms_rest s))%nat;
        [|discriminate].
      apply IH in Hk. destruct Hk as (s2 & Hm2 & Hk2).
      exists s2. split; [|assumption].
      now apply M_star_cons with s1.
    + intros H. exists s. split; [constructor|assumption].
Qed.

(** Whatever the matcher answers comes from the continuation, applied to a
    state the pattern leads to. *)
Lemma rmatch_sound {R : Type} (r : regex) :
  forall (k : mstate -> option R) s x,
    rmatch r k s = Some x ->
    exists s', Matches r s s' /\ k s' = Some x.
Proof.
  induction r as [|p|a IHa b IHb|a IHa b IHb|a IHa|i a IHa|];
    intros k s x; simpl.
  - intros H. exists s. split; [constructor|assumption].
  - destruct s as [pv rest caps]. simpl.
    destruct rest as [|c t]; [discriminate|].
    destruct (p c) eqn:Hp; [|discriminate].
    intros H. eexists. split; [now constructor|assumption].
  - intros H. apply IHa in H. destruct H as (s1 & Ha & H).
    apply IHb in H. destruct H as (s2 & Hb & H).
    exists s2. split; [now apply M_seq with s1|assumption].
  - destruct (rmatch a k s) as [y|] eqn:E.
    + intros [= <-]. apply IHa in E. destruct E as (s1 & Ha & H).
      exists s1. split; [now apply M_alt_l|assumption].
    + intros H. apply IHb in H. destruct H as (s1 & Hb & H).
      exists s1. split; [now apply M_alt_r|assumption].
  - apply star_iter_sound. intros k' s0 x0. apply IHa.
  - intros H. apply IHa in H. destruct H as (s1 & Ha & H).
    eexists. split; [apply M_group; eassumption|assumption].
  - destruct (word_boundary s) eqn:Hb; [|discriminate].
    intros H. exists s. split; [now constructor|assumption].
Qed.

Lemma exec_from_sound (r : regex) (s : jsstring) :
  forall prev m,
    exec_from r prev s = Some m ->
    exists pre suf prev',
      s = pre ++ suf /\ Matches r (mkMstate prev' suf []) m.
Proof.
  induction s as [|c t IH]; intros prev m; simpl.
  - destruct (rmatch r _ _) as [st|] eqn:E; [|discriminate].
    intros [= <-]. apply rmatch_sound in E. destruct E as (s' & Hm & [= ->]).
    exists [], [], prev. now split.
  - destruct (rmatch r _ _) as [st|] eqn:E.
    + intros [= <-]. apply rmatch_sound in E.
      destruct E as (s' & Hm & [= ->]).
      exists [], (c :: t), prev. now split.
    + intros H. apply IH in H. destruct H as (pre & suf & prev' & -> & Hm).
      exists (c :: pre), suf, prev'. now split.
Qed.

Lemma firstn_consumed {A : Type} (w r : list A) :
  firstn (List.length (w ++ r) - List.length r) (w ++ r) = w.
Proof.
  rewrite length_app, Nat.add_sub.
  rewrite <- (Nat.add_0_r (List.length w)), firstn_app_2.
  simpl. apply app_nil_r.
Qed.

(** A traversal consumes a word of the pattern's language, and a group
    records exactly the word its body consumed. *)
Lemma Matches_lang (r : regex) (s s' : mstate) :
  Matches r s s' ->
  exists w, ms_rest s = w ++ ms_rest s' /\ Lang r w /\ consumed s s' = w.
Proof.
  intros H. induction H.
  - exists []. repeat split; [constructor|].
    exact (firstn_consumed [] (ms_rest s)).
  - exists [c]. repeat split; [now constructor|].
    exact (firstn_consumed [c] t).
  - destruct IHMatches1 as (u & Hu & Lu & _).
    destruct IHMatches2 as (v & Hv & Lv & _).
    exists (u ++ v). repeat split.
    + rewrite Hu, Hv. now rewrite app_assoc.
    + now constructor.
    + unfold consumed. rewrite Hu, Hv, app_assoc. apply firstn_consumed.
  - destruct IHMatches as (u & Hu & Lu & Hc). exists u.
    repeat split; [assumption|now apply L_alt_l|assumption].
  - destruct IHMatches as (u & Hu & Lu & Hc). exists u.
    repeat split; [assumption|now apply L_alt_r|assumption].
  - exists []. repeat split; [constructor|].
    exact (firstn_consumed [] (ms_rest s)).
  - destruct IHMatches1 as (u & Hu & Lu & _).
    destruct IHMatches2 as (v & Hv & Lv & _).
    exists (u ++ v). repeat split.
    + rewrite Hu, Hv. now rewrite app_assoc.
    + now constructor.
    + unfold consumed. rewrite Hu, Hv, app_assoc. apply firstn_consumed.
  - destruct IHMatches as (u & Hu & Lu & Hc). exists u. simpl.
    repeat split; [assumption|now constructor|].
    unfold consumed. simpl. rewrite Hu. apply firstn_consumed.
  - exists []. repeat split; [constructor|].
    exact (firstn_consumed [] (ms_rest s)).
Qed.

Lemma Matches_groupless (r : regex) (s s' : mstate) :
  Matches r s s' -> groupless r = true -> ms_caps s' = ms_caps s.
Proof.
  intros H. induction H; simpl; intros Hg;
    try reflexivity; try discriminate.
  - apply andb_true_iff in Hg as [Ha Hb].
    rewrite IHMatches2, IHMatches1; auto.
  - apply andb_true_iff in Hg as [Ha Hb]. auto.
  - apply andb_true_iff in Hg as [Ha Hb]. auto.
  - rewrite IHMatches2, IHMatches1; auto.
Qed.

Lemma Lang_classes (P : char -> bool) (r : regex) (w : jsstring) :
  Lang r w -> classes_within P r -> forallb P w = true.
Proof.
  intros H. induction H; simpl; intros Hc; try reflexivity.
  - now rewrite Hc.
  - rewrite forallb_app. destruct Hc. now rewrite IHLang1, IHLang2.
  - destruct Hc. auto.
  - destruct Hc. auto.
  - rewrite forallb_app. now rewrite IHLang1, IHLang2.
  - auto.
Qed.

Lemma Lang_lit_i (w0 w : jsstring) :
  Lang (Re_lit_i w0) w -> ci_eqb w w0 = true.
Proof.
  revert w. induction w0 as [|c t IH]; intros w H; simpl in H.
  - inversion H. reflexivity.
  - inversion H as [| |a b u v Hu Hv| | | | | |]; subst.
    inversion Hu as [|p c0 Hp| | | | | | |]; subst.
    unfold ci_eqb. simpl. unfold char_ci in Hp. rewrite Hp. simpl.
    now apply IH.
Qed.

(* --------------------------------------------------------------------- *)
(** ** Price extraction                                                   *)
(* --------------------------------------------------------------------- *)

Ltac minv H := inversion H; subst; clear H.

Lemma Lang_alt_inv (a b : regex) (w : jsstring) :
  Lang (Re_alt a b) w -> Lang a w \/ Lang b w.
Proof. intros H. minv H; auto. Qed.

Lemma Lang_seq_inv (a b : regex) (w : jsstring) :
  Lang (Re_seq a b) w -> exists u v, w = u ++ v /\ Lang a u /\ Lang b v.
Proof. intros H. minv H. eauto. Qed.

Lemma Lang_char_inv (p : char -> bool) (w : jsstring) :
  Lang (Re_char p) w -> exists c, w = [c] /\ p c = true.
Proof. intros H. minv H. eauto. Qed.

Lemma Lang_empty_inv (w : jsstring) : Lang Re_empty w -> w = [].
Proof. intros H. now minv H. Qed.

Lemma Matches_alt_inv (a b : regex) (s s' : mstate) :
  Matches (Re_alt a b) s s' -> Matches a s s' \/ Matches b s s'.
Proof. intros H. minv H; auto. Qed.

Lemma Matches_seq_inv (a b : regex) (s s' : mstate) :
  Matches (Re_seq a b) s s' ->
  exists s1, Matches a s s1 /\ Matches b s1 s'.
Proof. intros H. minv H. eauto. Qed.

Lemma Matches_group_inv (i : nat) (a : regex) (s s' : mstate) :
  Matches (Re_group i a) s s' ->
  exists s1, Matches a s s1 /\
             s' = mkMstate (ms_prev s1) (ms_rest s1)
                           ((i, consumed s s1) :: ms_caps s1).
Proof. intros H. minv H. eauto. Qed.

Lemma Matches_wordb_inv (s s' : mstate) :
  Matches Re_wordb s s' -> s' = s.
Proof. intros H. now minv H. Qed.

Lemma Lang_star_class (p : char -> bool) (w : jsstring) :
  Lang (Re_star (Re_char p)) w -> forallb p w = true.
Proof.
  intros H. apply (Lang_classes p) in H; [assumption|].
  simpl. auto.
Qed.

Lemma Lang_opt_class (p : char -> bool) (w : jsstring) :
  Lang (Re_opt (Re_char p)) w -> forallb p w = true.
Proof.
  intros H. apply (Lang_classes p) in H; [assumption|].
  simpl. auto.
Qed.

Lemma Lang_codes (w : jsstring) :
  Lang re_codes w -> existsb (ci_eqb w) isoCodes = true.
Proof.
  intros H.
  change (Lang (Re_alt (Re_lit_i (js "USD"))
                (Re_alt (Re_lit_i (js "EUR"))
                 (Re_alt (Re_lit_i (js "GBP"))
                  (Re_alt (Re_lit_i (js "JPY"))
                   (Re_alt (Re_lit_i (js "CAD"))
                           (Re_lit_i (js "AUD"))))))) w) in H.
  change (existsb (ci_eqb w) isoCodes)
    with (ci_eqb w (js "USD") || (ci_eqb w (js "EUR")
          || (ci_eqb w (js "GBP") || (ci_eqb w (js "JPY")
          || (ci_eqb w (js "CAD") || (ci_eqb w (js "AUD") || false)))))).
  repeat (apply Lang_alt_inv in H; destruct H as [H|H];
          [apply Lang_lit_i in H; rewrite H; now rewrite ?orb_true_r|]).
  apply Lang_lit_i in H. rewrite H. now rewrite ?orb_true_r.
Qed.

Lemma Lang_letter_dollar (x : char) (w : jsstring) :
  Lang (Re_seq (Re_char (char_ci x)) (Re_char (N.eqb 36%N))) w ->
  ci_eqb w [x; 36%N] = true.
Proof.
  intros H. apply Lang_seq_inv in H. destruct H as (u & v & -> & Hu & Hv).
  apply Lang_char_inv in Hu. destruct Hu as (c & -> & Hc).
  apply Lang_char_inv in Hv. destruct Hv as (d & -> & Hd).
  apply N.eqb_eq in Hd. subst d.
  unfold ci_eqb. simpl. unfold char_ci in Hc. rewrite Hc. reflexivity.
Qed.

Lemma Lang_symbol (w : jsstring) :
  Lang re_symbol w -> is_currency_marker w = true.
Proof.
  unfold re_symbol, is_currency_marker. intros H.
  apply Lang_alt_inv in H. destruct H as [H|H].
  - apply Lang_char_inv in H. destruct H as (c & -> & Hc).
    now rewrite Hc.
  - apply Lang_alt_inv in H. destruct H as [H|H];
      apply Lang_letter_dollar in H.
    + rewrite (H : ci_eqb w (js "C$") = true).
      now rewrite !orb_true_r.
    + rewrite (H : ci_eqb w (js "A$") = true).
      now rewrite !orb_true_r.
Qed.

Lemma Lang_amount (w : jsstring) :
  Lang re_amount w -> amount_shape w = true.
Proof.
  intros H. unfold amount_shape. apply andb_true_iff. split.
  - unfold re_amount in H.
    apply Lang_seq_inv in H. destruct H as (u & v & -> & Hu & _).
    apply Lang_seq_inv in Hu. destruct Hu as (u1 & u2 & -> & Hd & _).
    apply Lang_char_inv in Hd. destruct Hd as (c & -> & Hc).
    simpl. exact Hc.
  - apply (Lang_classes (fun c => is_digit c || is_separator c)) in H;
      [assumption|].
    unfold re_amount, re_digit, Re_opt. simpl.
    repeat split; intros c Hc; rewrite Hc; now rewrite ?orb_true_r.
Qed.

(** What a match of [priceRe] looks like: an optional lead, a currency
    marker, at most white space, an amount; the captures hold the marker
    and the amount. *)
Lemma price_match_shape (s0 m : mstate) :
  Matches priceRe s0 m -> ms_caps s0 = [] ->
  exists lead marker gap amount,
    ms_rest s0 = lead ++ marker ++ gap ++ amount ++ ms_rest m /\
    is_currency_marker marker = true /\
    forallb is_white_space gap = true /\
    amount_shape amount = true /\
    (ms_caps m = [(2, amount); (1, marker)] \/
     ms_caps m = [(4, amount); (3, marker)]).
Proof.
  intros H Hcaps. unfold priceRe in H.
  apply Matches_alt_inv in H. destruct H as [H|H].
  - unfold re_price_symbol in H.
    apply Matches_seq_inv in H. destruct H as (s1 & H1 & H).
    apply Matches_seq_inv in H. destruct H as (s2 & H2 & H).
    apply Matches_seq_inv in H. destruct H as (g3 & H3 & H).
    apply Matches_seq_inv in H. destruct H as (s4 & H4 & H).
    apply Matches_seq_inv in H. destruct H as (g5 & H5 & H6).
    apply Matches_wordb_inv in H6. subst m.
    apply Matches_group_inv in H3. destruct H3 as (s3 & H3 & ->).
    apply Matches_group_inv in H5. destruct H5 as (s5 & H5 & ->).
    pose proof (Matches_groupless _ _ _ H1 eq_refl) as C1.
    pose proof (Matches_groupless _ _ _ H2 eq_refl) as C2.
    pose proof (Matches_groupless _ _ _ H3 eq_refl) as C3.
    pose proof (Matches_groupless _ _ _ H4 eq_refl) as C4.
    pose proof (Matches_groupless _ _ _ H5 eq_refl) as C5.
    apply Matches_lang in H1. destruct H1 as (w1 & R1 & _ & _).
    apply Matches_lang in H2. destruct H2 as (w2 & R2 & _ & _).
    apply Matches_lang in H3. destruct H3 as (w3 & R3 & L3 & K3).
    apply Matches_lang in H4. destruct H4 as (w4 & R4 & L4 & _).
    apply Matches_lang in H5. destruct H5 as (w5 & R5 & L5 & K5).
    simpl in *.
    exists (w1 ++ w2), w3, w4, w5. repeat split.
    + rewrite R1, R2, R3, R4, R5. now rewrite <- !app_assoc.
    + now apply Lang_symbol.
    + now apply Lang_opt_class.
    + now apply Lang_amount.
    + left. rewrite K5, C5, C4. simpl. rewrite K3, C3, C2, C1, Hcaps.
      reflexivity.
  - unfold re_price_code in H.
    apply Matches_seq_inv in H. destruct H as (s3 & H1 & H).
    apply Matches_seq_inv in H1. destruct H1 as (s1 & H1 & H2).
    apply Matches_wordb_inv in H1. subst s1.
    apply Matches_seq_inv in H2. destruct H2 as (g2 & H2 & H3).
    apply Matches_wordb_inv in H3. subst s3.
    apply Matches_group_inv in H2. destruct H2 as (s2 & H2 & ->).
    apply Matches_seq_inv in H. destruct H as (s4 & H4 & H).
    apply Matches_seq_inv in H. destruct H as (g5 & H5 & H6).
    apply Matches_wordb_inv in H6. subst m.
    apply Matches_group_inv in H5. destruct H5 as (s5 & H5 & ->).
    pose proof (Matches_groupless _ _ _ H2 eq_refl) as C2.
    pose proof (Matches_groupless _ _ _ H4 eq_refl) as C4.
    pose proof (Matches_groupless _ _ _ H5 eq_refl) as C5.
    apply Matches_lang in H2. destruct H2 as (w2 & R2 & L2 & K2).
    apply Matches_lang in H4. destruct H4 as (w4 & R4 & L4 & _).
    apply Matches_lang in H5. destruct H5 as (w5 & R5 & L5 & K5).
    simpl in *.
    exists [], w2, w4, w5. repeat split.
    + rewrite R2, R4, R5. reflexivity.
    + unfold is_currency_marker. rewrite (Lang_codes _ L2).
      now rewrite orb_true_r.
    + now apply Lang_opt_class.
    + now apply Lang_amount.
    + right. rewrite K5, C5, C4. simpl. rewrite K2, C2, Hcaps.
      reflexivity.
Qed.

Lemma starts_with_app (w post : jsstring) : starts_with w (w ++ post) = true.
Proof.
  induction w as [|c w IH]; simpl; [reflexivity|].
  now rewrite N.eqb_refl.
Qed.

Lemma includes_unfold (s p : jsstring) :
  includes s p =
    starts_with p s
    || match s with [] => false | _ :: s' => includes s' p end.
Proof. destruct s; reflexivity. Qed.

Lemma includes_app (pre w post : jsstring) :
  includes (pre ++ w ++ post) w = true.
Proof.
  induction pre as [|c pre IH]; simpl.
  - now rewrite includes_unfold, starts_with_app.
  - rewrite IH. apply orb_true_r.
Qed.

Lemma upper_char_dollar (d : char) : upper_char d = 36%N -> d = 36%N.
Proof.
  unfold upper_char, is_lower.
  destruct (97 <=? d)%N eqn:E1; simpl; [|auto].
  destruct (d <=? 122)%N eqn:E2; [|auto].
  apply N.leb_le in E1. apply N.leb_le in E2. lia.
Qed.

Lemma existsb_app_mid {A : Type} (f : A -> bool) (a b c : list A) :
  existsb f b = true -> existsb f (a ++ b ++ c) = true.
Proof.
  intros H. rewrite !existsb_app, H. now rewrite orb_true_r.
Qed.

(** A text in which a marker occurs shows a currency symbol or an ISO
    code. *)
Lemma marker_in_text (pre marker post : jsstring) :
  is_currency_marker marker = true ->
  has_currency_marker (pre ++ marker ++ post) = true.
Proof.
  unfold is_currency_marker, has_currency_marker. intros H.
  apply orb_true_iff in H as [H|H]; [apply orb_true_iff in H as [H|H];
    [apply orb_true_iff in H as [H|H]|]|].
  - destruct marker as [|c [|]]; try discriminate.
    rewrite (existsb_app_mid _ pre [c] post); [reflexivity|].
    simpl. now rewrite H.
  - assert (Hin : In 36%N marker).
    { unfold ci_eqb in H. apply str_eqb_eq in H.
      destruct marker as [|c [|d [|]]]; try discriminate.
      simpl in H. injection H as _ Hd. apply upper_char_dollar in Hd.
      subst. right. now left. }
    rewrite (existsb_app_mid _ pre marker post); [reflexivity|].
    apply existsb_exists. exists 36%N. now split.
  - assert (Hin : In 36%N marker).
    { unfold ci_eqb in H. apply str_eqb_eq in H.
      destruct marker as [|c [|d [|]]]; try discriminate.
      simpl in H. injection H as _ Hd. apply upper_char_dollar in Hd.
      subst. right. now left. }
    rewrite (existsb_app_mid _ pre marker post); [reflexivity|].
    apply existsb_exists. exists 36%N. now split.
  - apply existsb_exists in H. destruct H as (code & Hcode & Heq).
    apply orb_true_iff. right. apply existsb_exists. exists code.
    split; [assumption|].
    unfold ci_eqb in Heq. apply str_eqb_eq in Heq.
    assert (Hup : map upper_char code = code).
    { unfold isoCodes in Hcode. simpl in Hcode.
      repeat destruct Hcode as [<-|Hcode]; try reflexivity.
      contradiction. }
    rewrite !map_app, Heq, Hup. apply includes_app.
Qed.

Section PriceFacts.

Variable Number_of_string : jsstring -> jsnum.
Variable toFixed2 : Q -> jsstring.

Local Abbreviation extract := (extractPrice Number_of_string toFixed2).

(** C5. Currency-marker requirement: a non-null result of [extractPrice]
    comes from an amount that stands right after a currency symbol or an
    ISO currency code, white space apart; the returned price is the
    two-decimal rendering of that amount.  A text that shows no currency
    symbol and no ISO code gives [null], whatever numbers it holds. *)
Theorem extractPrice_currency_marker :
  (forall text r,
      extract text = Some r ->
      exists pre marker gap amount post q,
        text = pre ++ marker ++ gap ++ amount ++ post /\
        is_currency_marker marker = true /\
        forallb is_white_space gap = true /\
        amount_shape amount = true /\
        Number_of_string
          (replace_first 44%N [46%N] (strip_group_separators amount))
          = Finite q /\
        pm_price r = toFixed2 q)
  /\
  (forall text, has_currency_marker text = false -> extract text = None).
Proof.
  assert (Hfirst :
    forall text r,
      extract text = Some r ->
      exists pre marker gap amount post q,
        text = pre ++ marker ++ gap ++ amount ++ post /\
        is_currency_marker marker = true /\
        forallb is_white_space gap = true /\
        amount_shape amount = true /\
        Number_of_string
          (replace_first 44%N [46%N] (strip_group_separators amount))
          = Finite q /\
        pm_price r = toFixed2 q).
  { intros text r. unfold extractPrice.
    destruct (exec priceRe text) as [m|] eqn:E; [|discriminate].
    unfold exec in E. apply exec_from_sound in E.
    destruct E as (pre & suf & prev & -> & Hm).
    apply price_match_shape in Hm; [|reflexivity].
    destruct Hm as (lead & marker & gap & amount & Hrest & Hmk & Hgap
                    & Hamt & Hcaps).
    simpl in Hrest.
    assert (Hraw : first_some
                     (nonempty (capture 2 (ms_caps m)))
                     (nonempty (capture 4 (ms_caps m))) = Some amount).
    { unfold amount_shape in Hamt. destruct amount; [discriminate|].
      destruct Hcaps as [-> | ->]; reflexivity. }
    cbv zeta. rewrite Hraw.
    destruct (Number_of_string _) as [| |q] eqn:Hn; try discriminate.
    destruct (first_some (nonempty (capture 3 (ms_caps m))) _) as [cur|];
      [|discriminate].
    intros [= <-].
    exists (pre ++ lead), marker, gap, amount, (ms_rest m), q.
    repeat split; try assumption.
    rewrite Hrest. now rewrite <- !app_assoc. }
  split; [exact Hfirst|].
  intros text Hno. destruct (extract text) as [r|] eqn:E; [|reflexivity].
  apply Hfirst in E.
  destruct E as (pre & marker & gap & amount & post & q & -> & Hmk & _).
  rewrite (marker_in_text pre marker (gap ++ amount ++ post) Hmk) in Hno.
  discriminate.
Qed.

End PriceFacts.

(** A text with bare amounts, and a text with a priced amount. *)
Lemma extractPrice_currency_marker_witness :
  extractPrice example_Number_of_string example_toFixed2
               (js "Pack of 100 screws, 2.50 each") = None
  /\
  exists pre marker gap amount post q,
    js "Now only $49.99!" = pre ++ marker ++ gap ++ amount ++ post /\
    is_currency_marker marker = true /\
    forallb is_white_space gap = true /\
    amount_shape amount = true /\
    example_Number_of_string
      (replace_first 44%N [46%N] (strip_group_separators amount))
      = Finite q /\
    js "49.99" = example_toFixed2 q.
Proof.
  split.
  - apply (proj2 (extractPrice_currency_marker example_Number_of_string
                    example_toFixed2)).
    vm_compute. reflexivity.
  - apply (proj1 (extractPrice_currency_marker example_Number_of_string
                    example_toFixed2)
                 (js "Now only $49.99!")
                 (mkPriceMatch (js "49.99") (js "USD"))).
    vm_compute. reflexivity.
Defined.

(* --------------------------------------------------------------------- *)
(** ** Price-inference gate                                               *)
(* --------------------------------------------------------------------- *)

Ltac neq_keys := apply str_eqb_neq; reflexivity.

Lemma has_set_prop_other (m : members) (k k' : jsstring) (v : json) :
  k <> k' -> has (set_prop m k' v) k = has m k.
Proof. intros H. unfold has. now rewrite get_set_prop_other. Qed.

Lemma has_set_prop_inv (m : members) (k k' : jsstring) (v : json) :
  has (set_prop m k' v) k = true -> k = k' \/ has m k = true.
Proof.
  destruct (str_eqb k k') eqn:E.
  - apply str_eqb_eq in E. now left.
  - apply str_eqb_neq in E. rewrite has_set_prop_other by assumption.
    now right.
Qed.

Lemma strong_loop_count (t : jsstring) (tokens : list jsstring) :
  forall hits,
    strong_loop t tokens hits = true ->
    2 <= hits + List.length (filter (includes t) tokens).
Proof.
  induction tokens as [|tok rest IH]; intros hits; [discriminate|].
  change (strong_loop t (tok :: rest) hits)
    with (if (2 <=? (if includes t tok then S hits else hits))%nat
          then true
          else strong_loop t rest (if includes t tok then S hits else hits)).
  change (filter (includes t) (tok :: rest))
    with (if includes t tok then tok :: filter (includes t) rest
          else filter (includes t) rest).
  destruct (includes t tok).
  - destruct (2 <=? S hits)%nat eqn:E.
    + apply Nat.leb_le in E. simpl. lia.
    + intros H. apply IH in H. simpl. lia.
  - destruct (2 <=? hits)%nat eqn:E.
    + apply Nat.leb_le in E. lia.
    + intros H. apply IH in H. lia.
Qed.

Lemma two_in_filter {A : Type} (f : A -> bool) (l : list A) :
  NoDup l -> 2 <= List.length (filter f l) ->
  exists a b, a <> b /\ In a l /\ In b l /\ f a = true /\ f b = true.
Proof.
  intros Hnd Hlen.
  assert (Hnd' : NoDup (filter f l)) by now apply NoDup_filter.
  destruct (filter f l) as [|a [|b rest]] eqn:E; simpl in Hlen; try lia.
  assert (Ha : In a (filter f l)) by (rewrite E; now left).
  assert (Hb : In b (filter f l)) by (rewrite E; right; now left).
  apply filter_In in Ha as [Ha Hfa]. apply filter_In in Hb as [Hb Hfb].
  exists a, b. repeat split; try assumption.
  inversion Hnd' as [|? ? Hnotin _]; subst. intros ->.
  apply Hnotin. now left.
Qed.

Lemma strongTokens_NoDup : NoDup strongTokens.
Proof.
  unfold strongTokens. simpl.
  repeat (constructor; [simpl; intuition discriminate|]). constructor.
Qed.

(** The commerce-intent test answers yes only when two distinct phrases of
    its list occur in the text. *)
Lemma hasStrongCommerceIntent_two (toLowerCase : jsstring -> jsstring)
      (t : jsstring) :
  hasStrongCommerceIntent toLowerCase t = true ->
  two_strong_phrases toLowerCase t.
Proof.
  unfold hasStrongCommerceIntent. intros H.
  apply strong_loop_count in H. simpl in H.
  apply (two_in_filter _ _ strongTokens_NoDup H).
Qed.

Section InferenceFacts.

Variable toLowerCase : jsstring -> jsstring.
Variable divide : nat -> nat -> Q.
Variable Number_of_string : jsstring -> jsnum.
Variable toFixed2 : Q -> jsstring.
Variable confidence_json : Q -> json.
Variable extractSKU : jsstring -> option jsstring.
Variable extractBrand : jsstring -> jsstring -> option jsstring.
Variable extractContacts : jsstring -> list jsstring * list jsstring.
Variable extractAddress : jsstring -> option json.
Variable extractPublishDates :
  jsstring -> jsstring -> option jsstring * option jsstring.
Variable byline_author : jsstring -> option jsstring.
Variable title_name : jsstring -> option jsstring.
Variable meta_description : jsstring -> option jsstring.
Variable callLLMEnrichment :
  jsstring -> jsstring -> jsstring -> members -> jsstring -> option json.

Local Abbreviation provenance := (addProvenance confidence_json).
Local Abbreviation field := (infer_field confidence_json).
Local Abbreviation text_field := (infer_string confidence_json).

Lemma has_addProvenance (target : members) (key k : jsstring) (c : Q)
      (source method : string) :
  k <> k_inferred ->
  has (provenance target key c source method) k = has target k.
Proof.
  intros Hk. unfold addProvenance.
  destruct (match get target k_inferred with
            | Some v => if truthy v then v else JObj []
            | None => JObj []
            end); now rewrite has_set_prop_other.
Qed.

Lemma has_infer_field (i : members) (key k : jsstring) (v : json) (c : Q)
      (method : string) :
  k <> key -> k <> k_inferred -> has (field i key v c method) k = has i k.
Proof.
  intros Hk Hi. unfold infer_field.
  rewrite has_addProvenance by assumption.
  now apply has_set_prop_other.
Qed.

Lemma has_infer_string (i : members) (key k : jsstring)
      (v : option jsstring) (c : Q) (method : string) :
  k <> key -> k <> k_inferred -> has (text_field i key v c method) k = has i k.
Proof.
  intros Hk Hi. unfold infer_string.
  destruct (nonempty v); [now apply has_infer_field|reflexivity].
Qed.

Lemma price_key_neq (k : jsstring) :
  price_key k ->
  k <> k_inferred /\ k <> k_context /\ k <> k_type /\
  k <> js "agentnet:sku" /\ k <> js "agentnet:brand" /\
  k <> js "agentnet:email" /\ k <> js "agentnet:telephone" /\
  k <> js "agentnet:address" /\ k <> js "agentnet:datePublished" /\
  k <> js "agentnet:dateModified" /\ k <> js "agentnet:author" /\
  k <> js "agentnet:name" /\ k <> js "agentnet:description".
Proof.
  intros [-> | ->]; repeat split; neq_keys.
Qed.

Lemma seed_inferred_no_price (extracted : members) (guess : typeGuess)
      (k : jsstring) :
  price_key k ->
  has (seed_inferred confidence_json extracted guess) k = false.
Proof.
  intros Hk. destruct (price_key_neq k Hk) as (Hi & Hc & Ht & _).
  unfold seed_inferred.
  destruct (negb _ && negb _).
  - rewrite has_addProvenance by assumption.
    unfold has. simpl.
    apply str_eqb_neq in Hc. apply str_eqb_neq in Ht. now rewrite Hc, Ht.
  - unfold has. simpl.
    apply str_eqb_neq in Hc. apply str_eqb_neq in Ht. now rewrite Hc, Ht.
Qed.

Lemma organization_stage_price (t : jsstring) (type : json) (i : members)
      (k : jsstring) :
  price_key k ->
  has (organization_stage confidence_json extractContacts extractAddress
         t type i) k = has i k.
Proof.
  intros Hk.
  destruct (price_key_neq k Hk)
    as (Hi & _ & _ & _ & _ & He & Hp & Ha & _).
  unfold organization_stage. destruct (is_type type _); [|reflexivity].
  cbv zeta.
  destruct (extractAddress t);
    destruct (snd (extractContacts t));
    destruct (fst (extractContacts t));
    rewrite ?has_infer_field by assumption; reflexivity.
Qed.

Lemma article_stage_price (html t : jsstring) (type : json) (i : members)
      (k : jsstring) :
  price_key k ->
  has (article_stage confidence_json extractPublishDates byline_author
         html t type i) k = has i k.
Proof.
  intros Hk.
  destruct (price_key_neq k Hk)
    as (Hi & _ & _ & _ & _ & _ & _ & _ & Hdp & Hdm & Hau & _).
  unfold article_stage. destruct (is_type type _); [|reflexivity].
  cbv zeta.
  destruct (byline_author t);
    rewrite ?has_infer_field, ?has_infer_string by assumption; reflexivity.
Qed.

Lemma generic_stage_price (extracted : members) (html : jsstring)
      (i : members) (k : jsstring) :
  price_key k ->
  has (generic_stage confidence_json title_name meta_description
         extracted html i) k = has i k.
Proof.
  intros Hk.
  destruct (price_key_neq k Hk)
    as (Hi & _ & _ & _ & _ & _ & _ & _ & _ & _ & _ & Hn & Hd).
  unfold generic_stage. cbv zeta.
  destruct (negb (truthy_opt (get extracted (js "agentnet:description"))));
    destruct (negb (truthy_opt (get extracted (js "agentnet:name"))));
    destruct (nonempty (meta_description html));
    destruct (title_name html);
    rewrite ?has_infer_field by assumption; reflexivity.
Qed.

(** Within the product stage a price key appears only under the gate. *)
Lemma product_stage_price (extracted : members) (html t : jsstring)
      (guess : typeGuess) (i : members) (k : jsstring) :
  price_key k ->
  has i k = false ->
  has (product_stage toLowerCase Number_of_string toFixed2 confidence_json extractSKU
         extractBrand extracted html t guess i) k = true ->
  allowPriceInference toLowerCase extracted guess t = true.
Proof.
  intros Hk Hno.
  destruct (price_key_neq k Hk) as (Hi & _ & _ & Hs & Hb & _).
  unfold product_stage. cbv zeta.
  destruct (is_type _ _ || test _ t); [|congruence].
  rewrite !has_infer_string by assumption.
  destruct (allowPriceInference toLowerCase extracted guess t); [reflexivity|congruence].
Qed.

(** The heuristic pass writes a price key only under the gate. *)
Lemma heuristics_price (extracted : members) (html t : jsstring)
      (guess : typeGuess) (k : jsstring) :
  price_key k ->
  has (heuristics toLowerCase Number_of_string toFixed2 confidence_json extractSKU
         extractBrand extractContacts extractAddress extractPublishDates
         byline_author title_name meta_description extracted html t guess)
      k = true ->
  allowPriceInference toLowerCase extracted guess t = true.
Proof.
  intros Hk. unfold heuristics. cbv zeta.
  rewrite generic_stage_price, article_stage_price,
    organization_stage_price by assumption.
  apply product_stage_price; [assumption|].
  now apply seed_inferred_no_price.
Qed.

(** What the gate says, in terms of the asserted type, the guessed type
    and the text. *)
Lemma allowPriceInference_spec (extracted : members) (guess : typeGuess)
      (t : jsstring) :
  allowPriceInference toLowerCase extracted guess t = true ->
  assertedLooksProduct extracted = true \/
  (tg_type guess = T_Product /\ hasStrongCommerceIntent toLowerCase t = true).
Proof.
  unfold allowPriceInference.
  destruct (assertedLooksProduct extracted) eqn:Ha; [now left|].
  simpl. intros H. right. apply andb_true_iff in H as [Hty Hst].
  split; [|assumption].
  unfold resolved_type in Hty. unfold assertedLooksProduct, assertedType in Ha.
  destruct (get extracted k_type) as [v|]; simpl in Hty.
  - destruct (truthy v) eqn:Hv.
    + simpl in Hty. destruct v; try discriminate.
      simpl in Hty. apply str_eqb_eq in Hty. subst s.
      vm_compute in Ha. discriminate.
    + destruct (tg_type guess); try discriminate; reflexivity.
  - destruct (tg_type guess); try discriminate; reflexivity.
Qed.

Lemma has_In_keys (m : members) (k : jsstring) :
  has m k = true <-> In k (keys m).
Proof.
  unfold has. pose proof (get_None_keys m k) as H.
  destruct (get m k); split; intros H1; try reflexivity; try discriminate.
  - destruct (in_dec (list_eq_dec N.eq_dec) k (keys m)) as [Hin|Hout];
      [assumption|].
    apply H in Hout. discriminate.
  - exfalso. now apply (proj1 H).
Qed.

Lemma fold_set_prop_has (l acc : members) (k : jsstring) :
  has (fold_left (fun a kv => set_prop a (fst kv) (snd kv)) l acc) k = true ->
  has acc k = true \/ In k (keys l).
Proof.
  revert acc. induction l as [|[k' v] l IH]; intros acc; simpl; [now left|].
  intros H. apply IH in H. destruct H as [H|H]; [|right; now right].
  apply has_set_prop_inv in H. destruct H as [->|H]; [right|]; auto.
Qed.

Lemma fold_llm_write_has (l i : members) (k : jsstring) :
  k <> k_inferred ->
  has (fold_left (llm_write confidence_json) l i) k = true ->
  has i k = true \/ In k (keys l).
Proof.
  intros Hk. revert i. induction l as [|[k' v] l IH]; intros i; simpl;
    [now left|].
  intros H. apply IH in H. destruct H as [H|H]; [|right; now right].
  unfold llm_write in H. simpl in H.
  apply has_set_prop_inv in H. destruct H as [->|H]; [right; now left|].
  rewrite has_addProvenance in H by assumption. now left.
Qed.

(** A key the model stage adds was in the model's reply. *)
Lemma llm_stage_has (opts : inferOptions) (url html t : jsstring)
      (extracted i : members) (k : jsstring) :
  k <> k_inferred ->
  has (llm_stage confidence_json callLLMEnrichment opts url html t
         extracted i) k = true ->
  has i k = true \/
  (llm_runs opts = true /\
   exists seed reply,
     callLLMEnrichment url html t seed
       (match model opts with Some m => m | None => [] end) = Some reply /\
     has (own_props reply) k = true).
Proof.
  intros Hk. unfold llm_stage.
  destruct (llm_runs opts); [|now left].
  destruct (callLLMEnrichment url html t _ _) as [reply|] eqn:E; [|now left].
  destruct (is_object_like reply); [|now left].
  cbv zeta. intros H. apply fold_llm_write_has in H; [|assumption].
  destruct H as [H|H]; [now left|]. right. split; [reflexivity|].
  eexists. exists reply. split; [exact E|].
  apply has_In_keys in H. apply fold_set_prop_has in H.
  destruct H as [H|H]; [discriminate|].
  apply has_In_keys. unfold keys in *. apply in_map_iff in H.
  destruct H as (kv & <- & Hin). apply filter_In in Hin as [Hin _].
  now apply in_map.
Qed.

(** Where an inferred price can come from: the inferred object holds a
    price or a currency only if the asserted type is a string in which
    [/Product/i] finds a match, or the type guessed from the text is
    Product and two distinct phrases of the strong commerce list occur in
    the lower-cased text, or the model augmentation ran and its reply held
    that field.  Without model augmentation only the first two cases
    remain: the heuristic pass keeps to its guardrail. *)
Theorem price_inference_gate
        (url html text : jsstring) (extractedCapsule : option json)
        (opts : inferOptions) (k : jsstring) :
  let r := inferCapsule toLowerCase divide Number_of_string toFixed2 confidence_json
             extractSKU extractBrand extractContacts extractAddress
             extractPublishDates byline_author title_name meta_description
             callLLMEnrichment url html text extractedCapsule opts in
  let extracted := asObject extractedCapsule in
  let t := normText text in
  price_key k ->
  has (inf_inferred r) k = true ->
  (assertedLooksProduct extracted = true \/
   (tg_type (detectType toLowerCase divide t) = T_Product /\ two_strong_phrases toLowerCase t) \/
   (llm_runs opts = true /\
    exists seed reply,
      callLLMEnrichment url html t seed
        (match model opts with Some m => m | None => [] end) = Some reply /\
      has (own_props reply) k = true))
  /\
  (llm_runs opts = false ->
   assertedLooksProduct extracted = true \/
   (tg_type (detectType toLowerCase divide t) = T_Product /\ two_strong_phrases toLowerCase t)).
Proof.
  intros r extracted t Hk Hhas.
  destruct (price_key_neq k Hk) as (Hi & _).
  unfold r, inferCapsule in Hhas. cbv zeta in Hhas. simpl in Hhas.
  fold extracted in Hhas. fold t in Hhas.
  apply llm_stage_has in Hhas; [|assumption].
  assert (Hgate : allowPriceInference toLowerCase extracted (detectType toLowerCase divide t) t = true ->
                  assertedLooksProduct extracted = true \/
                  (tg_type (detectType toLowerCase divide t) = T_Product /\
                   two_strong_phrases toLowerCase t)).
  { intros Ha. apply allowPriceInference_spec in Ha.
    destruct Ha as [Ha|[Hty Hst]]; [now left|right].
    split; [assumption|now apply hasStrongCommerceIntent_two]. }
  destruct Hhas as [Hh|(Hruns & Hreply)].
  - apply heuristics_price in Hh; [|assumption].
    apply Hgate in Hh. split; [|intros _; exact Hh].
    destruct Hh as [Hh|Hh]; [now left|right; now left].
  - split; [right; right; now split|].
    intros Hoff. congruence.
Qed.

End InferenceFacts.

(** C4.  The price guardrail announces that a price is inferred only when
    the asserted type looks like a Product or the page was guessed a
    Product and shows strong commerce intent.  On a page without commerce
    vocabulary and an asserted seed without type, a configured model that
    answers with a price puts [agentnet:price] and
    [agentnet:priceCurrency] into the inferred object and into the
    capsule, each with a provenance entry of source [llm]: the model stage
    copies the reply without consulting the guardrail. *)
Theorem price_gate_llm_bypass :
  let text := js "Our story. Tickets from $19.99 at the door." in
  let r := example_infer pricing_model (js "https://example.org/about")
             (js "<html></html>") text (Some (JObj [])) with_model in
  get (inf_inferred r) k_price = Some (JStr (js "19.99")) /\
  get (inf_inferred r) k_priceCurrency = Some (JStr (js "USD")) /\
  get (inf_capsule r) k_price = Some (JStr (js "19.99")) /\
  has_provenance (inf_inferred r) k_price = true /\
  assertedLooksProduct (asObject (Some (JObj []))) = false /\
  tg_type (detectType example_toLowerCase example_divide (normText text))
  = T_Thing /\
  hasStrongCommerceIntent example_toLowerCase (normText text) = false /\
  extractPrice example_Number_of_string example_toFixed2 (normText text)
  = Some (mkPriceMatch (js "19.99") (js "USD")) /\
  has (inf_inferred
         (example_infer silent_model (js "https://example.org/about")
            (js "<html></html>") text (Some (JObj [])) with_model))
      k_price = false.
Proof. vm_compute. repeat split; reflexivity. Qed.

(** The gate on a page whose asserted type is Product: the price found in
    the text is inferred, and the theorem names the reason. *)
Lemma price_inference_gate_witness :
  let extracted := [(k_type, JStr (js "Product"))] in
  assertedLooksProduct extracted = true \/
  (tg_type (detectType example_toLowerCase example_divide
              (normText (js "Widget product, now $49.99"))) = T_Product /\
   two_strong_phrases example_toLowerCase
     (normText (js "Widget product, now $49.99"))).
Proof.
  refine (proj2 (price_inference_gate example_toLowerCase example_divide
                   example_Number_of_string
                   example_toFixed2 example_confidence no_field no_field2
                   no_contacts no_address no_dates no_field no_field
                   no_field silent_model (js "https://example.com/")
                   (js "<html></html>") (js "Widget product, now $49.99")
                   (Some (JObj [(k_type, JStr (js "Product"))]))
                   heuristics_only k_price _ _) _).
  - left. reflexivity.
  - vm_compute. reflexivity.
  - reflexivity.
Defined.

(* --------------------------------------------------------------------- *)
(** ** Sorting with a total order                                         *)
(* --------------------------------------------------------------------- *)

Section SortFacts.

Variable A : Type.
Variable cmp : A -> A -> comparison.
Variable dom : list A.

Hypothesis cmp_total : total_on cmp dom.

Lemma cmp_refl (a : A) : In a dom -> cmp a a = Eq.
Proof.
  intros Ha. destruct cmp_total as (_ & Hopp & _).
  pose proof (Hopp a a Ha Ha) as H. destruct (cmp a a); simpl in H;
    congruence.
Qed.

Lemma not_after_refl (a : A) : In a dom -> not_after cmp a a.
Proof. intros Ha. unfold not_after. rewrite cmp_refl; [discriminate|easy]. Qed.

Lemma not_after_trans (a b c : A) :
  In a dom -> In b dom -> In c dom ->
  not_after cmp a b -> not_after cmp b c -> not_after cmp a c.
Proof.
  destruct cmp_total as (Heq & _ & Htr).
  unfold not_after. intros Ha Hb Hc Hab Hbc.
  destruct (cmp a b) eqn:E1; [|clear Hab|congruence].
  - apply Heq in E1; auto. now subst.
  - destruct (cmp b c) eqn:E2; [| |congruence].
    + apply Heq in E2; auto. subst. congruence.
    + rewrite (Htr a b c Ha Hb Hc E1 E2). discriminate.
Qed.

Lemma not_after_antisym (a b : A) :
  In a dom -> In b dom -> not_after cmp a b -> not_after cmp b a -> a = b.
Proof.
  destruct cmp_total as (Heq & Hopp & _).
  unfold not_after. intros Ha Hb Hab Hba. rewrite (Hopp a b Ha Hb) in Hba.
  destruct (cmp a b) eqn:E; simpl in Hba; try congruence.
  now apply Heq.
Qed.

Lemma not_after_total (a b : A) :
  In a dom -> In b dom -> cmp a b = Gt -> not_after cmp b a.
Proof.
  destruct cmp_total as (_ & Hopp & _).
  unfold not_after. intros Ha Hb H. rewrite (Hopp a b Ha Hb), H.
  discriminate.
Qed.

Lemma insert_sorted_perm (x : A) (l : list A) :
  Permutation (insert_sorted cmp x l) (x :: l).
Proof.
  induction l as [|y t IH]; simpl; [reflexivity|].
  destruct (cmp x y); try reflexivity.
  rewrite IH. apply perm_swap.
Qed.

Lemma sort_by_perm (l : list A) : Permutation (sort_by cmp l) l.
Proof.
  induction l as [|x t IH]; simpl; [reflexivity|].
  rewrite insert_sorted_perm. now constructor.
Qed.

Lemma insert_sorted_sorted (x : A) (l : list A) :
  In x dom -> incl l dom ->
  StronglySorted (not_after cmp) l ->
  StronglySorted (not_after cmp) (insert_sorted cmp x l).
Proof.
  intros Hx. induction l as [|y t IH]; simpl; intros Hl Hs.
  - repeat constructor.
  - assert (Hy' : In y dom) by (apply Hl; now left).
    assert (Ht' : incl t dom) by (intros z Hz; apply Hl; now right).
    apply StronglySorted_inv in Hs as [Ht Hy].
    destruct (cmp x y) eqn:E.
    + constructor; [now constructor|].
      destruct cmp_total as (Heq & _ & _).
      apply Heq in E; auto. subst y.
      constructor; [now apply not_after_refl|assumption].
    + constructor; [now constructor|].
      assert (Hxy : not_after cmp x y) by (unfold not_after; congruence).
      constructor; [assumption|].
      rewrite Forall_forall in *. intros z Hz.
      apply (not_after_trans x y z); auto.
    + constructor; [now apply IH|].
      apply Forall_forall. intros z Hz.
      apply (Permutation_in _ (insert_sorted_perm x t)) in Hz.
      destruct Hz as [<-|Hz].
      * now apply not_after_total.
      * rewrite Forall_forall in Hy. now apply Hy.
Qed.

Lemma sort_by_sorted (l : list A) :
  incl l dom -> StronglySorted (not_after cmp) (sort_by cmp l).
Proof.
  induction l as [|x t IH]; simpl; intros Hl; [constructor|].
  assert (Ht : incl t dom) by (intros z Hz; apply Hl; now right).
  apply insert_sorted_sorted; auto.
  - apply Hl. now left.
  - intros z Hz. apply Ht. now apply (Permutation_in _ (sort_by_perm t)).
Qed.

(** A sorted arrangement is unique. *)
Lemma sorted_unique (l1 l2 : list A) :
  incl l1 dom ->
  StronglySorted (not_after cmp) l1 -> StronglySorted (not_after cmp) l2 ->
  Permutation l1 l2 -> l1 = l2.
Proof.
  revert l2. induction l1 as [|a l1 IH]; intros l2 Hd H1 H2 Hp.
  - apply Permutation_nil in Hp. now subst.
  - destruct l2 as [|b l2].
    + apply Permutation_sym, Permutation_nil in Hp. discriminate.
    + apply StronglySorted_inv in H1 as [H1 Ha].
      apply StronglySorted_inv in H2 as [H2 Hb].
      rewrite Forall_forall in Ha, Hb.
      assert (Hina : In a dom) by (apply Hd; now left).
      assert (Hinb' : In b (a :: l1))
        by (apply (Permutation_in _ (Permutation_sym Hp)); now left).
      assert (Hinb : In b dom) by now apply Hd.
      assert (Hab : a = b).
      { apply not_after_antisym; auto.
        - destruct Hinb' as [->|Hin];
            [now apply not_after_refl|now apply Ha].
        - assert (Hin : In a (b :: l2))
            by (apply (Permutation_in _ Hp); now left).
          destruct Hin as [->|Hin];
            [now apply not_after_refl|now apply Hb]. }
      subst b. f_equal. apply IH; try assumption.
      * intros z Hz. apply Hd. now right.
      * now apply Permutation_cons_inv with a.
Qed.

(** Sorting forgets the order of its input. *)
Lemma sort_by_permutation (l1 l2 : list A) :
  incl l1 dom -> Permutation l1 l2 -> sort_by cmp l1 = sort_by cmp l2.
Proof.
  intros Hd Hp.
  assert (Hd2 : incl l2 dom).
  { intros z Hz. apply Hd.
    now apply (Permutation_in _ (Permutation_sym Hp)). }
  apply sorted_unique; try now apply sort_by_sorted.
  - intros z Hz. apply Hd. now apply (Permutation_in _ (sort_by_perm l1)).
  - rewrite !sort_by_perm. assumption.
Qed.

End SortFacts.

(** Sorting by a key and then reading the keys is sorting the keys. *)
Lemma sort_by_map {A B : Type} (cmp : B -> B -> comparison) (f : A -> B)
      (l : list A) :
  map f (sort_by (fun a b => cmp (f a) (f b)) l) = sort_by cmp (map f l).
Proof.
  induction l as [|x t IH]; simpl; [reflexivity|].
  rewrite <- IH. generalize (sort_by (fun a b => cmp (f a) (f b)) t).
  intros s. induction s as [|y s IHs]; simpl; [reflexivity|].
  destruct (cmp (f x) (f y)); simpl; try reflexivity.
  now rewrite IHs.
Qed.

(** The code-unit order is a total order. *)
Lemma str_compare_eq (a b : jsstring) : str_compare a b = Eq -> a = b.
Proof.
  revert b. induction a as [|x a IH]; intros [|y b]; simpl;
    try discriminate; [reflexivity|].
  destruct (N.compare x y) eqn:E; try discriminate.
  apply N.compare_eq in E. subst. intros H. f_equal. now apply IH.
Qed.

Lemma str_compare_opp (a b : jsstring) :
  str_compare b a = CompOpp (str_compare a b).
Proof.
  revert b. induction a as [|x a IH]; intros [|y b]; simpl;
    try reflexivity.
  rewrite (N.compare_antisym x y).
  destruct (N.compare x y); simpl; auto.
Qed.

Lemma str_compare_trans (a b c : jsstring) :
  str_compare a b = Lt -> str_compare b c = Lt -> str_compare a c = Lt.
Proof.
  revert b c. induction a as [|x a IH]; intros [|y b] [|z c]; simpl;
    try discriminate; try reflexivity.
  destruct (N.compare x y) eqn:E1; try discriminate.
  - apply N.compare_eq in E1. subst y.
    destruct (N.compare x z); try discriminate; [|reflexivity].
    apply IH.
  - intros _. destruct (N.compare y z) eqn:E2; try discriminate.
    + apply N.compare_eq in E2. subst z. rewrite E1. reflexivity.
    + intros _. apply N.compare_lt_iff in E1. apply N.compare_lt_iff in E2.
      assert (E3 : (x < z)%N) by exact (N.lt_trans x y z E1 E2).
      apply N.compare_lt_iff in E3. now rewrite E3.
Qed.

Lemma str_compare_total (dom : list jsstring) : total_on str_compare dom.
Proof.
  repeat split; intros.
  - now apply str_compare_eq.
  - apply str_compare_opp.
  - eapply str_compare_trans; eauto.
Qed.

Lemma comparison_eqb_eq (c d : comparison) :
  comparison_eqb c d = true -> c = d.
Proof. destruct c, d; simpl; congruence. Qed.

(** The decision procedure is sound ... *)
Lemma total_onb_sound (cmp : jsstring -> jsstring -> comparison)
      (dom : list jsstring) :
  total_onb cmp dom = true -> total_on cmp dom.
Proof.
  unfold total_onb. rewrite forallb_forall. intros H.
  assert (H' : forall a b, In a dom -> In b dom ->
             (cmp a b = Eq -> a = b)
             /\ cmp b a = CompOpp (cmp a b)
             /\ forall c, In c dom -> cmp a b = Lt -> cmp b c = Lt ->
                          cmp a c = Lt).
  { intros a b Ha Hb. specialize (H a Ha). rewrite forallb_forall in H.
    specialize (H b Hb). apply andb_prop in H as [H H3].
    apply andb_prop in H as [H1 H2]. repeat split.
    - intros E. rewrite E in H1. now apply str_eqb_eq.
    - now apply comparison_eqb_eq.
    - intros c Hc E1 E2. rewrite forallb_forall in H3.
      specialize (H3 c Hc). rewrite E1, E2 in H3.
      now apply comparison_eqb_eq. }
  repeat split.
  - intros a b Ha Hb. now apply (H' a b Ha Hb).
  - intros a b Ha Hb. now apply (H' a b Ha Hb).
  - intros a b c Ha Hb Hc. now apply (H' a b Ha Hb).
Qed.

(** ... and looks at the members of the domain only. *)
Lemma total_onb_incl (cmp : jsstring -> jsstring -> comparison)
      (dom dom' : list jsstring) :
  incl dom' dom -> total_onb cmp dom = true -> total_onb cmp dom' = true.
Proof.
  unfold total_onb. intros Hi H.
  rewrite forallb_forall in H. apply forallb_forall. intros a Ha.
  specialize (H a (Hi a Ha)).
  rewrite forallb_forall in H. apply forallb_forall. intros b Hb.
  specialize (H b (Hi b Hb)).
  apply andb_prop in H as [H H3]. rewrite H. simpl.
  rewrite forallb_forall in H3. apply forallb_forall. intros c Hc.
  exact (H3 c (Hi c Hc)).
Qed.

Lemma sort_by_permutation_checked (cmp : jsstring -> jsstring -> comparison)
      (l1 l2 : list jsstring) :
  total_onb cmp l1 = true -> Permutation l1 l2 ->
  sort_by cmp l1 = sort_by cmp l2.
Proof.
  intros Ht Hp. apply (sort_by_permutation _ cmp l1).
  - now apply total_onb_sound.
  - intros z Hz. exact Hz.
  - assumption.
Qed.

Lemma sort_keys_permutation (l1 l2 : list jsstring) :
  Permutation l1 l2 -> sort_by str_compare l1 = sort_by str_compare l2.
Proof.
  intros Hp. apply (sort_by_permutation _ str_compare l1).
  - apply str_compare_total.
  - intros z Hz. exact Hz.
  - assumption.
Qed.

(* --------------------------------------------------------------------- *)
(** ** The canonical form forgets the order                               *)
(* --------------------------------------------------------------------- *)

Lemma stringify_obj_ser (a1 a2 : members) :
  ser_view a1 = ser_view a2 -> stringify (JObj a1) = stringify (JObj a2).
Proof.
  intros H. simpl. do 3 f_equal.
  assert (E : forall ms,
             map (fun kv : jsstring * json =>
                    quote (fst kv) ++ 58%N :: stringify (snd kv)) ms
             = map (fun p : jsstring * jsstring =>
                      quote (fst p) ++ 58%N :: snd p) (ser_view ms)).
  { intros ms. unfold ser_view. rewrite map_map. reflexivity. }
  rewrite !E, H. reflexivity.
Qed.

Lemma ser_view_has (a1 a2 : members) (k : jsstring) :
  ser_view a1 = ser_view a2 -> has a1 k = has a2 k.
Proof.
  unfold has. revert a2.
  induction a1 as [|[k1 v1] a1 IH]; intros [|[k2 v2] a2]; simpl;
    try discriminate; [reflexivity|].
  intros [= <- _ Hr]. destruct (str_eqb k k1); [reflexivity|now apply IH].
Qed.

Lemma ser_view_replace (a1 a2 : members) (k : jsstring) (v1 v2 : json) :
  ser_view a1 = ser_view a2 -> stringify v1 = stringify v2 ->
  ser_view (replace_prop a1 k v1) = ser_view (replace_prop a2 k v2).
Proof.
  intros H Hv. revert a2 H.
  induction a1 as [|[k1 w1] a1 IH]; intros [|[k2 w2] a2]; simpl;
    try discriminate; [reflexivity|].
  intros [= <- Hw Hr]. destruct (str_eqb k k1); simpl.
  - f_equal; [now rewrite Hv|assumption].
  - f_equal; [now rewrite Hw|now apply IH].
Qed.

Lemma ser_view_insert (i : N) (a1 a2 : members) (k : jsstring)
      (v1 v2 : json) :
  ser_view a1 = ser_view a2 -> stringify v1 = stringify v2 ->
  ser_view (insert_index i k v1 a1) = ser_view (insert_index i k v2 a2).
Proof.
  intros H Hv. revert a2 H.
  induction a1 as [|[k1 w1] a1 IH]; intros [|[k2 w2] a2]; simpl;
    try discriminate.
  - intros _. now rewrite Hv.
  - intros [= <- Hw Hr].
    destruct (array_index k1) as [j|]; [destruct (j <? i)%N|]; simpl;
      rewrite ?Hv, ?Hw, ?Hr; try reflexivity.
    f_equal. now apply IH.
Qed.

Lemma ser_view_set_prop (a1 a2 : members) (k : jsstring) (v1 v2 : json) :
  ser_view a1 = ser_view a2 -> stringify v1 = stringify v2 ->
  ser_view (set_prop a1 k v1) = ser_view (set_prop a2 k v2).
Proof.
  intros H Hv. unfold set_prop, define_prop.
  rewrite (ser_view_has a1 a2 k H).
  destruct (str_eqb k k_proto && negb (has a2 k)); [exact H|].
  destruct (has a2 k).
  - now apply ser_view_replace.
  - destruct (array_index k).
    + now apply ser_view_insert.
    + unfold ser_view in *. rewrite !map_app, H. simpl. now rewrite Hv.
Qed.

(** The rebuilt object depends on the keys as a set and on the serialized
    values only. *)
Lemma rebuild_sorted_ser (m1 m2 : members) :
  Permutation (keys m1) (keys m2) ->
  (forall k, option_map stringify (get m1 k)
             = option_map stringify (get m2 k)) ->
  ser_view (rebuild_sorted m1) = ser_view (rebuild_sorted m2).
Proof.
  intros Hp Hg. unfold rebuild_sorted.
  rewrite <- (sort_keys_permutation _ _ Hp).
  generalize (sort_by str_compare (keys m1)). intros ks.
  cut (forall acc1 acc2 : members,
         ser_view acc1 = ser_view acc2 ->
         ser_view
           (fold_left
              (fun acc k =>
                 match get m1 k with
                 | Some v => set_prop acc k v
                 | None => acc
                 end) ks acc1)
         = ser_view
             (fold_left
                (fun acc k =>
                   match get m2 k with
                   | Some v => set_prop acc k v
                   | None => acc
                   end) ks acc2)).
  { intros H. now apply H. }
  induction ks as [|k ks IH]; intros acc1 acc2 Hacc; simpl; [assumption|].
  apply IH. specialize (Hg k).
  destruct (get m1 k) as [v1|], (get m2 k) as [v2|]; simpl in Hg;
    try discriminate; [|assumption].
  injection Hg as Hg. now apply ser_view_set_prop.
Qed.

Lemma keys_map_values (f : jsstring -> json -> json) (ms : members) :
  keys (map_values f ms) = keys ms.
Proof. unfold keys, map_values. rewrite map_map. reflexivity. Qed.

Section CanonFacts.

Variable localeCompare : jsstring -> jsstring -> comparison.

Local Abbreviation canon := (stableSortJsonLd localeCompare).
Local Abbreviation sc := (fun x => stringify (canon x)).
Local Abbreviation canon_members :=
  (map (fun kv : jsstring * json => (fst kv, canon (snd kv)))).

Lemma canon_arr_ser (xs : list json) :
  stringify (canon (JArr xs))
  = 91%N :: join_comma (sort_by localeCompare (map sc xs)) ++ [93%N].
Proof.
  simpl. do 3 f_equal.
  unfold by_serialization.
  rewrite (sort_by_map localeCompare stringify), map_map. reflexivity.
Qed.

(** Reordered trees have one canonical serialization. *)
Lemma reorder_canon :
  (forall x y, reorder x y ->
     sortable localeCompare x = true ->
     sortable localeCompare y = true /\ sc x = sc y)
  /\ (forall xs ys, reorder_arr xs ys ->
        forallb (sortable localeCompare) xs = true ->
        forallb (sortable localeCompare) ys = true
        /\ Permutation (map sc xs) (map sc ys))
  /\ (forall ms ns, reorder_obj ms ns ->
        forallb (fun kv => sortable localeCompare (snd kv)) ms = true ->
        forallb (fun kv => sortable localeCompare (snd kv)) ns = true
        /\ Permutation (keys ms) (keys ns)
        /\ forall k, option_map stringify (get (canon_members ms) k)
                     = option_map stringify (get (canon_members ns) k)).
Proof.
  apply reorder_mutind.
  - (* ro_refl *) intros v H. now split.
  - (* ro_arr *)
    intros xs ys _ IH H. simpl in H. apply andb_prop in H as [Hs Ht].
    destruct (IH Hs) as [Hs' Hp]. split.
    + simpl. rewrite Hs'. simpl.
      apply (total_onb_incl _ (map sc xs)); [|assumption].
      intros z Hz. now apply (Permutation_in _ (Permutation_sym Hp)).
    + rewrite !canon_arr_ser.
      now rewrite (sort_by_permutation_checked _ _ _ Ht Hp).
  - (* ro_obj *)
    intros ms ns _ IH H. simpl in H.
    destruct (IH H) as (Hs' & Hp & Hg). split; [exact Hs'|].
    change (stringify (JObj (rebuild_sorted (canon_members ms)))
            = stringify (JObj (rebuild_sorted (canon_members ns)))).
    apply stringify_obj_ser, rebuild_sorted_ser; [|assumption].
    unfold keys in *. rewrite !map_map. simpl. exact Hp.
  - (* ra_nil *) intros _. split; [reflexivity|constructor].
  - (* ra_cons *)
    intros x y xs ys _ IHx _ IHxs H. simpl in H.
    apply andb_prop in H as [Hx Hxs].
    destruct (IHx Hx) as [Hy E], (IHxs Hxs) as [Hys Hp]. split.
    + simpl. now rewrite Hy, Hys.
    + simpl. rewrite E. now constructor.
  - (* ra_swap *)
    intros x y xs H. simpl in H.
    apply andb_prop in H as [Hx H]. apply andb_prop in H as [Hy Hxs].
    split.
    + simpl. now rewrite Hx, Hy, Hxs.
    + simpl. apply perm_swap.
  - (* ra_trans *)
    intros xs ys zs _ IH1 _ IH2 H.
    destruct (IH1 H) as [H1 P1], (IH2 H1) as [H2 P2]. split; [assumption|].
    now transitivity (map sc ys).
  - (* rm_nil *) intros _. repeat split; constructor.
  - (* rm_cons *)
    intros k x y ms ns _ IHx _ IHms H. simpl in H.
    apply andb_prop in H as [Hx Hms].
    destruct (IHx Hx) as [Hy E], (IHms Hms) as (Hns & Hp & Hg).
    repeat split.
    + simpl. now rewrite Hy, Hns.
    + simpl. now constructor.
    + intros k0. simpl. destruct (str_eqb k0 k); simpl;
        [now rewrite E|apply Hg].
  - (* rm_swap *)
    intros j x k y ms Hjk H. simpl in H.
    apply andb_prop in H as [Hx H]. apply andb_prop in H as [Hy Hms].
    repeat split.
    + simpl. now rewrite Hx, Hy, Hms.
    + simpl. apply perm_swap.
    + intros k0. simpl.
      destruct (str_eqb k0 j) eqn:E1, (str_eqb k0 k) eqn:E2; try reflexivity.
      apply str_eqb_eq in E1. apply str_eqb_eq in E2. congruence.
  - (* rm_trans *)
    intros ms ns os _ IH1 _ IH2 H.
    destruct (IH1 H) as (H1 & P1 & G1), (IH2 H1) as (H2 & P2 & G2).
    repeat split; [assumption|now transitivity (keys ns)|].
    intros k. now rewrite G1.
Qed.

End CanonFacts.

(* --------------------------------------------------------------------- *)
(** ** The fingerprint view, field by field                               *)
(* --------------------------------------------------------------------- *)

Lemma distinct_NoDup (l : list jsstring) : distinct l = true -> NoDup l.
Proof.
  induction l as [|k t IH]; simpl; intros H; [constructor|].
  apply andb_prop in H as [Hk Ht]. constructor; [|now apply IH].
  intros Hin. apply negb_true_iff in Hk.
  assert (E : existsb (str_eqb k) t = true).
  { apply existsb_exists. exists k. split; [assumption|].
    apply str_eqb_refl. }
  congruence.
Qed.

Lemma distinct_absent (k : jsstring) (ms : members) :
  existsb (str_eqb k) (keys ms) = false -> get ms k = None.
Proof.
  induction ms as [|[k0 v0] ms IH]; simpl; [reflexivity|].
  intros H. apply orb_false_iff in H as [H1 H2]. rewrite H1. now apply IH.
Qed.

Lemma distinct_delete (ms : members) (k : jsstring) :
  distinct (keys ms) = true -> distinct (keys (delete ms k)) = true.
Proof.
  unfold delete. induction ms as [|[k0 v0] ms IH]; simpl; [reflexivity|].
  intros H. apply andb_prop in H as [H1 H2].
  destruct (negb (str_eqb k k0)); simpl; [|now apply IH].
  rewrite IH by assumption. rewrite andb_true_r.
  apply negb_true_iff. apply negb_true_iff in H1.
  destruct (existsb (str_eqb k0)
              (keys (filter (fun kv => negb (str_eqb k (fst kv))) ms)))
    eqn:E; [|reflexivity].
  apply existsb_exists in E as (x & Hx & Ex).
  unfold keys in Hx. apply in_map_iff in Hx as ([k1 v1] & <- & Hin).
  apply filter_In in Hin as [Hin _].
  assert (E' : existsb (str_eqb k0) (keys ms) = true).
  { apply existsb_exists. exists k1. split; [|assumption].
    unfold keys. apply in_map_iff. now exists (k1, v1). }
  congruence.
Qed.

Lemma map_values_ext (F G : jsstring -> json -> json) (ms : members) :
  (forall k v, In (k, v) ms -> F k v = G k v) ->
  map_values F ms = map_values G ms.
Proof.
  intros H. unfold map_values. apply map_ext_in. intros [k v] Hin. simpl.
  now rewrite H.
Qed.

Lemma map_values_id (F : jsstring -> json -> json) (ms : members) :
  (forall k v, In (k, v) ms -> F k v = v) -> map_values F ms = ms.
Proof.
  intros H. unfold map_values.
  rewrite <- (map_id ms) at 2. apply map_ext_in. intros [k v] Hin. simpl.
  now rewrite H.
Qed.

Lemma map_values_compose (F G : jsstring -> json -> json) (ms : members) :
  map_values F (map_values G ms) = map_values (fun k v => F k (G k v)) ms.
Proof. unfold map_values. rewrite map_map. reflexivity. Qed.

Lemma get_map_values (F : jsstring -> json -> json) (ms : members)
      (k : jsstring) :
  get (map_values F ms) k = option_map (F k) (get ms k).
Proof.
  induction ms as [|[k0 v0] ms IH]; simpl; [reflexivity|].
  destruct (str_eqb k k0) eqn:E; [|assumption].
  apply str_eqb_eq in E. now subst.
Qed.

(** Writing the new value of an existing field is mapping over the
    members. *)
Lemma set_prop_as_map (ms : members) (k : jsstring) (f : json -> json)
      (v : json) :
  distinct (keys ms) = true -> get ms k = Some v ->
  set_prop ms k (f v) = map_values (at_key k f) ms.
Proof.
  intros Hd Hg. rewrite set_prop_own by (unfold has; now rewrite Hg).
  unfold define_prop, has. rewrite Hg.
  induction ms as [|[k0 v0] ms IH]; simpl in *; [discriminate|].
  apply andb_prop in Hd as [Hk Hd]. apply negb_true_iff in Hk.
  unfold at_key at 1. simpl. rewrite (str_eqb_sym k0 k).
  destruct (str_eqb k k0) eqn:E.
  - injection Hg as ->. apply str_eqb_eq in E. subst k0. f_equal.
    symmetry. apply map_values_id. intros k1 v1 Hin. unfold at_key.
    destruct (str_eqb k1 k) eqn:E1; [|reflexivity].
    apply str_eqb_eq in E1. subst k1.
    assert (E' : existsb (str_eqb k) (keys ms) = true).
    { apply existsb_exists. exists k. split; [|apply str_eqb_refl].
      unfold keys. apply in_map_iff. now exists (k, v1). }
    congruence.
  - f_equal. now apply IH.
Qed.

Lemma map_values_absent (ms : members) (k : jsstring) (f : json -> json) :
  get ms k = None -> map_values (at_key k f) ms = ms.
Proof.
  intros Hg. apply map_values_id. intros k1 v1 Hin. unfold at_key.
  destruct (str_eqb k1 k) eqn:E; [|reflexivity].
  apply str_eqb_eq in E. subst k1.
  apply get_None_keys in Hg. exfalso. apply Hg.
  unfold keys. apply in_map_iff. now exists (k, v1).
Qed.

Lemma set_prop_unchanged (ms : members) (k : jsstring) (v : json) :
  get ms k = Some v -> set_prop ms k v = ms.
Proof.
  intros Hg. rewrite set_prop_own by (unfold has; now rewrite Hg).
  unfold define_prop, has. rewrite Hg.
  induction ms as [|[k0 v0] ms IH]; simpl in *; [discriminate|].
  destruct (str_eqb k k0); [now injection Hg as ->|].
  f_equal. now apply IH.
Qed.

Lemma map_values_fixed (ms : members) (k : jsstring) (f : json -> json) :
  distinct (keys ms) = true ->
  (forall v, get ms k = Some v -> f v = v) ->
  map_values (at_key k f) ms = ms.
Proof.
  intros Hd H. destruct (get ms k) as [v|] eqn:Hg.
  - rewrite <- (set_prop_as_map ms k f v Hd Hg), (H v eq_refl).
    now apply set_prop_unchanged.
  - now apply map_values_absent.
Qed.

Section ViewFacts.

Variable localeCompare : jsstring -> jsstring -> comparison.

Local Abbreviation canon := (stableSortJsonLd localeCompare).

Lemma strip_provenance_time_map (e : members) :
  distinct (keys e) = true ->
  (forall am, get e k_asserted = Some (JObj am) ->
              distinct (keys am) = true) ->
  strip_provenance_time e
  = map_values
      (at_key k_asserted (in_object (at_key k_provenance provenance_view)))
      e.
Proof.
  intros Hd Ha. unfold strip_provenance_time.
  destruct (get e k_asserted) as [v|] eqn:Hg;
    [|symmetry; now apply map_values_absent].
  assert (Hfix : in_object (at_key k_provenance provenance_view) v = v ->
                 e = map_values
                       (at_key k_asserted
                          (in_object (at_key k_provenance provenance_view)))
                       e).
  { intros Hv. symmetry. apply map_values_fixed; [assumption|].
    intros v' Hv'. rewrite Hg in Hv'. now injection Hv' as <-. }
  destruct v as [| | | | |am]; try (apply Hfix; reflexivity).
  specialize (Ha am eq_refl).
  destruct (get am k_provenance) as [p|] eqn:Hp.
  - destruct p as [| | | | |pm];
      try (apply Hfix; simpl; f_equal; apply map_values_fixed;
           [assumption|];
           intros v' Hv'; rewrite Hp in Hv'; now injection Hv' as <-).
    rewrite <- (set_prop_as_map e k_asserted _ (JObj am) Hd Hg). simpl.
    now rewrite <- (set_prop_as_map am k_provenance provenance_view
                      (JObj pm) Ha Hp).
  - apply Hfix. simpl. f_equal. now apply map_values_absent.
Qed.

Lemma canon_scalar (v : json) :
  match v with JArr _ | JObj _ => False | _ => True end -> canon v = v.
Proof. destruct v; simpl; tauto. Qed.

Lemma canonical_asserted_map (e : members) :
  distinct (keys e) = true ->
  (forall am, get e k_asserted = Some (JObj am) ->
              distinct (keys am) = true) ->
  canonical_asserted localeCompare e
  = map_values (at_key k_asserted (in_object (at_key k_json canon))) e.
Proof.
  intros Hd Ha. unfold canonical_asserted.
  destruct (get e k_asserted) as [v|] eqn:Hg;
    [|symmetry; now apply map_values_absent].
  assert (Hfix : in_object (at_key k_json canon) v = v ->
                 e = map_values
                       (at_key k_asserted (in_object (at_key k_json canon)))
                       e).
  { intros Hv. symmetry. apply map_values_fixed; [assumption|].
    intros v' Hv'. rewrite Hg in Hv'. now injection Hv' as <-. }
  destruct v as [| | | | |am]; try (apply Hfix; reflexivity).
  specialize (Ha am eq_refl).
  destruct (get am k_json) as [x|] eqn:Hj.
  - destruct x as [| | | |blocks|jm];
      try (apply Hfix; simpl; f_equal; apply map_values_fixed;
           [assumption|];
           intros v' Hv'; rewrite Hj in Hv'; now injection Hv' as <-).
    + rewrite <- (set_prop_as_map e k_asserted _ (JObj am) Hd Hg). simpl.
      now rewrite <- (set_prop_as_map am k_json canon (JArr blocks) Ha Hj).
    + rewrite <- (set_prop_as_map e k_asserted _ (JObj am) Hd Hg). simpl.
      now rewrite <- (set_prop_as_map am k_json canon (JObj jm) Ha Hj).
  - apply Hfix. simpl. f_equal. now apply map_values_absent.
Qed.

Lemma canonical_content_map (e : members) :
  distinct (keys e) = true ->
  canonical_content localeCompare e = map_values (at_key k_content canon) e.
Proof.
  intros Hd. unfold canonical_content.
  destruct (get e k_content) as [v|] eqn:Hg;
    [|symmetry; now apply map_values_absent].
  destruct v as [| | | |xs|cm];
    try (symmetry; apply map_values_fixed; [assumption|];
         intros v' Hv'; rewrite Hg in Hv'; now injection Hv' as <-).
  - now rewrite <- (set_prop_as_map e k_content canon (JArr xs) Hd Hg).
  - now rewrite <- (set_prop_as_map e k_content canon (JObj cm) Hd Hg).
Qed.

(** The view is the envelope without its volatile fields, with each
    remaining field brought to its canonical form. *)
Lemma view_as_map (e : members) :
  distinct (keys (strip_volatile e)) = true ->
  (forall am, get (strip_volatile e) k_asserted = Some (JObj am) ->
              distinct (keys am) = true) ->
  stableFingerprintView localeCompare e
  = map_values (view_field localeCompare) (strip_volatile e).
Proof.
  intros Hd Ha. unfold stableFingerprintView. cbv zeta.
  change (delete (delete (delete e k_captureDate) k_cgRunId)
            k_cgManifestPath) with (strip_volatile e).
  set (s := strip_volatile e) in *.
  rewrite (strip_provenance_time_map s Hd Ha).
  set (F1 := at_key k_asserted
               (in_object (at_key k_provenance provenance_view))).
  assert (Hd1 : distinct (keys (map_values F1 s)) = true)
    by now rewrite keys_map_values.
  assert (Ha1 : forall am, get (map_values F1 s) k_asserted = Some (JObj am)
                           -> distinct (keys am) = true).
  { intros am. rewrite get_map_values.
    destruct (get s k_asserted) as [v|] eqn:Hg; simpl; [|discriminate].
    unfold F1, at_key. rewrite str_eqb_refl.
    destruct v as [| | | | |am0]; simpl; try discriminate.
    intros [= <-]. rewrite keys_map_values. now apply Ha. }
  rewrite (canonical_asserted_map _ Hd1 Ha1).
  rewrite canonical_content_map
    by now rewrite keys_map_values.
  rewrite !map_values_compose. apply map_values_ext.
  intros k v _. unfold F1, at_key, view_field.
  destruct (str_eqb k k_asserted) eqn:E.
  - apply str_eqb_eq in E. subst k.
    change (str_eqb k_asserted k_content) with false. cbv iota.
    destruct v as [| | | | |am]; simpl; try reflexivity.
    f_equal. rewrite map_values_compose. apply map_values_ext.
    intros k1 v1 _. unfold at_key, asserted_field_view.
    destruct (str_eqb k1 k_json) eqn:E1; [|reflexivity].
    apply str_eqb_eq in E1. subst k1.
    change (str_eqb k_json k_provenance) with false. reflexivity.
  - reflexivity.
Qed.

Lemma forall2_keys (R : jsstring -> json -> json -> Prop)
      (s1 s2 : members) :
  Forall2 (member_rel R) s1 s2 -> keys s1 = keys s2.
Proof.
  induction 1 as [|[k1 x] [k2 y] s1 s2 [Hk _] _ IH]; simpl;
    [reflexivity|].
  simpl in Hk. now rewrite Hk, IH.
Qed.

Lemma forall2_get (R : jsstring -> json -> json -> Prop)
      (s1 s2 : members) (k : jsstring) (y : json) :
  Forall2 (member_rel R) s1 s2 -> get s2 k = Some y ->
  exists x, get s1 k = Some x /\ R k x y.
Proof.
  induction 1 as [|[k1 x] [k2 y'] s1 s2 [Hk Hr] _ IH]; simpl;
    [discriminate|].
  simpl in Hk, Hr. subst k2.
  destruct (str_eqb k k1) eqn:E; [|assumption].
  intros [= <-]. apply str_eqb_eq in E. subst k1. now exists x.
Qed.

Lemma forall2_ser (R : jsstring -> json -> json -> Prop)
      (F : jsstring -> json -> json) (s1 s2 : members) :
  Forall2 (member_rel R) s1 s2 ->
  (forall k x y, In (k, x) s1 -> R k x y ->
                 stringify (F k x) = stringify (F k y)) ->
  ser_view (map_values F s1) = ser_view (map_values F s2).
Proof.
  induction 1 as [|[k1 x] [k2 y] s1 s2 [Hk Hr] _ IH]; simpl; intros HF;
    [reflexivity|].
  simpl in Hk, Hr. subst k2. f_equal.
  - f_equal. apply HF; [now left|assumption].
  - apply IH. intros k x' y' Hin. apply HF. now right.
Qed.

Lemma provenance_variant_view (p q : json) :
  provenance_variant p q -> provenance_view p = provenance_view q.
Proof.
  destruct p, q; simpl; intros H; try congruence.
Qed.

Lemma asserted_variant_ser (x y : json) :
  asserted_variant x y ->
  (forall am, x = JObj am ->
     distinct (keys am) = true
     /\ forall j, get am k_json = Some j ->
                  sortable localeCompare j = true) ->
  stringify (asserted_view localeCompare x)
  = stringify (asserted_view localeCompare y).
Proof.
  intros Hv Hok.
  destruct x as [| | | | |am], y as [| | | | |bm]; simpl in Hv;
    try congruence.
  destruct (Hok am eq_refl) as [Hd Hs].
  unfold asserted_view. apply stringify_obj_ser.
  apply (forall2_ser asserted_field_variant); [assumption|].
  intros k x1 y1 Hin Hr. unfold asserted_field_variant in Hr.
  unfold asserted_field_view.
  destruct (str_eqb k k_json) eqn:E.
  - apply str_eqb_eq in E. subst k.
    apply (proj1 (reorder_canon localeCompare)); [assumption|].
    apply Hs. apply get_In; [now apply distinct_NoDup|assumption].
  - destruct (str_eqb k k_provenance).
    + now rewrite (provenance_variant_view _ _ Hr).
    + now rewrite Hr.
Qed.

Lemma get_strip_volatile (e : members) (k : jsstring) :
  k <> k_captureDate -> k <> k_cgRunId -> k <> k_cgManifestPath ->
  get (strip_volatile e) k = get e k.
Proof.
  intros H1 H2 H3. unfold strip_volatile.
  now rewrite !get_delete_other.
Qed.

Lemma incl_delete (ms : members) (k : jsstring) (x : jsstring * json) :
  In x (delete ms k) -> In x ms.
Proof. unfold delete. intros H. now apply filter_In in H. Qed.

(** Envelopes of one substance have views of one serialization. *)
Lemma same_substance_ser (a b : members) :
  same_substance a b -> canonicalisable localeCompare a = true ->
  stringify (JObj (stableFingerprintView localeCompare a))
  = stringify (JObj (stableFingerprintView localeCompare b)).
Proof.
  unfold same_substance, canonicalisable. intros Hs Hc.
  apply andb_prop in Hc as [Hc Hcontent].
  apply andb_prop in Hc as [Hd Hasserted].
  assert (Hga : get (strip_volatile a) k_asserted = get a k_asserted)
    by (apply get_strip_volatile; discriminate).
  assert (Hd1 : distinct (keys (strip_volatile a)) = true)
    by (unfold strip_volatile; now repeat apply distinct_delete).
  assert (Hd2 : distinct (keys (strip_volatile b)) = true)
    by now rewrite <- (forall2_keys _ _ _ Hs).
  assert (Hok : forall am, get a k_asserted = Some (JObj am) ->
                  distinct (keys am) = true
                  /\ forall j, get am k_json = Some j ->
                               sortable localeCompare j = true).
  { intros am Hg. rewrite Hg in Hasserted.
    apply andb_prop in Hasserted as [H1 H2]. split; [assumption|].
    intros j Hj. now rewrite Hj in H2. }
  assert (Ha1 : forall am, get (strip_volatile a) k_asserted
                           = Some (JObj am) -> distinct (keys am) = true).
  { intros am Hg. rewrite Hga in Hg. now apply Hok. }
  assert (Ha2 : forall bm, get (strip_volatile b) k_asserted
                           = Some (JObj bm) -> distinct (keys bm) = true).
  { intros bm Hg.
    destruct (forall2_get _ _ _ _ _ Hs Hg) as (x & Hx & Hr).
    unfold envelope_field_variant in Hr. rewrite str_eqb_refl in Hr.
    destruct x as [| | | | |am]; simpl in Hr; try discriminate.
    rewrite <- (forall2_keys _ _ _ Hr). now apply Ha1. }
  rewrite (view_as_map a Hd1 Ha1), (view_as_map b Hd2 Ha2).
  apply stringify_obj_ser.
  apply (forall2_ser envelope_field_variant); [assumption|].
  intros k x y Hin Hr. unfold envelope_field_variant in Hr.
  assert (Hg : get a k = Some x).
  { apply get_In; [now apply distinct_NoDup|].
    unfold strip_volatile in Hin. now repeat apply incl_delete in Hin. }
  unfold view_field. destruct (str_eqb k k_asserted) eqn:E.
  - apply str_eqb_eq in E. subst k. apply asserted_variant_ser; [assumption|].
    intros am ->. now apply Hok.
  - destruct (str_eqb k k_content) eqn:E2.
    + apply str_eqb_eq in E2. subst k.
      apply (proj1 (reorder_canon localeCompare)); [assumption|].
      now rewrite Hg in Hcontent.
    + now rewrite Hr.
Qed.

End ViewFacts.


(* --------------------------------------------------------------------- *)
(** ** [JSON.stringify] tells values apart                                *)
(* --------------------------------------------------------------------- *)

Lemma unhex_hex (d : N) : (d < 16)%N -> unhex (hex_digit d) = d.
Proof.
  intros H. unfold unhex, hex_digit.
  destruct (d <? 10)%N eqn:E.
  - apply N.ltb_lt in E.
    replace (48 + d <? 58)%N with true by (symmetry; apply N.ltb_lt; lia).
    lia.
  - apply N.ltb_ge in E.
    replace (87 + d <? 58)%N with false by (symmetry; apply N.ltb_ge; lia).
    lia.
Qed.

Lemma hex_value (c : N) :
  (c < 65536)%N ->
  (4096 * ((c / 4096) mod 16) + 256 * ((c / 256) mod 16)
   + 16 * ((c / 16) mod 16) + c mod 16 = c)%N.
Proof.
  intros H.
  replace (c / 256)%N with (c / 16 / 16)%N
    by (rewrite N.Div0.div_div; reflexivity).
  replace (c / 4096)%N with (c / 16 / 16 / 16)%N
    by (rewrite !N.Div0.div_div; reflexivity).
  pose proof (N.div_mod c 16) as H0.
  pose proof (N.div_mod (c / 16) 16) as H1.
  pose proof (N.div_mod (c / 16 / 16) 16) as H2.
  pose proof (N.div_mod (c / 16 / 16 / 16) 16) as H3.
  assert (H4 : (c / 16 / 16 / 16 / 16 = 0)%N).
  { rewrite !N.Div0.div_div. apply N.div_small. exact H. }
  rewrite H4 in H3. lia.
Qed.

Lemma unquote_escape (c : char) (f : nat) (rest : jsstring) :
  (c < 65536)%N ->
  unquote (S f) (unicode_escape c ++ rest)
  = option_map (fun p => (c :: fst p, snd p)) (unquote f rest).
Proof.
  intros H. unfold unicode_escape. simpl.
  unfold hex4. rewrite !unhex_hex by (apply N.mod_lt; discriminate).
  now rewrite hex_value.
Qed.

Lemma surrogate_plain (c : char) :
  is_high_surrogate c = true \/ is_low_surrogate c = true ->
  (c =? 34)%N = false /\ (c =? 92)%N = false /\ (c < 65536)%N.
Proof.
  unfold is_high_surrogate, is_low_surrogate.
  intros [H|H]; apply andb_prop in H as [H1 H2];
    apply N.leb_le in H1; apply N.leb_le in H2;
    repeat split; try (apply N.eqb_neq); lia.
Qed.

Lemma unquote_escape_char (c : char) (f : nat) (rest : jsstring) :
  unquote (S f) (escape_char c ++ rest)
  = option_map (fun p => (c :: fst p, snd p)) (unquote f rest).
Proof.
  unfold escape_char.
  repeat match goal with
         | |- context [(c =? ?n)%N] =>
             let E := fresh "E" in
             destruct (c =? n)%N eqn:E;
             [apply N.eqb_eq in E; subst c; reflexivity|]
         end.
  destruct (c <? 32)%N eqn:E32.
  - apply N.ltb_lt in E32. apply unquote_escape. lia.
  - simpl.
    repeat match goal with
           | H : (c =? _)%N = false |- _ => rewrite H; clear H
           end.
    reflexivity.
Qed.

Lemma unquote_quote_body (n : nat) :
  forall s : jsstring, (List.length s <= n)%nat ->
  forall (r : jsstring) (fuel : nat), (List.length s < fuel)%nat ->
  unquote fuel (quote_body s ++ 34%N :: r) = Some (s, r).
Proof.
  induction n as [|n IH]; intros s Hn r fuel Hf.
  - destruct s; [|simpl in Hn; lia].
    destruct fuel; [lia|]. reflexivity.
  - destruct s as [|c t]; [destruct fuel; [lia|reflexivity]|].
    simpl in Hn, Hf. destruct fuel as [|fuel]; [lia|].
    assert (Hplain : forall rest : jsstring,
               unquote fuel (rest ++ 34%N :: r) = Some (t, r) ->
               is_high_surrogate c = true \/ is_low_surrogate c = true ->
               unquote (S fuel) ((unicode_escape c ++ rest) ++ 34%N :: r)
               = Some (c :: t, r)).
    { intros rest Hrest Hs. rewrite <- app_assoc.
      rewrite unquote_escape by now apply surrogate_plain.
      exact (f_equal (option_map _) Hrest). }
    simpl quote_body. destruct (is_high_surrogate c) eqn:Hh.
    + destruct t as [|d t'].
      * rewrite <- (app_nil_r (unicode_escape c)).
        apply Hplain; [|now left]. destruct fuel; [lia|reflexivity].
      * destruct (is_low_surrogate d) eqn:Hl.
        -- destruct (surrogate_plain c (or_introl Hh)) as (E1 & E2 & _).
           destruct (surrogate_plain d (or_intror Hl)) as (E3 & E4 & _).
           simpl in Hn, Hf. destruct fuel as [|fuel]; [lia|].
           simpl. rewrite E1, E2, E3, E4.
           rewrite (IH t') by lia. reflexivity.
        -- apply Hplain; [|now left]. apply IH; simpl in *; lia.
    + destruct (is_low_surrogate c) eqn:Hl.
      * apply Hplain; [|now right]. apply IH; lia.
      * rewrite <- app_assoc, unquote_escape_char.
        rewrite (IH t) by lia. reflexivity.
Qed.

Lemma quote_inj (k1 k2 r1 r2 : jsstring) :
  quote k1 ++ r1 = quote k2 ++ r2 -> k1 = k2 /\ r1 = r2.
Proof.
  intros H0.
  assert (H : quote_body k1 ++ 34%N :: r1 = quote_body k2 ++ 34%N :: r2).
  { unfold quote in H0. simpl in H0. rewrite <- !app_assoc in H0.
    now injection H0. }
  pose proof (unquote_quote_body (List.length k1) k1 (le_n _) r1
                (S (List.length k1 + List.length k2)) ltac:(lia)) as H1.
  pose proof (unquote_quote_body (List.length k2) k2 (le_n _) r2
                (S (List.length k1 + List.length k2)) ltac:(lia)) as H2.
  assert (E : Some (k1, r1) = Some (k2, r2)).
  { etransitivity; [symmetry; exact H1|].
    etransitivity; [exact (f_equal (unquote _) H)|exact H2]. }
  now injection E.
Qed.

Lemma json_induction (P : json -> Prop) :
  P JNull -> (forall b, P (JBool b)) -> (forall lit, P (JNum lit)) ->
  (forall s, P (JStr s)) ->
  (forall xs, Forall P xs -> P (JArr xs)) ->
  (forall ms, Forall (fun kv => P (snd kv)) ms -> P (JObj ms)) ->
  forall v, P v.
Proof.
  intros Hnull Hbool Hnum Hstr Harr Hobj. fix IH 1.
  intros [|b|lit|s|xs|ms];
    [exact Hnull|apply Hbool|apply Hnum|apply Hstr| |].
  - apply Harr. induction xs as [|x xs IHxs]; constructor;
      [apply IH|exact IHxs].
  - apply Hobj. induction ms as [|[k v] ms IHms]; constructor;
      [apply IH|exact IHms].
Qed.

Lemma number_char_not_delimiter (c : char) (r : jsstring) :
  number_char c = true -> delimited (c :: r) = false.
Proof.
  unfold number_char, delimited, is_digit. intros H.
  repeat (apply orb_true_iff in H as [H|H]);
    try (apply andb_prop in H as [H1 H2];
         apply N.leb_le in H1; apply N.leb_le in H2);
    try apply N.eqb_eq in H;
    repeat (apply orb_false_iff; split); apply N.eqb_neq; lia.
Qed.

Lemma number_prefix (l1 l2 r1 r2 : jsstring) :
  forallb number_char l1 = true -> forallb number_char l2 = true ->
  delimited r1 = true -> delimited r2 = true ->
  l1 ++ r1 = l2 ++ r2 -> l1 = l2 /\ r1 = r2.
Proof.
  revert l2. induction l1 as [|c l1 IH]; intros [|d l2]; simpl;
    intros H1 H2 D1 D2 E.
  - now split.
  - subst r1. apply andb_prop in H2 as [H2 _].
    rewrite (number_char_not_delimiter d _ H2) in D1. discriminate.
  - subst r2. apply andb_prop in H1 as [H1 _].
    rewrite (number_char_not_delimiter c _ H1) in D2. discriminate.
  - injection E as -> E. apply andb_prop in H1 as [_ H1].
    apply andb_prop in H2 as [_ H2].
    destruct (IH l2 H1 H2 D1 D2 E) as [-> ->]. now split.
Qed.

Lemma stringify_kind (v : json) :
  valid_numbers v = true ->
  exists c t, stringify v = c :: t /\ kind_of_char c = Some (kind_of v).
Proof.
  destruct v as [|[|]|lit|s|xs|ms]; simpl; intros H;
    try (eexists; eexists; split; reflexivity).
  destruct lit as [|c t]; [discriminate|]. exists c, t. split; [reflexivity|].
  simpl in H. apply andb_prop in H as [H _].
  unfold kind_of_char. rewrite H.
  unfold is_digit in H.
  assert (Hc : (48 <= c <= 57 \/ c = 45)%N).
  { apply orb_true_iff in H as [H|H].
    - apply andb_prop in H as [H1 H2]. apply N.leb_le in H1.
      apply N.leb_le in H2. now left.
    - apply N.eqb_eq in H. now right. }
  repeat match goal with
         | |- context [(c =? ?n)%N] =>
             replace (c =? n)%N with false
               by (symmetry; apply N.eqb_neq; lia)
         end.
  reflexivity.
Qed.

Lemma kind_of_inj (v1 v2 : json) :
  kind_of v1 = kind_of v2 ->
  match v1, v2 with
  | JNull, JNull => True
  | JBool b, JBool c => b = c
  | JNum _, JNum _ | JStr _, JStr _ | JArr _, JArr _ | JObj _, JObj _ => True
  | _, _ => False
  end.
Proof.
  destruct v1 as [|[|]|?|?|?|?], v2 as [|[|]|?|?|?|?]; simpl;
    congruence || auto.
Qed.

Lemma join_arr_body (xs : list json) (r : jsstring) :
  join_comma (map stringify xs) ++ 93%N :: r = arr_body xs r.
Proof.
  destruct xs as [|x xs]; [reflexivity|]. simpl arr_body.
  revert x. induction xs as [|y xs IH]; intros x; [reflexivity|].
  change (map stringify (x :: y :: xs))
    with (stringify x :: map stringify (y :: xs)).
  change (join_comma (stringify x :: map stringify (y :: xs)))
    with (stringify x ++ 44%N :: join_comma (map stringify (y :: xs))).
  rewrite <- app_assoc, <- app_comm_cons, IH. reflexivity.
Qed.

Lemma join_obj_body (ms : members) (r : jsstring) :
  join_comma (map member_text ms) ++ 125%N :: r = obj_body ms r.
Proof.
  destruct ms as [|x ms]; [reflexivity|]. simpl obj_body.
  revert x. induction ms as [|y ms IH]; intros x; [reflexivity|].
  change (map member_text (x :: y :: ms))
    with (member_text x :: map member_text (y :: ms)).
  change (join_comma (member_text x :: map member_text (y :: ms)))
    with (member_text x ++ 44%N :: join_comma (map member_text (y :: ms))).
  rewrite <- app_assoc, <- app_comm_cons, IH. reflexivity.
Qed.

Lemma stringify_arr_body (xs : list json) (r : jsstring) :
  stringify (JArr xs) ++ r = 91%N :: arr_body xs r.
Proof.
  simpl. rewrite <- app_assoc. simpl. now rewrite join_arr_body.
Qed.

Lemma stringify_obj_body (ms : members) (r : jsstring) :
  stringify (JObj ms) ++ r = 123%N :: obj_body ms r.
Proof.
  simpl. rewrite <- app_assoc. simpl.
  change (fun kv : jsstring * json =>
            quote (fst kv) ++ 58%N :: stringify (snd kv)) with member_text.
  now rewrite join_obj_body.
Qed.

Lemma delimited_arr_rest (xs : list json) (r : jsstring) :
  delimited (arr_rest xs r) = true.
Proof. destruct xs; reflexivity. Qed.

Lemma delimited_obj_rest (ms : members) (r : jsstring) :
  delimited (obj_rest ms r) = true.
Proof. destruct ms; reflexivity. Qed.

Lemma arr_rest_inj (xs : list json) :
  Forall (fun x => valid_numbers x = true -> prefix_free x) xs ->
  forallb valid_numbers xs = true ->
  forall ys r1 r2, forallb valid_numbers ys = true ->
    arr_rest xs r1 = arr_rest ys r2 -> xs = ys /\ r1 = r2.
Proof.
  induction 1 as [|x xs Hx _ IH]; intros Hv [|y ys] r1 r2 Hw E;
    simpl in E; try discriminate.
  - injection E as ->. now split.
  - injection E as E. simpl in Hv, Hw.
    apply andb_prop in Hv as [Hv1 Hv2]. apply andb_prop in Hw as [Hw1 Hw2].
    destruct (Hx Hv1 y _ _ Hw1 (delimited_arr_rest _ _)
                (delimited_arr_rest _ _) E) as [-> E'].
    destruct (IH Hv2 ys r1 r2 Hw2 E') as [-> ->]. now split.
Qed.

Lemma not_value_start (v : json) (c : char) (t r : jsstring) :
  valid_numbers v = true -> kind_of_char c = None ->
  c :: t <> stringify v ++ r.
Proof.
  intros Hv Hc E. destruct (stringify_kind v Hv) as (c' & t' & S & K).
  rewrite S in E. injection E as -> _. congruence.
Qed.

Lemma arr_body_inj (xs : list json) :
  Forall (fun x => valid_numbers x = true -> prefix_free x) xs ->
  forallb valid_numbers xs = true ->
  forall ys r1 r2, forallb valid_numbers ys = true ->
    arr_body xs r1 = arr_body ys r2 -> xs = ys /\ r1 = r2.
Proof.
  intros HP Hv ys r1 r2 Hw E.
  destruct xs as [|x xs], ys as [|y ys]; simpl in E, Hv, Hw.
  - injection E as ->. now split.
  - apply andb_prop in Hw as [Hw1 _].
    now apply not_value_start in E.
  - apply andb_prop in Hv as [Hv1 _].
    symmetry in E. now apply not_value_start in E.
  - apply andb_prop in Hv as [Hv1 Hv2]. apply andb_prop in Hw as [Hw1 Hw2].
    inversion HP as [|? ? Hx HP']; subst.
    destruct (Hx Hv1 y _ _ Hw1 (delimited_arr_rest _ _)
                (delimited_arr_rest _ _) E) as [-> E'].
    destruct (arr_rest_inj xs HP' Hv2 ys r1 r2 Hw2 E') as [-> ->].
    now split.
Qed.

Lemma member_text_inj (kv1 kv2 : jsstring * json) (t1 t2 : jsstring) :
  (valid_numbers (snd kv1) = true -> prefix_free (snd kv1)) ->
  valid_numbers (snd kv1) = true -> valid_numbers (snd kv2) = true ->
  delimited t1 = true -> delimited t2 = true ->
  member_text kv1 ++ t1 = member_text kv2 ++ t2 -> kv1 = kv2 /\ t1 = t2.
Proof.
  destruct kv1 as [k1 v1], kv2 as [k2 v2]. unfold member_text.
  cbn [fst snd]. intros HP Hv Hw D1 D2 E. rewrite <- !app_assoc in E.
  apply quote_inj in E as [-> E]. simpl in E. injection E as E.
  destruct (HP Hv v2 _ _ Hw D1 D2 E) as [-> ->]. now split.
Qed.

Lemma obj_rest_inj (ms : members) :
  Forall (fun kv => valid_numbers (snd kv) = true -> prefix_free (snd kv))
         ms ->
  forallb (fun kv => valid_numbers (snd kv)) ms = true ->
  forall ns r1 r2, forallb (fun kv => valid_numbers (snd kv)) ns = true ->
    obj_rest ms r1 = obj_rest ns r2 -> ms = ns /\ r1 = r2.
Proof.
  induction 1 as [|x ms Hx _ IH]; intros Hv [|y ns] r1 r2 Hw E;
    cbn [obj_rest] in E; try discriminate.
  - injection E as ->. now split.
  - apply (f_equal (@tl _)) in E. cbn [tl] in E. simpl in Hv, Hw.
    apply andb_prop in Hv as [Hv1 Hv2]. apply andb_prop in Hw as [Hw1 Hw2].
    destruct (member_text_inj x y _ _ Hx Hv1 Hw1 (delimited_obj_rest _ _)
                (delimited_obj_rest _ _) E) as [-> E'].
    destruct (IH Hv2 ns r1 r2 Hw2 E') as [-> ->]. now split.
Qed.

Lemma obj_body_inj (ms : members) :
  Forall (fun kv => valid_numbers (snd kv) = true -> prefix_free (snd kv))
         ms ->
  forallb (fun kv => valid_numbers (snd kv)) ms = true ->
  forall ns r1 r2, forallb (fun kv => valid_numbers (snd kv)) ns = true ->
    obj_body ms r1 = obj_body ns r2 -> ms = ns /\ r1 = r2.
Proof.
  intros HP Hv ns r1 r2 Hw E.
  destruct ms as [|x ms], ns as [|y ns]; cbn [obj_body] in E;
    simpl in Hv, Hw.
  - injection E as ->. now split.
  - unfold member_text, quote in E. simpl in E. discriminate.
  - unfold member_text, quote in E. simpl in E. discriminate.
  - apply andb_prop in Hv as [Hv1 Hv2]. apply andb_prop in Hw as [Hw1 Hw2].
    inversion HP as [|? ? Hx HP']; subst.
    destruct (member_text_inj x y _ _ Hx Hv1 Hw1 (delimited_obj_rest _ _)
                (delimited_obj_rest _ _) E) as [-> E'].
    destruct (obj_rest_inj ms HP' Hv2 ns r1 r2 Hw2 E') as [-> ->].
    now split.
Qed.

Lemma stringify_prefix (v1 : json) :
  valid_numbers v1 = true -> prefix_free v1.
Proof.
  induction v1 as [|b|lit|s|xs IH|ms IH] using json_induction;
    intros Hv1 v2 r1 r2 Hv2 D1 D2 E.
  all: match goal with
       | |- ?v = _ /\ _ =>
           assert (K : kind_of v = kind_of v2);
           [ destruct (stringify_kind v Hv1) as (c1 & t1 & S1 & K1);
             destruct (stringify_kind v2 Hv2) as (c2 & t2 & S2 & K2);
             rewrite S1, S2 in E; injection E as Ec _; subst c2;
             congruence
           | apply kind_of_inj in K;
             destruct v2 as [|b2|lit2|s2|ys|ns]; try contradiction ]
       end.
  - injection E as ->. now split.
  - subst b2. apply app_inv_head in E. now subst.
  - simpl in E, Hv1, Hv2.
    destruct lit as [|c l]; [discriminate|].
    destruct lit2 as [|c2 l2]; [discriminate|].
    apply andb_prop in Hv1 as [_ Hv1]. apply andb_prop in Hv2 as [_ Hv2].
    destruct (number_prefix _ _ _ _ Hv1 Hv2 D1 D2 E) as [-> ->]. now split.
  - simpl in E. apply quote_inj in E as [-> ->]. now split.
  - rewrite !stringify_arr_body in E. injection E as E.
    destruct (arr_body_inj xs IH Hv1 ys r1 r2 Hv2 E) as [-> ->]. now split.
  - rewrite !stringify_obj_body in E. injection E as E.
    destruct (obj_body_inj ms IH Hv1 ns r1 r2 Hv2 E) as [-> ->]. now split.
Qed.

(** [JSON.stringify] tells values apart. *)
Lemma stringify_inj (v1 v2 : json) :
  valid_numbers v1 = true -> valid_numbers v2 = true ->
  stringify v1 = stringify v2 -> v1 = v2.
Proof.
  intros H1 H2 E.
  apply (stringify_prefix v1 H1 v2 [] [] H2 eq_refl eq_refl).
  now rewrite !app_nil_r.
Qed.

(* --------------------------------------------------------------------- *)
(** ** The view keeps numbers well written                                *)
(* --------------------------------------------------------------------- *)

Lemma valid_get (ms : members) (k : jsstring) (v : json) :
  valid_numbers (JObj ms) = true -> get ms k = Some v ->
  valid_numbers v = true.
Proof.
  simpl. rewrite forallb_forall. intros H Hg.
  exact (H (k, v) (get_Some_In _ _ _ Hg)).
Qed.

Lemma valid_delete (ms : members) (k : jsstring) :
  valid_numbers (JObj ms) = true ->
  valid_numbers (JObj (delete ms k)) = true.
Proof.
  simpl. rewrite !forallb_forall. intros H x Hx.
  apply H. now apply incl_delete in Hx.
Qed.

Lemma valid_set_prop (ms : members) (k : jsstring) (v : json) :
  valid_numbers (JObj ms) = true -> valid_numbers v = true ->
  valid_numbers (JObj (set_prop ms k v)) = true.
Proof.
  simpl. intros H Hv. unfold set_prop, define_prop.
  destruct (str_eqb k k_proto && negb (has ms k)); [exact H|].
  destruct (has ms k).
  - induction ms as [|[k0 v0] ms IH]; simpl in *; [reflexivity|].
    apply andb_prop in H as [H1 H2].
    destruct (str_eqb k k0); simpl; [now rewrite Hv, H2|].
    now rewrite H1, IH.
  - destruct (array_index k) as [i|].
    + induction ms as [|[k0 v0] ms IH]; simpl in *; [now rewrite Hv|].
      apply andb_prop in H as [H1 H2].
      destruct (array_index k0) as [j|]; [destruct (j <? i)%N|]; simpl;
        rewrite ?Hv, ?H1, ?H2; try reflexivity.
      now apply IH.
    + rewrite forallb_app, H. simpl. now rewrite Hv.
Qed.

Lemma valid_rebuild_sorted (ms : members) :
  valid_numbers (JObj ms) = true ->
  valid_numbers (JObj (rebuild_sorted ms)) = true.
Proof.
  intros H. unfold rebuild_sorted.
  generalize (sort_by str_compare (keys ms)). intros ks.
  assert (H0 : valid_numbers (JObj []) = true) by reflexivity.
  revert H0. generalize ([] : members).
  induction ks as [|k ks IH]; intros acc Hacc; [exact Hacc|].
  cbn [fold_left]. apply IH.
  destruct (get ms k) as [v|] eqn:Hg; [|exact Hacc].
  apply valid_set_prop; [exact Hacc|]. exact (valid_get ms k v H Hg).
Qed.

Section ValidFacts.

Variable localeCompare : jsstring -> jsstring -> comparison.

Local Abbreviation canon := (stableSortJsonLd localeCompare).

Lemma valid_canon (v : json) :
  valid_numbers v = true -> valid_numbers (canon v) = true.
Proof.
  induction v as [|b|lit|s|xs IH|ms IH] using json_induction;
    intros H; try exact H.
  - simpl in *. apply forallb_forall. intros x Hx.
    apply (Permutation_in _ (sort_by_perm _ _ _)) in Hx.
    apply in_map_iff in Hx as (y & <- & Hy).
    rewrite Forall_forall in IH. apply IH; [assumption|].
    rewrite forallb_forall in H. now apply H.
  - change (canon (JObj ms))
      with (JObj (rebuild_sorted
                    (map (fun kv => (fst kv, canon (snd kv))) ms))).
    apply valid_rebuild_sorted. simpl in *.
    rewrite forallb_forall in *. intros x Hx.
    apply in_map_iff in Hx as (y & <- & Hy). simpl.
    rewrite Forall_forall in IH. apply (IH y Hy). now apply H.
Qed.

Lemma valid_strip_provenance_time (e : members) :
  valid_numbers (JObj e) = true ->
  valid_numbers (JObj (strip_provenance_time e)) = true.
Proof.
  intros H. unfold strip_provenance_time.
  destruct (get e k_asserted) as [[| | | | |am]|] eqn:Hg; try exact H.
  destruct (get am k_provenance) as [[| | | | |pm]|] eqn:Hp; try exact H.
  pose proof (valid_get _ _ _ H Hg) as Ham.
  pose proof (valid_get _ _ _ Ham Hp) as Hpm.
  apply valid_set_prop; [exact H|].
  apply valid_set_prop; [exact Ham|]. now apply valid_delete.
Qed.

Lemma valid_canonical_asserted (e : members) :
  valid_numbers (JObj e) = true ->
  valid_numbers (JObj (canonical_asserted localeCompare e)) = true.
Proof.
  intros H. unfold canonical_asserted.
  destruct (get e k_asserted) as [[| | | | |am]|] eqn:Hg; try exact H.
  pose proof (valid_get _ _ _ H Hg) as Ham.
  destruct (get am k_json) as [[| | | |blocks|jm]|] eqn:Hj; try exact H.
  - apply valid_set_prop; [exact H|].
    apply valid_set_prop; [exact Ham|].
    exact (valid_canon (JArr blocks) (valid_get _ _ _ Ham Hj)).
  - apply valid_set_prop; [exact H|].
    apply valid_set_prop; [exact Ham|].
    exact (valid_canon (JObj jm) (valid_get _ _ _ Ham Hj)).
Qed.

Lemma valid_canonical_content (e : members) :
  valid_numbers (JObj e) = true ->
  valid_numbers (JObj (canonical_content localeCompare e)) = true.
Proof.
  intros H. unfold canonical_content.
  destruct (get e k_content) as [[| | | |xs|cm]|] eqn:Hg; try exact H.
  - apply valid_set_prop; [exact H|].
    exact (valid_canon (JArr xs) (valid_get _ _ _ H Hg)).
  - apply valid_set_prop; [exact H|].
    exact (valid_canon (JObj cm) (valid_get _ _ _ H Hg)).
Qed.

Lemma valid_view (e : members) :
  valid_numbers (JObj e) = true ->
  valid_numbers (JObj (stableFingerprintView localeCompare e)) = true.
Proof.
  intros H. unfold stableFingerprintView. cbv zeta.
  apply valid_canonical_content, valid_canonical_asserted,
    valid_strip_provenance_time.
  now repeat apply valid_delete.
Qed.

End ValidFacts.

(* --------------------------------------------------------------------- *)
(** ** Determinism of the fingerprint                                     *)
(* --------------------------------------------------------------------- *)

Section FingerprintFacts.

Variable localeCompare : jsstring -> jsstring -> comparison.
Variable sha256_hex : jsstring -> jsstring.

Local Abbreviation view := (stableFingerprintView localeCompare).
Local Abbreviation fingerprint_of :=
  (fingerprint localeCompare sha256_hex true).

(** In deterministic mode, two envelopes that differ only by the volatile
    fields (capture date, run identifier, manifest path, capture time of
    the asserted provenance), by the order of the asserted blocks, and by
    the order of members and elements inside the asserted blocks and the
    content, get one fingerprint, provided the envelope and its asserted
    record are objects with distinct keys and the collation orders
    totally, and tells apart, the canonical serializations of the elements
    of every array it sorts. *)
Theorem fingerprint_order_free (a b : members) :
  same_substance a b ->
  canonicalisable localeCompare a = true ->
  fingerprint_of a = fingerprint_of b.
Proof.
  intros Hs Hc. unfold fingerprint, fp.
  now rewrite (same_substance_ser localeCompare a b Hs Hc).
Qed.

End FingerprintFacts.

(** C1.  The canonical form is there to make the fingerprint independent
    of the order of the asserted blocks.  A page that names one place
    twice, once with U+00E9 and once with U+0065 U+0301, has two different
    blocks whose serializations [localeCompare] holds equal; the stable
    sort leaves them in the order it found them, the two orders of the
    blocks give two canonical views, and the two envelopes, equal in
    substance, get two fingerprints. *)
Theorem fingerprint_block_order_divergence :
  let a := accent_envelope [block_composed; block_decomposed] in
  let b := accent_envelope [block_decomposed; block_composed] in
  same_substance a b
  /\ by_serialization example_localeCompare block_composed block_decomposed
     = Eq
  /\ stringify block_composed <> stringify block_decomposed
  /\ canonicalisable example_localeCompare a = false
  /\ get (asObject (get (stableFingerprintView example_localeCompare a)
                        k_asserted)) k_json
     = Some (JArr [block_composed; block_decomposed])
  /\ get (asObject (get (stableFingerprintView example_localeCompare b)
                        k_asserted)) k_json
     = Some (JArr [block_decomposed; block_composed])
  /\ fingerprint example_localeCompare sha256_text true a
     <> fingerprint example_localeCompare sha256_text true b.
Proof.
  cbv zeta. split; [|split; [|split; [|split; [|split; [|split]]]]].
  - unfold same_substance.
    repeat (apply Forall2_cons; [split; [reflexivity|]|]);
      try apply Forall2_nil; try reflexivity.
    + cbv.
      repeat (apply Forall2_cons; [split; [reflexivity|]|]);
        try apply Forall2_nil; try reflexivity.
      apply ro_arr, ra_swap.
    + apply ro_refl.
  - vm_compute. reflexivity.
  - vm_compute. discriminate.
  - vm_compute. reflexivity.
  - vm_compute. reflexivity.
  - vm_compute. reflexivity.
  - intros E. vm_compute in E. discriminate E.
Qed.

(** Two runs over one page, the blocks and their members in another
    order: one fingerprint. *)
Lemma fingerprint_order_free_witness :
  fingerprint example_localeCompare sha256_text true run_a
  = fingerprint example_localeCompare sha256_text true run_b.
Proof.
  apply fingerprint_order_free; [|vm_compute; reflexivity].
  unfold same_substance.
  repeat (apply Forall2_cons; [split; [reflexivity|]|]);
    try apply Forall2_nil; try reflexivity.
  - cbv.
    repeat (apply Forall2_cons; [split; [reflexivity|]|]);
      try apply Forall2_nil; try reflexivity.
    apply ro_arr.
    apply (ra_trans _ [block_organization; block_product]);
      [apply ra_swap|].
    apply ra_cons; [apply ro_refl|].
    apply ra_cons; [|apply ra_nil].
    apply ro_obj, rm_swap. discriminate.
  - apply ro_obj, rm_swap. discriminate.
Defined.

(* --------------------------------------------------------------------- *)
(** ** [normText] and [trimAny]                                           *)
(* --------------------------------------------------------------------- *)

Lemma spaced_collapse (s : jsstring) :
  forall b, spaced b (collapse_spaces b s) = true.
Proof.
  induction s as [|c t IH]; intros b; simpl; [reflexivity|].
  destruct (is_white_space c) eqn:E.
  - destruct b; [apply IH|]. simpl. now rewrite IH.
  - simpl. rewrite E. apply IH.
Qed.

Lemma spaced_weaken (b : bool) (s : jsstring) :
  spaced b s = true -> spaced false s = true.
Proof.
  destruct b; [|easy]. destruct s as [|c t]; simpl; [easy|].
  destruct (is_white_space c); [|easy].
  rewrite andb_false_r. discriminate.
Qed.

Lemma spaced_suffix (p s : jsstring) :
  forall b, spaced b (p ++ s) = true -> spaced false s = true.
Proof.
  induction p as [|c p IH]; intros b; simpl; [apply spaced_weaken|].
  destruct (is_white_space c); [|apply IH].
  intros H. apply andb_prop in H as [_ H]. now apply IH in H.
Qed.

Lemma spaced_prefix (s w : jsstring) :
  forall b, spaced b (s ++ w) = true -> spaced b s = true.
Proof.
  induction s as [|c s IH]; intros b; simpl; [reflexivity|].
  destruct (is_white_space c); [|apply IH].
  intros H. apply andb_prop in H as [H1 H2]. rewrite H1. now apply IH.
Qed.

Lemma drop_white_space_split (s : jsstring) :
  exists p, s = p ++ drop_white_space s /\ forallb is_white_space p = true.
Proof.
  induction s as [|c t (p & Hp & Hw)]; simpl; [now exists []|].
  destruct (is_white_space c) eqn:E.
  - exists (c :: p). simpl. rewrite E, Hw. split; [now f_equal|reflexivity].
  - now exists [].
Qed.

Lemma drop_white_space_head (s : jsstring) (c : char) (t : jsstring) :
  drop_white_space s = c :: t -> is_white_space c = false.
Proof.
  induction s as [|x s IH]; simpl; [discriminate|].
  destruct (is_white_space x) eqn:E; [assumption|].
  now intros [= <- _].
Qed.

Lemma drop_white_space_fixed (s : jsstring) :
  match s with c :: _ => is_white_space c = false | [] => True end ->
  drop_white_space s = s.
Proof. destruct s as [|c t]; simpl; [easy|]. now intros ->. Qed.

Lemma spaced_from_text (s : jsstring) :
  spaced false s = true ->
  match s with c :: _ => is_white_space c = false | [] => True end ->
  spaced true s = true.
Proof.
  destruct s as [|c t]; simpl; [easy|]. intros H E. now rewrite E in *.
Qed.

Lemma collapse_fixed (s : jsstring) :
  forall b, spaced b s = true -> collapse_spaces b s = s.
Proof.
  induction s as [|c t IH]; intros b; simpl; [reflexivity|].
  destruct (is_white_space c) eqn:E.
  - intros H. apply andb_prop in H as [H H3]. apply andb_prop in H as [H1 H2].
    apply N.eqb_eq in H1. apply negb_true_iff in H2. subst b c.
    f_equal. now apply IH.
  - intros H. f_equal. now apply IH.
Qed.

Lemma filter_white_space (p : jsstring) :
  forallb is_white_space p = true -> filter is_text_char p = [].
Proof.
  induction p as [|c p IH]; simpl; [reflexivity|].
  intros H. apply andb_prop in H as [H1 H2]. unfold is_text_char at 1.
  rewrite H1. simpl. now apply IH.
Qed.

Lemma filter_collapse (s : jsstring) :
  forall b, filter is_text_char (collapse_spaces b s) = filter is_text_char s.
Proof.
  induction s as [|c t IH]; intros b; simpl; [reflexivity|].
  unfold is_text_char at 2. destruct (is_white_space c) eqn:E; simpl.
  - destruct b; [apply IH|]. simpl. apply IH.
  - unfold is_text_char at 1. rewrite E. simpl. f_equal. apply IH.
Qed.

(** What [trim] leaves: the text between its first and its last character
    that is not white space. *)
Lemma trim_split (x : jsstring) :
  exists p w,
    x = p ++ trim x ++ w /\
    forallb is_white_space p = true /\ forallb is_white_space w = true /\
    match trim x with c :: _ => is_white_space c = false | [] => True end /\
    ends_in_text (trim x) = true.
Proof.
  unfold trim.
  destruct (drop_white_space_split x) as (p & Hp & Hpw).
  set (y := drop_white_space x) in *.
  destruct (drop_white_space_split (rev y)) as (q & Hq & Hqw).
  set (d := drop_white_space (rev y)) in *.
  assert (Hy : y = rev d ++ rev q).
  { rewrite <- (rev_involutive y), Hq, rev_app_distr. reflexivity. }
  exists p, (rev q). repeat split.
  - now rewrite <- Hy.
  - assumption.
  - rewrite forallb_forall in *. intros c Hc. apply Hqw.
    now apply in_rev.
  - destruct (rev d) as [|c t] eqn:E; [trivial|].
    simpl in Hy.
    exact (drop_white_space_head x c _ Hy).
  - unfold ends_in_text. rewrite rev_involutive.
    destruct d as [|c t] eqn:E; [reflexivity|].
    now rewrite (drop_white_space_head (rev y) c t E).
Qed.

Lemma trim_fixed (s : jsstring) :
  match s with c :: _ => is_white_space c = false | [] => True end ->
  ends_in_text s = true -> trim s = s.
Proof.
  intros H1 H2. unfold trim. rewrite (drop_white_space_fixed s H1).
  rewrite drop_white_space_fixed; [apply rev_involutive|].
  unfold ends_in_text in H2. destruct (rev s); [trivial|].
  now apply negb_true_iff in H2.
Qed.

Lemma spaced_true_head (s : jsstring) :
  spaced true s = true ->
  match s with c :: _ => is_white_space c = false | [] => True end.
Proof.
  destruct s as [|c t]; simpl; [easy|].
  destruct (is_white_space c); [|easy].
  rewrite andb_false_r. discriminate.
Qed.

Lemma normal_text_fixed (s : jsstring) :
  normal_text s = true -> normText s = s.
Proof.
  unfold normal_text, normText. intros H. apply andb_prop in H as [H1 H2].
  rewrite (collapse_fixed s false (spaced_weaken true s H1)).
  apply trim_fixed; [now apply spaced_true_head|assumption].
Qed.

(** [normText] (and [trimAny], the same expression) changes white space
    only: the other characters are kept in order, no white space is left
    at either end, what is left in between are single spaces, and a second
    application changes nothing. *)
Theorem normText_normal (s : jsstring) :
  normal_text (normText s) = true
  /\ filter is_text_char (normText s) = filter is_text_char s
  /\ normText (normText s) = normText s.
Proof.
  assert (Hn : normal_text (normText s) = true).
  { unfold normText, normal_text.
    destruct (trim_split (collapse_spaces false s))
      as (p & w & Hx & Hp & Hw & Hhead & Hend).
    rewrite Hend, andb_true_r.
    apply spaced_from_text; [|assumption].
    pose proof (spaced_collapse s false) as Hs. rewrite Hx in Hs.
    apply spaced_suffix in Hs. now apply spaced_prefix in Hs. }
  split; [assumption|]. split; [|now apply normal_text_fixed].
  unfold normText.
  destruct (trim_split (collapse_spaces false s))
    as (p & w & Hx & Hp & Hw & _).
  rewrite <- (filter_collapse s false).
  set (t := trim (collapse_spaces false s)) in *. rewrite Hx.
  rewrite !filter_app, (filter_white_space p Hp), (filter_white_space w Hw).
  now rewrite app_nil_r.
Qed.

(* --------------------------------------------------------------------- *)
(** ** [detectType] and [hasStrongCommerceIntent]                         *)
(* --------------------------------------------------------------------- *)

Lemma clamp_bounds (x : Q) : (0 # 1 <= clamp x)%Q /\ (clamp x <= 1 # 1)%Q.
Proof.
  unfold clamp. split.
  - apply Q.le_max_l.
  - apply Q.max_lub; [discriminate|apply Q.le_min_l].
Qed.

Lemma fold_score_sum {A : Type} (f : A -> nat) (l : list A) (n : nat) :
  fold_left (fun score x => score + f x) l n = n + list_sum (map f l).
Proof.
  revert n. induction l as [|x l IH]; intros n; simpl; [lia|].
  rewrite IH. lia.
Qed.

Lemma list_sum_zero (l : list nat) :
  list_sum l = 0 <-> forall n, In n l -> n = 0.
Proof.
  induction l as [|x l IH]; simpl.
  - split; [intros _ n []|reflexivity].
  - split.
    + intros H n [<-|Hn]; [lia|]. apply IH; [lia|assumption].
    + intros H. rewrite (H x (or_introl eq_refl)).
      apply IH. intros n Hn. apply H. now right.
Qed.

Section TextSignals.

Variable toLowerCase : jsstring -> jsstring.
Variable divide : nat -> nat -> Q.

Local Abbreviation score := (indicatorScore toLowerCase).
Local Abbreviation hits :=
  (fun text ind =>
     match_count (indicator_regex toLowerCase ind) (toLowerCase text)).

(** A score is the number of matches of its indicators, added up. *)
Lemma indicatorScore_sum (text : jsstring) (indicators : list jsstring) :
  score text indicators = list_sum (map (hits text) indicators).
Proof. unfold indicatorScore. cbv zeta. now rewrite fold_score_sum. Qed.

Lemma indicatorScore_zero (text : jsstring) (indicators : list jsstring) :
  score text indicators = 0 <->
  forall ind, In ind indicators -> hits text ind = 0.
Proof.
  rewrite indicatorScore_sum, list_sum_zero. split.
  - intros H ind Hin. apply H. apply in_map_iff. now exists ind.
  - intros H n Hn. apply in_map_iff in Hn as (ind & <- & Hin). now apply H.
Qed.

(** The guessed type follows the three scores, each the number of matches
    of its indicators in the lower-cased text.  The guess is Thing exactly
    when all three scores are zero, that is when no indicator of the three
    lists matches; Product wins every tie it takes part in; Organization
    needs more hits than Product and at least as many as Article; Article
    needs more hits than both.  The confidence lies between 0 and 1. *)
Theorem detectType_precedence (text : jsstring) :
  let g := detectType toLowerCase divide text in
  let p := score text productIndicators in
  let o := score text orgIndicators in
  let a := score text articleIndicators in
  tg_scores g = (p, o, a)
  /\ (tg_type g = T_Thing <-> p = 0 /\ o = 0 /\ a = 0)
  /\ (tg_type g = T_Thing <->
      forall ind,
        In ind (productIndicators ++ orgIndicators ++ articleIndicators) ->
        hits text ind = 0)
  /\ (tg_type g = T_Product <-> 0 < p /\ o <= p /\ a <= p)
  /\ (tg_type g = T_Organization <-> p < o /\ a <= o)
  /\ (tg_type g = T_Article <-> p < a /\ o < a)
  /\ (0 # 1 <= tg_confidence g)%Q /\ (tg_confidence g <= 1 # 1)%Q.
Proof.
  cbv zeta. unfold detectType. cbv zeta.
  cbn [tg_type tg_scores tg_confidence].
  pose proof (indicatorScore_zero text productIndicators) as Zp.
  pose proof (indicatorScore_zero text orgIndicators) as Zo.
  pose proof (indicatorScore_zero text articleIndicators) as Za.
  revert Zp Zo Za.
  generalize (score text productIndicators) as p.
  generalize (score text orgIndicators) as o.
  generalize (score text articleIndicators) as a.
  intros a o p Zp Zo Za.
  set (m := Nat.max p (Nat.max o a)).
  assert (Hm : m = Nat.max p (Nat.max o a)) by reflexivity.
  clearbody m.
  assert (Htype :
    forall ty,
      (if (m =? a) && (p <? m) && (o <? m) then T_Article
       else if (m =? o) && (p <? m) then T_Organization
            else if (m =? p) && (0 <? m) then T_Product else T_Thing) = ty ->
      match ty with
      | T_Thing => p = 0 /\ o = 0 /\ a = 0
      | T_Product => 0 < p /\ o <= p /\ a <= p
      | T_Organization => p < o /\ a <= o
      | T_Article => p < a /\ o < a
      end).
  { intros ty <-.
    destruct (m =? a) eqn:Ea, (m =? o) eqn:Eo, (m =? p) eqn:Ep,
             (p <? m) eqn:Lp, (o <? m) eqn:Lo, (0 <? m) eqn:L0; simpl;
      repeat match goal with
             | H : (_ =? _) = true |- _ => apply Nat.eqb_eq in H
             | H : (_ =? _) = false |- _ => apply Nat.eqb_neq in H
             | H : (_ <? _) = true |- _ => apply Nat.ltb_lt in H
             | H : (_ <? _) = false |- _ => apply Nat.ltb_ge in H
             end; lia. }
  set (ty := if (m =? a) && (p <? m) && (o <? m) then T_Article
             else if (m =? o) && (p <? m) then T_Organization
                  else if (m =? p) && (0 <? m) then T_Product
                       else T_Thing) in *.
  pose proof (Htype ty eq_refl) as Hty. clearbody ty. clear Htype.
  assert (Hiff : forall t0 (P : Prop),
             match t0 with
             | T_Thing => p = 0 /\ o = 0 /\ a = 0
             | T_Product => 0 < p /\ o <= p /\ a <= p
             | T_Organization => p < o /\ a <= o
             | T_Article => p < a /\ o < a
             end = P -> (ty = t0 <-> P)).
  { intros t0 P <-. split.
    - intros <-. exact Hty.
    - intros H. destruct ty, t0; try reflexivity; lia. }
  split; [reflexivity|].
  split; [now apply Hiff|].
  split.
  { rewrite (Hiff T_Thing _ eq_refl), Zp, Zo, Za. split.
    - intros (Hp & Ho & Ha) ind Hin.
      apply in_app_or in Hin as [Hin|Hin]; [now apply Hp|].
      apply in_app_or in Hin as [Hin|Hin]; [now apply Ho|now apply Ha].
    - intros H. repeat split; intros ind Hin; apply H; rewrite !in_app_iff;
        tauto. }
  split; [now apply Hiff|]. split; [now apply Hiff|].
  split; [now apply Hiff|].
  split; apply clamp_bounds.
Qed.

Lemma strong_loop_complete (t : jsstring) (tokens : list jsstring) :
  forall hits,
    hits < 2 ->
    2 <= hits + List.length (filter (includes t) tokens) ->
    strong_loop t tokens hits = true.
Proof.
  induction tokens as [|tok rest IH]; intros hits Hlt Hc;
    [simpl in Hc; lia|].
  change (strong_loop t (tok :: rest) hits)
    with (let hits' := if includes t tok then S hits else hits in
          if (2 <=? hits')%nat then true else strong_loop t rest hits').
  cbv zeta. simpl in Hc.
  destruct (includes t tok); simpl in Hc.
  - destruct (2 <=? S hits)%nat eqn:E; [reflexivity|].
    apply Nat.leb_gt in E. apply IH; lia.
  - destruct (2 <=? hits)%nat eqn:E; [reflexivity|].
    apply IH; lia.
Qed.

Lemma two_hits_counted {A : Type} (f : A -> bool) (l : list A) (a b : A) :
  a <> b -> In a l -> In b l -> f a = true -> f b = true ->
  2 <= List.length (filter f l).
Proof.
  intros Hab Ha Hb Fa Fb.
  assert (Ia : In a (filter f l)) by (apply filter_In; now split).
  assert (Ib : In b (filter f l)) by (apply filter_In; now split).
  destruct (filter f l) as [|x [|y r]]; simpl in *; [contradiction| |lia].
  destruct Ia as [<-|[]], Ib as [<-|[]]. congruence.
Qed.

Lemma includes_tail (s p : jsstring) (c : char) :
  includes s (c :: p) = true -> includes s p = true.
Proof.
  induction s as [|x s IH]; simpl.
  - discriminate.
  - intros H. apply orb_true_iff in H as [H|H].
    + apply andb_prop in H as [_ H]. apply orb_true_iff. right.
      rewrite includes_unfold. now rewrite H.
    + apply orb_true_iff. right. now apply IH.
Qed.

Lemma includes_suffix (s pre p : jsstring) :
  includes s (pre ++ p) = true -> includes s p = true.
Proof.
  induction pre as [|c pre IH]; simpl; [easy|].
  intros H. apply IH. now apply includes_tail in H.
Qed.

(** The commerce-intent test answers yes exactly when two distinct phrases
    of its list occur in the lower-cased text.  A phrase that contains
    another one brings both: "select size" alone is enough, and so is
    "select color". *)
Theorem hasStrongCommerceIntent_iff (text : jsstring) :
  (hasStrongCommerceIntent toLowerCase text = true
   <-> two_strong_phrases toLowerCase text)
  /\ (includes (toLowerCase text) (js "select size") = true ->
      hasStrongCommerceIntent toLowerCase text = true)
  /\ (includes (toLowerCase text) (js "select color") = true ->
      hasStrongCommerceIntent toLowerCase text = true).
Proof.
  assert (Hback : two_strong_phrases toLowerCase text ->
                  hasStrongCommerceIntent toLowerCase text = true).
  { intros (a & b & Hab & Ia & Ib & Fa & Fb).
    unfold hasStrongCommerceIntent.
    apply strong_loop_complete; [lia|]. simpl plus.
    exact (two_hits_counted _ _ a b Hab Ia Ib Fa Fb). }
  split; [|split].
  - split; [|exact Hback].
    unfold hasStrongCommerceIntent. intros H.
    apply strong_loop_count in H. simpl in H.
    apply (two_in_filter _ _ strongTokens_NoDup H).
  - intros H. apply Hback.
    exists (js "select size"), (js "size").
    split; [discriminate|]. split; [|split; [|split; [exact H|]]].
    + unfold strongTokens. simpl. tauto.
    + unfold strongTokens. simpl. tauto.
    + exact (includes_suffix _ (js "select ") (js "size") H).
  - intros H. apply Hback.
    exists (js "select color"), (js "color").
    split; [discriminate|]. split; [|split; [|split; [exact H|]]].
    + unfold strongTokens. simpl. tauto.
    + unfold strongTokens. simpl. tauto.
    + exact (includes_suffix _ (js "select ") (js "color") H).
Qed.

End TextSignals.

(** One phrase that holds another, and a text that spells its phrases with
    U+212A KELVIN SIGN, whose lower case is [k]. *)
Lemma hasStrongCommerceIntent_iff_witness :
  hasStrongCommerceIntent example_toLowerCase
    (js "Please Select Size below") = true
  /\ hasStrongCommerceIntent example_toLowerCase
       (js "CHEC" ++ 8490%N :: js "OUT - IN STOC" ++ [8490%N]) = true.
Proof.
  split.
  - apply (proj1 (proj2 (hasStrongCommerceIntent_iff example_toLowerCase
                           (js "Please Select Size below")))).
    reflexivity.
  - apply (proj1 (hasStrongCommerceIntent_iff example_toLowerCase _)).
    exists (js "checkout"), (js "in stock").
    split; [discriminate|].
    split; [unfold strongTokens; simpl; tauto|].
    split; [unfold strongTokens; simpl; tauto|].
    split; reflexivity.
Defined.
(* --------------------------------------------------------------------- *)
(** ** Merge policy: what the asserted object keeps                       *)
(* --------------------------------------------------------------------- *)

(** Whatever is inferred, the merge drops no field of the asserted
    object: a field the inferred object does not name keeps its value,
    and, unless [overwriteExplicit] is set, so does every field whose
    asserted value is not empty. *)
Theorem mergeCapsules_keeps_asserted
        (original inferred : option json) (k : jsstring) :
  reserved_key k = false ->
  (forall ow, ~ In k (keys (asObject inferred)) ->
     get (mergeCapsules original inferred ow) k = get (asObject original) k)
  /\ (explicit_nonempty (asObject original) k = true ->
      get (mergeCapsules original inferred false) k
      = get (asObject original) k).
Proof.
  intros Hres. destruct (reserved_key_false k Hres) as (Hc & Ht & Hi).
  split.
  - intros ow Hout. rewrite merge_get_loop by assumption.
    rewrite merge_loop_get_absent by assumption.
    now rewrite !get_set_prop_other.
  - intros He. rewrite merge_get_loop by assumption.
    rewrite merge_loop_get_explicit by assumption.
    now rewrite !get_set_prop_other.
Qed.

Lemma mergeCapsules_keeps_asserted_witness :
  get (mergeCapsules
         (Some (JObj [(js "agentnet:name", JStr (js "Acme"));
                      (js "agentnet:sku", JStr (js "A-1"))]))
         (Some (JObj [(js "agentnet:name", JStr (js "Other"))])) true)
      (js "agentnet:sku") = Some (JStr (js "A-1"))
  /\ get (mergeCapsules
            (Some (JObj [(js "agentnet:name", JStr (js "Acme"));
                         (js "agentnet:sku", JStr (js "A-1"))]))
            (Some (JObj [(js "agentnet:name", JStr (js "Other"))])) false)
         (js "agentnet:name") = Some (JStr (js "Acme")).
Proof.
  split.
  - refine (eq_trans
              (proj1 (mergeCapsules_keeps_asserted _ _ (js "agentnet:sku")
                        eq_refl) true _) eq_refl).
    simpl. intros [H|[]]. discriminate H.
  - refine (eq_trans
              (proj2 (mergeCapsules_keeps_asserted _ _ (js "agentnet:name")
                        eq_refl) _) eq_refl).
    reflexivity.
Defined.

(** An inferred field other than [@context], [@type] and
    [agentnet:inferred] ends up in the merged object with the inferred
    value whenever [overwriteExplicit] is set, or the asserted object has
    no value or only a blank string under it.  The one key the assignment
    cannot create is [__proto__]: it is written only where the asserted
    object has it as an own property. *)
Theorem mergeCapsules_overwrite
        (original : option json) (inf : members) (ow : bool) (k : jsstring)
        (v : json) :
  NoDup (keys inf) -> In (k, v) inf -> reserved_key k = false ->
  ow = true \/ explicit_nonempty (asObject original) k = false ->
  str_eqb k k_proto = false \/ has (asObject original) k = true ->
  get (mergeCapsules original (Some (JObj inf)) ow) k = Some v.
Proof.
  intros Hnd Hin Hres Hw Hp.
  assert (E : get (mergeCapsules original (Some (JObj inf)) ow) k
              = get (mergeCapsules (Some (JObj (asObject original)))
                       (Some (JObj inf)) ow) k).
  { destruct original as [[| | | | |ms]|]; reflexivity. }
  rewrite E, (merge_get_inferred _ inf ow k v Hnd Hin Hres).
  assert (H1 : negb ow && explicit_nonempty (asObject original) k = false).
  { destruct Hw as [->| ->]; [reflexivity|apply andb_false_r]. }
  assert (H2 : str_eqb k k_proto && negb (has (asObject original) k) = false).
  { destruct Hp as [->| ->]; [reflexivity|apply andb_false_r]. }
  now rewrite H1, H2.
Qed.

Lemma mergeCapsules_overwrite_witness :
  get (mergeCapsules
         (Some (JObj [(js "agentnet:name", JStr (js "Acme"))]))
         (Some (JObj [(js "agentnet:name", JStr (js "Other"))])) true)
      (js "agentnet:name") = Some (JStr (js "Other")).
Proof.
  apply mergeCapsules_overwrite.
  - repeat constructor. simpl. tauto.
  - now left.
  - reflexivity.
  - now left.
  - now left.
Defined.

Lemma or_else_default_truthy (a b : option json) (d : json) :
  truthy d = true ->
  truthy (some_or d (or_else a (or_else b (Some d)))) = true.
Proof.
  intros Hd. unfold or_else.
  destruct a as [x|]; [destruct (truthy x) eqn:Ex; [exact Ex|]|];
    (destruct b as [y|]; [destruct (truthy y) eqn:Ey; [exact Ey|]|]);
    exact Hd.
Qed.

(** The merged object always carries a truthy [@context] and a truthy
    [@type]: the asserted one when it is truthy, otherwise the inferred
    one when that is truthy, otherwise the default. *)
Theorem mergeCapsules_header (original inferred : option json) (ow : bool) :
  let merged := mergeCapsules original inferred ow in
  let orig := asObject original in
  let inf := asObject inferred in
  get merged k_context
    = Some (some_or DEFAULT_CONTEXT
              (or_else (get orig k_context)
                 (or_else (get inf k_context) (Some DEFAULT_CONTEXT))))
  /\ get merged k_type
     = Some (some_or (JStr (js "agentnet:Thing"))
               (or_else (get orig k_type)
                  (or_else (get inf k_type)
                     (Some (JStr (js "agentnet:Thing"))))))
  /\ truthy_opt (get merged k_context) = true
  /\ truthy_opt (get merged k_type) = true.
Proof.
  cbv zeta.
  assert (Hc : get (mergeCapsules original inferred ow) k_context
               = Some (some_or DEFAULT_CONTEXT
                         (or_else (get (asObject original) k_context)
                            (or_else (get (asObject inferred) k_context)
                               (Some DEFAULT_CONTEXT))))).
  { rewrite merge_get_loop by discriminate.
    rewrite merge_loop_get_reserved by reflexivity.
    rewrite get_set_prop_other by discriminate.
    now apply get_set_prop_same. }
  assert (Ht : get (mergeCapsules original inferred ow) k_type
               = Some (some_or (JStr (js "agentnet:Thing"))
                         (or_else (get (asObject original) k_type)
                            (or_else (get (asObject inferred) k_type)
                               (Some (JStr (js "agentnet:Thing"))))))).
  { rewrite merge_get_loop by discriminate.
    rewrite merge_loop_get_reserved by reflexivity.
    now apply get_set_prop_same. }
  split; [exact Hc|]. split; [exact Ht|]. rewrite Hc, Ht. simpl.
  split; now apply or_else_default_truthy.
Qed.

(* --------------------------------------------------------------------- *)
(** ** [inferCapsule]: provenance and asserted fields                     *)
(* --------------------------------------------------------------------- *)

Section InferenceMore.

Variable toLowerCase : jsstring -> jsstring.
Variable divide : nat -> nat -> Q.
Variable Number_of_string : jsstring -> jsnum.
Variable toFixed2 : Q -> jsstring.
Variable confidence_json : Q -> json.
Variable extractSKU : jsstring -> option jsstring.
Variable extractBrand : jsstring -> jsstring -> option jsstring.
Variable extractContacts : jsstring -> list jsstring * list jsstring.
Variable extractAddress : jsstring -> option json.
Variable extractPublishDates :
  jsstring -> jsstring -> option jsstring * option jsstring.
Variable byline_author : jsstring -> option jsstring.
Variable title_name : jsstring -> option jsstring.
Variable meta_description : jsstring -> option jsstring.
Variable callLLMEnrichment :
  jsstring -> jsstring -> jsstring -> members -> jsstring -> option json.

Local Abbreviation provenance := (addProvenance confidence_json).
Local Abbreviation field := (infer_field confidence_json).
Local Abbreviation text_field := (infer_string confidence_json).
Local Abbreviation infer :=
  (inferCapsule toLowerCase divide Number_of_string toFixed2 confidence_json extractSKU
     extractBrand extractContacts extractAddress extractPublishDates
     byline_author title_name meta_description callLLMEnrichment).

Lemma inherited_key_proto (k : jsstring) :
  inherited_key k = false -> str_eqb k k_proto = false.
Proof.
  unfold inherited_key, prototype_names. cbn [map existsb]. intros H.
  apply orb_false_elim in H as [_ H]. now apply orb_false_elim in H as [H _].
Qed.

(** What [addProvenance] leaves under [agentnet:inferred]. *)
Lemma addProvenance_map (target : members) (key : jsstring) (c : Q)
      (source method : string) :
  match get target k_inferred with
  | None | Some (JObj _) => True
  | Some _ => False
  end ->
  exists pm entry,
    get (provenance target key c source method) k_inferred
    = Some (JObj (set_prop pm key entry))
    /\ (forall k, has_provenance target k = true -> has pm k = true).
Proof.
  unfold addProvenance, has_provenance.
  destruct (get target k_inferred) as [[| | | | |pm]|]; try contradiction;
    intros _.
  - exists pm. eexists. cbn [truthy].
    rewrite get_set_prop_same by reflexivity.
    split; [reflexivity|auto].
  - exists []. eexists. rewrite get_set_prop_same by reflexivity.
    split; [reflexivity|discriminate].
Qed.

Lemma provenance_complete_add (i : members) (key : jsstring) (c : Q)
      (source method : string) :
  key <> k_proto ->
  provenance_complete i ->
  (forall k, has i k = true -> reserved_key k = false ->
             k <> key -> has_provenance i k = true) ->
  provenance_complete (provenance i key c source method).
Proof.
  intros Hproto [Hobj _] Hrest. apply str_eqb_neq in Hproto.
  destruct (addProvenance_map i key c source method Hobj)
    as (pm & entry & Hget & Hpm).
  split; [now rewrite Hget|].
  intros k Hk Hres. destruct (reserved_key_false k Hres) as (_ & _ & Hi).
  rewrite has_addProvenance in Hk by assumption.
  unfold has_provenance. rewrite Hget.
  destruct (str_eqb k key) eqn:E.
  - apply str_eqb_eq in E. subst k. unfold has.
    now rewrite get_set_prop_same by assumption.
  - apply str_eqb_neq in E. rewrite has_set_prop_other by assumption.
    apply Hpm. now apply Hrest.
Qed.

Lemma provenance_complete_set (i : members) (key : jsstring) (v : json) :
  key <> k_inferred ->
  provenance_complete i ->
  (match get (set_prop i key v) k_inferred with
   | None | Some (JObj _) => True
   | Some _ => False
   end)
  /\ forall k, has (set_prop i key v) k = true -> reserved_key k = false ->
               k <> key -> has_provenance (set_prop i key v) k = true.
Proof.
  intros Hkey [Hobj Hall].
  assert (Hg : get (set_prop i key v) k_inferred = get i k_inferred)
    by (apply get_set_prop_other; congruence).
  split; [now rewrite Hg|].
  intros k Hk Hres Hne. unfold has_provenance. rewrite Hg.
  rewrite has_set_prop_other in Hk by assumption.
  exact (Hall k Hk Hres).
Qed.

Lemma provenance_complete_field (i : members) (key : jsstring) (v : json)
      (c : Q) (method : string) :
  key <> k_inferred -> key <> k_proto ->
  provenance_complete i -> provenance_complete (field i key v c method).
Proof.
  intros Hkey Hproto Hi. unfold infer_field. apply str_eqb_neq in Hproto.
  destruct (provenance_complete_set i key v Hkey Hi) as [Hobj Hrest].
  destruct (addProvenance_map (set_prop i key v) key c "heuristic" method
              Hobj) as (pm & entry & Hget & Hpm).
  split; [now rewrite Hget|].
  intros k Hk Hres. destruct (reserved_key_false k Hres) as (_ & _ & Hne).
  rewrite has_addProvenance in Hk by assumption.
  unfold has_provenance. rewrite Hget.
  destruct (str_eqb k key) eqn:E.
  - apply str_eqb_eq in E. subst k. unfold has.
    now rewrite get_set_prop_same by assumption.
  - apply str_eqb_neq in E. rewrite has_set_prop_other by assumption.
    apply Hpm. now apply Hrest.
Qed.

Lemma provenance_complete_string (i : members) (key : jsstring)
      (v : option jsstring) (c : Q) (method : string) :
  key <> k_inferred -> key <> k_proto ->
  provenance_complete i -> provenance_complete (text_field i key v c method).
Proof.
  intros Hkey Hproto Hi. unfold infer_string.
  destruct (nonempty v); [now apply provenance_complete_field|assumption].
Qed.

Lemma provenance_complete_seed (extracted : members) (guess : typeGuess) :
  provenance_complete (seed_inferred confidence_json extracted guess).
Proof.
  unfold seed_inferred. cbv zeta.
  assert (H0 : provenance_complete
                 [(k_context, DEFAULT_CONTEXT);
                  (k_type, resolved_type extracted guess)]).
  { split; [exact I|]. intros k Hk Hres.
    destruct (reserved_key_false k Hres) as (Hc & Ht & _).
    apply str_eqb_neq in Hc, Ht. unfold has in Hk. simpl in Hk.
    rewrite Hc, Ht in Hk. discriminate. }
  destruct (negb _ && negb _); [|exact H0].
  apply provenance_complete_add; [discriminate|exact H0|].
  intros k Hk Hres _. now apply H0.
Qed.

Lemma provenance_complete_heuristics (extracted : members)
      (html t : jsstring) (guess : typeGuess) :
  provenance_complete
    (heuristics toLowerCase Number_of_string toFixed2 confidence_json extractSKU
       extractBrand extractContacts extractAddress extractPublishDates
       byline_author title_name meta_description extracted html t guess).
Proof.
  unfold heuristics. cbv zeta.
  pose proof (provenance_complete_seed extracted guess) as H.
  revert H. generalize (seed_inferred confidence_json extracted guess).
  intros i Hi.
  assert (Hp : provenance_complete
                 (product_stage toLowerCase Number_of_string toFixed2 confidence_json
                    extractSKU extractBrand extracted html t guess i)).
  { unfold product_stage. cbv zeta.
    destruct (is_type _ _ || test _ t); [|assumption].
    repeat apply provenance_complete_string; try discriminate.
    destruct (allowPriceInference toLowerCase extracted guess t); [|assumption].
    unfold infer_price.
    destruct (extractPrice Number_of_string toFixed2 t) as [p|];
      [|assumption].
    destruct (pm_priceCurrency p); destruct (pm_price p);
      repeat apply provenance_complete_field; try discriminate;
      assumption. }
  revert Hp. generalize (product_stage toLowerCase Number_of_string toFixed2
                           confidence_json extractSKU extractBrand
                           extracted html t guess i).
  clear i Hi. intros i Hi.
  assert (Ho : provenance_complete
                 (organization_stage confidence_json extractContacts
                    extractAddress t (resolved_type extracted guess) i)).
  { unfold organization_stage. cbv zeta.
    destruct (is_type _ _); [|assumption].
    destruct (extractAddress t); destruct (snd (extractContacts t));
      destruct (fst (extractContacts t));
      repeat apply provenance_complete_field; try discriminate;
      assumption. }
  revert Ho. generalize (organization_stage confidence_json extractContacts
                           extractAddress t (resolved_type extracted guess)
                           i).
  clear i Hi. intros i Hi.
  assert (Ha : provenance_complete
                 (article_stage confidence_json extractPublishDates
                    byline_author html t (resolved_type extracted guess)
                    i)).
  { unfold article_stage. cbv zeta.
    destruct (is_type _ _); [|assumption].
    destruct (byline_author t);
      repeat first [apply provenance_complete_field
                   |apply provenance_complete_string];
      try discriminate; assumption. }
  revert Ha. generalize (article_stage confidence_json extractPublishDates
                           byline_author html t
                           (resolved_type extracted guess) i).
  clear i Hi. intros i Hi.
  unfold generic_stage. cbv zeta.
  destruct (negb (truthy_opt (get extracted (js "agentnet:description"))));
    destruct (negb (truthy_opt (get extracted (js "agentnet:name"))));
    destruct (nonempty (meta_description html));
    destruct (title_name html);
    repeat apply provenance_complete_field; try discriminate; assumption.
Qed.

Lemma provenance_complete_llm_write (i : members) (kv : jsstring * json) :
  reserved_key (fst kv) = false -> inherited_key (fst kv) = false ->
  provenance_complete i ->
  provenance_complete (llm_write confidence_json i kv).
Proof.
  destruct kv as [key v]. cbn [fst]. intros Hres Hproto Hi.
  apply inherited_key_proto in Hproto.
  destruct (reserved_key_false key Hres) as (_ & _ & Hkey).
  unfold llm_write. cbn [fst snd].
  destruct Hi as [Hobj Hall].
  destruct (addProvenance_map i key (Qmake 55 100) "llm" "openai-summary"
              Hobj) as (pm & entry & Hget & Hpm).
  assert (Hg : get (set_prop
                      (provenance i key (Qmake 55 100) "llm" "openai-summary")
                      key v) k_inferred
               = Some (JObj (set_prop pm key entry))).
  { rewrite get_set_prop_other by congruence. exact Hget. }
  split; [now rewrite Hg|].
  intros k Hk Hk'. destruct (reserved_key_false k Hk') as (_ & _ & Hne).
  unfold has_provenance. rewrite Hg.
  destruct (str_eqb k key) eqn:E.
  - apply str_eqb_eq in E. subst k. unfold has.
    now rewrite get_set_prop_same by assumption.
  - apply str_eqb_neq in E. rewrite has_set_prop_other by assumption.
    rewrite has_set_prop_other in Hk by assumption.
    rewrite has_addProvenance in Hk by assumption.
    apply Hpm. now apply Hall.
Qed.

Lemma provenance_complete_llm (opts : inferOptions) (url html t : jsstring)
      (extracted i : members) :
  provenance_complete i ->
  provenance_complete
    (llm_stage confidence_json callLLMEnrichment opts url html t
       extracted i).
Proof.
  intros Hi. unfold llm_stage.
  destruct (llm_runs opts); [|assumption].
  destruct (callLLMEnrichment _ _ _ _ _) as [reply|]; [|assumption].
  destruct (is_object_like reply); [|assumption].
  cbv zeta.
  set (accepted := filter (llm_accepts i extracted) (own_props reply)).
  set (aug := fold_left (fun acc kv => set_prop acc (fst kv) (snd kv))
                        accepted []).
  assert (Haug : forall kv, In kv aug ->
                           reserved_key (fst kv) = false
                           /\ inherited_key (fst kv) = false).
  { intros [k v] Hin. cbn [fst].
    assert (Hk : has aug k = true).
    { apply has_In_keys. unfold keys. apply in_map_iff.
      now exists (k, v). }
    apply fold_set_prop_has in Hk. destruct Hk as [Hk|Hk];
      [discriminate|].
    unfold keys in Hk. apply in_map_iff in Hk as ([k' v'] & <- & Hin').
    apply filter_In in Hin' as [_ Hacc].
    unfold llm_accepts, reads_undefined in Hacc. cbn [fst] in Hacc.
    apply andb_prop in Hacc as [Hacc _].
    apply andb_prop in Hacc as [Hacc Hinh].
    apply andb_prop in Hinh as [_ Hinh].
    now apply negb_true_iff in Hacc, Hinh. }
  clearbody aug. clear accepted. revert i Hi.
  induction aug as [|kv aug IH]; intros i Hi; simpl; [assumption|].
  apply IH.
  - intros kv' Hin. apply Haug. now right.
  - apply provenance_complete_llm_write; [| |assumption];
      apply Haug; now left.
Qed.

(** Every field [inferCapsule] puts into the inferred object, by a
    heuristic or from the model's reply, has its entry in the provenance
    map [agentnet:inferred]; only [@context] and [@type] can come without
    one. *)
Theorem inferCapsule_provenance
        (url html text : jsstring) (extractedCapsule : option json)
        (opts : inferOptions) (k : jsstring) :
  let r := infer url html text extractedCapsule opts in
  has (inf_inferred r) k = true ->
  reserved_key k = false ->
  has_provenance (inf_inferred r) k = true.
Proof.
  intros r Hk Hres. unfold r, inferCapsule in *. cbv zeta in *.
  cbn [inf_inferred] in *.
  exact (proj2 (provenance_complete_llm opts url html _ _ _
                  (provenance_complete_heuristics _ html _ _)) k Hk Hres).
Qed.

(** Without [overwriteExplicit], a field of the asserted object whose
    value is not empty comes out of [inferCapsule] unchanged, whatever the
    heuristics and the model find; and the capsule always carries a truthy
    [@context] and [@type]. *)
Theorem inferCapsule_keeps_asserted
        (url html text : jsstring) (extractedCapsule : option json)
        (opts : inferOptions) :
  let r := infer url html text extractedCapsule opts in
  (forall k,
      overwriteExplicit opts = false ->
      reserved_key k = false ->
      explicit_nonempty (asObject extractedCapsule) k = true ->
      get (inf_capsule r) k = get (asObject extractedCapsule) k)
  /\ truthy_opt (get (inf_capsule r) k_context) = true
  /\ truthy_opt (get (inf_capsule r) k_type) = true.
Proof.
  cbv zeta. unfold inferCapsule. cbv zeta. cbn [inf_capsule].
  set (extracted := asObject extractedCapsule).
  set (inferred := llm_stage _ _ _ _ _ _ _ _).
  set (merged := mergeCapsules (Some (JObj extracted)) (Some (JObj inferred))
                               (overwriteExplicit opts)).
  split; [|split].
  - intros k How Hres He. destruct (reserved_key_false k Hres) as (Hc & _ & Hi).
    assert (Hm : get merged k = get extracted k).
    { unfold merged. rewrite How, merge_get_loop by assumption.
      cbn [asObject]. rewrite merge_loop_get_explicit by assumption.
      destruct (reserved_key_false k Hres) as (Hc' & Ht' & _).
      now rewrite !get_set_prop_other. }
    destruct (truthy_opt (get merged k_context)); [exact Hm|].
    now rewrite get_set_prop_other.
  - destruct (truthy_opt (get merged k_context)) eqn:E; [exact E|].
    now rewrite get_set_prop_same by reflexivity.
  - assert (Ht : truthy_opt (get merged k_type) = true).
    { unfold merged. rewrite merge_get_loop by discriminate.
      rewrite merge_loop_get_reserved by reflexivity.
      rewrite get_set_prop_same by reflexivity. simpl.
      now apply or_else_default_truthy. }
    destruct (truthy_opt (get merged k_context)); [exact Ht|].
    now rewrite get_set_prop_other by discriminate.
Qed.

End InferenceMore.

(** A model's price on a page without commerce vocabulary: the field is
    inferred, and its provenance entry is there. *)
Lemma inferCapsule_provenance_witness :
  has_provenance
    (inf_inferred
       (example_infer pricing_model (js "https://example.org/about")
          (js "<html></html>")
          (js "Our story. Tickets from $19.99 at the door.")
          (Some (JObj [])) with_model))
    k_price = true.
Proof.
  apply (inferCapsule_provenance example_toLowerCase example_divide
           example_Number_of_string example_toFixed2
           example_confidence no_field no_field2 no_contacts no_address
           no_dates no_field no_field no_field pricing_model).
  - vm_compute. reflexivity.
  - reflexivity.
Defined.

(** An asserted price next to another price in the text: the asserted one
    stays. *)
Lemma inferCapsule_keeps_asserted_witness :
  get (inf_capsule
         (example_infer silent_model (js "https://example.com/")
            (js "<html></html>") (js "Widget product, now $49.99")
            (Some (JObj [(k_type, JStr (js "Product"));
                         (k_price, JStr (js "24.00"))]))
            heuristics_only))
      k_price = Some (JStr (js "24.00")).
Proof.
  refine (eq_trans
            (proj1 (inferCapsule_keeps_asserted example_toLowerCase
                      example_divide example_Number_of_string
                      example_toFixed2 example_confidence no_field no_field2
                      no_contacts no_address no_dates no_field no_field
                      no_field silent_model (js "https://example.com/")
                      (js "<html></html>") (js "Widget product, now $49.99")
                      (Some (JObj [(k_type, JStr (js "Product"));
                                   (k_price, JStr (js "24.00"))]))
                      heuristics_only)
                   k_price eq_refl eq_refl eq_refl)
            eq_refl).
Defined.

(* --------------------------------------------------------------------- *)
(** ** JSON-LD extractor: what the blocks are                             *)
(* --------------------------------------------------------------------- *)

Lemma flattenJsonLd_object_like (v : json) :
  forall x, In x (flattenJsonLd v) -> is_object_like x = true.
Proof.
  induction v as [|b|lit|s|xs IH|ms IH] using json_induction;
    intros x Hx; try contradiction.
  - cbn [flattenJsonLd] in Hx. apply in_flat_map in Hx as (y & Hy & Hx).
    rewrite Forall_forall in IH. exact (IH y Hy x Hx).
  - cbn [flattenJsonLd] in Hx. destruct Hx as [<-|Hx]; [reflexivity|].
    destruct (get ms (js "@graph")) as [[| | | |graph|]|];
      try contradiction.
    now apply filter_In in Hx.
Qed.

(** [flattenJsonLd] returns objects and arrays only: nothing for a
    primitive or [null]; for an object the object itself, as it is,
    followed by the object-like entries of its [@graph], which are not
    flattened further; for an array what its items give, in order. *)
Theorem flattenJsonLd_shape :
  (forall v x, In x (flattenJsonLd v) -> is_object_like x = true)
  /\ (forall v, is_object_like v = false -> flattenJsonLd v = [])
  /\ (forall ms graph,
        get ms (js "@graph") = Some (JArr graph) ->
        flattenJsonLd (JObj ms) = JObj ms :: filter is_object_like graph)
  /\ (forall ms,
        match get ms (js "@graph") with
        | Some (JArr _) => False
        | _ => True
        end ->
        flattenJsonLd (JObj ms) = [JObj ms])
  /\ (forall xs ys,
        flattenJsonLd (JArr (xs ++ ys))
        = flattenJsonLd (JArr xs) ++ flattenJsonLd (JArr ys)).
Proof.
  split; [exact flattenJsonLd_object_like|].
  split; [now intros [| | | | |]|].
  split; [intros ms graph H; cbn [flattenJsonLd]; now rewrite H|].
  split.
  - intros ms H. cbn [flattenJsonLd].
    destruct (get ms (js "@graph")) as [[| | | | |]|]; try reflexivity.
    contradiction.
  - intros xs ys. cbn [flattenJsonLd]. apply flat_map_app.
Qed.

Lemma flattenJsonLd_shape_witness :
  flattenJsonLd (JObj graph_wrapper)
  = [JObj graph_wrapper;
     JObj [(js "@type", JStr (js "Product"))];
     JObj [(js "@graph", JArr [JObj []])]].
Proof.
  exact (eq_trans
           (proj1 (proj2 (proj2 flattenJsonLd_shape))
                  graph_wrapper graph_entries eq_refl)
           eq_refl).
Defined.

Section ExtractorMore.

Variable JSON_parse : jsstring -> option json.
Variable sha256Hex : jsstring -> jsstring.
Variables url capturedAt : jsstring.
Variable flattenGraph : bool.

Local Abbreviation run :=
  (extract_scripts JSON_parse sha256Hex url capturedAt flattenGraph).

Lemma is_object_like_truthy (x : json) :
  is_object_like x = true -> truthy x = true.
Proof. now destruct x. Qed.

Lemma script_objects_truthy (html : jsstring) (x : json) :
  In x (script_objects JSON_parse flattenGraph html) ->
  truthy x = true /\ (flattenGraph = true -> is_object_like x = true).
Proof.
  unfold script_objects. destruct (trim html) as [|c raw]; [contradiction|].
  destruct (truthy (safeJsonParse JSON_parse (c :: raw))) eqn:E; simpl;
    [|contradiction].
  destruct flattenGraph.
  - intros Hx. apply flattenJsonLd_object_like in Hx.
    split; [now apply is_object_like_truthy|now intros _].
  - intros [<-|[]]. split; [assumption|discriminate].
Qed.

Lemma run_sorted (scripts : list jsstring) :
  forall acc i,
    StronglySorted by_script (fst acc) ->
    (forall b, In b (fst acc) -> block_scriptIndex b < i) ->
    StronglySorted by_script (fst (run acc i scripts)).
Proof.
  induction scripts as [|h rest IH]; intros acc i Hs Hlt; simpl;
    [assumption|].
  apply IH; rewrite extract_script_eq; cbn [fst].
  - apply strongly_sorted_app. split; [assumption|]. split.
    + generalize (script_objects JSON_parse flattenGraph h).
      intros l. induction l as [|o l IHl]; simpl; constructor;
        [assumption|].
      apply Forall_forall. intros b Hb. apply in_map_iff in Hb.
      destruct Hb as (o' & <- & _). unfold by_script. simpl. lia.
    + intros x y Hx Hy. apply in_map_iff in Hy as (o & <- & _).
      unfold by_script. simpl. specialize (Hlt x Hx). lia.
  - intros b Hb. apply in_app_iff in Hb as [Hb|Hb].
    + specialize (Hlt b Hb). lia.
    + apply in_map_iff in Hb as (o & <- & _). simpl. lia.
Qed.

Lemma run_errors_length (scripts : list jsstring) :
  forall acc i,
    List.length (snd (run acc i scripts))
    <= List.length (snd acc) + List.length scripts.
Proof.
  induction scripts as [|h rest IH]; intros acc i; simpl; [lia|].
  etransitivity; [apply IH|].
  rewrite extract_script_eq. cbn [snd]. rewrite length_app.
  destruct (script_rejected JSON_parse h); simpl; lia.
Qed.

(** Every returned block comes from one script element: it carries that
    element's index and the digest of its trimmed text, its value is
    truthy, and with [flattenGraph] (the default) it is an object or an
    array.  The blocks are in document order, and there are no more parse
    errors than script elements. *)
Theorem extractJsonLd_blocks (scripts : list jsstring) :
  let r := extractJsonLd JSON_parse sha256Hex scripts url capturedAt
             flattenGraph in
  (forall b, In b (blocks r) ->
     exists html,
       nth_error scripts (block_scriptIndex b) = Some html
       /\ block_scriptIndex b < rawCount r
       /\ block_provenance b
          = script_provenance sha256Hex url capturedAt (trim html)
              (block_scriptIndex b)
       /\ truthy (block_json b) = true
       /\ (flattenGraph = true -> is_object_like (block_json b) = true))
  /\ StronglySorted by_script (blocks r)
  /\ List.length (parseErrors r) <= rawCount r.
Proof.
  unfold extractJsonLd. cbn [blocks rawCount parseErrors].
  split; [|split].
  - intros b Hb. apply extract_scripts_blocks in Hb.
    destruct Hb as [[]|(j & html & Hn & Hb)].
    apply in_map_iff in Hb as (o & <- & Ho). cbn [block_scriptIndex
      block_provenance block_json]. simpl.
    exists html. split; [assumption|]. split.
    + apply nth_error_Some. congruence.
    + split; [reflexivity|]. now apply script_objects_truthy with html.
  - apply run_sorted; [constructor|contradiction].
  - apply (run_errors_length scripts ([], []) 0).
Qed.

End ExtractorMore.

Lemma extractJsonLd_blocks_witness :
  Forall (fun b => is_object_like (block_json b) = true
                   /\ block_scriptIndex b < 2)
         (blocks (extractJsonLd parse_empty_object sha256_text
                    [js "{oops"; js " {} "] (js "https://example.com/")
                    (js "2024-05-01T10:00:00.000Z") true)).
Proof.
  apply Forall_forall. intros b Hb.
  destruct (proj1 (extractJsonLd_blocks parse_empty_object sha256_text
                     (js "https://example.com/")
                     (js "2024-05-01T10:00:00.000Z") true
                     [js "{oops"; js " {} "]) b Hb)
    as (html & _ & Hlt & _ & _ & Hobj).
  split; [now apply Hobj|exact Hlt].
Defined.

(* --------------------------------------------------------------------- *)
(** ** URL normalisation and the origin of the crawl                      *)
(* --------------------------------------------------------------------- *)

Lemma starts_with_refl (p : jsstring) : starts_with p p = true.
Proof.
  induction p as [|c p IH]; simpl; [reflexivity|].
  now rewrite N.eqb_refl.
Qed.

(** [normalizeUrl] is idempotent; it empties the fragment, keeps origin
    and path, and keeps exactly the search parameters whose name starts
    with none of the five prefixes.  The tests [key === p] and
    [key.startsWith("a_ajs_")] add nothing to the prefix test: a name such
    as [gclid_backup] is dropped as well. *)
Theorem normalizeUrl_normal (u : url) :
  normalizeUrl (normalizeUrl u) = normalizeUrl u
  /\ u_hash (normalizeUrl u) = []
  /\ u_origin (normalizeUrl u) = u_origin u
  /\ u_pathname (normalizeUrl u) = u_pathname u
  /\ (forall kv, In kv (u_searchParams (normalizeUrl u)) <->
                 In kv (u_searchParams u)
                 /\ is_tracking_key (fst kv) = false)
  /\ (forall key, is_tracking_key key = true <->
                  exists p, In p dropPrefixes /\ starts_with p key = true).
Proof.
  split; [apply normalizeUrl_idem|].
  split; [apply normalizeUrl_clean|].
  split; [apply normalizeUrl_origin|].
  split; [unfold normalizeUrl; cbv zeta; now destruct (existsb _ _)|].
  split; [|split].
  - intros kv. split.
    + intros H. split; [|now apply (proj2 (normalizeUrl_clean u))].
      unfold normalizeUrl in H. cbv zeta in H.
      destruct (existsb _ (u_searchParams u)); cbn [u_searchParams] in H;
        [now apply filter_In in H|assumption].
    + intros [H1 H2]. unfold normalizeUrl. cbv zeta.
      destruct (existsb _ (u_searchParams u)); cbn [u_searchParams];
        [|assumption].
      apply filter_In. split; [assumption|]. now rewrite H2.
  - unfold is_tracking_key. intros H. apply orb_true_iff in H as [H|H].
    + apply existsb_exists in H as (p & Hp & H). exists p.
      split; [assumption|]. apply orb_true_iff in H as [H|H];
        [|assumption].
      apply str_eqb_eq in H. subst key. apply starts_with_refl.
    + exists (js "a_ajs_"). split; [|assumption].
      unfold dropPrefixes. simpl. tauto.
  - intros (p & Hp & H). unfold is_tracking_key.
    apply orb_true_iff. left. apply existsb_exists. exists p.
    split; [assumption|]. now rewrite H, orb_true_r.
Qed.

Lemma reach_origin (cfg : settings)
      (site : url -> option (list (option url))) (baseUrl : url) (n : nat)
      (u : url) :
  reach cfg site (u_origin baseUrl) baseUrl n u ->
  u_origin u = u_origin baseUrl.
Proof. intros H. destruct H; [apply normalizeUrl_origin|assumption]. Qed.

(** The crawl never leaves the origin of its seed: every page it visits,
    and every URL it leaves in the queue, has the origin of [baseUrl],
    whatever the pages link to. *)
Theorem crawl_stays_on_origin (cfg : settings)
        (site : url -> option (list (option url))) (baseUrl : url)
        (fuel : nat) (final : frontier) :
  crawl_loop cfg site (u_origin baseUrl) fuel (crawl_start baseUrl)
  = Some final ->
  forall x, In x (visited final ++ q final) ->
            u_origin (fst x) = u_origin baseUrl.
Proof.
  intros Hloop x Hx.
  destruct (crawl_loop_inv cfg site (u_origin baseUrl) baseUrl fuel _ _
              (frontier_inv_start cfg site (u_origin baseUrl) baseUrl) Hloop)
    as [I _].
  destruct (inv_reach _ _ _ _ _ I x Hx) as (n & _ & Hr).
  exact (reach_origin cfg site baseUrl n (fst x) Hr).
Qed.

Lemma crawl_stays_on_origin_witness :
  exists final,
    crawl_loop narrow_settings stray_site chain_origin 10
               (crawl_start (chain_page 0)) = Some final
    /\ forall x, In x (visited final ++ q final) ->
                 u_origin (fst x) = chain_origin.
Proof.
  eexists. split; [vm_compute; reflexivity|].
  apply (crawl_stays_on_origin narrow_settings stray_site (chain_page 0) 10).
  vm_compute. reflexivity.
Defined.

(* --------------------------------------------------------------------- *)
(** ** The query of a normalised URL                                      *)
(* --------------------------------------------------------------------- *)

(** The query of a normalised URL is the one the URL was written with when
    no parameter has a tracking key; when one has, the remaining pairs are
    written again by the form serializer, which escapes what the URL
    parser leaves alone, and no pair left means no query.  So a link and
    the same link with a tracking parameter can come out as two URLs:
    [/p?q=a,b] stays as it is, [/p?q=a,b&utm_source=x] becomes
    [/p?q=a%2Cb], and a crawl of a page that links to both visits both. *)
Theorem normalizeUrl_query :
  (forall u,
      existsb (fun kv => is_tracking_key (fst kv)) (u_searchParams u) = false ->
      u_search (normalizeUrl u) = u_search u)
  /\ (forall u,
         existsb (fun kv => is_tracking_key (fst kv)) (u_searchParams u)
         = true ->
         u_search (normalizeUrl u)
         = updated_query
             (filter (fun kv => negb (is_tracking_key (fst kv)))
                     (u_searchParams u)))
  /\ updated_query [] = None
  /\ normalizeUrl query_page = query_page
  /\ u_search (normalizeUrl query_link) = Some (js "q=a%2Cb")
  /\ u_searchParams (normalizeUrl query_link) = u_searchParams query_page
  /\ (exists final,
         crawl_loop shallow_settings query_site chain_origin 10
                    (crawl_start (chain_page 0)) = Some final
         /\ map fst (visited final)
            = [chain_page 0; query_page; normalizeUrl query_link]).
Proof.
  split; [|split].
  - intros u H. unfold normalizeUrl. cbv zeta. now rewrite H.
  - intros u H. unfold normalizeUrl. cbv zeta. now rewrite H.
  - split; [reflexivity|]. split; [reflexivity|].
    split; [reflexivity|]. split; [reflexivity|].
    eexists. split; [vm_compute; reflexivity|reflexivity].
Qed.

(* --------------------------------------------------------------------- *)
(** ** Page handler: outcome and counters                                 *)
(* --------------------------------------------------------------------- *)

Section PageFacts.

Variable localeCompare : jsstring -> jsstring -> comparison.
Variable sha256_hex : jsstring -> jsstring.
Variable Number : json -> jsnum.
Variable number_json : Q -> json.

Local Abbreviation page :=
  (persist_page localeCompare sha256_hex Number number_json).

Lemma validation_gate_total (validateEnvelope : option validator)
      (envelope rm : members) (stats : siteStats) :
  get envelope k_report = Some (JObj rm) ->
  exists status envelope' stats',
    validation_gate validateEnvelope envelope stats
    = Some (status, envelope', stats')
    /\ (status = St_ok \/ status = St_needs_review)
    /\ (status = St_ok -> stats' = stats)
    /\ pages stats' = pages stats /\ capsules stats' = capsules stats
    /\ inferred stats' = inferred stats /\ errors stats' = errors stats
    /\ rejected stats' = rejected stats /\ inserted stats' = inserted stats.
Proof.
  intros Hr. unfold validation_gate.
  destruct validateEnvelope as [validate|].
  - destruct (validate envelope) as [[|] errs].
    + exists St_ok, envelope, stats. repeat split; auto.
    + unfold attach_schemaErrors. rewrite Hr.
      eexists St_needs_review, _, _. split; [reflexivity|].
      repeat split; auto. discriminate.
  - exists St_ok, envelope, stats. repeat split; auto.
Qed.

(** From the assembled envelope to the counters, the page handler fails
    only when the database rejects the statement.  A persisted page counts
    once as a page and as a capsule, and once as inserted or as rejected;
    its status is [ok] or [needs_review], never [error].  A failed page
    counts once as an error, and neither as a page, nor as a capsule, nor
    as inserted or rejected. *)
Theorem persist_page_accounting
        (cfg : settings) (validateEnvelope : option validator)
        (unique_fp reachable : bool) (table : list capsuleRow) (nodeId : N)
        (a : envelopeArgs) (stats : siteStats) :
  match page cfg validateEnvelope unique_fp reachable table nodeId a stats
  with
  | Persisted table' envelope' status stats' =>
      reachable = true
      /\ pages stats' = S (pages stats)
      /\ capsules stats' = S (capsules stats)
      /\ errors stats' = errors stats
      /\ inserted stats' + rejected stats'
         = S (inserted stats + rejected stats)
      /\ (status = St_ok \/ status = St_needs_review)
      /\ (status = St_ok -> schemaErrors stats' = schemaErrors stats)
      /\ (exists r, In r table' /\ row_node_id r = nodeId
                    /\ row_status r = status
                    /\ row_capsule_json r = envelope')
  | PageFailed stats' =>
      reachable = false
      /\ errors stats' = S (errors stats)
      /\ pages stats' = pages stats
      /\ capsules stats' = capsules stats
      /\ inserted stats' = inserted stats
      /\ rejected stats' = rejected stats
  end.
Proof.
  unfold persist_page.
  destruct (buildEnvelope_report cfg a) as (rm & Hrm).
  destruct (guard_envelope_report Number number_json _ _ Hrm)
    as (envelope & rm' & Hg & Hrm').
  rewrite Hg.
  destruct (validation_gate_total validateEnvelope envelope rm' stats Hrm')
    as (status & envelope' & stats' & Hgate & Hst & Hok & Hp & Hc & Hi & He
        & Hrej & Hins).
  rewrite Hgate. unfold insertCapsule. destruct reachable.
  - cbn [count_capsule pages capsules errors inserted rejected schemaErrors].
    split; [reflexivity|]. split; [now rewrite Hp|].
    split; [now rewrite Hc|]. split; [assumption|]. split.
    { rewrite Hrej, Hins. destruct status; lia. }
    split; [assumption|]. split.
    { intros E. now rewrite (Hok E). }
    eexists. split.
    + destruct unique_fp; [apply upsert_row_In|].
      apply in_or_app. right. now left.
    + now repeat split.
  - cbn [count_error pages capsules errors inserted rejected].
    repeat split; congruence.
Qed.

End PageFacts.

(* --------------------------------------------------------------------- *)
(** ** Capsule rows  (db.js)                                              *)
(* --------------------------------------------------------------------- *)

Lemma replace_first_absent (c : char) (by_ s : jsstring) :
  free_of c s = true -> replace_first c by_ s = s.
Proof.
  induction s as [|x s IH]; simpl; [reflexivity|].
  intros H. apply andb_prop in H as [H1 H2].
  apply negb_true_iff in H1. rewrite H1. now rewrite IH.
Qed.

Lemma replace_first_here (c : char) (by_ pre post : jsstring) :
  free_of c pre = true ->
  replace_first c by_ (pre ++ c :: post) = pre ++ by_ ++ post.
Proof.
  induction pre as [|x pre IH]; simpl.
  - now rewrite N.eqb_refl.
  - intros H. apply andb_prop in H as [H1 H2].
    apply negb_true_iff in H1. rewrite H1. now rewrite IH.
Qed.

Lemma before_first_here (c : char) (pre post : jsstring) :
  free_of c pre = true -> before_first c (pre ++ c :: post) = pre.
Proof.
  induction pre as [|x pre IH]; simpl.
  - now rewrite N.eqb_refl.
  - intros H. apply andb_prop in H as [H1 H2].
    apply negb_true_iff in H1. rewrite H1. now rewrite IH.
Qed.

Lemma before_first_absent (c : char) (s : jsstring) :
  free_of c s = true -> before_first c s = s.
Proof.
  induction s as [|x s IH]; simpl; [reflexivity|].
  intros H. apply andb_prop in H as [H1 H2].
  apply negb_true_iff in H1. rewrite H1. now rewrite IH.
Qed.

Lemma free_of_app (c : char) (a b : jsstring) :
  free_of c (a ++ b) = free_of c a && free_of c b.
Proof. apply forallb_app. Qed.

(** The timestamp [toISOString] gives, [date T time . fraction Z], is
    stored as [date time]: the [T] becomes a space, the fraction and the
    [Z] go.  The same holds when there is no fraction. *)
Theorem mysql_datetime_iso (date time fraction : jsstring) :
  free_of 84%N date = true -> free_of 90%N date = true ->
  free_of 46%N date = true ->
  free_of 90%N time = true -> free_of 46%N time = true ->
  free_of 90%N fraction = true ->
  mysql_datetime (date ++ js "T" ++ time ++ js "." ++ fraction ++ js "Z")
  = date ++ js " " ++ time
  /\ mysql_datetime (date ++ js "T" ++ time ++ js "Z")
     = date ++ js " " ++ time.
Proof.
  intros HdT HdZ Hdp HtZ Htp HfZ. unfold mysql_datetime.
  assert (Hsp : free_of 46%N (date ++ js " " ++ time) = true).
  { rewrite free_of_app, Hdp. simpl. exact Htp. }
  assert (HsZ : free_of 90%N (date ++ js " " ++ time) = true).
  { rewrite free_of_app, HdZ. simpl. exact HtZ. }
  split.
  - transitivity
      (before_first 46%N
         (replace_first 90%N []
            (date ++ js " " ++ time ++ js "." ++ fraction ++ js "Z"))).
    { do 2 f_equal.
      exact (replace_first_here 84%N (js " ") date
               (time ++ js "." ++ fraction ++ js "Z") HdT). }
    transitivity
      (before_first 46%N ((date ++ js " " ++ time) ++ js "." ++ fraction)).
    { f_equal.
      transitivity
        (replace_first 90%N []
           (((date ++ js " " ++ time) ++ js "." ++ fraction)
              ++ 90%N :: [])).
      { f_equal. now rewrite <- !app_assoc. }
      rewrite replace_first_here; [apply app_nil_r|].
      rewrite free_of_app, HsZ. simpl. exact HfZ. }
    exact (before_first_here 46%N (date ++ js " " ++ time) fraction Hsp).
  - transitivity
      (before_first 46%N
         (replace_first 90%N [] (date ++ js " " ++ time ++ js "Z"))).
    { do 2 f_equal.
      exact (replace_first_here 84%N (js " ") date (time ++ js "Z") HdT). }
    transitivity (before_first 46%N (date ++ js " " ++ time)).
    { f_equal.
      transitivity
        (replace_first 90%N [] ((date ++ js " " ++ time) ++ 90%N :: [])).
      { f_equal. now rewrite <- !app_assoc. }
      rewrite replace_first_here; [apply app_nil_r|exact HsZ]. }
    now apply before_first_absent.
Qed.

Lemma mysql_datetime_iso_witness :
  mysql_datetime (js "2024-05-01T10:00:00.123Z") = js "2024-05-01 10:00:00".
Proof.
  exact (proj1 (mysql_datetime_iso (js "2024-05-01") (js "10:00:00")
                  (js "123") eq_refl eq_refl eq_refl eq_refl eq_refl
                  eq_refl)).
Defined.

Lemma rows_of_match (r x : capsuleRow) :
  same_capsule r x
  = N.eqb (row_node_id x) (row_node_id r)
    && str_eqb (row_fingerprint x) (row_fingerprint r).
Proof.
  unfold same_capsule. now rewrite N.eqb_sym, str_eqb_sym.
Qed.

Lemma rows_of_upsert_same (r : capsuleRow) (table : list capsuleRow) :
  List.length (rows_of (row_node_id r) (row_fingerprint r) table) <= 1 ->
  rows_of (row_node_id r) (row_fingerprint r) (upsert_row r table) = [r].
Proof.
  unfold rows_of. induction table as [|x t IH]; simpl.
  - now rewrite N.eqb_refl, str_eqb_refl.
  - rewrite rows_of_match.
    destruct (N.eqb (row_node_id x) (row_node_id r)
              && str_eqb (row_fingerprint x) (row_fingerprint r)) eqn:E;
      simpl.
    + rewrite N.eqb_refl, str_eqb_refl. simpl. intros H.
      destruct (filter _ t); [reflexivity|simpl in H; lia].
    + rewrite E. exact IH.
Qed.

Lemma rows_of_upsert_other (r : capsuleRow) (table : list capsuleRow)
      (n : N) (f : jsstring) :
  N.eqb (row_node_id r) n && str_eqb (row_fingerprint r) f = false ->
  rows_of n f (upsert_row r table) = rows_of n f table.
Proof.
  intros Hne. unfold rows_of. induction table as [|x t IH]; simpl.
  - now rewrite Hne.
  - rewrite rows_of_match.
    destruct (N.eqb (row_node_id x) (row_node_id r)
              && str_eqb (row_fingerprint x) (row_fingerprint r)) eqn:E;
      simpl.
    + rewrite Hne. apply andb_prop in E as [E1 E2].
      apply N.eqb_eq in E1. apply str_eqb_eq in E2.
      rewrite E1, E2, Hne. reflexivity.
    + now rewrite IH.
Qed.

(** With the unique key on (node, fingerprint) that the statement's
    [ON DUPLICATE KEY UPDATE] relies on, a table with at most one row for
    the pair has exactly one afterwards, the one just written, and the
    rows of other pairs are untouched: a retried job overwrites.  Without
    that key every call adds a row. *)
Theorem insertCapsule_upsert
        (table : list capsuleRow) (node_id : N) (capsule_json : members)
        (fingerprint_ harvested_at : jsstring) (status : capsuleStatus) :
  let r := mkCapsuleRow node_id fingerprint_ capsule_json
             (mysql_datetime harvested_at) status in
  (List.length (rows_of node_id fingerprint_ table) <= 1 ->
   exists table',
     insertCapsule true true table node_id capsule_json fingerprint_
                   harvested_at status = Some table'
     /\ rows_of node_id fingerprint_ table' = [r]
     /\ forall n f,
          N.eqb node_id n && str_eqb fingerprint_ f = false ->
          rows_of n f table' = rows_of n f table)
  /\ (exists table',
        insertCapsule false true table node_id capsule_json fingerprint_
                      harvested_at status = Some table'
        /\ rows_of node_id fingerprint_ table'
           = rows_of node_id fingerprint_ table ++ [r])
  /\ (forall unique_fp,
        insertCapsule unique_fp false table node_id capsule_json
                      fingerprint_ harvested_at status = None).
Proof.
  intros r. split; [|split].
  - intros H. eexists. split; [reflexivity|]. split.
    + exact (rows_of_upsert_same r table H).
    + intros n f Hne. exact (rows_of_upsert_other r table n f Hne).
  - eexists. split; [reflexivity|].
    unfold rows_of. rewrite filter_app. simpl.
    now rewrite N.eqb_refl, str_eqb_refl.
  - reflexivity.
Qed.

Lemma insertCapsule_upsert_witness :
  exists table',
    insertCapsule true true
      [mkCapsuleRow 7%N (js "sha256:ab") [] (js "2024-05-01 10:00:00") St_ok]
      7%N [] (js "sha256:ab") (js "2024-05-02T11:30:00.000Z")
      St_needs_review = Some table'
    /\ rows_of 7%N (js "sha256:ab") table'
       = [mkCapsuleRow 7%N (js "sha256:ab") []
            (mysql_datetime (js "2024-05-02T11:30:00.000Z"))
            St_needs_review].
Proof.
  destruct (proj1 (insertCapsule_upsert
                     [mkCapsuleRow 7%N (js "sha256:ab") []
                        (js "2024-05-01 10:00:00") St_ok]
                     7%N [] (js "sha256:ab")
                     (js "2024-05-02T11:30:00.000Z") St_needs_review))
    as (table' & H1 & H2 & _).
  - simpl. lia.
  - exists table'. now split.
Defined.

(* --------------------------------------------------------------------- *)
(** ** The seed of the inferencer                                         *)
(* --------------------------------------------------------------------- *)

Lemma findIndex_Some {A : Type} (p : A -> bool) (l : list A) (i : nat) :
  findIndex p l = Some i ->
  exists x, nth_error l i = Some x /\ p x = true
            /\ forall j y, j < i -> nth_error l j = Some y -> p y = false.
Proof.
  revert i. induction l as [|a l IH]; intros i; simpl; [discriminate|].
  destruct (p a) eqn:Ea.
  - intros [= <-]. exists a. repeat split; auto. intros j y Hj. lia.
  - destruct (findIndex p l) as [n|]; [|discriminate].
    intros [= <-]. destruct (IH n eq_refl) as (x & Hx & Hp & Hlt).
    exists x. repeat split; auto.
    intros [|j] y Hj; simpl.
    + now intros [= <-].
    + apply Hlt. lia.
Qed.

Lemma findIndex_None {A : Type} (p : A -> bool) (l : list A) :
  findIndex p l = None -> forall y, In y l -> p y = false.
Proof.
  induction l as [|a l IH]; simpl; [contradiction|].
  destruct (p a) eqn:Ea; [discriminate|].
  destruct (findIndex p l); [discriminate|].
  intros _ y [<-|Hy]; auto.
Qed.

(** The seed handed to the inferencer is the first block whose [@type]
    mentions Product, whatever precedes it, and the first block when none
    does; it is never a falsy value.  An empty list gives the empty object
    and no index. *)
Theorem pickBestAssertedWithIndex_choice (assertedArray : list json) :
  let p := pickBestAssertedWithIndex assertedArray in
  (assertedArray = [] -> p = mkPick (JObj []) None JNull)
  /\ (assertedArray <> [] ->
      exists i x,
        pick_primaryIndex p = Some i
        /\ nth_error assertedArray i = Some x
        /\ pick_primary p = (if truthy x then x else JObj [])
        /\ (forall j y, j < i -> nth_error assertedArray j = Some y ->
                        isProduct y = false)
        /\ (isProduct x = false ->
            i = 0 /\ forall y, In y assertedArray -> isProduct y = false))
  /\ truthy (pick_primary p) = true
  /\ (pick_primaryType p = JNull \/ truthy (pick_primaryType p) = true)
  /\ (forall ms, pick_primary p = JObj ms ->
                 truthy (some_or JNull (get ms k_type)) = true ->
                 get ms k_type = Some (pick_primaryType p)).
Proof.
  intros p. split; [now intros ->|]. split.
  - intros Hne. destruct assertedArray as [|a l]; [congruence|].
    subst p. unfold pickBestAssertedWithIndex.
    destruct (findIndex isProduct (a :: l)) as [i|] eqn:E.
    + destruct (findIndex_Some _ _ _ E) as (x & Hx & Hp & Hlt).
      exists i, x. cbn [pick_primaryIndex pick_primary].
      split; [reflexivity|]. split; [assumption|]. split.
      { rewrite Hx. simpl. now destruct (truthy x). }
      split; [assumption|]. congruence.
    + exists 0, a. cbn [pick_primaryIndex pick_primary nth_error].
      split; [reflexivity|]. split; [reflexivity|]. split.
      { simpl. now destruct (truthy a). }
      split; [intros j y Hj; lia|].
      intros _. split; [reflexivity|]. now apply findIndex_None.
  - assert (Hor : forall o d, truthy d = true ->
                    truthy (some_or d (or_else o (Some d))) = true).
    { intros [v|] d Hd; simpl; [|assumption].
      destruct (truthy v) eqn:Ev; simpl; assumption. }
    assert (Hty : forall o,
               some_or JNull (or_else o (Some JNull)) = JNull
               \/ truthy (some_or JNull (or_else o (Some JNull))) = true).
    { intros [v|]; simpl; [|now left].
      destruct (truthy v) eqn:Ev; simpl; [now right|now left]. }
    subst p. unfold pickBestAssertedWithIndex.
    destruct assertedArray as [|a l].
    + cbn. split; [reflexivity|]. split; [now left|].
      intros ms [= <-]. discriminate.
    + cbn [pick_primary pick_primaryType]. split; [now apply Hor|].
      split; [apply Hty|].
      intros ms Hms. rewrite Hms. cbn [asObject].
      destruct (get ms k_type) as [v|]; simpl; [|discriminate].
      now intros ->.
Qed.

(* --------------------------------------------------------------------- *)
(** ** The primary asserted block                                         *)
(* --------------------------------------------------------------------- *)

Lemma score_from_serializations (i : nat) (blocks : list cleanedBlock) :
  map sc_s (score_from i blocks) = map block_serialization blocks.
Proof.
  revert i. induction blocks as [|b l IH]; intros i; simpl;
    [reflexivity|]. now rewrite IH.
Qed.

Lemma score_from_In (blocks : list cleanedBlock) :
  forall i e,
    In e (score_from i blocks) ->
    exists b, i <= sc_i e /\ nth_error blocks (sc_i e - i) = Some b
              /\ sc_s e = block_serialization b /\ sc_t e = block_type b.
Proof.
  induction blocks as [|b l IH]; intros i e; simpl; [contradiction|].
  intros [<-|H].
  - exists b. simpl. rewrite Nat.sub_diag. now repeat split.
  - destruct (IH (S i) e H) as (b' & Hle & Hn & Hs & Ht).
    exists b'. split; [lia|]. split; [|now split].
    replace (sc_i e - i) with (S (sc_i e - S i)) by lia. exact Hn.
Qed.

Lemma cleaned_type_of_serialization (b b' : cleanedBlock) :
  valid_numbers (cb_json b) = true -> valid_numbers (cb_json b') = true ->
  block_serialization b = block_serialization b' ->
  cleaned_type (block_type b) = cleaned_type (block_type b').
Proof.
  unfold block_serialization, block_type. intros V V' E.
  assert (Ej : match cb_json b with JNull => JObj [] | j => j end
               = match cb_json b' with JNull => JObj [] | j => j end).
  { apply stringify_inj; [| |exact E].
    - now destruct (cb_json b).
    - now destruct (cb_json b'). }
  destruct (cb_json b) as [| | | | |ms] eqn:Eb;
    destruct (cb_json b') as [| | | | |ms'] eqn:Eb';
    try discriminate; try reflexivity; try now inversion Ej.
Qed.

Lemma sorted_head_first {A : Type} (cmp : A -> A -> comparison)
      (dom l : list A) (x : A) (rest : list A) :
  total_on cmp dom -> incl l dom -> sort_by cmp l = x :: rest ->
  forall y, In y l -> cmp x y <> Gt.
Proof.
  intros Ht Hl E y Hy.
  pose proof (sort_by_sorted A cmp dom Ht l Hl) as Hs. rewrite E in Hs.
  apply StronglySorted_inv in Hs as [_ Hall]. rewrite Forall_forall in Hall.
  assert (Hin : In y (x :: rest)).
  { rewrite <- E. apply (Permutation_in y (Permutation_sym (sort_by_perm _ cmp l))).
    exact Hy. }
  destruct Hin as [<-|Hin]; [|now apply Hall].
  assert (Hx : In x dom).
  { apply Hl. apply (Permutation_in x (sort_by_perm _ cmp l)). rewrite E.
    now left. }
  rewrite (cmp_refl A cmp dom Ht x Hx). discriminate.
Qed.

(** The primary block is the one whose serialization the collation puts
    first, and the choice does not depend on the order of the blocks: when
    the collation is a total order on the serializations, any rearrangement
    of the blocks selects a block with the same JSON and reports the same
    type. *)
Theorem selectPrimaryIndexDeterministic_order_free
        (localeCompare : jsstring -> jsstring -> comparison)
        (blocks blocks' : list cleanedBlock) :
  total_onb localeCompare (map block_serialization blocks) = true ->
  forallb (fun b => valid_numbers (cb_json b)) blocks = true ->
  Permutation blocks blocks' ->
  blocks <> [] ->
  exists i i' b b',
    sel_index (selectPrimaryIndexDeterministic localeCompare blocks) = Some i
    /\ sel_index (selectPrimaryIndexDeterministic localeCompare blocks')
       = Some i'
    /\ nth_error blocks i = Some b
    /\ nth_error blocks' i' = Some b'
    /\ block_serialization b = block_serialization b'
    /\ (forall c, In c blocks ->
          localeCompare (block_serialization b) (block_serialization c)
          <> Gt)
    /\ sel_type (selectPrimaryIndexDeterministic localeCompare blocks)
       = sel_type (selectPrimaryIndexDeterministic localeCompare blocks').
Proof.
  intros Htb Hv Hp Hne.
  pose proof (total_onb_sound _ _ Htb) as Ht.
  assert (Hne' : blocks' <> []).
  { intros ->. apply Permutation_sym, Permutation_nil in Hp. contradiction. }
  set (cmp := fun a b : scored => localeCompare (sc_s a) (sc_s b)).
  assert (Hsort : forall l,
             map sc_s (sort_by cmp (score_from 0 l))
             = sort_by localeCompare (map block_serialization l)).
  { intros l. unfold cmp.
    rewrite (sort_by_map localeCompare sc_s (score_from 0 l)).
    now rewrite score_from_serializations. }
  assert (Heq : sort_by localeCompare (map block_serialization blocks)
                = sort_by localeCompare (map block_serialization blocks')).
  { apply (sort_by_permutation _ _ _ Ht).
    - intros z Hz. exact Hz.
    - now apply Permutation_map. }
  unfold selectPrimaryIndexDeterministic. fold cmp.
  destruct blocks as [|b0 l0] eqn:Eb; [congruence|]. rewrite <- Eb in *.
  destruct blocks' as [|b0' l0'] eqn:Eb'; [congruence|]. rewrite <- Eb' in *.
  destruct (sort_by cmp (score_from 0 blocks)) as [|p rest] eqn:Es.
  { pose proof (Permutation_length (sort_by_perm _ cmp (score_from 0 blocks)))
      as Hl. rewrite Es, Eb in Hl. discriminate. }
  destruct (sort_by cmp (score_from 0 blocks')) as [|p' rest'] eqn:Es'.
  { pose proof (Permutation_length (sort_by_perm _ cmp (score_from 0 blocks')))
      as Hl. rewrite Es', Eb' in Hl. discriminate. }
  assert (Hpp : sc_s p = sc_s p').
  { pose proof (Hsort blocks) as H1. pose proof (Hsort blocks') as H2.
    rewrite Es in H1. rewrite Es' in H2. rewrite Heq in H1.
    rewrite <- H2 in H1. simpl in H1. congruence. }
  assert (Hin : In p (score_from 0 blocks)).
  { apply (Permutation_in p (sort_by_perm _ cmp _)). rewrite Es. now left. }
  assert (Hin' : In p' (score_from 0 blocks')).
  { apply (Permutation_in p' (sort_by_perm _ cmp _)). rewrite Es'. now left. }
  destruct (score_from_In _ _ _ Hin) as (b & _ & Hn & Hs & Hty).
  destruct (score_from_In _ _ _ Hin') as (b' & _ & Hn' & Hs' & Hty').
  rewrite Nat.sub_0_r in Hn, Hn'.
  exists (sc_i p), (sc_i p'), b, b'. cbn [sel_index sel_type].
  split; [reflexivity|]. split; [reflexivity|].
  split; [assumption|]. split; [assumption|].
  assert (Hser : block_serialization b = block_serialization b')
    by congruence.
  split; [assumption|]. split.
  - intros c Hc. rewrite <- Hs.
    assert (Hhead : sort_by localeCompare (map block_serialization blocks)
                    = sc_s p :: map sc_s rest).
    { rewrite <- Hsort, Es. reflexivity. }
    apply (sorted_head_first localeCompare _ _ _ _ Ht
             (fun z Hz => Hz) Hhead).
    now apply in_map.
  - rewrite Hty, Hty'. rewrite forallb_forall in Hv.
    apply cleaned_type_of_serialization; [| |assumption].
    + apply Hv. now apply nth_error_In with (sc_i p).
    + apply Hv. apply (Permutation_in b' (Permutation_sym Hp)).
      now apply nth_error_In with (sc_i p').
Qed.

Lemma selectPrimaryIndexDeterministic_order_free_witness :
  sel_type (selectPrimaryIndexDeterministic example_localeCompare
              [primary_product; primary_organization])
  = sel_type (selectPrimaryIndexDeterministic example_localeCompare
                [primary_organization; primary_product]).
Proof.
  destruct (selectPrimaryIndexDeterministic_order_free example_localeCompare
              [primary_product; primary_organization]
              [primary_organization; primary_product])
    as (i & i' & b & b' & _ & _ & _ & _ & _ & _ & H).
  - vm_compute. reflexivity.
  - reflexivity.
  - apply perm_swap.
  - discriminate.
  - exact H.
Defined.

(* --------------------------------------------------------------------- *)
(** ** One capsule per JSON-LD block                                      *)
(* --------------------------------------------------------------------- *)

Lemma flat_map_nil {A B : Type} (f : A -> list B) (l : list A) :
  flat_map f l = [] <-> forall x, In x l -> f x = [].
Proof.
  induction l as [|a l IH]; simpl.
  - split; [contradiction|reflexivity].
  - split.
    + intros H. apply app_eq_nil in H as [Ha Hl].
      intros x [<-|Hx]; [assumption|]. now apply IH.
    + intros H. rewrite (H a (or_introl eq_refl)). simpl.
      apply IH. intros x Hx. apply H. now right.
Qed.

(** The first version of the extractor never returns an empty list: a page
    gives one capsule per top-level JSON-LD item in document order, all
    with the same source and capture date, and exactly one capsule, whose
    content is the error object, when no script yields an item (each is
    blank, unparsable or an empty array). *)
Theorem extractCapsules_never_empty
        (JSON_parse : jsstring -> option json)
        (scripts : list jsstring) (url now : jsstring) :
  let capsules := extractCapsules JSON_parse scripts url now in
  let ldBlocks := flat_map (ld_blocks_of JSON_parse) scripts in
  List.length capsules = Nat.max 1 (List.length ldBlocks)
  /\ Forall (fun c => get c k_type = Some (JStr (js "agentnet:Capsule"))
                      /\ get c (js "agentnet:source") = Some (JStr url)
                      /\ get c k_captureDate = Some (JStr now)) capsules
  /\ (ldBlocks <> [] ->
      map (fun c => get c k_content) capsules = map Some ldBlocks)
  /\ (map (fun c => get c k_content) capsules = [Some no_jsonld] <->
      In no_jsonld ldBlocks /\ List.length ldBlocks = 1
      \/ forall html, In html scripts ->
           trim html = []
           \/ JSON_parse (trim html) = None
           \/ JSON_parse (trim html) = Some (JArr [])).
Proof.
  intros capsules ldBlocks.
  assert (Hmap : forall l,
             map (fun c => get c k_content) (map (capsule_around url now) l)
             = map Some l).
  { intros l. rewrite map_map. apply map_ext. reflexivity. }
  assert (Hall : forall l,
             Forall (fun c =>
                       get c k_type = Some (JStr (js "agentnet:Capsule"))
                       /\ get c (js "agentnet:source") = Some (JStr url)
                       /\ get c k_captureDate = Some (JStr now))
                    (map (capsule_around url now) l)).
  { intros l. apply Forall_forall. intros c Hc.
    apply in_map_iff in Hc as (x & <- & _). now repeat split. }
  assert (Hnil : ldBlocks = [] <->
                 forall html, In html scripts ->
                   trim html = []
                   \/ JSON_parse (trim html) = None
                   \/ JSON_parse (trim html) = Some (JArr [])).
  { unfold ldBlocks. rewrite flat_map_nil. split.
    - intros H html Hin. specialize (H html Hin).
      unfold ld_blocks_of in H.
      destruct (trim html) as [|c r] eqn:Et; [now left|right].
      destruct (JSON_parse (c :: r)) as [[| | | |xs|]|];
        try discriminate; [right; now subst|now left].
    - intros H html Hin. unfold ld_blocks_of.
      destruct (H html Hin) as [E|[E|E]];
        destruct (trim html); try reflexivity; try discriminate;
        now rewrite E. }
  subst capsules. unfold extractCapsules. fold ldBlocks.
  destruct ldBlocks as [|b l] eqn:Eb.
  - split; [reflexivity|]. split; [apply (Hall [no_jsonld])|].
    split; [congruence|]. split.
    + intros _. right. now apply Hnil.
    + reflexivity.
  - rewrite <- Eb in *. split.
    { rewrite length_map, Eb. simpl. lia. }
    split; [apply Hall|]. split; [intros _; apply Hmap|].
    rewrite Hmap. split.
    + intros H. left. rewrite Eb in *. simpl in H.
      destruct l; [|discriminate]. injection H as ->.
      split; [now left|reflexivity].
    + intros [[Hin Hlen]|H].
      * rewrite Eb in *. destruct l; [|discriminate].
        destruct Hin as [->|[]]. reflexivity.
      * apply Hnil in H. rewrite Eb in H. discriminate.
Qed.

(* --------------------------------------------------------------------- *)
(** ** Snapshot names                                                     *)
(* --------------------------------------------------------------------- *)

Lemma replace_class_stem (s : jsstring) :
  forallb is_stem_char
    (replace_class (fun c => negb (N.eqb c 47))
       (replace_class is_base_char s)) = true.
Proof.
  induction s as [|c s IH]; simpl; [reflexivity|].
  rewrite IH, andb_true_r. unfold is_base_char, is_stem_char.
  destruct (is_lower c) eqn:E1; simpl.
  { destruct (N.eqb c 47) eqn:E; simpl; [reflexivity|now rewrite E1]. }
  destruct (is_upper c) eqn:E2; simpl.
  { destruct (N.eqb c 47) eqn:E; simpl; [reflexivity|now rewrite E1, E2]. }
  destruct (is_digit c) eqn:E3; simpl.
  { destruct (N.eqb c 47) eqn:E; simpl; [reflexivity|
      now rewrite E1, E2, E3]. }
  destruct (N.eqb c 47) eqn:E4; simpl.
  { rewrite E4. reflexivity. }
  destruct (N.eqb c 95) eqn:E5; simpl.
  { rewrite E4. simpl. rewrite E1, E2, E3, E5. reflexivity. }
  destruct (N.eqb c 45) eqn:E6; simpl.
  { rewrite E4. simpl. rewrite E1, E2, E3, E5, E6. reflexivity. }
  reflexivity.
Qed.

Lemma forallb_firstn {A : Type} (p : A -> bool) (n : nat) (l : list A) :
  forallb p l = true -> forallb p (firstn n l) = true.
Proof.
  revert l. induction n as [|n IH]; intros [|x l]; simpl; auto.
  intros H. apply andb_prop in H as [H1 H2]. rewrite H1. now apply IH.
Qed.

(** A snapshot name is a stem of at most 120 letters, digits, [_] and
    [-], then [__], the first 16 code units of the digest of the URL, then
    [.html]: it has at most 143 code units, and its stem holds no path
    separator and no dot, however long the URL and whatever it contains. *)
Theorem snapshotName_safe
        (URL_parts : jsstring -> option (jsstring * jsstring))
        (sha256_hex : jsstring -> jsstring) (url name : jsstring) :
  snapshotName URL_parts sha256_hex url = Some name ->
  exists stem,
    name = stem ++ js "__" ++ firstn 16 (sha256_hex url) ++ js ".html"
    /\ List.length stem <= 120
    /\ forallb is_stem_char stem = true
    /\ List.length name <= 143
    /\ (forall host pathname,
          URL_parts url = Some (host, pathname) ->
          List.length stem = Nat.min 120 (List.length (host ++ pathname))).
Proof.
  unfold snapshotName.
  destruct (URL_parts url) as [[host pathname]|]; [|discriminate].
  intros H.
  set (stem := firstn 120
                 (replace_class (fun c => negb (N.eqb c 47))
                    (replace_class is_base_char (host ++ pathname)))) in *.
  assert (E : name
              = stem ++ js "__" ++ firstn 16 (sha256_hex url) ++ js ".html")
    by congruence.
  clear H. exists stem. split; [exact E|].
  split; [apply firstn_le_length|].
  split; [apply forallb_firstn, replace_class_stem|].
  split.
  - rewrite E, !length_app.
    pose proof (firstn_le_length 120
      (replace_class (fun c => negb (N.eqb c 47))
         (replace_class is_base_char (host ++ pathname)))).
    pose proof (firstn_le_length 16 (sha256_hex url)).
    fold stem in H.
    change (List.length (js "__")) with 2.
    change (List.length (js ".html")) with 5. lia.
  - intros h p Hp. assert (Eh : host = h) by congruence.
    assert (Ep : pathname = p) by congruence. subst h p.
    unfold stem. rewrite length_firstn.
    unfold replace_class. now rewrite !length_map.
Qed.

Lemma snapshotName_safe_witness :
  exists stem,
    js "shop_example_p_blue_widget_html__44bf9b7199b2459e.html"
    = stem ++ js "__" ++ firstn 16 (sha256_text snapshot_url) ++ js ".html"
    /\ List.length stem <= 120
    /\ forallb is_stem_char stem = true.
Proof.
  destruct (snapshotName_safe example_URL_parts sha256_text snapshot_url
              (js "shop_example_p_blue_widget_html__44bf9b7199b2459e.html"))
    as (stem & E & H1 & H2 & _).
  - vm_compute. reflexivity.
  - exists stem. repeat split; assumption.
Defined.

(* --------------------------------------------------------------------- *)
(** ** SKU extraction                                                     *)
(* --------------------------------------------------------------------- *)

Lemma ci_eqb_length (a b : jsstring) :
  ci_eqb a b = true -> List.length a = List.length b.
Proof.
  unfold ci_eqb. intros H. apply str_eqb_eq in H.
  apply (f_equal (@List.length _)) in H. now rewrite !length_map in H.
Qed.

Lemma ci_eqb_app (a b c d : jsstring) :
  ci_eqb a c = true -> ci_eqb b d = true -> ci_eqb (a ++ b) (c ++ d) = true.
Proof.
  unfold ci_eqb. intros H1 H2. apply str_eqb_eq in H1, H2.
  rewrite !map_app, H1, H2. apply str_eqb_refl.
Qed.

Lemma drop_white_space_app (gap w : jsstring) :
  forallb is_white_space gap = true ->
  match w with c :: _ => is_white_space c = false | [] => True end ->
  drop_white_space (gap ++ w) = w.
Proof.
  intros Hg Hw. induction gap as [|c g IH]; simpl.
  - now apply drop_white_space_fixed.
  - simpl in Hg. apply andb_prop in Hg as [Hc Hg]. rewrite Hc. now apply IH.
Qed.

Lemma ci_eqb_N_head (w tail : jsstring) :
  ci_eqb w (78%N :: tail) = true ->
  match w with c :: _ => is_white_space c = false | [] => True end.
Proof.
  destruct w as [|c w]; [easy|]. unfold ci_eqb. simpl.
  intros H. apply andb_prop in H as [H _]. apply N.eqb_eq in H.
  change (upper_char 78%N) with 78%N in H.
  unfold upper_char in H. destruct (is_lower c) eqn:El.
  - assert (Hc : c = 110%N).
    { unfold is_lower in El. apply andb_prop in El as [E1 E2].
      apply N.leb_le in E1, E2. unfold char in *. lia. }
    now rewrite Hc.
  - now rewrite H.
Qed.

Lemma Lang_sku_marker (w : jsstring) :
  Lang re_sku_marker w -> sku_marker w = true.
Proof.
  unfold re_sku_marker, sku_marker. intros H.
  apply Lang_alt_inv in H. destruct H as [H|H].
  - apply Lang_lit_i in H. now rewrite H.
  - apply Lang_seq_inv in H. destruct H as (part & r & -> & Hpart & H).
    apply Lang_seq_inv in H. destruct H as (gap & tail & -> & Hgap & H).
    apply Lang_lit_i in Hpart.
    apply Lang_star_class in Hgap.
    pose proof (ci_eqb_length _ _ Hpart) as Hlen.
    change (List.length (js "Part")) with 4 in Hlen.
    assert (Hfirst : firstn 4 (part ++ gap ++ tail) = part).
    { rewrite <- Hlen, <- (Nat.add_0_r (List.length part)), firstn_app_2.
      simpl. apply app_nil_r. }
    assert (Hskip : skipn 4 (part ++ gap ++ tail) = gap ++ tail).
    { rewrite <- Hlen, skipn_app, Nat.sub_diag, skipn_all. reflexivity. }
    rewrite Hfirst, Hskip, Hpart. simpl.
    assert (Htail : ci_eqb tail (js "No") = true
                    \/ ci_eqb tail (js "No.") = true
                    \/ ci_eqb tail (js "Number") = true).
    { apply Lang_alt_inv in H. destruct H as [H|H].
      - apply Lang_seq_inv in H. destruct H as (no & dot & -> & Hno & Hdot).
        apply Lang_lit_i in Hno.
        apply Lang_alt_inv in Hdot. destruct Hdot as [Hdot|Hdot].
        + apply Lang_char_inv in Hdot. destruct Hdot as (c & -> & Hc).
          apply N.eqb_eq in Hc. subst c. right; left.
          apply (ci_eqb_app no [46%N] (js "No") [46%N]); auto.
        + apply Lang_empty_inv in Hdot. subst dot. rewrite app_nil_r.
          now left.
      - apply Lang_lit_i in H. right; now right. }
    assert (Hhead : match tail with
                    | c :: _ => is_white_space c = false
                    | [] => True
                    end).
    { destruct Htail as [Ht|[Ht|Ht]]; exact (ci_eqb_N_head _ _ Ht). }
    rewrite (drop_white_space_app gap tail Hgap Hhead).
    destruct Htail as [Ht|[Ht|Ht]]; rewrite Ht;
      now rewrite ?orb_true_r.
Qed.

(** What [extractSKU] returns stands in the text right after a marker
    ([SKU], [Part No], [Part No.] or [Part Number], in any letter case), at
    most one [:] or [#] and any white space; it has at least three code
    units, all of them letters, digits, [-], [_] or [/]. *)
Theorem extractSKU_shape (text sku : jsstring) :
  extractSKU text = Some sku ->
  exists pre marker sep gap post,
    text = pre ++ marker ++ sep ++ gap ++ sku ++ post
    /\ sku_marker marker = true
    /\ forallb is_sku_sep sep = true /\ List.length sep <= 1
    /\ forallb is_white_space gap = true
    /\ 3 <= List.length sku
    /\ forallb is_sku_char sku = true.
Proof.
  unfold extractSKU, exec.
  destruct (exec_from re_sku None text) as [m|] eqn:E; [|discriminate].
  intros Hcap.
  apply exec_from_sound in E. destruct E as (pre & suf & prev' & -> & H).
  unfold re_sku in H.
  apply Matches_seq_inv in H. destruct H as (s1 & H1 & H).
  apply Matches_wordb_inv in H1. subst s1.
  apply Matches_seq_inv in H. destruct H as (s2 & H2 & H).
  apply Matches_seq_inv in H. destruct H as (s3 & H3 & H).
  apply Matches_seq_inv in H. destruct H as (s4 & H4 & H).
  apply Matches_seq_inv in H. destruct H as (g5 & H5 & H6).
  apply Matches_wordb_inv in H6. subst m.
  apply Matches_group_inv in H5. destruct H5 as (s5 & H5 & ->).
  simpl in Hcap. injection Hcap as Hcap.
  apply Matches_lang in H2. destruct H2 as (marker & E2 & L2 & _).
  apply Matches_lang in H3. destruct H3 as (sep & E3 & L3 & _).
  apply Matches_lang in H4. destruct H4 as (gap & E4 & L4 & _).
  apply Matches_lang in H5. destruct H5 as (w & E5 & L5 & C5).
  rewrite C5 in Hcap. clear C5. subst w.
  simpl in E2. rewrite E3, E4, E5 in E2.
  exists pre, marker, sep, gap, (ms_rest s5).
  split; [now rewrite E2|].
  split; [now apply Lang_sku_marker|].
  split; [now apply Lang_opt_class|].
  split.
  { apply Lang_alt_inv in L3. destruct L3 as [L3|L3].
    - apply Lang_char_inv in L3. destruct L3 as (c & -> & _). simpl. lia.
    - apply Lang_empty_inv in L3. subst. simpl. lia. }
  split; [now apply Lang_star_class|].
  split.
  - apply Lang_seq_inv in L5. destruct L5 as (a & r & -> & La & L5).
    apply Lang_seq_inv in L5. destruct L5 as (b & r' & -> & Lb & L5).
    apply Lang_seq_inv in L5. destruct L5 as (c & r'' & -> & Lc & _).
    apply Lang_char_inv in La. destruct La as (x & -> & _).
    apply Lang_char_inv in Lb. destruct Lb as (y & -> & _).
    apply Lang_char_inv in Lc. destruct Lc as (z & -> & _).
    simpl. lia.
  - apply (Lang_classes is_sku_char) in L5; [assumption|].
    simpl. repeat split; auto.
Qed.

Lemma extractSKU_shape_witness :
  exists pre marker sep gap post,
    js "Model X. Part No. AB-123/9 in stock"
    = pre ++ marker ++ sep ++ gap ++ js "AB-123/9" ++ post
    /\ sku_marker marker = true.
Proof.
  destruct (extractSKU_shape (js "Model X. Part No. AB-123/9 in stock")
                             (js "AB-123/9"))
    as (pre & marker & sep & gap & post & E & Hm & _).
  - vm_compute. reflexivity.
  - exists pre, marker, sep, gap, post. now split.
Defined.

(* --------------------------------------------------------------------- *)
(** ** The currency of an extracted price                                 *)
(* --------------------------------------------------------------------- *)

(** The captures of a match of [priceRe]: a symbol and an amount in groups
    1 and 2, or a code and an amount in groups 3 and 4. *)
Lemma price_match_captures (s0 m : mstate) :
  Matches priceRe s0 m -> ms_caps s0 = [] ->
  exists lead marker gap amount,
    ms_rest s0 = lead ++ marker ++ gap ++ amount ++ ms_rest m
    /\ amount_shape amount = true
    /\ ((ms_caps m = [(2, amount); (1, marker)] /\ Lang re_symbol marker)
        \/ (ms_caps m = [(4, amount); (3, marker)]
            /\ existsb (ci_eqb marker) isoCodes = true)).
Proof.
  intros H Hcaps. unfold priceRe in H.
  apply Matches_alt_inv in H. destruct H as [H|H].
  - unfold re_price_symbol in H.
    apply Matches_seq_inv in H. destruct H as (s1 & H1 & H).
    apply Matches_seq_inv in H. destruct H as (s2 & H2 & H).
    apply Matches_seq_inv in H. destruct H as (g3 & H3 & H).
    apply Matches_seq_inv in H. destruct H as (s4 & H4 & H).
    apply Matches_seq_inv in H. destruct H as (g5 & H5 & H6).
    apply Matches_wordb_inv in H6. subst m.
    apply Matches_group_inv in H3. destruct H3 as (s3 & H3 & ->).
    apply Matches_group_inv in H5. destruct H5 as (s5 & H5 & ->).
    pose proof (Matches_groupless _ _ _ H1 eq_refl) as C1.
    pose proof (Matches_groupless _ _ _ H2 eq_refl) as C2.
    pose proof (Matches_groupless _ _ _ H3 eq_refl) as C3.
    pose proof (Matches_groupless _ _ _ H4 eq_refl) as C4.
    pose proof (Matches_groupless _ _ _ H5 eq_refl) as C5.
    apply Matches_lang in H1. destruct H1 as (w1 & R1 & _ & _).
    apply Matches_lang in H2. destruct H2 as (w2 & R2 & _ & _).
    apply Matches_lang in H3. destruct H3 as (w3 & R3 & L3 & K3).
    apply Matches_lang in H4. destruct H4 as (w4 & R4 & L4 & _).
    apply Matches_lang in H5. destruct H5 as (w5 & R5 & L5 & K5).
    simpl in *.
    exists (w1 ++ w2), w3, w4, w5. split; [|split].
    + rewrite R1, R2, R3, R4, R5. now rewrite <- !app_assoc.
    + now apply Lang_amount.
    + left. split; [|assumption].
      rewrite K5, C5, C4. simpl. rewrite K3, C3, C2, C1, Hcaps.
      reflexivity.
  - unfold re_price_code in H.
    apply Matches_seq_inv in H. destruct H as (s3 & H1 & H).
    apply Matches_seq_inv in H1. destruct H1 as (s1 & H1 & H2).
    apply Matches_wordb_inv in H1. subst s1.
    apply Matches_seq_inv in H2. destruct H2 as (g2 & H2 & H3).
    apply Matches_wordb_inv in H3. subst s3.
    apply Matches_group_inv in H2. destruct H2 as (s2 & H2 & ->).
    apply Matches_seq_inv in H. destruct H as (s4 & H4 & H).
    apply Matches_seq_inv in H. destruct H as (g5 & H5 & H6).
    apply Matches_wordb_inv in H6. subst m.
    apply Matches_group_inv in H5. destruct H5 as (s5 & H5 & ->).
    pose proof (Matches_groupless _ _ _ H2 eq_refl) as C2.
    pose proof (Matches_groupless _ _ _ H4 eq_refl) as C4.
    pose proof (Matches_groupless _ _ _ H5 eq_refl) as C5.
    apply Matches_lang in H2. destruct H2 as (w2 & R2 & L2 & K2).
    apply Matches_lang in H4. destruct H4 as (w4 & R4 & L4 & _).
    apply Matches_lang in H5. destruct H5 as (w5 & R5 & L5 & K5).
    simpl in *.
    exists [], w2, w4, w5. split; [|split].
    + rewrite R2, R4, R5. reflexivity.
    + now apply Lang_amount.
    + right. split; [|now apply Lang_codes].
      rewrite K5, C5, C4. simpl. rewrite K2, C2, Hcaps. reflexivity.
Qed.

Lemma toUSDLikeCurrency_code (sym : option jsstring) (c : jsstring) :
  toUSDLikeCurrency sym = Some c -> In c isoCodes.
Proof.
  unfold toUSDLikeCurrency. destruct sym as [s|]; [|discriminate].
  repeat match goal with
         | |- context [if ?b then _ else _] => destruct b
         end;
    intros [= <-]; simpl; tauto.
Qed.

Lemma ci_eqb_refl (w : jsstring) : ci_eqb w w = true.
Proof. unfold ci_eqb. apply str_eqb_refl. Qed.

Section CurrencyFacts.

Variable Number_of_string : jsstring -> jsnum.
Variable toFixed2 : Q -> jsstring.

Local Abbreviation extract := (extractPrice Number_of_string toFixed2).

(** The currency of an extracted price is one of USD, EUR, GBP, JPY, CAD
    and AUD up to letter case: the upper-case code when a symbol stands
    before the amount, and the code as the text writes it, which need not
    be upper case, when the text gives the code and no symbol. *)
Theorem extractPrice_currency (text : jsstring) (r : priceMatch) :
  extract text = Some r ->
  existsb (ci_eqb (pm_priceCurrency r)) isoCodes = true
  /\ (In (pm_priceCurrency r) isoCodes
      \/ includes text (pm_priceCurrency r) = true).
Proof.
  unfold extractPrice.
  destruct (exec priceRe text) as [m|] eqn:E; [|discriminate].
  unfold exec in E. apply exec_from_sound in E.
  destruct E as (pre & suf & prev & -> & Hm).
  apply price_match_captures in Hm; [|reflexivity].
  destruct Hm as (lead & marker & gap & amount & Hrest & Hamt & Hcaps).
  simpl in Hrest. cbv zeta.
  assert (Hne : exists c w, amount = c :: w).
  { unfold amount_shape in Hamt. destruct amount; [discriminate|].
    now eexists; eexists. }
  destruct Hne as (c0 & w0 & ->).
  destruct Hcaps as [[-> Hsym]|[-> Hcode]]; cbn [capture Nat.eqb nonempty
                                                  first_some].
  - destruct (Number_of_string _) as [| |q]; try discriminate.
    destruct (toUSDLikeCurrency _) as [cur|] eqn:Ec;
      [|discriminate].
    intros [= <-]. cbn [pm_priceCurrency].
    apply toUSDLikeCurrency_code in Ec. split; [|now left].
    apply existsb_exists. exists cur. split; [assumption|].
    apply ci_eqb_refl.
  - destruct (Number_of_string _) as [| |q]; try discriminate.
    assert (Hm : exists c w, marker = c :: w).
    { destruct marker; [discriminate|]. now eexists; eexists. }
    destruct Hm as (c1 & w1 & ->). cbn [nonempty first_some].
    intros [= <-]. cbn [pm_priceCurrency]. split; [exact Hcode|].
    right. rewrite Hrest, (app_assoc pre lead).
    exact (includes_app (pre ++ lead) (c1 :: w1) _).
Qed.

End CurrencyFacts.

(** A code in lower case is returned as written. *)
Lemma extractPrice_currency_witness :
  existsb (ci_eqb (js "usd")) isoCodes = true
  /\ (In (js "usd") isoCodes
      \/ includes (js "price: usd 20") (js "usd") = true).
Proof.
  apply (extractPrice_currency example_Number_of_string example_toFixed2
           (js "price: usd 20") (mkPriceMatch (js "20.00") (js "usd"))).
  vm_compute. reflexivity.
Defined.

(* --------------------------------------------------------------------- *)
(** ** The canonical form is stable                                       *)
(* --------------------------------------------------------------------- *)

Lemma sort_by_fixed {A : Type} (cmp : A -> A -> comparison) (l : list A) :
  StronglySorted (not_after cmp) l -> sort_by cmp l = l.
Proof.
  induction l as [|x t IH]; intros H; [reflexivity|].
  apply StronglySorted_inv in H as [Ht Hx]. simpl. rewrite (IH Ht).
  destruct t as [|y t']; [reflexivity|]. simpl.
  apply Forall_inv in Hx. unfold not_after in Hx.
  destruct (cmp x y); try reflexivity. congruence.
Qed.

Lemma strongly_sorted_map {A B : Type} (R : B -> B -> Prop) (f : A -> B)
      (l : list A) :
  StronglySorted R (map f l) ->
  StronglySorted (fun a b => R (f a) (f b)) l.
Proof.
  induction l as [|x t IH]; simpl; intros H; [constructor|].
  apply StronglySorted_inv in H as [Ht Hx].
  constructor; [now apply IH|].
  rewrite Forall_forall in *. intros y Hy. apply Hx. now apply in_map.
Qed.

Lemma keys_insert_index (i : N) (k : jsstring) (v : json) (ms : members) :
  Permutation (keys (insert_index i k v ms)) (k :: keys ms).
Proof.
  induction ms as [|[k0 v0] ms IH]; simpl; [reflexivity|].
  destruct (array_index k0) as [j|]; [|reflexivity].
  destruct (j <? i)%N; [|reflexivity].
  change (keys ((k0, v0) :: insert_index i k v ms))
    with (k0 :: keys (insert_index i k v ms)).
  rewrite IH. apply perm_swap.
Qed.

Lemma strongly_sorted_filter {A : Type} (R : A -> A -> Prop)
      (f : A -> bool) (l : list A) :
  StronglySorted R l -> StronglySorted R (filter f l).
Proof.
  induction l as [|x t IH]; simpl; intros H; [constructor|].
  apply StronglySorted_inv in H as [Ht Hx].
  destruct (f x); [|now apply IH].
  constructor; [now apply IH|].
  rewrite Forall_forall in *. intros y Hy. apply Hx.
  now apply filter_In in Hy as [Hy _].
Qed.

Lemma keys_set_prop_new (ms : members) (k : jsstring) (v : json) :
  str_eqb k k_proto = false -> has ms k = false ->
  Permutation (keys (set_prop ms k v)) (k :: keys ms).
Proof.
  intros Hp H. rewrite set_prop_plain by assumption.
  unfold define_prop. rewrite H.
  destruct (array_index k) as [i|]; [apply keys_insert_index|].
  unfold keys. rewrite map_app. simpl.
  apply Permutation_sym, Permutation_cons_append.
Qed.

Lemma Forall_set_prop (P : jsstring * json -> Prop) (ms : members)
      (k : jsstring) (v : json) :
  Forall P ms -> P (k, v) -> Forall P (set_prop ms k v).
Proof.
  intros Hms Hkv. unfold set_prop, define_prop.
  destruct (str_eqb k k_proto && negb (has ms k)); [assumption|].
  destruct (has ms k).
  - induction ms as [|[k0 v0] ms IH]; simpl; [constructor|].
    apply Forall_cons_iff in Hms as [H0 Hms].
    destruct (str_eqb k k0) eqn:E.
    + apply str_eqb_eq in E. subst k0. now constructor.
    + constructor; [assumption|now apply IH].
  - destruct (array_index k) as [i|].
    + induction ms as [|[k0 v0] ms IH]; simpl; [now constructor|].
      pose proof Hms as Hall.
      apply Forall_cons_iff in Hms as [H0 Hms].
      destruct (array_index k0) as [j|]; [|now constructor].
      destruct (j <? i)%N; [|now constructor].
      constructor; [assumption|now apply IH].
    + apply Forall_app. split; [assumption|now constructor].
Qed.

Section RebuildFacts.

Variable M : members.

Local Abbreviation step :=
  (fun (acc : members) (k : jsstring) =>
     match get M k with
     | Some v => set_prop acc k v
     | None => acc
     end).

(** An assignment to [__proto__] leaves the accumulator as it is. *)
Lemma fold_step_assignable (ks : list jsstring) :
  forall acc,
    has acc k_proto = false ->
    fold_left step ks acc = fold_left step (filter assignable ks) acc.
Proof.
  induction ks as [|k ks IH]; intros acc Hacc; [reflexivity|].
  cbn [fold_left filter]. unfold assignable at 1.
  destruct (str_eqb k k_proto) eqn:E; cbn [negb].
  - apply str_eqb_eq in E. subst k.
    destruct (get M k_proto); [rewrite set_prop_proto by assumption|];
      now apply IH.
  - cbn [fold_left]. apply IH.
    destruct (get M k); [|assumption].
    apply str_eqb_neq in E. rewrite has_set_prop_other; auto.
Qed.

Lemma fold_step_keys (ks : list jsstring) :
  forall acc,
    NoDup (ks ++ keys acc) -> (forall k, In k ks -> In k (keys M)) ->
    forallb assignable ks = true ->
    Permutation (keys (fold_left step ks acc)) (ks ++ keys acc).
Proof.
  induction ks as [|k ks IH]; intros acc Hnd Hin Hks; [reflexivity|].
  cbn [fold_left]. simpl in Hnd. inversion Hnd as [|? ? Hk Hnd']; subst.
  cbn [forallb] in Hks. apply andb_prop in Hks as [Hkp Hks].
  apply negb_true_iff in Hkp.
  destruct (get M k) as [v|] eqn:Hg.
  2:{ apply get_None_keys in Hg. exfalso. apply Hg, Hin. now left. }
  assert (Hhas : has acc k = false).
  { unfold has. destruct (get acc k) eqn:E; [|reflexivity].
    exfalso. apply Hk. apply in_or_app. right.
    destruct (in_dec (list_eq_dec N.eq_dec) k (keys acc)) as [Hi|Hn];
      [assumption|].
    apply get_None_keys in Hn. congruence. }
  pose proof (keys_set_prop_new acc k v Hkp Hhas) as Hp.
  rewrite IH.
  - rewrite Hp. simpl. apply Permutation_sym, Permutation_middle.
  - apply (Permutation_NoDup (l := k :: ks ++ keys acc)); [|assumption].
    rewrite Hp. apply Permutation_middle.
  - intros k' Hk'. apply Hin. now right.
  - assumption.
Qed.

Lemma fold_step_get_out (ks : list jsstring) (k : jsstring) :
  forall acc, ~ In k ks -> get (fold_left step ks acc) k = get acc k.
Proof.
  induction ks as [|a ks IH]; intros acc Hn; [reflexivity|].
  cbn [fold_left]. rewrite IH by (intros H; apply Hn; now right).
  destruct (get M a); [|reflexivity].
  apply get_set_prop_other. intros ->. apply Hn. now left.
Qed.

Lemma fold_step_get_in (ks : list jsstring) (k : jsstring) :
  forall acc, In k ks -> (forall k, In k ks -> In k (keys M)) ->
              forallb assignable ks = true ->
              get (fold_left step ks acc) k = get M k.
Proof.
  induction ks as [|a ks IH]; intros acc Hin Hall Hks; [contradiction|].
  cbn [fold_left]. cbn [forallb] in Hks.
  apply andb_prop in Hks as [Hkp Hks]. apply negb_true_iff in Hkp.
  destruct (in_dec (list_eq_dec N.eq_dec) k ks) as [Hi|Hn].
  - apply IH; [assumption| |assumption].
    intros k' Hk'. apply Hall. now right.
  - rewrite fold_step_get_out by assumption.
    destruct Hin as [->|Hin]; [|contradiction].
    destruct (get M k) as [v|] eqn:Hg.
    + now apply get_set_prop_same.
    + apply get_None_keys in Hg. exfalso. apply Hg, Hall. now left.
Qed.

Lemma fold_step_values (P : jsstring * json -> Prop) (ks : list jsstring) :
  (forall k v, get M k = Some v -> P (k, v)) ->
  forall acc, Forall P acc -> Forall P (fold_left step ks acc).
Proof.
  intros HP. induction ks as [|k ks IH]; intros acc Hacc; [assumption|].
  cbn [fold_left]. apply IH.
  destruct (get M k) as [v|] eqn:Hg; [|assumption].
  apply Forall_set_prop; [assumption|now apply HP].
Qed.

End RebuildFacts.

Lemma fold_left_ext_in {A B : Type} (f g : A -> B -> A) (l : list B) :
  (forall a b, In b l -> f a b = g a b) ->
  forall a, fold_left f l a = fold_left g l a.
Proof.
  induction l as [|b l IH]; intros H a; [reflexivity|].
  simpl. rewrite (H a b (or_introl eq_refl)). apply IH.
  intros a' b' Hb'. apply H. now right.
Qed.

(** Rebuilding a rebuilt object changes nothing. *)
Lemma rebuild_sorted_idem (M : members) :
  distinct (keys M) = true ->
  rebuild_sorted (rebuild_sorted M) = rebuild_sorted M.
Proof.
  intros Hd. apply distinct_NoDup in Hd.
  set (ks := filter assignable (sort_by str_compare (keys M))).
  assert (Hperm : Permutation (sort_by str_compare (keys M)) (keys M))
    by apply sort_by_perm.
  assert (Hnd : NoDup ks).
  { apply NoDup_filter.
    apply (Permutation_NoDup (Permutation_sym Hperm)); assumption. }
  assert (Hin : forall k, In k ks -> In k (keys M)).
  { intros k Hk. apply filter_In in Hk as [Hk _].
    now apply (Permutation_in k Hperm). }
  assert (Hks : forallb assignable ks = true).
  { apply forallb_forall. intros k Hk. now apply filter_In in Hk as [_ Hk]. }
  assert (HM : rebuild_sorted M
               = fold_left (fun acc k => match get M k with
                                         | Some v => set_prop acc k v
                                         | None => acc
                                         end) ks []).
  { unfold rebuild_sorted. now apply fold_step_assignable. }
  assert (Hkeys : Permutation (keys (rebuild_sorted M)) ks).
  { rewrite HM, (fold_step_keys M ks []); simpl; rewrite ?app_nil_r;
      auto. }
  assert (Hsorted : sort_by str_compare ks = ks).
  { apply sort_by_fixed. apply strongly_sorted_filter.
    apply (sort_by_sorted _ str_compare (keys M)
             (str_compare_total (keys M))).
    intros z Hz. exact Hz. }
  unfold rebuild_sorted at 1.
  rewrite (sort_keys_permutation _ _ Hkeys), Hsorted, HM.
  apply fold_left_ext_in. intros acc k Hk.
  now rewrite (fold_step_get_in M ks k [] Hk Hin Hks).
Qed.

Section CanonIdem.

Variable localeCompare : jsstring -> jsstring -> comparison.

Local Abbreviation canon := (stableSortJsonLd localeCompare).

(** Canonicalising a canonical form returns it unchanged: on a tree whose
    objects have distinct keys and whose arrays the collation orders
    totally, [stableSortJsonLd] is idempotent. *)
Theorem stableSortJsonLd_idempotent (v : json) :
  sortable localeCompare v = true -> distinct_keys v = true ->
  canon (canon v) = canon v.
Proof.
  induction v as [|b|lit|s|xs IH|ms IH] using json_induction;
    intros Hs Hd; try reflexivity.
  - simpl in Hs, Hd. apply andb_prop in Hs as [Hs Ht].
    apply total_onb_sound in Ht.
    rewrite Forall_forall in IH. rewrite forallb_forall in Hs, Hd.
    set (L := sort_by (by_serialization localeCompare) (map canon xs)).
    change (canon (JArr xs)) with (JArr L).
    change (canon (JArr L))
      with (JArr (sort_by (by_serialization localeCompare) (map canon L))).
    f_equal.
    assert (Hfix : map canon L = L).
    { rewrite <- (map_id L) at 2. apply map_ext_in. intros y Hy.
      apply (Permutation_in y (sort_by_perm _ _ _)) in Hy.
      apply in_map_iff in Hy as (x & <- & Hx). apply IH; auto. }
    rewrite Hfix. apply sort_by_fixed.
    apply (strongly_sorted_map (not_after localeCompare) stringify).
    unfold L, by_serialization.
    rewrite (sort_by_map localeCompare stringify), map_map.
    apply (sort_by_sorted _ _ _ Ht). intros z Hz. exact Hz.
  - cbn [sortable distinct_keys] in Hs, Hd.
    apply andb_prop in Hd as [Hk Hd].
    rewrite Forall_forall in IH. rewrite forallb_forall in Hs, Hd.
    set (M := map (fun kv : jsstring * json => (fst kv, canon (snd kv))) ms).
    change (canon (JObj ms)) with (JObj (rebuild_sorted M)).
    change (canon (JObj (rebuild_sorted M)))
      with (JObj (rebuild_sorted
                    (map (fun kv : jsstring * json =>
                            (fst kv, canon (snd kv)))
                         (rebuild_sorted M)))).
    f_equal.
    assert (HkM : keys M = keys ms).
    { unfold M, keys. rewrite map_map. reflexivity. }
    assert (Hvals : Forall (fun kv => canon (snd kv) = snd kv)
                           (rebuild_sorted M)).
    { unfold rebuild_sorted. apply fold_step_values; [|constructor].
      intros k w Hg. apply get_Some_In in Hg. unfold M in Hg.
      apply in_map_iff in Hg as ([k0 x] & [= <- <-] & Hx). simpl.
      apply (IH (k0, x) Hx); [apply (Hs _ Hx)|apply (Hd _ Hx)]. }
    assert (Hfix : map (fun kv : jsstring * json => (fst kv, canon (snd kv)))
                       (rebuild_sorted M) = rebuild_sorted M).
    { rewrite <- (map_id (rebuild_sorted M)) at 2. apply map_ext_in.
      intros [k w] Hin. rewrite Forall_forall in Hvals.
      simpl. f_equal. exact (Hvals _ Hin). }
    rewrite Hfix. apply rebuild_sorted_idem. now rewrite HkM.
Qed.

End CanonIdem.

Lemma stableSortJsonLd_idempotent_witness :
  stableSortJsonLd example_localeCompare
    (stableSortJsonLd example_localeCompare unsorted_tree)
  = stableSortJsonLd example_localeCompare unsorted_tree.
Proof.
  apply stableSortJsonLd_idempotent; vm_compute; reflexivity.
Defined.

(* --------------------------------------------------------------------- *)
(** ** Job handler: the successful run                                    *)
(* --------------------------------------------------------------------- *)

Lemma job_catch_rejects (w : jobWorld) (url e : jsstring) (meta : runMeta)
      (trace : list jobEvent) :
  exists msg, snd (job_catch w url meta trace e) = Rejected msg.
Proof.
  unfold job_catch. destruct (w_close_in_catch w); [|now eexists].
  destruct (w_appendLog w); now eexists.
Qed.

(** The handler resolves exactly when the launch, the context, the node
    upsert, the crawl, the closing of the browser and the final manifest
    write all succeed; page errors collected by the crawl do not matter.
    It then returns the run id and the manifest path it was given, after
    exactly one manifest write, of a finished manifest that carries the
    crawl's statistics, receipts and page errors and no fatal entry of the
    handler's own. *)
Theorem job_handler_resolves (w : jobWorld)
        (runId manifestPath url : jsstring) :
  let run := job_handler w runId manifestPath url in
  ((exists r m, snd run = Returned r m) <->
   succeeded (w_launch w) && succeeded (w_newContext w)
   && succeeded (w_upsertNode w) && succeeded (cr_result (w_crawlSite w))
   && succeeded (w_close w) && succeeded (w_writeManifest w) = true)
  /\ (forall r m,
        snd run = Returned r m ->
        r = runId /\ m = manifestPath
        /\ exists nodeId stats,
             w_upsertNode w = Ok nodeId
             /\ cr_result (w_crawlSite w) = Ok stats
             /\ fst run
                = [Ev_launch; Ev_newContext; Ev_upsertNode; Ev_crawlSite;
                   Ev_close;
                   Ev_writeRunManifest
                     (mkRunMeta runId true (Some nodeId) stats
                        (cr_capsules (w_crawlSite w))
                        (cr_errors (w_crawlSite w)) manifestPath)
                     true]).
Proof.
  intros run. subst run. unfold job_handler.
  destruct (w_launch w) as [[]|e1]; simpl.
  2:{ split; [split; [intros (r & m & H)|intros H]; discriminate|].
      intros r m H. discriminate. }
  destruct (w_newContext w) as [[]|e2]; simpl.
  2:{ split; [split; [intros (r & m & H)|intros H]; discriminate|].
      intros r m H. discriminate. }
  destruct (w_upsertNode w) as [nodeId|e3]; simpl.
  2:{ match goal with |- context [job_catch w url ?meta ?tr e3] =>
        destruct (job_catch_rejects w url e3 meta tr) as (msg & Hmsg) end.
      rewrite Hmsg.
      split; [split; [intros (r & m & H)|intros H]; discriminate|].
      intros r m H. discriminate. }
  destruct (cr_result (w_crawlSite w)) as [stats|e4]; simpl.
  2:{ match goal with |- context [job_catch w url ?meta ?tr e4] =>
        destruct (job_catch_rejects w url e4 meta tr) as (msg & Hmsg) end.
      rewrite Hmsg.
      split; [split; [intros (r & m & H)|intros H]; discriminate|].
      intros r m H. discriminate. }
  destruct (w_close w) as [[]|e5]; simpl.
  2:{ match goal with |- context [job_catch w url ?meta ?tr e5] =>
        destruct (job_catch_rejects w url e5 meta tr) as (msg & Hmsg) end.
      rewrite Hmsg.
      split; [split; [intros (r & m & H)|intros H]; discriminate|].
      intros r m H. discriminate. }
  destruct (w_writeManifest w) as [[]|e6]; simpl.
  2:{ match goal with |- context [job_catch w url ?meta ?tr e6] =>
        destruct (job_catch_rejects w url e6 meta tr) as (msg & Hmsg) end.
      rewrite Hmsg.
      split; [split; [intros (r & m & H)|intros H]; discriminate|].
      intros r m H. discriminate. }
  split.
  - split; [reflexivity|]. intros _. now exists runId, manifestPath.
  - intros r m [= <- <-]. split; [reflexivity|]. split; [reflexivity|].
    exists nodeId, stats. now repeat split.
Qed.

(* --------------------------------------------------------------------- *)
(** ** A crawl below the page limit is exhaustive                         *)
(* --------------------------------------------------------------------- *)

Lemma nodup_fst_unique {A B : Type} (l : list (A * B)) (a : A) (b b' : B) :
  NoDup (map fst l) -> In (a, b) l -> In (a, b') l -> b = b'.
Proof.
  induction l as [|[x y] l IH]; simpl; intros Hnd H1 H2; [contradiction|].
  inversion Hnd as [|? ? Hx Hl]; subst.
  destruct H1 as [H1|H1]; destruct H2 as [H2|H2].
  - congruence.
  - exfalso. apply Hx. injection H1 as -> _.
    change a with (fst (a, b')). now apply in_map.
  - exfalso. apply Hx. injection H2 as -> _.
    change a with (fst (a, b)). now apply in_map.
  - now apply IH.
Qed.

(** A crawl that ends without reaching the page limit has visited every
    page that same-origin links lead to within the depth cap, each one at
    its shortest link distance from the seed. *)
Theorem crawl_exhaustive (cfg : settings)
        (site : url -> option (list (option url)))
        (origin : jsstring) (baseUrl : url)
        (fuel : nat) (final : frontier) :
  crawl_loop cfg site origin fuel (crawl_start baseUrl) = Some final ->
  (Z.of_nat (List.length (visited final)) < pageLimit cfg)%Z ->
  (forall n u,
      reach cfg site origin baseUrl n u ->
      (Z.of_nat n <= MAX_DEPTH cfg)%Z ->
      exists dv, In (u, dv) (visited final) /\ (dv <= Z.of_nat n)%Z)
  /\ (forall u dv,
        In (u, dv) (visited final) ->
        reach cfg site origin baseUrl (Z.to_nat dv) u
        /\ forall n, reach cfg site origin baseUrl n u ->
                     (dv <= Z.of_nat n)%Z).
Proof.
  intros Hloop Hlim.
  destruct (crawl_loop_inv cfg site origin baseUrl fuel _ _
              (frontier_inv_start cfg site origin baseUrl) Hloop)
    as [I Hstop].
  assert (Hq : q final = []).
  { destruct (crawl_step_none cfg site origin final Hstop) as [H|H];
      [assumption|lia]. }
  pose proof (crawl_complete cfg site origin baseUrl final I Hq) as Hall.
  split; [exact Hall|].
  intros u dv Hin. split.
  - destruct (inv_reach _ _ _ _ _ I (u, dv)) as (n & Hn & Hr).
    { apply in_or_app. now left. }
    simpl in Hn, Hr. rewrite <- Hn, Nat2Z.id. exact Hr.
  - intros n Hr.
    pose proof (inv_cap _ _ _ _ _ I (u, dv) Hin) as Hcap. simpl in Hcap.
    destruct (Z_le_gt_dec (Z.of_nat n) (MAX_DEPTH cfg)) as [Hle|Hgt];
      [|lia].
    destruct (Hall n u Hr Hle) as (dv' & Hin' & Hle').
    rewrite (nodup_fst_unique _ u dv dv' (inv_nodup _ _ _ _ _ I) Hin Hin').
    exact Hle'.
Qed.

Lemma crawl_exhaustive_witness :
  exists dv,
    In (normalizeUrl (chain_link 1), dv)
       [(chain_page 0, 0%Z); (chain_page 1, 1%Z)]
    /\ (dv <= 1)%Z.
Proof.
  refine (proj1 (crawl_exhaustive shallow_settings chain_site chain_origin
                   (chain_page 0) 10
                   (mkFrontier [(chain_page 0, 0%Z); (chain_page 1, 1%Z)] [])
                   _ _) 1 (normalizeUrl (chain_link 1)) _ _).
  - vm_compute. reflexivity.
  - vm_compute. reflexivity.
  - apply (reach_link shallow_settings chain_site chain_origin (chain_page 0)
             0 (chain_page 0) (chain_link 1) [Some (chain_link 1)]).
    + exact (reach_seed shallow_settings chain_site chain_origin
               (chain_page 0)).
    + reflexivity.
    + reflexivity.
    + now left.
    + reflexivity.
  - vm_compute. discriminate.
Defined.
